(** * antigravity-claude-proxy: account pool, upstream client, SSE streamer

    A shallow embedding of the parts of the proxy that its specification
    makes claims about, and of the code around them:

    - [src/account-manager.js]    the account pool ([AccountManager]);
    - [src/cloudcode-client.js]   [parseResetTime], the retry loop of
                                  [sendMessage] with its account acquisition
                                  and its endpoint loop, [streamSSEResponse],
                                  the accumulator of
                                  [parseThinkingSSEResponse];
    - [src/format/request-converter.js]  the generation config, the tool
                                  names and the system instruction of
                                  [convertAnthropicToGoogle];
    - the Express server          [parseError] and the start of a request.

    JavaScript strings are modelled as [string]: one [ascii] per UTF-16 code
    unit, which covers the code units below 256.  JavaScript numbers that the
    modelled code computes are integers (milliseconds, seconds, token counts,
    indices); they are modelled as [Z], with [NaN] added where the code can
    produce it.  [Date.now()] is an explicit clock value. *)

From Stdlib Require Import Ascii String ZArith QArith Qround DecimalString.
From Stdlib Require DecimalPos.
From stdpp Require Import base option list strings gmap.

Local Open Scope Z_scope.

(* ===================================================================== *)
(** ** JavaScript built-ins used by the sources *)
(* ===================================================================== *)

Module JS.

(** A JavaScript number that is an integer or [NaN]. *)
Inductive num : Type :=
  | NaN
  | Num (z : Z).

(** A value that is [null] or a number: [None] is [null]. *)
Definition nullable_num : Type := option num.

(** Truthiness of a number: [0] and [NaN] are falsy. *)
Definition truthy_num (n : num) : bool :=
  match n with
  | NaN => false
  | Num z => negb (z =? 0)
  end.

(** Truthiness of a value that is [null] or a number. *)
Definition truthy (v : nullable_num) : bool :=
  match v with
  | None => false
  | Some n => truthy_num n
  end.

(** Truthiness of a string: only the empty string is falsy. *)
Definition truthy_str (s : string) : bool :=
  match s with
  | EmptyString => false
  | String _ _ => true
  end.

(** Truthiness of a value that is [undefined]/[null] or a string. *)
Definition truthy_ostr (o : option string) : bool :=
  match o with
  | None => false
  | Some s => truthy_str s
  end.

(** [isNaN]. *)
Definition isNaN (n : num) : bool :=
  match n with
  | NaN => true
  | Num _ => false
  end.

(** [a * k] for an integer constant [k]. *)
Definition mul (n : num) (k : Z) : num :=
  match n with
  | NaN => NaN
  | Num z => Num (z * k)
  end.

(** [a + b]. *)
Definition add (a b : num) : num :=
  match a, b with
  | Num x, Num y => Num (x + y)
  | _, _ => NaN
  end.

(** [a - k] for an integer [k]. *)
Definition sub (n : num) (k : Z) : num :=
  match n with
  | NaN => NaN
  | Num z => Num (z - k)
  end.

(** [a > 0]; every comparison with [NaN] is false. *)
Definition gt0 (n : num) : bool :=
  match n with
  | NaN => false
  | Num z => 0 <? z
  end.

Definition code (c : ascii) : nat := nat_of_ascii c.

Definition is_digit (c : ascii) : bool :=
  (48 <=? code c)%nat && (code c <=? 57)%nat.

Definition digit_val (c : ascii) : Z := Z.of_nat (code c - 48).

(** [\w]: ASCII letters, digits and the underscore. *)
Definition is_word (c : ascii) : bool :=
  is_digit c
  || ((65 <=? code c)%nat && (code c <=? 90)%nat)
  || ((97 <=? code c)%nat && (code c <=? 122)%nat)
  || (code c =? 95)%nat.

(** White space and line terminators (the ones below 256): TAB, LF, VT, FF,
    CR, SPACE, NBSP.  This is the set of [\s], of [String.prototype.trim]
    and of the leading blanks that [parseInt] and [parseFloat] skip. *)
Definition is_space (c : ascii) : bool :=
  ((9 <=? code c)%nat && (code c <=? 13)%nat)
  || (code c =? 32)%nat || (code c =? 160)%nat.

(** The upper-case form of an ASCII letter; other code units unchanged.
    This is the canonicalisation of a case-insensitive regular expression
    on the code units that can match an ASCII pattern character. *)
Definition upper (c : ascii) : ascii :=
  if ((97 <=? code c)%nat && (code c <=? 122)%nat)
  then ascii_of_nat (code c - 32) else c.

Fixpoint skip_space (l : list ascii) : list ascii :=
  match l with
  | c :: l' => if is_space c then skip_space l' else l
  | [] => []
  end.

(** The value of the longest prefix of decimal digits, with the number of
    digits read and the remaining input. *)
Fixpoint read_digits (acc : Z) (n : nat) (l : list ascii)
  : Z * nat * list ascii :=
  match l with
  | c :: l' =>
      if is_digit c then read_digits (10 * acc + digit_val c) (S n) l'
      else (acc, n, l)
  | [] => (acc, n, [])
  end.

(** An optional sign. *)
Definition read_sign (l : list ascii) : bool * list ascii :=
  match l with
  | c :: l' =>
      if bool_decide (c = "-"%char) then (true, l')
      else if bool_decide (c = "+"%char) then (false, l')
      else (false, l)
  | [] => (false, [])
  end.

(** [parseInt(s, 10)] on a list of code units: blanks, an optional sign,
    then the longest run of digits; [NaN] when there is no digit. *)
Definition parseInt_list (l : list ascii) : num :=
  let '(neg, l1) := read_sign (skip_space l) in
  let '(v, n, _) := read_digits 0 0 l1 in
  match n with
  | O => NaN
  | S _ => Num (if neg then - v else v)
  end.

Definition parseInt (s : string) : num :=
  parseInt_list (list_ascii_of_string s).

(** A JavaScript number that is a rational or [NaN]. *)
Inductive qnum : Type :=
  | QNaN
  | QNum (q : Q).

(** [parseFloat(s)] on a list of code units, for decimal literals without
    exponent: blanks, an optional sign, digits, an optional point followed by
    digits; [NaN] when neither part has a digit.  The value is kept exact
    (the sources only pass it text matched by [[\d\.]+]). *)
Definition parseFloat_list (l : list ascii) : qnum :=
  let '(neg, l1) := read_sign (skip_space l) in
  let '(ip, ni, l2) := read_digits 0 0 l1 in
  let '(fp, nf) :=
    match l2 with
    | c :: l3 =>
        if bool_decide (c = "."%char)
        then let '(v, n, _) := read_digits 0 0 l3 in (v, n)
        else (0, O)
    | [] => (0, O)
    end in
  match (ni + nf)%nat with
  | O => QNaN
  | S _ =>
      let q := Qmake (ip * 10 ^ Z.of_nat nf + fp) (Z.to_pos (10 ^ Z.of_nat nf)) in
      QNum (if neg then Qopp q else q)
  end.

Definition parseFloat (s : string) : qnum :=
  parseFloat_list (list_ascii_of_string s).

(** [Math.ceil(x * k)] for an integer constant [k]. *)
Definition ceil_mul (x : qnum) (k : Z) : num :=
  match x with
  | QNaN => NaN
  | QNum q => Num (Qceiling (Qmult q (inject_Z k)))
  end.

(** [s.includes(sub)]. *)
Fixpoint includes (s sub : string) : bool :=
  String.prefix sub s
  || match s with
     | EmptyString => false
     | String _ s' => includes s' sub
     end.

(** [String(n)] for an integer. *)
Definition toString (z : Z) : string :=
  NilZero.string_of_int (Z.to_int z).

(** [s.trim().length === 0]. *)
Definition blank (s : string) : bool :=
  forallb is_space (list_ascii_of_string s).

End JS.

(* ===================================================================== *)
(** ** Regular expressions, as the sources' literals use them *)
(* ===================================================================== *)

Module Regex.

(** The constructs that occur in the sources' regular expressions. *)
Inductive re : Type :=
  | Eps                        (* the empty pattern *)
  | Chr (c : ascii)            (* a pattern character *)
  | Cls (f : ascii -> bool)    (* a class or class escape *)
  | Seq (r1 r2 : re)           (* r1 r2 *)
  | Alt (r1 r2 : re)           (* r1|r2 *)
  | Opt (r : re)               (* r?  (greedy) *)
  | Star (r : re)              (* r*  (greedy) *)
  | Grp (i : nat) (r : re)     (* the i-th capturing group *)
  | WordB                      (* \b *)
  | NegLook (r : re).          (* (?!r) *)

(** r+ *)
Definition Plus (r : re) : re := Seq r (Star r).

(** r\{n\} *)
Fixpoint Rep (n : nat) (r : re) : re :=
  match n with
  | O => Eps
  | S n' => Seq r (Rep n' r)
  end.

(** A literal run of pattern characters. *)
Fixpoint Lit (s : string) : re :=
  match s with
  | EmptyString => Eps
  | String c EmptyString => Chr c
  | String c s' => Seq (Chr c) (Lit s')
  end.

(** [[...]]: any of the listed characters. *)
Definition OneOf (s : string) : ascii -> bool :=
  fun c => bool_decide (c ∈ list_ascii_of_string s).

Definition Digit : re := Cls JS.is_digit.
Definition Space : re := Cls JS.is_space.

(** A matcher state: the code unit before the current position (for [\b]),
    the input that is left, and the captures made so far. *)
Record mstate : Type := MState {
  prev : option ascii;
  rest : list ascii;
  caps : gmap nat string
}.

(** The text between two positions of the same input. *)
Definition consumed (from to : list ascii) : string :=
  string_of_list_ascii (take (length from - length to)%nat from).

Definition is_word_at (o : option ascii) : bool :=
  match o with
  | Some c => JS.is_word c
  | None => false
  end.

(** All the ways [r] matches at a position, in the order a backtracking
    matcher tries them.  [ci] is the [i] flag.  An iteration of a
    quantified pattern that consumes nothing is rejected, as in the
    language.  No pattern of the sources has a group under a quantifier, so
    captures are never reset. *)
Fixpoint matches (ci : bool) (r : re) (st : mstate) {struct r} : list mstate :=
  match r with
  | Eps => [st]
  | Chr c =>
      match rest st with
      | x :: l =>
          if (if ci then bool_decide (JS.upper x = JS.upper c)
              else bool_decide (x = c))
          then [MState (Some x) l (caps st)] else []
      | [] => []
      end
  | Cls f =>
      match rest st with
      | x :: l => if f x then [MState (Some x) l (caps st)] else []
      | [] => []
      end
  | Seq r1 r2 => matches ci r1 st ≫= matches ci r2
  | Alt r1 r2 => matches ci r1 st ++ matches ci r2 st
  | Opt r1 =>
      (matches ci r1 st ≫= fun st' =>
         if (length (rest st') <? length (rest st))%nat then [st'] else [])
      ++ [st]
  | Star r1 =>
      (fix star (n : nat) (st : mstate) {struct n} : list mstate :=
         match n with
         | O => [st]
         | S n' =>
             (matches ci r1 st ≫= fun st' =>
                if (length (rest st') <? length (rest st))%nat
                then star n' st' else [])
             ++ [st]
         end) (length (rest st)) st
  | Grp i r1 =>
      (fun st' =>
         MState (prev st') (rest st')
                (<[i := consumed (rest st) (rest st')]> (caps st')))
      <$> matches ci r1 st
  | WordB =>
      if xorb (is_word_at (prev st)) (is_word_at (head (rest st)))
      then [st] else []
  | NegLook r1 =>
      match matches ci r1 st with
      | [] => [st]
      | _ :: _ => []
      end
  end.

(** The leftmost match: the first way to match at the first position that
    has one.  Group 0 is the whole match. *)
Fixpoint search (ci : bool) (r : re) (p : option ascii) (l : list ascii)
  : option (gmap nat string) :=
  match matches ci r (MState p l ∅) with
  | st' :: _ => Some (<[O := consumed l (rest st')]> (caps st'))
  | [] =>
      match l with
      | c :: l' => search ci r (Some c) l'
      | [] => None
      end
  end.

(** [s.match(r)] for a regular expression without the [g] flag. *)
Definition exec (ci : bool) (r : re) (s : string) : option (gmap nat string) :=
  search ci r None (list_ascii_of_string s).

(** *** What the groups of a pattern can hold *)

(** Text made of a non-empty run of code units of the class [f]. *)
Definition run_of (f : ascii -> bool) (w : string) : Prop :=
  ∃ l, w = string_of_list_ascii l ∧ l ≠ [] ∧ Forall (λ c, f c = true) l.

(** Each group of [r] only matches text that satisfies [P]. *)
Fixpoint groups_ok (ci : bool) (P : string -> Prop) (r : re) : Prop :=
  match r with
  | Seq r1 r2 | Alt r1 r2 => groups_ok ci P r1 ∧ groups_ok ci P r2
  | Opt r1 | Star r1 | NegLook r1 => groups_ok ci P r1
  | Grp _ r1 =>
      groups_ok ci P r1 ∧
      ∀ st st', st' ∈ matches ci r1 st -> P (consumed (rest st) (rest st'))
  | _ => True
  end.

(** Every capture satisfies [P]. *)
Definition caps_ok (P : string -> Prop) (c : gmap nat string) : Prop :=
  ∀ i w, c !! i = Some w -> P w.

End Regex.

(* ===================================================================== *)
(** ** src/cloudcode-client.js: the rate-limit parser *)
(* ===================================================================== *)

Module RateLimitParser.
Import JS Regex.

(** The double quote, as a character and as a one-character string. *)
Definition dquote : ascii := "034"%char.
Definition q : string := String dquote EmptyString.

(** The argument [responseOrError]: a [Response] (an object whose
    [headers.get] is a function), an [Error], or anything else. *)
Inductive responseOrError : Type :=
  | Response (headers : gmap string string)
  | Error (message : string)
  | Other.

(** [r1 r2 ... rn] *)
Definition Cat (l : list re) : re := foldr Seq Eps l.

(** [(?:retry[-_]?after[-_]?ms|retryDelay)] *)
Definition retry_key : re :=
  Alt (Cat [Lit "retry"; Opt (Cls (OneOf "-_")); Lit "after";
            Opt (Cls (OneOf "-_")); Lit "ms"])
      (Lit "retryDelay").

(** [[:\s\x22]]: a colon, white space or a double quote (written [\x22]
    in these comments). *)
Definition sep_class : ascii -> bool :=
  fun c => bool_decide (c = ":"%char) || is_space c || bool_decide (c = dquote).

(** [[\d\.]] *)
Definition digit_or_dot : ascii -> bool :=
  fun c => is_digit c || bool_decide (c = "."%char).

(** [[\w.]] *)
Definition word_or_dot : ascii -> bool :=
  fun c => is_word c || bool_decide (c = "."%char).

(** [[\d:.]] *)
Definition digit_colon_dot : ascii -> bool :=
  fun c => is_digit c || bool_decide (c = ":"%char) || bool_decide (c = "."%char).

(** [/(?:retry[-_]?after[-_]?ms|retryDelay)[:\s\x22]+([\d\.]+)(?:s\b|s\x22)/i] *)
Definition re_seconds_precise : re :=
  Cat [retry_key; Plus (Cls sep_class); Grp 1 (Plus (Cls digit_or_dot));
       Alt (Seq (Chr "s") WordB) (Seq (Chr "s") (Chr dquote))].

(** [/(?:retry[-_]?after[-_]?ms|retryDelay)[:\s\x22]+(\d+)(?:\s*ms)?(?![\w.])/i] *)
Definition re_millis : re :=
  Cat [retry_key; Plus (Cls sep_class); Grp 1 (Plus Digit);
       Opt (Seq (Star Space) (Lit "ms")); NegLook (Cls word_or_dot)].

(** [/retry\s+(?:after\s+)?(\d+)\s*(?:sec|s\b)/i] *)
Definition re_retry_seconds : re :=
  Cat [Lit "retry"; Plus Space; Opt (Seq (Lit "after") (Plus Space));
       Grp 1 (Plus Digit); Star Space; Alt (Lit "sec") (Seq (Chr "s") WordB)].

(** [/(\d+)h(\d+)m(\d+)s|(\d+)m(\d+)s|(\d+)s/i] *)
Definition re_duration : re :=
  Alt (Cat [Grp 1 (Plus Digit); Chr "h"; Grp 2 (Plus Digit); Chr "m";
            Grp 3 (Plus Digit); Chr "s"])
      (Alt (Cat [Grp 4 (Plus Digit); Chr "m"; Grp 5 (Plus Digit); Chr "s"])
           (Cat [Grp 6 (Plus Digit); Chr "s"])).

(** [/reset[:\s\x22]+(\d{4}-\d{2}-\d{2}T[\d:.]+Z?)/i] *)
Definition re_iso : re :=
  Cat [Lit "reset"; Plus (Cls sep_class);
       Grp 1 (Cat [Rep 4 Digit; Chr "-"; Rep 2 Digit; Chr "-"; Rep 2 Digit;
                   Chr "T"; Plus (Cls digit_colon_dot); Opt (Chr "Z")])].

(** [parseInt(m[i], 10)]: an unmatched group is [undefined], which parses
    to [NaN]. *)
Definition parseInt_grp (m : gmap nat string) (i : nat) : num :=
  match m !! i with
  | Some w => parseInt w
  | None => NaN
  end.

(** *** Vocabulary for the results of the parser *)

(** A number that is [NaN] or not negative. *)
Definition nn (n : num) : Prop :=
  match n with
  | NaN => True
  | Num z => 0 ≤ z
  end.

(** A result that is [null], [NaN] or a number that is not negative. *)
Definition nonneg (v : nullable_num) : Prop :=
  match v with
  | Some n => nn n
  | None => True
  end.

(** A result that is [null] or strictly positive. *)
Definition null_or_positive (v : nullable_num) : Prop :=
  v = None ∨ ∃ z, v = Some (Num z) ∧ 0 < z.

(** Two values of [resetMs] that the code does not tell apart: the same
    value, or two falsy values. *)
Definition same_or_falsy (x y : nullable_num) : Prop :=
  x = y ∨ (truthy x = false ∧ truthy y = false).

(** The first truthy value of a list of candidates. *)
Fixpoint first_hit (l : list nullable_num) : option nullable_num :=
  match l with
  | [] => None
  | v :: l' => if truthy v then Some v else first_hit l'
  end.

(** A step that leaves a truthy [resetMs] alone and otherwise either
    replaces it by a value of its own or keeps it. *)
Definition guarded (f : nullable_num -> nullable_num) : Prop :=
  ∃ o : option nullable_num,
    ∀ x, f x = if negb (truthy x) then default x o else x.

(** A step that keeps a truthy [resetMs] ... *)
Definition stable (f : nullable_num -> nullable_num) : Prop :=
  ∀ x, truthy x = true -> f x = x.

(** ... and that does not tell apart two falsy ones. *)
Definition respectful (f : nullable_num -> nullable_num) : Prop :=
  ∀ x y, same_or_falsy x y -> same_or_falsy (f x) (f y).

(** The body of the second reference input of the specification: the field
    [retryDelay] with the value [7.5s], both in double quotes. *)
Definition body_retryDelay : string :=
  q +:+ "retryDelay" +:+ q +:+ ":" +:+ q +:+ "7.5s" +:+ q.

Section ParseResetTime.

(** [new Date(s).getTime()]: [NaN] for an invalid date. *)
Variable Date_parse : string -> num.

(** [Date.now()]. *)
Variable now : Z.

(** Lines 62-81: the standard [retry-after] header, integer seconds or an
    HTTP date. *)
Definition check_retry_after (headers : gmap string string)
    (resetMs : nullable_num) : nullable_num :=
  let retryAfter := headers !! "retry-after" in
  if truthy_ostr retryAfter then
    let seconds := parseInt (default "" retryAfter) in
    if negb (isNaN seconds) then Some (mul seconds 1000)
    else
      let date := Date_parse (default "" retryAfter) in
      if negb (isNaN date) then
        let resetMs := sub date now in
        if gt0 resetMs then Some resetMs else None
      else resetMs
  else resetMs.

(** Lines 83-95: [x-ratelimit-reset], a Unix timestamp in seconds. *)
Definition check_ratelimit_reset (headers : gmap string string)
    (resetMs : nullable_num) : nullable_num :=
  if negb (truthy resetMs) then
    let ratelimitReset := headers !! "x-ratelimit-reset" in
    if truthy_ostr ratelimitReset then
      let resetTimestamp := mul (parseInt (default "" ratelimitReset)) 1000 in
      let resetMs := sub resetTimestamp now in
      if gt0 resetMs then Some resetMs else None
    else resetMs
  else resetMs.

(** Lines 97-107: [x-ratelimit-reset-after], seconds. *)
Definition check_reset_after (headers : gmap string string)
    (resetMs : nullable_num) : nullable_num :=
  if negb (truthy resetMs) then
    let resetAfter := headers !! "x-ratelimit-reset-after" in
    if truthy_ostr resetAfter then
      let seconds := parseInt (default "" resetAfter) in
      if negb (isNaN seconds) && gt0 seconds then Some (mul seconds 1000)
      else resetMs
    else resetMs
  else resetMs.

(** Lines 59-108: the header block, entered only for a [Response]. *)
Definition check_headers (responseOrError : responseOrError)
    (resetMs : nullable_num) : nullable_num :=
  match responseOrError with
  | Response headers =>
      check_reset_after headers
        (check_ratelimit_reset headers
           (check_retry_after headers resetMs))
  | _ => resetMs
  end.

(** Lines 114-119: [retryDelay]/[retry-after-ms] as decimal seconds. *)
Definition scan_seconds_precise (msg : string) (resetMs : nullable_num)
    : nullable_num :=
  match exec true re_seconds_precise msg with
  | Some secMatch =>
      match secMatch !! 1%nat with
      | Some g => Some (ceil_mul (parseFloat g) 1000)
      | None => Some NaN
      end
  | None => resetMs
  end.

(** Lines 121-129: the same keys as integer milliseconds. *)
Definition scan_millis (msg : string) (resetMs : nullable_num) : nullable_num :=
  if negb (truthy resetMs) then
    match exec true re_millis msg with
    | Some msMatch => Some (parseInt_grp msMatch 1)
    | None => resetMs
    end
  else resetMs.

(** Lines 131-138: seconds, as in [retry after 60 seconds]. *)
Definition scan_retry_seconds (msg : string) (resetMs : nullable_num)
    : nullable_num :=
  if negb (truthy resetMs) then
    match exec true re_retry_seconds msg with
    | Some secMatch => Some (mul (parseInt_grp secMatch 1) 1000)
    | None => resetMs
    end
  else resetMs.

(** Lines 140-160: a duration [1h23m45s], [23m45s] or [45s]. *)
Definition scan_duration (msg : string) (resetMs : nullable_num) : nullable_num :=
  if negb (truthy resetMs) then
    match exec true re_duration msg with
    | Some durationMatch =>
        if truthy_ostr (durationMatch !! 1%nat) then
          let hours := parseInt_grp durationMatch 1 in
          let minutes := parseInt_grp durationMatch 2 in
          let seconds := parseInt_grp durationMatch 3 in
          Some (mul (add (add (mul hours 3600) (mul minutes 60)) seconds) 1000)
        else if truthy_ostr (durationMatch !! 4%nat) then
          let minutes := parseInt_grp durationMatch 4 in
          let seconds := parseInt_grp durationMatch 5 in
          Some (mul (add (mul minutes 60) seconds) 1000)
        else if truthy_ostr (durationMatch !! 6%nat) then
          Some (mul (parseInt_grp durationMatch 6) 1000)
        else resetMs
    | None => resetMs
    end
  else resetMs.

(** Lines 162-176: an ISO timestamp after [reset]. *)
Definition scan_iso (msg : string) (resetMs : nullable_num) : nullable_num :=
  if negb (truthy resetMs) then
    match exec true re_iso msg with
    | Some isoMatch =>
        let resetTime := Date_parse (default "" (isoMatch !! 1%nat)) in
        if negb (isNaN resetTime) then
          let resetMs := sub resetTime now in
          if gt0 resetMs then Some resetMs else None
        else resetMs
    | None => resetMs
    end
  else resetMs.

(** Line 112: the text that is scanned, [(responseOrError instanceof Error ?
    responseOrError.message : errorText) || '']. *)
Definition scanned_text (responseOrError : responseOrError) (errorText : string)
    : string :=
  match responseOrError with
  | Error message => message
  | _ => errorText
  end.

(** Lines 110-177: the body scan, entered only when no header gave a truthy
    value. *)
Definition scan_body (responseOrError : responseOrError) (errorText : string)
    (resetMs : nullable_num) : nullable_num :=
  if negb (truthy resetMs) then
    let msg := scanned_text responseOrError errorText in
    scan_iso msg
      (scan_duration msg
         (scan_retry_seconds msg
            (scan_millis msg
               (scan_seconds_precise msg resetMs))))
  else resetMs.

(** [parseResetTime(responseOrError, errorText)]. *)
Definition parseResetTime (responseOrError : responseOrError)
    (errorText : string) : nullable_num :=
  let resetMs := None in
  scan_body responseOrError errorText (check_headers responseOrError resetMs).

(** The candidates of the parser, in the order it consults them: the three
    headers of a [Response], then the scan of the text. *)
Definition sources (r : responseOrError) (body : string) : list nullable_num :=
  match r with
  | Response h =>
      [check_retry_after h None;
       check_ratelimit_reset h None;
       check_reset_after h None]
  | _ => []
  end
  ++ [scan_body r body None].

End ParseResetTime.

(** The claim that every result is [null] or strictly positive. *)
Definition always_null_or_positive : Prop :=
  ∀ Date_parse now r body,
    null_or_positive (parseResetTime Date_parse now r body).

End RateLimitParser.

(* ===================================================================== *)
(** ** src/account-manager.js: the account pool *)
(* ===================================================================== *)

Module AccountManager.
Import JS.

(** [formatDuration(ms)]: [1h23m45s], [23m45s] or [45s].  [Math.floor] of a
    quotient is [Z.div]; [%] is the truncated remainder [Z.rem]. *)
Definition formatDuration (ms : Z) : string :=
  let seconds := ms / 1000 in
  let hours := seconds / 3600 in
  let minutes := Z.rem seconds 3600 / 60 in
  let secs := Z.rem seconds 60 in
  if 0 <? hours then
    toString hours +:+ "h" +:+ toString minutes +:+ "m" +:+ toString secs +:+ "s"
  else if 0 <? minutes then
    toString minutes +:+ "m" +:+ toString secs +:+ "s"
  else toString secs +:+ "s".

(** An entry of [#accounts], with the fields the pool reads or writes. *)
Record account : Type := Account {
  email : string;
  source : string;
  isRateLimited : bool;
  rateLimitResetTime : option Z;
  isInvalid : bool;
  invalidReason : option string;
  invalidAt : option Z;
  lastUsed : option Z
}.

Global Instance account_eq_dec : EqDecision account.
Proof. solve_decision. Defined.

Definition set_rateLimit (b : bool) (t : option Z) (a : account) : account :=
  Account (email a) (source a) b t
          (isInvalid a) (invalidReason a) (invalidAt a) (lastUsed a).

Definition set_invalid (reason : string) (at_ : Z) (a : account) : account :=
  Account (email a) (source a) (isRateLimited a) (rateLimitResetTime a)
          true (Some reason) (Some at_) (lastUsed a).

Definition set_lastUsed (t : Z) (a : account) : account :=
  Account (email a) (source a) (isRateLimited a) (rateLimitResetTime a)
          (isInvalid a) (invalidReason a) (invalidAt a) (Some t).

(** The document [saveToDisk] writes: the accounts and the cursor. *)
Record config : Type := Config {
  cfg_accounts : list account;
  cfg_activeIndex : nat
}.

(** The private state of an [AccountManager], and the file it writes:
    [disk] lists the documents written so far, the latest first. *)
Record manager : Type := Manager {
  accounts : list account;
  currentIndex : nat;
  cooldownDurationMs : option Z;     (* #settings.cooldownDurationMs *)
  disk : list config
}.

Definition set_accounts (l : list account) (m : manager) : manager :=
  Manager l (currentIndex m) (cooldownDurationMs m) (disk m).

Definition set_currentIndex (i : nat) (m : manager) : manager :=
  Manager (accounts m) i (cooldownDurationMs m) (disk m).

(** [saveToDisk()]. *)
Definition saveToDisk (m : manager) : manager :=
  Manager (accounts m) (currentIndex m) (cooldownDurationMs m)
          (Config (accounts m) (currentIndex m) :: disk m).

(** [getAccountCount()]. *)
Definition getAccountCount (m : manager) : nat := length (accounts m).

(** [isAllRateLimited()]. *)
Definition isAllRateLimited (m : manager) : bool :=
  if (length (accounts m) =? 0)%nat then true
  else forallb isRateLimited (accounts m).

(** The test of [getAvailableAccounts] and [pickNext]:
    [!acc.isRateLimited && !acc.isInvalid]. *)
Definition usable (acc : account) : bool :=
  negb (isRateLimited acc) && negb (isInvalid acc).

(** [getAvailableAccounts()]. *)
Definition getAvailableAccounts (m : manager) : list account :=
  filter (λ acc, usable acc = true) (accounts m).

(** The test of [clearExpiredLimits]: [account.isRateLimited &&
    account.rateLimitResetTime && account.rateLimitResetTime <= now]. *)
Definition expired (now : Z) (a : account) : bool :=
  isRateLimited a
  && match rateLimitResetTime a with
     | Some t => negb (t =? 0) && (t <=? now)
     | None => false
     end.

(** [clearExpiredLimits()], with the number of limits it cleared. *)
Definition clearExpiredLimits (now : Z) (m : manager) : nat * manager :=
  let cleared := length (filter (λ a, expired now a = true) (accounts m)) in
  let m1 :=
    set_accounts
      ((λ a, if expired now a then set_rateLimit false None a else a)
         <$> accounts m) m in
  (cleared, if (0 <? cleared)%nat then saveToDisk m1 else m1).

(** What [clearExpiredLimits] does to one account. *)
Definition clear_one (now : Z) (a : account) : account :=
  if expired now a then set_rateLimit false None a else a.

(** An account is rate-limited at time [now] when its flag is set and the
    limit has not expired; it is available when it is neither invalid nor
    rate-limited.  The source keeps one rate-limit entry per account, for
    all models, and has no flag that disables an account. *)
Definition rateLimitedAt (now : Z) (a : account) : bool :=
  isRateLimited a && negb (expired now a).

Definition availableAt (now : Z) (a : account) : bool :=
  negb (isInvalid a) && negb (rateLimitedAt now a).

(** The reset time recorded for an email, [None] when the pool has no such
    account or the account has none. *)
Definition resetTimeOf (email_ : string) (m : manager) : option Z :=
  match list_find (λ a, email a = email_) (accounts m) with
  | Some (_, a) => rateLimitResetTime a
  | None => None
  end.

(** The positive wait of an account, if it has one: the time from [now] to
    its reset time. *)
Definition positive_wait (now : Z) (a : account) : option Z :=
  match rateLimitResetTime a with
  | Some t => if negb (t =? 0) && (0 <? t - now) then Some (t - now) else None
  | None => None
  end.

(** [resetAllRateLimits()]. *)
Definition resetAllRateLimits (m : manager) : manager :=
  set_accounts (set_rateLimit false None <$> accounts m) m.

(** The loop of [pickNext], from iteration [i] with [k] iterations left. *)
Fixpoint pickNext_loop (now : Z) (m : manager) (i k : nat)
  : option account * manager :=
  match k with
  | O => (None, m)
  | S k' =>
      let idx := ((currentIndex m + i) mod length (accounts m))%nat in
      match accounts m !! idx with
      | Some account =>
          if usable account then
            let account' := set_lastUsed now account in
            (Some account',
             set_currentIndex ((idx + 1) mod length (accounts m))%nat
               (set_accounts (<[idx := account']> (accounts m)) m))
          else pickNext_loop now m (S i) k'
      | None => (None, m)
      end
  end.

(** [pickNext()]. *)
Definition pickNext (now : Z) (m : manager) : option account * manager :=
  let m1 := (clearExpiredLimits now m).2 in
  let available := getAvailableAccounts m1 in
  if (length available =? 0)%nat then (None, m1)
  else pickNext_loop now m1 0 (length (accounts m1)).

Section Cooldown.

(** The constant [DEFAULT_COOLDOWN_MS] of [constants.js]. *)
Variable DEFAULT_COOLDOWN_MS : Z.

(** [resetMs || this.#settings.cooldownDurationMs || DEFAULT_COOLDOWN_MS]. *)
Definition cooldownMs (resetMs : nullable_num) (m : manager) : Z :=
  match resetMs with
  | Some (Num z) =>
      if negb (z =? 0) then z
      else match cooldownDurationMs m with
           | Some c => if negb (c =? 0) then c else DEFAULT_COOLDOWN_MS
           | None => DEFAULT_COOLDOWN_MS
           end
  | _ =>
      match cooldownDurationMs m with
      | Some c => if negb (c =? 0) then c else DEFAULT_COOLDOWN_MS
      | None => DEFAULT_COOLDOWN_MS
      end
  end.

(** [markRateLimited(email, resetMs)]. *)
Definition markRateLimited (now : Z) (email_ : string) (resetMs : nullable_num)
    (m : manager) : manager :=
  match list_find (λ a, email a = email_) (accounts m) with
  | None => m
  | Some (i, account) =>
      let account' :=
        set_rateLimit true (Some (now + cooldownMs resetMs m)) account in
      saveToDisk (set_accounts (<[i := account']> (accounts m)) m)
  end.

(** [markInvalid(email, reason)]. *)
Definition markInvalid (now : Z) (email_ : string) (reason : string)
    (m : manager) : manager :=
  match list_find (λ a, email a = email_) (accounts m) with
  | None => m
  | Some (i, account) =>
      saveToDisk
        (set_accounts (<[i := set_invalid reason now account]> (accounts m)) m)
  end.

(** The loop of [getMinWaitTimeMs]: [None] is the initial [Infinity]. *)
Definition minWait_step (now : Z) (minWait : option Z) (a : account) : option Z :=
  match rateLimitResetTime a with
  | Some t =>
      if negb (t =? 0) then
        let wait := t - now in
        if (0 <? wait)
           && match minWait with Some w => wait <? w | None => true end
        then Some wait else minWait
      else minWait
  | None => minWait
  end.

(** [getMinWaitTimeMs()]. *)
Definition getMinWaitTimeMs (now : Z) (m : manager) : Z :=
  if negb (isAllRateLimited m) then 0
  else
    match foldl (minWait_step now) None (accounts m) with
    | None => DEFAULT_COOLDOWN_MS
    | Some minWait => minWait
    end.

End Cooldown.

(** The claim that a second mark within the dedup window does not move the
    reset time past the one the first mark set. *)
Definition no_double_cooldown (DEFAULT_COOLDOWN_MS window : Z) : Prop :=
  ∀ now d e r m t1 t2,
    0 ≤ d ≤ window ->
    (∃ a, a ∈ accounts m ∧ email a = e) ->
    resetTimeOf e (markRateLimited DEFAULT_COOLDOWN_MS now e r m) = Some t1 ->
    resetTimeOf e
      (markRateLimited DEFAULT_COOLDOWN_MS (now + d) e r
         (markRateLimited DEFAULT_COOLDOWN_MS now e r m)) = Some t2 ->
    t2 ≤ t1.

End AccountManager.

(* ===================================================================== *)
(** ** src/cloudcode-client.js: acquiring an account in [sendMessage] *)
(* ===================================================================== *)

Module CloudCode.
Import JS AccountManager.

(** What one pass through lines 244-277 of [sendMessage] (and the same
    lines 497-530 of [sendMessageStream]) ends with: an account to use, or a
    thrown [Error] with its message. *)
Inductive acquired : Type :=
  | Use (account : account)
  | Throw (message : string).

(** The result of the pass, with its effects: the calls of [sleep], the
    clock afterwards and the manager afterwards. *)
Record pass : Type := Pass {
  outcome : acquired;
  sleeps : list Z;
  clock_after : Z;
  manager_after : manager
}.

Section Acquire.

Variable DEFAULT_COOLDOWN_MS : Z.

(** [new Date(t).toISOString()]. *)
Variable toISOString : Z -> string.

(** Lines 254-256. *)
Definition msg_too_long (waitMs : Z) (resetTime : string) : string :=
  "RESOURCE_EXHAUSTED: Rate limited. Quota will reset after "
  +:+ formatDuration waitMs +:+ ". Next available: " +:+ resetTime.

(** Lines 267-270. *)
Definition msg_all_limited (count : nat) (waitMs : Z) (resetTime : string)
    : string :=
  "RESOURCE_EXHAUSTED: All " +:+ toString (Z.of_nat count)
  +:+ " accounts rate-limited. " +:+ "quota will reset after "
  +:+ formatDuration waitMs +:+ ". Next available: " +:+ resetTime.

(** Lines 244-277 of [sendMessage]: pick an account; when there is none,
    apply the policy for a pool whose accounts are all rate-limited.
    [clock] is [Date.now()]; it advances only while the pass sleeps, by the
    time slept. *)
Definition acquireAccount (clock : Z) (m : manager) : pass :=
  let '(account, m1) := pickNext clock m in
  match account with
  | Some a => Pass (Use a) [] clock m1
  | None =>
      if isAllRateLimited m1 then
        let waitMs := getMinWaitTimeMs DEFAULT_COOLDOWN_MS clock m1 in
        let resetTime := toISOString (clock + waitMs) in
        if 120000 <? waitMs then
          Pass (Throw (msg_too_long waitMs resetTime)) [] clock m1
        else if (getAccountCount m1 =? 1)%nat then
          let clock' := clock + waitMs in
          let m2 := (clearExpiredLimits clock' m1).2 in
          let '(account, m3) := pickNext clock' m2 in
          match account with
          | Some a => Pass (Use a) [waitMs] clock' m3
          | None => Pass (Throw "No accounts available") [waitMs] clock' m3
          end
        else
          Pass (Throw (msg_all_limited (getAccountCount m1) waitMs resetTime))
               [] clock m1
      else Pass (Throw "No accounts available") [] clock m1
  end.

End Acquire.

End CloudCode.

(* ===================================================================== *)
(** ** The Express server: [parseError] and the start of a request *)
(* ===================================================================== *)

Module Server.
Import JS Regex RateLimitParser AccountManager.

(** [\d+h\d+m\d+s|\d+m\d+s|\d+s] *)
Definition re_hms : re :=
  Alt (Cat [Plus Digit; Chr "h"; Plus Digit; Chr "m"; Plus Digit; Chr "s"])
      (Alt (Cat [Plus Digit; Chr "m"; Plus Digit; Chr "s"])
           (Cat [Plus Digit; Chr "s"])).

(** [/quota will reset after (\d+h\d+m\d+s|\d+m\d+s|\d+s)/i] *)
Definition re_quota_reset : re :=
  Seq (Lit "quota will reset after ") (Grp 1 re_hms).

(** [[^\x22]]: anything but a double quote. *)
Definition not_dquote : ascii -> bool :=
  fun c => negb (bool_decide (c = dquote)).

(** [/\x22model\x22:\s*\x22([^\x22]+)\x22/] *)
Definition re_model : re :=
  Cat [Chr dquote; Lit "model"; Chr dquote; Chr ":"; Star Space; Chr dquote;
       Grp 1 (Plus (Cls not_dquote)); Chr dquote].

(** [/\x22message\x22:\x22([^\x22]+)\x22/] *)
Definition re_message : re :=
  Cat [Chr dquote; Lit "message"; Chr dquote; Chr ":"; Chr dquote;
       Grp 1 (Plus (Cls not_dquote)); Chr dquote].

(** The object [parseError] returns. *)
Record parsed_error : Type := ParsedError {
  errorType : string;
  statusCode : Z;
  errorMessage : string
}.

(** [parseError(error)], as a function of [error.message]. *)
Definition parseError (message : string) : parsed_error :=
  if includes message "401" || includes message "UNAUTHENTICATED" then
    ParsedError "authentication_error" 401
      "Authentication failed. Make sure Antigravity is running with a valid token."
  else if includes message "429" || includes message "RESOURCE_EXHAUSTED"
          || includes message "QUOTA_EXHAUSTED" then
    let resetMatch := exec true re_quota_reset message in
    let modelMatch := exec false re_model message in
    let model :=
      match modelMatch with
      | Some g => default "" (g !! 1%nat)
      | None => "the model"
      end in
    ParsedError "invalid_request_error" 400
      match resetMatch with
      | Some g =>
          "You have exhausted your capacity on " +:+ model
          +:+ ". Quota will reset after " +:+ default "" (g !! 1%nat) +:+ "."
      | None =>
          "You have exhausted your capacity on " +:+ model
          +:+ ". Please wait for your quota to reset."
      end
  else if includes message "invalid_request_error"
          || includes message "INVALID_ARGUMENT" then
    ParsedError "invalid_request_error" 400
      match exec false re_message message with
      | Some g => default "" (g !! 1%nat)
      | None => message
      end
  else if includes message "All endpoints failed" then
    ParsedError "api_error" 503
      "Unable to connect to Claude API. Check that Antigravity is running."
  else if includes message "PERMISSION_DENIED" then
    ParsedError "permission_error" 403
      "Permission denied. Check your Antigravity license."
  else ParsedError "api_error" 500 message.

(** The first statements of the handler of [POST /v1/messages] that touch
    the pool (line 195), once the manager is initialised: the optimistic
    reset of every rate limit. *)
Definition startRequest (m : manager) : manager :=
  resetAllRateLimits m.

(** The first selection of a request that starts at time [now]: the
    [pickNext()] of the first attempt of [sendMessage]. *)
Definition firstSelection (now : Z) (m : manager) : option account * manager :=
  pickNext now (startRequest m).

(** The claim that the start of a request clears only the expired limits:
    an account whose reset time is still ahead stays flagged, and is not the
    one the first selection returns. *)
Definition only_expired_cleared : Prop :=
  ∀ now m a t,
    a ∈ accounts m -> isRateLimited a = true ->
    rateLimitResetTime a = Some t -> now < t ->
    (∀ b, b ∈ accounts (startRequest m) -> email b = email a ->
          isRateLimited b = true)
    ∧ (∀ a', (firstSelection now m).1 = Some a' -> email a' ≠ email a).

End Server.

(* ===================================================================== *)
(** ** src/cloudcode-client.js: [streamSSEResponse] *)
(* ===================================================================== *)

Module Streamer.
Import JS.

(** The field [text] of a part: absent, a string, or a value of another
    type, of which only the truthiness matters. *)
Inductive text_field : Type :=
  | Undefined
  | Str (s : string)
  | NotString (truthy : bool).

(** [part.functionCall], when it is truthy: [id] and [name] as they are,
    [args] as the text [JSON.stringify] gives for it when it is truthy. *)
Record functionCall : Type := FunctionCall {
  fc_id : option string;
  fc_name : option string;
  fc_args : option string
}.

(** An element of [parts].  [BadPart] is an element whose fields cannot be
    read ([null]): reading [part.thought] throws. *)
Inductive part : Type :=
  | BadPart
  | Part (thought : bool)                    (* part.thought === true *)
         (text : text_field)
         (thoughtSignature : option string)
         (fcall : option functionCall).

(** [usageMetadata], when it is truthy. *)
Record usage : Type := Usage {
  promptTokenCount : option Z;
  candidatesTokenCount : option Z
}.

(** What lines 656-668 read from a decoded [data:] line. *)
Record chunk : Type := Chunk {
  usageMetadata : option usage;
  parts : list part;                          (* content.parts || [] *)
  finishReason : option string
}.

(** The blocks and deltas of the Anthropic event stream. *)
Inductive block_type : Type := thinking | text | tool_use.

Global Instance block_type_eq_dec : EqDecision block_type.
Proof. solve_decision. Defined.

Inductive content_block : Type :=
  | thinking_block
  | text_block
  | tool_use_block (id : string) (name : option string).

Inductive delta : Type :=
  | thinking_delta (thinking : text_field)
  | text_delta (text : string)
  | signature_delta (signature : string)
  | input_json_delta (partial_json : string).

(** The events the generator yields. *)
Inductive event : Type :=
  | message_start (id model : string) (input_tokens : Z)
  | content_block_start (index : nat) (b : content_block)
  | content_block_delta (index : nat) (d : delta)
  | content_block_stop (index : nat)
  | message_delta (stop_reason : string) (output_tokens : Z)
  | message_stop.

(** The local variables of the generator. *)
Record state : Type := State {
  hasEmittedStart : bool;
  blockIndex : nat;
  currentBlockType : option block_type;
  currentThinkingSignature : string;
  inputTokens : Z;
  outputTokens : Z;
  stopReason : string;
  buffer : string
}.

Definition initial : state :=
  State false 0 None "" 0 0 "end_turn" "".

(** *** The grammar of the event stream *)

(** A run of complete content blocks with the indices [i], [i+1], ...,
    [j-1]: each is a [content_block_start], any number of
    [content_block_delta]s and a [content_block_stop], all with the index of
    the block. *)
Inductive blocks_from : nat -> list event -> nat -> Prop :=
  | blocks_done i : blocks_from i [] i
  | blocks_more i cb ds evs j :
      blocks_from (S i) evs j ->
      blocks_from i
        (content_block_start i cb ::
           (content_block_delta i <$> ds) ++ content_block_stop i :: evs) j.

(** The grammar of a response: [message_start], complete blocks numbered
    from 0, [message_delta], [message_stop]. *)
Definition sse_grammar (evs : list event) : Prop :=
  ∃ id model input_tokens body n stop_reason output_tokens,
    evs = message_start id model input_tokens
            :: body ++ [message_delta stop_reason output_tokens; message_stop]
    ∧ blocks_from 0 body n.

(** The events yielded after [message_start], while the generator is in an
    iteration: complete blocks, then the open block if there is one. *)
Definition body_inv (body : list event) (st : state) : Prop :=
  ∃ closed opened,
    body = closed ++ opened ∧
    blocks_from 0 closed (blockIndex st) ∧
    match currentBlockType st with
    | None => opened = []
    | Some _ =>
        ∃ cb ds,
          opened = content_block_start (blockIndex st) cb
                     :: (content_block_delta (blockIndex st) <$> ds)
    end.

(** [x || dflt] for a token count. *)
Definition or_count (x : option Z) (dflt : Z) : Z :=
  match x with
  | Some z => if z =? 0 then dflt else z
  | None => dflt
  end.

(** [part.text || ''] *)
Definition or_empty (t : text_field) : text_field :=
  match t with
  | Str EmptyString | Undefined | NotString false => Str ""
  | _ => t
  end.

(** The line feed, and [buffer.split('\n')]. *)
Definition newline : ascii := "010"%char.

Fixpoint split_lines (s : string) : list string :=
  match s with
  | EmptyString => [EmptyString]
  | String c s' =>
      if bool_decide (c = newline) then EmptyString :: split_lines s'
      else match split_lines s' with
           | h :: t => String c h :: t
           | [] => [String c EmptyString]
           end
  end.

(** [s.slice(5)] and [s.trim()]. *)
Definition slice5 (s : string) : string :=
  string_of_list_ascii (drop 5 (list_ascii_of_string s)).

Definition trim (s : string) : string :=
  string_of_list_ascii
    (reverse (skip_space (reverse (skip_space (list_ascii_of_string s))))).

Section Stream.

(** [msg_ + crypto.randomBytes(16).toString('hex')], the [model] argument,
    and the random tool ids, one for each block index. *)
Variable messageId : string.
Variable originalModel : string.
Variable randomToolId : nat -> string.

(** [JSON.parse(jsonText)] followed by the reads of lines 656-668; [None]
    when one of them throws. *)
Variable decode : string -> option chunk.

Definition set_block (i : nat) (b : option block_type) (sig : string)
    (st : state) : state :=
  State (hasEmittedStart st) i b sig
        (inputTokens st) (outputTokens st) (stopReason st) (buffer st).

Definition set_stopReason (r : string) (st : state) : state :=
  State (hasEmittedStart st) (blockIndex st) (currentBlockType st)
        (currentThinkingSignature st) (inputTokens st) (outputTokens st) r
        (buffer st).

(** The [content_block_stop] that closes the open block, if there is one,
    with the index of the next block. *)
Definition close_block (st : state) : list event * nat :=
  match currentBlockType st with
  | Some _ => ([content_block_stop (blockIndex st)], S (blockIndex st))
  | None => ([], blockIndex st)
  end.

(** The [signature_delta] that precedes the close of a thinking block with a
    buffered signature. *)
Definition flush_signature (st : state) : list event :=
  if bool_decide (currentBlockType st = Some thinking)
     && truthy_str (currentThinkingSignature st)
  then [content_block_delta (blockIndex st)
          (signature_delta (currentThinkingSignature st))]
  else [].

(** One iteration of the loop over [parts] (lines 689-792): the events it
    yields and the state after it, or [None] when it throws. *)
Definition process_part (st : state) (p : part) : option (list event * state) :=
  match p with
  | BadPart => None
  | Part true t sig _ =>
      let text_ := or_empty t in
      let signature := default "" sig in
      let '(opening, st1) :=
        if bool_decide (currentBlockType st = Some thinking) then ([], st)
        else
          let '(stop, i) := close_block st in
          (stop ++ [content_block_start i thinking_block],
           set_block i (Some thinking) "" st) in
      let st2 :=
        if truthy_str signature && (50 <=? String.length signature)%nat
        then set_block (blockIndex st1) (currentBlockType st1) signature st1
        else st1 in
      Some (opening
              ++ [content_block_delta (blockIndex st2) (thinking_delta text_)],
            st2)
  | Part false (Str s) _ _ =>
      if negb (truthy_str s) || blank s then Some ([], st)
      else
        let '(opening, st1) :=
          if bool_decide (currentBlockType st = Some text) then ([], st)
          else
            let sigd := flush_signature st in
            let '(stop, i) := close_block st in
            (sigd ++ stop ++ [content_block_start i text_block],
             set_block i (Some text)
               (if bool_decide (currentBlockType st = Some thinking)
                   && truthy_str (currentThinkingSignature st)
                then "" else currentThinkingSignature st) st) in
        Some (opening ++ [content_block_delta (blockIndex st1) (text_delta s)],
              st1)
  | Part false (NotString false) _ _ => Some ([], st)
  | Part false (NotString true) _ _ => None
  | Part false Undefined _ (Some fc) =>
      let sigd := flush_signature st in
      let '(stop, i) := close_block st in
      let st1 :=
        set_stopReason "tool_use"
          (set_block i (Some tool_use)
             (if bool_decide (currentBlockType st = Some thinking)
                 && truthy_str (currentThinkingSignature st)
              then "" else currentThinkingSignature st) st) in
      let toolId :=
        if truthy_ostr (fc_id fc) then default "" (fc_id fc)
        else randomToolId i in
      Some (sigd ++ stop
              ++ [content_block_start i (tool_use_block toolId (fc_name fc));
                  content_block_delta i
                    (input_json_delta (default "{}" (fc_args fc)))],
            st1)
  | Part false Undefined _ None => Some ([], st)
  end.

(** The loop over [parts]; the flag tells whether it ran to its end. *)
Fixpoint process_parts (st : state) (ps : list part)
  : list event * state * bool :=
  match ps with
  | [] => ([], st, true)
  | p :: ps' =>
      match process_part st p with
      | None => ([], st, false)
      | Some (evs, st1) =>
          let '(evs', st2, ok) := process_parts st1 ps' in
          (evs ++ evs', st2, ok)
      end
  end.

(** Lines 795-801. *)
Definition check_finish (c : chunk) (st : state) : state :=
  match finishReason c with
  | Some r =>
      if truthy_str r then
        if bool_decide (r = "MAX_TOKENS") then set_stopReason "max_tokens" st
        else if bool_decide (r = "STOP") then set_stopReason "end_turn" st
        else st
      else st
  | None => st
  end.

(** Lines 658-663. *)
Definition read_usage (c : chunk) (st : state) : state :=
  match usageMetadata c with
  | Some u =>
      State (hasEmittedStart st) (blockIndex st) (currentBlockType st)
            (currentThinkingSignature st)
            (or_count (promptTokenCount u) (inputTokens st))
            (or_count (candidatesTokenCount u) (outputTokens st))
            (stopReason st) (buffer st)
  | None => st
  end.

(** Lines 670-686. *)
Definition emit_start (c : chunk) (st : state) : list event * state :=
  if negb (hasEmittedStart st) && (0 <? length (parts c))%nat then
    ([message_start messageId originalModel (inputTokens st)],
     State true (blockIndex st) (currentBlockType st)
           (currentThinkingSignature st) (inputTokens st) (outputTokens st)
           (stopReason st) (buffer st))
  else ([], st).

(** The body of the loop over [lines] (lines 648-806), for one line. *)
Definition process_line (st : state) (line : string) : list event * state :=
  if negb (String.prefix "data:" line) then ([], st)
  else
    let jsonText := trim (slice5 line) in
    if negb (truthy_str jsonText) then ([], st)
    else
      match decode jsonText with
      | None => ([], st)
      | Some c =>
          let st1 := read_usage c st in
          let '(ev0, st2) := emit_start c st1 in
          let '(evs, st3, ok) := process_parts st2 (parts c) in
          (ev0 ++ evs, if ok then check_finish c st3 else st3)
      end.

Fixpoint process_lines (st : state) (lines : list string)
  : list event * state :=
  match lines with
  | [] => ([], st)
  | l :: lines' =>
      let '(evs, st1) := process_line st l in
      let '(evs', st2) := process_lines st1 lines' in
      (evs ++ evs', st2)
  end.

Definition set_buffer (b : string) (st : state) : state :=
  State (hasEmittedStart st) (blockIndex st) (currentBlockType st)
        (currentThinkingSignature st) (inputTokens st) (outputTokens st)
        (stopReason st) b.

(** One iteration of the read loop (lines 640-807), for one decoded piece
    of the body. *)
Definition process_read (st : state) (value : string) : list event * state :=
  let lines := split_lines (buffer st +:+ value) in
  let buffer' := default "" (last lines) in
  process_lines (set_buffer buffer' st) (removelast lines).

Fixpoint read_loop (st : state) (reads : list string) : list event * state :=
  match reads with
  | [] => ([], st)
  | v :: reads' =>
      let '(evs, st1) := process_read st v in
      let '(evs', st2) := read_loop st1 reads' in
      (evs ++ evs', st2)
  end.

(** The text of the placeholder delta. *)
Definition no_response : string := "[No response received from API]".

(** Lines 809-858: the end of the stream. *)
Definition finish (st : state) : list event :=
  (if negb (hasEmittedStart st) then
     [message_start messageId originalModel (inputTokens st);
      content_block_start 0 text_block;
      content_block_delta 0 (text_delta no_response);
      content_block_stop 0]
   else
     match currentBlockType st with
     | Some _ => flush_signature st ++ [content_block_stop (blockIndex st)]
     | None => []
     end)
  ++ [message_delta (stopReason st) (outputTokens st); message_stop].

(** [streamSSEResponse(response, originalModel)]: the events yielded for a
    body that arrives as the pieces [reads]. *)
Definition streamSSEResponse (reads : list string) : list event :=
  let '(evs, st) := read_loop initial reads in
  evs ++ finish st.

(** The invariant of the read loop: nothing was yielded before
    [message_start], and what follows it satisfies [body_inv]. *)
Definition stream_inv (evs : list event) (st : state) : Prop :=
  if hasEmittedStart st then
    ∃ it body,
      evs = message_start messageId originalModel it :: body ∧ body_inv body st
  else evs = [] ∧ currentBlockType st = None ∧ blockIndex st = 0%nat.

End Stream.

End Streamer.

(* ===================================================================== *)
(** ** src/format/request-converter.js: the generation config *)
(* ===================================================================== *)

Module RequestConverter.

(** The fields of the Anthropic request that the generation config is
    computed from; [None] is [undefined]. *)
Record request : Type := Request {
  model : option string;
  max_tokens : option Z;
  temperature : option Q;
  top_p : option Q;
  top_k : option Z;
  stop_sequences : option (list string);
  budget_tokens : option Z               (* thinking?.budget_tokens *)
}.

(** [generationConfig.thinkingConfig], in its two spellings. *)
Inductive thinkingConfig : Type :=
  | ClaudeThinking (include_thoughts : bool) (thinking_budget : option Z)
  | GeminiThinking (includeThoughts : bool) (thinkingBudget : Z).

(** [googleRequest.generationConfig]. *)
Record generationConfig : Type := GenerationConfig {
  maxOutputTokens : option Z;
  gc_temperature : option Q;
  topP : option Q;
  topK : option Z;
  stopSequences : option (list string);
  gc_thinkingConfig : option thinkingConfig
}.

Definition set_maxOutputTokens (v : option Z) (g : generationConfig)
    : generationConfig :=
  GenerationConfig v (gc_temperature g) (topP g) (topK g) (stopSequences g)
                   (gc_thinkingConfig g).

Definition set_thinkingConfig (t : thinkingConfig) (g : generationConfig)
    : generationConfig :=
  GenerationConfig (maxOutputTokens g) (gc_temperature g) (topP g) (topK g)
                   (stopSequences g) (Some t).

(** Truthiness of a value that is [undefined] or an integer. *)
Definition truthy_int (o : option Z) : bool :=
  match o with
  | Some z => negb (z =? 0)
  | None => false
  end.

Section Convert.

(** [getModelFamily], [isThinkingModel] and [GEMINI_MAX_OUTPUT_TOKENS] of
    [constants.js]. *)
Variable getModelFamily : string -> string.
Variable isThinkingModel : string -> bool.
Variable GEMINI_MAX_OUTPUT_TOKENS : Z.

(** Lines 135-150: the fields copied from the request. *)
Definition copied_config (r : request) : generationConfig :=
  GenerationConfig
    (if truthy_int (max_tokens r) then max_tokens r else None)
    (temperature r) (top_p r) (top_k r)
    (match stop_sequences r with
     | Some l => if (0 <? length l)%nat then Some l else None
     | None => None
     end)
    None.

(** Lines 153-191: the thinking config, and for Claude the adjustment of
    [maxOutputTokens]. *)
Definition thinking_config (r : request) (g : generationConfig)
    : generationConfig :=
  let modelName := default "" (model r) in
  let isClaudeModel := bool_decide (getModelFamily modelName = "claude") in
  let isGeminiModel := bool_decide (getModelFamily modelName = "gemini") in
  if isThinkingModel modelName then
    if isClaudeModel then
      let thinkingBudget := budget_tokens r in
      if truthy_int thinkingBudget then
        let budget := default 0 thinkingBudget in
        let currentMaxTokens := maxOutputTokens g in
        let g1 :=
          if truthy_int currentMaxTokens
             && (default 0 currentMaxTokens <=? budget)
          then set_maxOutputTokens (Some (budget + 8192)) g
          else g in
        set_thinkingConfig (ClaudeThinking true (Some budget)) g1
      else set_thinkingConfig (ClaudeThinking true None) g
    else if isGeminiModel then
      set_thinkingConfig
        (GeminiThinking true
           (if truthy_int (budget_tokens r) then default 0 (budget_tokens r)
            else 16000)) g
    else g
  else g.

(** Lines 230-234: the cap for Gemini models. *)
Definition cap_gemini (r : request) (g : generationConfig) : generationConfig :=
  let modelName := default "" (model r) in
  let isGeminiModel := bool_decide (getModelFamily modelName = "gemini") in
  if isGeminiModel
     && match maxOutputTokens g with
        | Some v => GEMINI_MAX_OUTPUT_TOKENS <? v
        | None => false
        end
  then set_maxOutputTokens (Some GEMINI_MAX_OUTPUT_TOKENS) g
  else g.

(** The [generationConfig] of [convertAnthropicToGoogle(anthropicRequest)];
    the other statements of the function do not write to it. *)
Definition convertAnthropicToGoogle_generationConfig (r : request)
    : generationConfig :=
  cap_gemini r (thinking_config r (copied_config r)).

(** The claim that [max_tokens] is raised to [budget + 8192] when the
    budget does not exceed it, and is passed through otherwise. *)
Definition raises_when_budget_within_max : Prop :=
  ∀ r b mt,
    getModelFamily (default "" (model r)) = "claude" ->
    isThinkingModel (default "" (model r)) = true ->
    budget_tokens r = Some b -> b ≠ 0 ->
    max_tokens r = Some mt -> mt ≠ 0 ->
    maxOutputTokens (convertAnthropicToGoogle_generationConfig r)
    = Some (if b <=? mt then b + 8192 else mt).

End Convert.

End RequestConverter.

(* ===================================================================== *)
(** ** Sample data for the examples below *)
(* ===================================================================== *)

Module Samples.
Import JS AccountManager.

(** An OAuth account with the given rate-limit entry. *)
Definition acct (e : string) (limited : bool) (reset : option Z) (invalid : bool)
    : account :=
  Account e "oauth" limited reset invalid None None None.

(** A manager with the cursor at 0, no settings and nothing written. *)
Definition pool (l : list account) : manager := Manager l 0 None [].

(** Two accounts: the first rate-limited until 5000, the second free. *)
Definition pool_two : manager :=
  pool [acct "a@example.com" true (Some 5000) false;
        acct "b@example.com" false None false].

(** One free account. *)
Definition pool_free : manager :=
  pool [acct "a@example.com" false None false].

(** One account, rate-limited until 100000. *)
Definition pool_limited : manager :=
  pool [acct "a@example.com" true (Some 100000) false].

(** A clock value: 2026-01-01T00:00:00.401Z in milliseconds. *)
Definition clock_sample : Z := 1767225600401.

(** One account, rate-limited until three minutes after [clock_sample]. *)
Definition pool_limited_long : manager :=
  pool [acct "a@example.com" true (Some 1767225780401) false].

(** The rendering of the date 1767225780401, three minutes after
    [clock_sample]; the examples render no other date. *)
Definition iso_sample (t : Z) : string := "2026-01-01T00:03:00.401Z".

(** The message of the RESOURCE_EXHAUSTED error for a wait of three
    minutes that ends at 00:03:00.401. *)
Definition message_401 : string :=
  "RESOURCE_EXHAUSTED: Rate limited. Quota will reset after 3m0s. Next available: 2026-01-01T00:03:00.401Z".

(** A request for a Claude thinking model with a budget of 1000 tokens and
    [max_tokens] of 4096, and one with a budget of 10000. *)
Definition request_budget (b mt : Z) : RequestConverter.request :=
  RequestConverter.Request (Some "claude-sonnet-4-5-thinking") (Some mt)
    None None None None (Some b).

Definition family_claude (name : string) : string := "claude".
Definition thinking_always (name : string) : bool := true.

(** A decoder for the streamer examples: the line [A] holds two thoughts,
    the second with a signature of 50 characters, and a text; the line [B]
    holds the finish reason; nothing else decodes. *)
Definition signature50 : string :=
  "01234567890123456789012345678901234567890123456789".

Definition decode_sample (jsonText : string) : option Streamer.chunk :=
  if bool_decide (jsonText = "A") then
    Some (Streamer.Chunk None
            [Streamer.Part true (Streamer.Str "planning") None None;
             Streamer.Part true (Streamer.Str " more") (Some signature50) None;
             Streamer.Part false (Streamer.Str "answer") None None]
            None)
  else if bool_decide (jsonText = "B") then
    Some (Streamer.Chunk None [] (Some "STOP"))
  else None.

(** No line decodes. *)
Definition decode_none (jsonText : string) : option Streamer.chunk := None.

(** A line of the body, with its line feed. *)
Definition line (s : string) : string :=
  s +:+ String Streamer.newline EmptyString.

(** A source of tool ids that always gives the same one. *)
Definition tool_id_sample (blockIndex : nat) : string := "toolu_0".

(** A date parser that accepts nothing. *)
Definition no_date (s : string) : num := NaN.

End Samples.

(* ===================================================================== *)
(** ** src/account-manager.js: status, repeated selection *)
(* ===================================================================== *)

Module PoolMore.
Import JS AccountManager.

(** [getInvalidAccounts()]. *)
Definition getInvalidAccounts (m : manager) : list account :=
  filter (λ acc, isInvalid acc = true) (accounts m).

(** The counters of the object [getStatus()] returns. *)
Record status : Type := Status {
  st_total : nat;
  st_available : nat;
  st_rateLimited : nat;
  st_invalid : nat;
  st_summary : string
}.

(** [getStatus()], without the list of accounts. *)
Definition getStatus (m : manager) : status :=
  let available := getAvailableAccounts m in
  let rateLimited := filter (λ a, isRateLimited a = true) (accounts m) in
  let invalid := getInvalidAccounts m in
  Status (length (accounts m)) (length available) (length rateLimited)
         (length invalid)
         (toString (Z.of_nat (length (accounts m))) +:+ " total, "
          +:+ toString (Z.of_nat (length available)) +:+ " available, "
          +:+ toString (Z.of_nat (length rateLimited)) +:+ " rate-limited, "
          +:+ toString (Z.of_nat (length invalid)) +:+ " invalid").

(** Successive calls of [pickNext()], one at each of the given times, with
    what each returned. *)
Fixpoint pickMany (times : list Z) (m : manager)
  : list (option account) * manager :=
  match times with
  | [] => ([], m)
  | t :: times' =>
      let '(a, m1) := pickNext t m in
      let '(picked, m2) := pickMany times' m1 in
      (a :: picked, m2)
  end.

End PoolMore.

(* ===================================================================== *)
(** ** src/cloudcode-client.js: the endpoints, one attempt, the retry loop *)
(* ===================================================================== *)

Module ClientLoop.
Import JS RateLimitParser AccountManager CloudCode.

(** The lower-case form of a code unit below 256: the ASCII capitals and
    the capitals of Latin-1 (all of 192..222 but the multiplication
    sign). *)
Definition lower (c : ascii) : ascii :=
  if ((65 <=? code c)%nat && (code c <=? 90)%nat)
     || ((192 <=? code c)%nat && (code c <=? 222)%nat
         && negb (code c =? 215)%nat)
  then ascii_of_nat (code c + 32) else c.

(** [s.toLowerCase()]. *)
Fixpoint toLowerCase (s : string) : string :=
  match s with
  | EmptyString => EmptyString
  | String c s' => String (lower c) (toLowerCase s')
  end.

(** The upper-case form of a code unit below 256, as far as a search for
    ASCII text can see it: the sharp s becomes two capital S; the micro sign
    and the y with diaeresis, whose capitals are code units above 255, are
    kept. *)
Definition upper_units (c : ascii) : string :=
  if (code c =? 223)%nat then "SS"
  else if ((97 <=? code c)%nat && (code c <=? 122)%nat)
          || ((224 <=? code c)%nat && (code c <=? 254)%nat
              && negb (code c =? 247)%nat)
  then String (ascii_of_nat (code c - 32)) EmptyString
  else String c EmptyString.

(** [s.toUpperCase()]. *)
Fixpoint toUpperCase (s : string) : string :=
  match s with
  | EmptyString => EmptyString
  | String c s' => upper_units c +:+ toUpperCase s'
  end.

(** [is429Error(error)], as a function of [error.message || '']. *)
Definition is429Error (message : string) : bool :=
  let msg := toLowerCase message in
  includes msg "429" || includes msg "resource_exhausted"
  || includes msg "quota_exhausted" || includes msg "rate limit".

(** [isAuthInvalidError(error)], as a function of [error.message || '']. *)
Definition isAuthInvalidError (message : string) : bool :=
  let msg := toUpperCase message in
  includes msg "AUTH_INVALID" || includes msg "INVALID_GRANT"
  || includes msg "TOKEN REFRESH FAILED".

Section Attempt.

(** The type of what a successful request returns (the converted
    response). *)
Variable R : Type.

(** What reading the body of an accepted response gives: the converted
    response, or a thrown error. *)
Inductive decoded : Type :=
  | Decoded (r : R)
  | DecodeThrows (message : string).

(** A response of an endpoint: its status, its headers, the text of its
    body, and what reading it as a result gives. *)
Record response : Type := HttpResponse {
  status : Z;
  headers : gmap string string;
  text : string;
  body : decoded
}.

(** [response.ok]. *)
Definition ok (resp : response) : bool :=
  (200 <=? status resp) && (status resp <=? 299).

(** What [fetch] gives for an endpoint: a response, or a rejection. *)
Inductive fetched : Type :=
  | Responded (resp : response)
  | Rejected (message : string).

(** The variable [lastError]: the record of a 429 response, or an
    [Error]. *)
Inductive lastError : Type :=
  | Is429 (errorText : string) (resetMs : nullable_num)
  | Err (message : string).

(** How the loop over the endpoints ends: with a returned result, with
    an error thrown out of it, or after the last endpoint. *)
Inductive loop_end : Type :=
  | Returned (r : R)
  | Rethrown (message : string)
  | Exhausted (last : option lastError).

Variable DEFAULT_COOLDOWN_MS : Z.
Variable Date_parse : string -> num.

(** [a < b] for truthy numbers. *)
Definition num_lt (a b : nullable_num) : bool :=
  match a, b with
  | Some (Num x), Some (Num y) => x <? y
  | _, _ => false
  end.

(** Lines 316-320: the record of a 429 response replaces [lastError]
    unless that is already the record of a 429 response with a reset that
    is at most the new one. *)
Definition note429 (last : option lastError) (errorText : string)
    (resetMs : nullable_num) : option lastError :=
  let replace :=
    match last with
    | Some (Is429 _ lastReset) =>
        truthy resetMs && (negb (truthy lastReset) || num_lt resetMs lastReset)
    | _ => true
    end in
  if replace then Some (Is429 errorText resetMs) else last.

(** Lines 340-346: the [catch] of the loop body. *)
Definition endpoint_catch (message : string) (last : option lastError)
    : loop_end + option lastError :=
  if is429Error message then inl (Rethrown message)
  else inr (Some (Err message)).

(** Lines 289-347 of [sendMessage]: the loop over the endpoints, given
    what each [fetch] gives, in the order of the endpoints.  The clock reads
    [now] throughout.  The second component counts the times the token and
    project caches of the account were cleared. *)
Fixpoint endpoints (now : Z) (results : list fetched)
    (last : option lastError) (cleared : nat) : loop_end * nat :=
  match results with
  | [] => (Exhausted last, cleared)
  | Rejected message :: rest =>
      match endpoint_catch message last with
      | inl e => (e, cleared)
      | inr last' => endpoints now rest last' cleared
      end
  | Responded resp :: rest =>
      let read :=
        match body resp with
        | Decoded r => (Returned r, cleared)
        | DecodeThrows message =>
            match endpoint_catch message last with
            | inl e => (e, cleared)
            | inr last' => endpoints now rest last' cleared
            end
        end in
      if negb (ok resp) then
        if status resp =? 401 then endpoints now rest last (S cleared)
        else if status resp =? 429 then
          let resetMs :=
            parseResetTime Date_parse now (Response (headers resp)) (text resp) in
          endpoints now rest (note429 last (text resp) resetMs) cleared
        else if 400 <=? status resp then
          endpoints now rest
            (Some (Err ("API error " +:+ toString (status resp) +:+ ": "
                        +:+ text resp))) cleared
        else read
      else read
  end.

(** How an attempt ends: with a result, with the next attempt, or with an
    error thrown out of [sendMessage]. *)
Inductive attempt_end : Type :=
  | Done (r : R)
  | NextAttempt
  | Fatal (message : string).

(** Lines 360-373: the [catch] of an attempt. *)
Definition attempt_catch (message : string) : attempt_end :=
  if is429Error message then NextAttempt
  else if isAuthInvalidError message then NextAttempt
  else Fatal message.

(** Lines 287-373: what follows the credentials in an attempt with the
    account [email_]: the loop over the endpoints, the mark of the account
    when [lastError] is the record of a 429 response, and the [catch]. *)
Definition attempt (now : Z) (email_ : string) (results : list fetched)
    (m : manager) : attempt_end * manager * nat :=
  let '(e, cleared) := endpoints now results None 0 in
  match e with
  | Returned r => (Done r, m, cleared)
  | Rethrown message => (attempt_catch message, m, cleared)
  | Exhausted (Some (Is429 errorText resetMs)) =>
      (attempt_catch ("Rate limited: " +:+ errorText),
       markRateLimited DEFAULT_COOLDOWN_MS now email_ resetMs m, cleared)
  | Exhausted (Some (Err message)) => (attempt_catch message, m, cleared)
  | Exhausted None => (NextAttempt, m, cleared)
  end.

(** The resets that the 429 responses of a list carry. *)
Definition resets (now : Z) (results : list fetched) : list nullable_num :=
  omap (λ f, match f with
             | Responded resp =>
                 if status resp =? 429 then
                   Some (parseResetTime Date_parse now
                           (Response (headers resp)) (text resp))
                 else None
             | Rejected _ => None
             end) results.

(** Every [fetch] gave a response with status 429. *)
Definition all429 (results : list fetched) : Prop :=
  Forall (λ f, match f with
               | Responded resp => status resp = 429
               | Rejected _ => False
               end) results.

(** A [fetch] after which the loop goes on to the next endpoint: a response
    with a status from 400 on, or a failure whose message [is429Error] does
    not recognise. *)
Definition failed (f : fetched) : Prop :=
  match f with
  | Responded resp => 400 ≤ status resp
  | Rejected message => is429Error message = false
  end.

(** What [sendMessage] ends with: the converted response, or a thrown
    [Error] with its message. *)
Inductive sent : Type :=
  | Success (r : R)
  | Failure (message : string).

(** A call of [sendMessage] with its effects: the emails of the accounts it
    tried, in order, the calls of [sleep], the clock and the manager
    afterwards. *)
Record run : Type := Run {
  result : sent;
  tried : list string;
  slept : list Z;
  clock_end : Z;
  manager_end : manager
}.

Variable toISOString : Z -> string.

(** The constant [MAX_RETRIES] of [constants.js]. *)
Variable MAX_RETRIES : nat.

(** [getTokenForAccount] followed by [getProjectForAccount], in the attempt
    with the given number: the message of the error they throw, if any, and
    the manager afterwards. *)
Variable credentials : nat -> account -> manager -> option string * manager.

(** What the endpoints answer in the attempt with the given number, sent
    for the given account. *)
Variable fetchAll : nat -> account -> list fetched.

(** Lines 242-376 of [sendMessage]: the loop over the attempts, with
    [fuel] attempts left.  The clock advances only while the loop sleeps. *)
Fixpoint attempts (fuel attempt_no : nat) (clock : Z) (m : manager) : run :=
  match fuel with
  | O => Run (Failure "Max retries exceeded") [] [] clock m
  | S fuel' =>
      let p := acquireAccount DEFAULT_COOLDOWN_MS toISOString clock m in
      match outcome p with
      | Throw message =>
          Run (Failure message) [] (sleeps p) (clock_after p) (manager_after p)
      | Use a =>
          let '(thrown, m1) := credentials attempt_no a (manager_after p) in
          let '(e, m2) :=
            match thrown with
            | Some message => (attempt_catch message, m1)
            | None =>
                (attempt (clock_after p) (email a) (fetchAll attempt_no a) m1).1
            end in
          match e with
          | Done r =>
              Run (Success r) [email a] (sleeps p) (clock_after p) m2
          | Fatal message =>
              Run (Failure message) [email a] (sleeps p) (clock_after p) m2
          | NextAttempt =>
              let r := attempts fuel' (S attempt_no) (clock_after p) m2 in
              Run (result r) (email a :: tried r) (sleeps p ++ slept r)
                  (clock_end r) (manager_end r)
          end
      end
  end.

(** [sendMessage(anthropicRequest, accountManager)]. *)
Definition sendMessage (clock : Z) (m : manager) : run :=
  attempts (Nat.max MAX_RETRIES (getAccountCount m + 1)) 0 clock m.

End Attempt.

Arguments Decoded {R} r.
Arguments DecodeThrows {R} message.
Arguments HttpResponse {R} status headers text body.
Arguments status {R} r.
Arguments headers {R} r.
Arguments text {R} r.
Arguments body {R} r.
Arguments ok {R} resp.
Arguments Responded {R} resp.
Arguments Rejected {R} message.
Arguments Returned {R} r.
Arguments Rethrown {R} message.
Arguments Exhausted {R} last.
Arguments Done {R} r.
Arguments NextAttempt {R}.
Arguments Fatal {R} message.
Arguments Success {R} r.
Arguments Failure {R} message.
Arguments Run {R} result tried slept clock_end manager_end.
Arguments result {R} r.
Arguments tried {R} r.
Arguments slept {R} r.
Arguments clock_end {R} r.
Arguments manager_end {R} r.
Arguments all429 {R} results.
Arguments failed {R} f.
Arguments attempt_catch {R} message.

(** *** Notions for the statements about the loop *)

(** The reset that [lastError] holds, if it is the record of a 429
    response, is among the resets [L]. *)
Definition last_in (L : list nullable_num) (last : option lastError) : Prop :=
  ∀ t r, last = Some (Is429 t r) → r ∈ L.

(** [lastError] holds the least truthy reset of [L], or the first reset of
    [L] when none is truthy. *)
Definition last_min (L : list nullable_num) (last : option lastError) : Prop :=
  ∃ t r, last = Some (Is429 t r) ∧ r ∈ L ∧
         ∀ y, Some (Num y) ∈ L → y ≠ 0 →
              ∃ x, r = Some (Num x) ∧ x ≠ 0 ∧ x ≤ y.

(** The endpoints answer 429 in the attempt [i], whatever the account, with
    resets that are not negative. *)
Definition exhausted_at {R} (Date_parse : string → num)
    (fetchAll : nat → account → list (fetched R)) (clock : Z) (i : nat)
    : Prop :=
  ∀ a, fetchAll i a ≠ [] ∧ all429 (fetchAll i a) ∧
       ∀ y, Some (Num y) ∈ resets R Date_parse clock (fetchAll i a) → 0 ≤ y.

(** In the attempt [i] an endpoint accepts, after endpoints that failed,
    and its body converts to [res]. *)
Definition accepted_at {R} (fetchAll : nat → account → list (fetched R))
    (i : nat) (res : R) : Prop :=
  ∀ a, ∃ bad resp rest,
    fetchAll i a = bad ++ Responded resp :: rest ∧
    Forall failed bad ∧ ok resp = true ∧ body resp = Decoded res.

(** The position of the i-th account in cyclic order from the cursor. *)
Definition position (m0 : manager) (i : nat) : nat :=
  ((currentIndex m0 + i) mod length (accounts m0))%nat.

(** The email of the i-th account in cyclic order from the cursor. *)
Definition email_at (m0 : manager) (i : nat) : string :=
  match accounts m0 !! position m0 i with
  | Some a => email a
  | None => EmptyString
  end.

(** The manager after [j] attempts from [m0] that ended with a mark: the
    first [j] accounts in cyclic order are rate-limited until a time after
    [clock], the others are as they were, the cursor is on the next
    account. *)
Definition state_after (clock : Z) (m0 : manager) (j : nat) (m : manager)
    : Prop :=
  length (accounts m) = length (accounts m0)
  ∧ email <$> accounts m = email <$> accounts m0
  ∧ cooldownDurationMs m = cooldownDurationMs m0
  ∧ (currentIndex m mod length (accounts m0))%nat = position m0 j
  ∧ ∀ i a0, (i < length (accounts m0))%nat →
      accounts m0 !! position m0 i = Some a0 →
      if (i <? j)%nat
      then ∃ t, accounts m !! position m0 i
                = Some (set_rateLimit true (Some t) (set_lastUsed clock a0))
                ∧ clock < t
      else accounts m !! position m0 i = Some a0.

(** A run with more emails in front of the ones it tried. *)
Definition after {R} (es : list string) (r : run R) : run R :=
  Run (result r) (es ++ tried r) (slept r) (clock_end r) (manager_end r).

(** A run with more emails and more sleeps in front of its own. *)
Definition after_sleeping {R} (es : list string) (ws : list Z) (r : run R)
    : run R :=
  Run (result r) (es ++ tried r) (ws ++ slept r) (clock_end r) (manager_end r).

(** The manager of a single account that is rate-limited at [clock], until
    a time at most two minutes ahead. *)
Definition single_waiting (clock : Z) (m0 m : manager) : Prop :=
  ∃ a t,
    accounts m = [a] ∧ email <$> accounts m = email <$> accounts m0
    ∧ cooldownDurationMs m = cooldownDurationMs m0
    ∧ isInvalid a = false ∧ isRateLimited a = true
    ∧ rateLimitResetTime a = Some t ∧ clock < t ≤ clock + 120000.

(** The resets that the endpoints send are at most two minutes, at every
    attempt and time. *)
Definition resets_within {R} (Date_parse : string → num)
    (fetchAll : nat → account → list (fetched R)) : Prop :=
  ∀ i clock a y,
    Some (Num y) ∈ resets R Date_parse clock (fetchAll i a) → y ≤ 120000.

End ClientLoop.

(* ===================================================================== *)
(** ** Notions for the statements about text *)
(* ===================================================================== *)

Module Text.
Import JS Regex.

(** The input does not go on with a digit. *)
Definition no_digit_ahead (l : list ascii) : Prop :=
  match l with
  | c :: _ => is_digit c = false
  | [] => True
  end.

(** The test of a pattern character [c] against the code unit [x]. *)
Definition chr_eq (ci : bool) (x c : ascii) : bool :=
  if ci then bool_decide (upper x = upper c) else bool_decide (x = c).

(** A pattern that matches nothing where the input goes on with a code unit
    of the class [f]. *)
Definition rejects (ci : bool) (f : ascii → bool) (r : re) : Prop :=
  ∀ p c l caps, f c = true → matches ci r (MState p (c :: l) caps) = [].

(** A pattern that matches nothing at the end of the input. *)
Definition rejects_end (ci : bool) (r : re) : Prop :=
  ∀ p caps, matches ci r (MState p [] caps) = [].

End Text.


(* ===================================================================== *)
(** ** Notions for the statements about the event stream *)
(* ===================================================================== *)

Module StreamText.
Import JS Streamer.

(** The texts of the [text_delta] events, in order. *)
Definition text_deltas (evs : list event) : list string :=
  omap (λ e, match e with
             | content_block_delta _ (text_delta s) => Some s
             | _ => None
             end) evs.

(** The parts on which the loop over [parts] throws. *)
Definition throws (p : part) : bool :=
  match p with
  | BadPart | Part false (NotString true) _ _ => true
  | _ => false
  end.

(** The text that a part shows: that of a part that is not a thought and
    whose [text] is a string that is not blank. *)
Definition shown_text (p : part) : list string :=
  match p with
  | Part false (Str s) _ _ =>
      if negb (truthy_str s) || blank s then [] else [s]
  | _ => []
  end.

(** The texts that the parts of a chunk show, up to the first part on which
    the loop throws. *)
Fixpoint texts_of (ps : list part) : list string :=
  match ps with
  | [] => []
  | p :: ps' => if throws p then [] else shown_text p ++ texts_of ps'
  end.

(** The chunk that a line carries, if it is a [data:] line with text that
    decodes. *)
Definition chunk_of (decode : string → option chunk) (line : string)
    : option chunk :=
  if negb (String.prefix "data:" line) then None
  else
    let jsonText := trim (slice5 line) in
    if negb (truthy_str jsonText) then None else decode jsonText.

(** The chunks of a body: those of its lines, the text after the last line
    feed left out. *)
Definition chunks_of (decode : string → option chunk) (body : string)
    : list chunk :=
  omap (chunk_of decode) (removelast (split_lines body)).

(** The parts that are function calls for the loop over [parts]: not a
    thought, no [text], a truthy [functionCall]. *)
Definition is_call (p : part) : bool :=
  match p with
  | Part false Undefined _ (Some _) => true
  | _ => false
  end.

(** The stop reasons of the [message_delta] events, in order. *)
Definition stop_reasons (evs : list event) : list string :=
  omap (λ e, match e with
             | message_delta r _ => Some r
             | _ => None
             end) evs.

(** The body that a list of reads adds up to. *)
Definition concat_reads (reads : list string) : string :=
  foldr String.append EmptyString reads.

(** Text without a line feed. *)
Definition no_newline (s : string) : Prop :=
  Forall (λ c, c ≠ newline) (list_ascii_of_string s).

End StreamText.

(* ===================================================================== *)
(** ** src/format/request-converter.js: tool names and the system
       instruction; the request that the server builds *)
(* ===================================================================== *)

Module RequestMore.
Import JS RequestConverter.

(** [[a-zA-Z0-9_-]] *)
Definition name_char (c : ascii) : bool :=
  is_word c || bool_decide (c = "-"%char).

(** Line 220: [name.replace(/[^a-zA-Z0-9_-]/g, '_').slice(0, 64)], for a
    name that is a string. *)
Definition sanitize_name (name : string) : string :=
  string_of_list_ascii
    (take 64 ((λ c, if name_char c then c else "_"%char)
              <$> list_ascii_of_string name)).

(** The places where a tool can carry its name: [tool.name],
    [tool.function?.name], [tool.custom?.name]; [None] is [undefined]. *)
Record tool : Type := Tool {
  tool_name : option string;
  function_name : option string;
  custom_name : option string
}.

(** Line 197: the first truthy name, or [tool-<idx>]. *)
Definition pick_name (t : tool) (idx : nat) : string :=
  if truthy_ostr (tool_name t) then default "" (tool_name t)
  else if truthy_ostr (function_name t) then default "" (function_name t)
  else if truthy_ostr (custom_name t) then default "" (custom_name t)
  else "tool-" +:+ toString (Z.of_nat idx).

(** The [name] of the function declaration of the tool at index [idx]. *)
Definition declared_name (t : tool) (idx : nat) : string :=
  sanitize_name (pick_name t idx).

(** The names of [functionDeclarations] (lines 195-224). *)
Definition declared_names (tools : list tool) : list string :=
  imap (λ idx t, declared_name t idx) tools.

(** A name that the declaration can carry as it is. *)
Definition valid_name (s : string) : Prop :=
  (String.length s ≤ 64)%nat
  ∧ Forall (λ c, name_char c = true) (list_ascii_of_string s).

(** *** The system instruction *)

(** A block of an array [system]: its [type] and its [text]. *)
Record block : Type := Block {
  block_type : option string;
  block_text : option string
}.

(** The field [system] of the request: falsy, a string that is not empty,
    an array of blocks, or another truthy value. *)
Inductive system : Type :=
  | SysFalsy
  | SysString (s : string)
  | SysBlocks (blocks : list block)
  | SysOther.

(** Lines 47-64: [googleRequest.systemInstruction], as the texts of its
    parts; [None] when it is not set.  The text of a part is [undefined]
    when the block it comes from has no text. *)
Definition system_parts (sys : system) : option (list (option string)) :=
  let systemParts :=
    match sys with
    | SysString s => [Some s]
    | SysBlocks blocks =>
        block_text <$> filter (λ b, block_type b = Some "text") blocks
    | _ => []
    end in
  if (0 <? length systemParts)%nat then Some systemParts else None.

(** The hint of line 68. *)
Definition hint : string :=
  "Interleaved thinking is enabled. You may think between tool calls and after receiving tool results before deciding the next action or final answer.".

Definition two_newlines : string :=
  String "010" (String "010" EmptyString).

(** Lines 69-78: the hint is appended to the text of the last part when
    that text is truthy, and added as a part of its own otherwise. *)
Definition add_hint (si : option (list (option string)))
    : option (list (option string)) :=
  match si with
  | None => Some [Some hint]
  | Some parts =>
      match last parts with
      | Some (Some t) =>
          if truthy_str t
          then Some (removelast parts ++ [Some (t +:+ two_newlines +:+ hint)])
          else Some (parts ++ [Some hint])
      | _ => Some (parts ++ [Some hint])
      end
  end.

Section System.

Variable getModelFamily : string → string.
Variable isThinkingModel : string → bool.

(** Lines 46-79: the system instruction of the request for the model
    [modelName], with [has_tools] for [tools && tools.length > 0]. *)
Definition systemInstruction (modelName : string) (sys : system)
    (has_tools : bool) : option (list (option string)) :=
  let si := system_parts sys in
  if bool_decide (getModelFamily modelName = "claude")
     && isThinkingModel modelName && has_tools
  then add_hint si else si.

End System.

(** The texts of the parts of a system instruction, in one string. *)
Definition system_text (si : option (list (option string))) : string :=
  foldr (λ p acc, default "" p +:+ acc) EmptyString (default [] si).

(** *** The request of the server *)

(** The fields of the body of [POST /v1/messages] that the handler or the
    converter read, and [stop_sequences], which neither reads. *)
Record body : Type := Body {
  b_model : option string;
  b_max_tokens : option Z;
  b_temperature : option Q;
  b_top_p : option Q;
  b_top_k : option Z;
  b_stop_sequences : option (list string);
  b_budget_tokens : option Z
}.

(** Lines 223-235 of the server: the request object the handler passes to
    [sendMessage].  It has no [stop_sequences]. *)
Definition build_request (b : body) : request :=
  Request
    (Some (if truthy_ostr (b_model b) then default "" (b_model b)
           else "claude-3-5-sonnet-20241022"))
    (Some (if truthy_int (b_max_tokens b) then default 0 (b_max_tokens b)
           else 4096))
    (b_temperature b) (b_top_p b) (b_top_k b) None (b_budget_tokens b).

End RequestMore.

(* ===================================================================== *)
(** ** The accumulator of [parseThinkingSSEResponse] *)
(* ===================================================================== *)

(** [parseThinkingSSEResponse] (cloudcode-client.js, lines 382-478) reads
    the body of an SSE response line by line, as [streamSSEResponse] does,
    and accumulates the parts of its chunks into [finalParts].  The model
    ends with [accumulatedResponse], the argument of the call of
    [convertGoogleToAnthropic]. *)

Module ThinkingParser.
Import JS.

(** The field [text] of a part, as the accumulator reads it: whether it is
    [undefined], whether it is truthy, and the string that [+=] appends for
    a truthy value (the value itself when it is a string), unless the
    conversion to a string throws. *)
Inductive text_value : Type :=
  | Absent                      (* undefined *)
  | Falsy                       (* the empty string, null, false, 0 *)
  | Shown (s : string)          (* truthy; [+=] appends [s] *)
  | Unshowable.                 (* truthy; the conversion throws *)

(** An element of [parts] whose fields can be read.  [thoughtSignature] is
    a string or absent. *)
Record part : Type := Part {
  thought : bool;                               (* part.thought === true *)
  text : text_value;
  thoughtSignature : option string;
  functionCall : option Streamer.functionCall   (* when it is truthy *)
}.

(** An element of [parts]; reading a field of [null] throws. *)
Inductive element : Type :=
  | Null
  | Elem (p : part).

(** The elements of [finalParts]: the two objects that the flushes push,
    and a part with a function call, pushed as it is. *)
Inductive final_part : Type :=
  | thought_part (text : string) (thoughtSignature : string)
  | text_part (text : string)
  | pushed (p : part).

Section Parse.

(** The type of [usageMetadata] when it is truthy. *)
Context {U : Type}.

(** What lines 425-439 read from a decoded [data:] line: the truthy
    [usageMetadata], the [finishReason] of the first candidate, and its
    [content?.parts || []], which is [None] when it cannot be iterated. *)
Record chunk : Type := Chunk {
  chunk_usageMetadata : option U;
  chunk_finishReason : option string;
  chunk_parts : option (list element)
}.

(** [JSON.parse(jsonText)] and [data.response || data]; [None] when one of
    them throws. *)
Variable decode : string → option chunk.

(** The local variables of the function. *)
Record state : Type := State {
  accumulatedThinkingText : string;
  accumulatedThinkingSignature : string;
  accumulatedText : string;
  finalParts : list final_part;
  usageMetadata : option U;                     (* [None] is [{}] *)
  finishReason : string
}.

Definition initial : state := State "" "" "" [] None "STOP".

Definition flushThinking (st : state) : state :=
  if truthy_str (accumulatedThinkingText st) then
    State "" "" (accumulatedText st)
          (finalParts st
             ++ [thought_part (accumulatedThinkingText st)
                              (accumulatedThinkingSignature st)])
          (usageMetadata st) (finishReason st)
  else st.

Definition flushText (st : state) : state :=
  if truthy_str (accumulatedText st) then
    State (accumulatedThinkingText st) (accumulatedThinkingSignature st) ""
          (finalParts st ++ [text_part (accumulatedText st)])
          (usageMetadata st) (finishReason st)
  else st.

Definition add_thinking (s : string) (st : state) : state :=
  State (accumulatedThinkingText st +:+ s) (accumulatedThinkingSignature st)
        (accumulatedText st) (finalParts st) (usageMetadata st)
        (finishReason st).

Definition set_signature (sig : string) (st : state) : state :=
  State (accumulatedThinkingText st) sig (accumulatedText st) (finalParts st)
        (usageMetadata st) (finishReason st).

Definition add_text (s : string) (st : state) : state :=
  State (accumulatedThinkingText st) (accumulatedThinkingSignature st)
        (accumulatedText st +:+ s) (finalParts st) (usageMetadata st)
        (finishReason st).

Definition push (p : final_part) (st : state) : state :=
  State (accumulatedThinkingText st) (accumulatedThinkingSignature st)
        (accumulatedText st) (finalParts st ++ [p]) (usageMetadata st)
        (finishReason st).

(** One iteration of the loop over [parts] (lines 442-457): the state after
    it, and whether it ended without throwing.  What it did before it threw
    stays. *)
Definition process_part (st : state) (e : element) : state * bool :=
  match e with
  | Null => (st, false)
  | Elem p =>
      if thought p then
        let st1 := flushText st in
        match text p with
        | Unshowable => (st1, false)
        | t =>
            let st2 :=
              add_thinking (match t with Shown s => s | _ => "" end) st1 in
            (if truthy_ostr (thoughtSignature p)
             then set_signature (default "" (thoughtSignature p)) st2
             else st2, true)
        end
      else if bool_decide (is_Some (functionCall p)) then
        (push (pushed p) (flushText (flushThinking st)), true)
      else
        match text p with
        | Absent | Falsy => (st, true)
        | Shown s => (add_text s (flushThinking st), true)
        | Unshowable => (flushThinking st, false)
        end
  end.

(** The loop over [parts], left at the first iteration that throws. *)
Fixpoint process_parts (st : state) (es : list element) : state :=
  match es with
  | [] => st
  | e :: es' =>
      let '(st1, ok) := process_part st e in
      if ok then process_parts st1 es' else st1
  end.

(** Lines 428-436. *)
Definition read_chunk (c : chunk) (st : state) : state :=
  let st1 :=
    match chunk_usageMetadata c with
    | Some u =>
        State (accumulatedThinkingText st) (accumulatedThinkingSignature st)
              (accumulatedText st) (finalParts st) (Some u) (finishReason st)
    | None => st
    end in
  if truthy_ostr (chunk_finishReason c) then
    State (accumulatedThinkingText st1) (accumulatedThinkingSignature st1)
          (accumulatedText st1) (finalParts st1) (usageMetadata st1)
          (default "" (chunk_finishReason c))
  else st1.

(** Lines 428-457: what the loop does with a decoded line. *)
Definition process_chunk (st : state) (c : chunk) : state :=
  let st1 := read_chunk c st in
  match chunk_parts c with
  | Some es => process_parts st1 es
  | None => st1
  end.

(** The body of the loop over [lines] (lines 420-459), for one line. *)
Definition process_line (st : state) (line : string) : state :=
  if negb (String.prefix "data:" line) then st
  else
    let jsonText := Streamer.trim (Streamer.slice5 line) in
    if negb (truthy_str jsonText) then st
    else
      match decode jsonText with
      | None => st
      | Some c => process_chunk st c
      end.

(** The read loop (lines 413-460): [buffer] is the local variable, [reads]
    the decoded pieces of the body. *)
Fixpoint read_loop (buffer : string) (st : state) (reads : list string)
    : state :=
  match reads with
  | [] => st
  | value :: reads' =>
      let lines := Streamer.split_lines (buffer +:+ value) in
      read_loop (default "" (last lines))
                (foldl process_line st (removelast lines)) reads'
  end.

(** [accumulatedResponse]: the parts, the finish reason and the usage. *)
Record accumulated : Type := Accumulated {
  parts : list final_part;
  response_finishReason : string;
  response_usageMetadata : option U
}.

Definition accumulatedResponse (reads : list string) : accumulated :=
  let st := flushText (flushThinking (read_loop "" initial reads)) in
  Accumulated (finalParts st) (finishReason st) (usageMetadata st).

(** *** What a body carries *)

(** The chunk that a line carries, if it is a [data:] line with text that
    decodes. *)
Definition chunk_of (line : string) : option chunk :=
  if negb (String.prefix "data:" line) then None
  else
    let jsonText := Streamer.trim (Streamer.slice5 line) in
    if negb (truthy_str jsonText) then None else decode jsonText.

(** The chunks of a body: those of its lines, the text after the last line
    feed left out. *)
Definition chunks_of (body : string) : list chunk :=
  omap chunk_of (removelast (Streamer.split_lines body)).

End Parse.

(** The elements on which the loop over [parts] throws. *)
Definition throws (e : element) : bool :=
  match e with
  | Null => true
  | Elem p =>
      match text p with
      | Unshowable => thought p || negb (bool_decide (is_Some (functionCall p)))
      | _ => false
      end
  end.

(** The elements of a chunk up to the first on which the loop throws. *)
Fixpoint completed (es : list element) : list part :=
  match es with
  | [] => []
  | Null :: _ => []
  | Elem p :: es' => if throws (Elem p) then [] else p :: completed es'
  end.

(** The parts of a list of chunks that the loop goes through without
    throwing. *)
Definition completed_parts {U} (cs : list (@chunk U)) : list part :=
  cs ≫= (λ c, completed (default [] (chunk_parts c))).

(** The three kinds of part, as the loop tells them apart. *)
Definition is_thought (p : part) : bool := thought p.

Definition is_call (p : part) : bool :=
  negb (thought p) && bool_decide (is_Some (functionCall p)).

Definition is_plain (p : part) : bool :=
  negb (thought p) && negb (bool_decide (is_Some (functionCall p))).

(** The string that a part adds to an accumulator. *)
Definition shown (p : part) : string :=
  match text p with
  | Shown s => s
  | _ => EmptyString
  end.

Definition concat_strings (l : list string) : string :=
  foldr String.append EmptyString l.

(** The thinking text, the text and the function calls of a list of final
    parts. *)
Definition thinking_of (fp : list final_part) : string :=
  concat_strings
    (omap (λ f, match f with thought_part s _ => Some s | _ => None end) fp).

Definition text_of (fp : list final_part) : string :=
  concat_strings
    (omap (λ f, match f with text_part s => Some s | _ => None end) fp).

Definition calls_of (fp : list final_part) : list part :=
  omap (λ f, match f with pushed p => Some p | _ => None end) fp.

(** A final part made by a flush, with its text. *)
Definition flushed_text (f : final_part) : option string :=
  match f with
  | thought_part s _ | text_part s => Some s
  | pushed _ => None
  end.

Definition is_thought_part (f : final_part) : bool :=
  match f with
  | thought_part _ _ => true
  | _ => false
  end.

(** No two thinking parts follow each other. *)
Fixpoint thoughts_apart (fp : list final_part) : Prop :=
  match fp with
  | f :: (g :: _) as fp' =>
      ¬ (is_thought_part f = true ∧ is_thought_part g = true)
      ∧ thoughts_apart fp'
  | _ => True
  end.

(** The texts of the elements are strings: absent, empty, or a string that
    is not empty. *)
Definition text_is_string (e : element) : Prop :=
  match e with
  | Null => True
  | Elem p =>
      match text p with
      | Shown s => s ≠ EmptyString
      | Unshowable => False
      | _ => True
      end
  end.

Definition texts_are_strings {U} (cs : list (@chunk U)) : Prop :=
  ∀ c es, c ∈ cs → chunk_parts c = Some es → Forall text_is_string es.

(** The last value of a field among the chunks that carry it. *)
Definition last_finishReason {U} (cs : list (@chunk U)) : string :=
  default "STOP"
    (last (omap (λ c, if truthy_ostr (chunk_finishReason c)
                      then chunk_finishReason c else None) cs)).

Definition last_usageMetadata {U} (cs : list (@chunk U)) : option U :=
  last (omap chunk_usageMetadata cs).

End ThinkingParser.
(* ===================================================================== *)
(** ** More inputs for the examples *)
(* ===================================================================== *)

Module MoreSamples.
Import JS AccountManager ClientLoop Samples.

(** Two free accounts. *)
Definition pool_pair : manager :=
  pool [acct "a@example.com" false None false;
        acct "b@example.com" false None false].

(** Two accounts, rate-limited until 5000 and until 9000. *)
Definition pool_both_limited : manager :=
  pool [acct "a@example.com" true (Some 5000) false;
        acct "b@example.com" true (Some 9000) false].

(** One account with invalid credentials. *)
Definition pool_invalid : manager :=
  pool [acct "a@example.com" false None true].


(** A 429 response with no header and an empty body. *)
Definition resp429 : response unit :=
  HttpResponse 429 ∅ EmptyString (DecodeThrows EmptyString).

(** A 401 response. *)
Definition resp401 : response unit :=
  HttpResponse 401 ∅ EmptyString (DecodeThrows EmptyString).

(** A 500 response with the body [boom]. *)
Definition resp500 : response unit :=
  HttpResponse 500 ∅ "boom" (DecodeThrows EmptyString).

(** An accepted response. *)
Definition resp200 : response unit :=
  HttpResponse 200 ∅ EmptyString (Decoded tt).

(** Credentials that are always obtained. *)
Definition creds_ok (i : nat) (a : account) (m : manager)
    : option string * manager := (None, m).

(** One endpoint, which always answers 429. *)
Definition fetch_429 (i : nat) (a : account) : list (fetched unit) :=
  [Responded resp429].

(** One endpoint, which answers 429 in the first attempt and accepts from
    the second on. *)
Definition fetch_429_then_ok (i : nat) (a : account) : list (fetched unit) :=
  match i with
  | O => [Responded resp429]
  | S _ => [Responded resp200]
  end.


(** The rendering of a date whose text has no [401] in it. *)
Definition iso_plain : string := "2026-01-01T00:05:00.000Z".


(** A function call that arrives with the finish reason STOP. *)
Definition chunk_call : Streamer.chunk :=
  Streamer.Chunk None
    [Streamer.Part false Streamer.Undefined None
       (Some (Streamer.FunctionCall (Some "call_1") (Some "search")
                (Some "{}")))]
    (Some "STOP").

(** A decoder for the text [C]. *)
Definition decode_call (jsonText : string) : option Streamer.chunk :=
  if bool_decide (jsonText = "C") then Some chunk_call else None.

(** Two thoughts and a text in one chunk. *)
Definition chunk_thoughts : @ThinkingParser.chunk unit :=
  ThinkingParser.Chunk None (Some "STOP")
    (Some [ThinkingParser.Elem
             (ThinkingParser.Part true (ThinkingParser.Shown "Let me ")
                None None);
           ThinkingParser.Elem
             (ThinkingParser.Part true (ThinkingParser.Shown "think.")
                (Some "sig") None);
           ThinkingParser.Elem
             (ThinkingParser.Part false (ThinkingParser.Shown "Done.")
                None None)]).

(** A decoder for the text [T]. *)
Definition decode_thoughts (jsonText : string)
    : option (@ThinkingParser.chunk unit) :=
  if bool_decide (jsonText = "T") then Some chunk_thoughts else None.

End MoreSamples.

(* ===================================================================== *)
(** * Properties of the matcher and of the number parsers *)
(* ===================================================================== *)

Module RegexProperties.
Import JS Regex.

(** The text consumed between a position and a later one. *)
Lemma consumed_app (w l : list ascii) :
  consumed (w ++ l) l = string_of_list_ascii w.
Proof.
  unfold consumed. rewrite length_app.
  replace (length w + length l - length l)%nat with (length w) by lia.
  by rewrite take_app_length.
Qed.

(** A match of [f*] consumes code units of the class [f]. *)
Lemma star_class ci (f : ascii → bool) (n : nat) : ∀ st st',
  st' ∈ (fix star (n : nat) (st : mstate) {struct n} : list mstate :=
           match n with
           | O => [st]
           | S n' =>
               (matches ci (Cls f) st ≫= fun st' =>
                  if (length (rest st') <? length (rest st))%nat
                  then star n' st' else [])
               ++ [st]
           end) n st →
  ∃ w, rest st = w ++ rest st' ∧ Forall (λ c, f c = true) w.
Proof.
  induction n as [|n IH]; intros st st' Hin.
  - apply list_elem_of_singleton in Hin as ->. by exists [].
  - apply elem_of_app in Hin as [Hin|Hin].
    + apply list_elem_of_bind in Hin as (st1 & Hin & H1).
      simpl in H1. destruct (rest st) as [|x l] eqn:Hr; [by apply elem_of_nil in H1|].
      destruct (f x) eqn:Hf; [|by apply elem_of_nil in H1].
      apply list_elem_of_singleton in H1 as ->. simpl in Hin.
      destruct (length l <? S (length l))%nat; [|by apply elem_of_nil in Hin].
      apply IH in Hin as (w & Hw & HF). simpl in Hw.
      exists (x :: w). split; [by rewrite Hw | by constructor].
    + apply list_elem_of_singleton in Hin as ->. by exists [].
Qed.

(** A match of [f+] consumes a non-empty run of code units of [f]. *)
Lemma plus_class ci (f : ascii → bool) st st' :
  st' ∈ matches ci (Plus (Cls f)) st →
  ∃ w, rest st = w ++ rest st' ∧ w ≠ [] ∧ Forall (λ c, f c = true) w.
Proof.
  unfold Plus. intros Hin.
  change (matches ci (Seq (Cls f) (Star (Cls f))) st)
    with (matches ci (Cls f) st ≫= matches ci (Star (Cls f))) in Hin.
  apply list_elem_of_bind in Hin as (st1 & Hin & H1).
  simpl in H1. destruct (rest st) as [|x l] eqn:Hr; [by apply elem_of_nil in H1|].
  destruct (f x) eqn:Hf; [|by apply elem_of_nil in H1].
  apply list_elem_of_singleton in H1 as ->.
  apply star_class in Hin as (w & Hw & HF). simpl in Hw.
  exists (x :: w). split; [by rewrite Hw|]. split; [done | by constructor].
Qed.

Lemma matches_caps_ok ci P r :
  groups_ok ci P r →
  ∀ st st', caps_ok P (caps st) → st' ∈ matches ci r st → caps_ok P (caps st').
Proof.
  induction r as [|c|f|r1 IH1 r2 IH2|r1 IH1 r2 IH2|r1 IH1|r1 IH1|i r1 IH1| |r1 IH1];
    simpl; intros Hok st st' Hc Hin.
  - by apply list_elem_of_singleton in Hin as ->.
  - destruct (rest st) as [|x l]; [by apply elem_of_nil in Hin|].
    destruct (if ci then _ else _); [|by apply elem_of_nil in Hin].
    by apply list_elem_of_singleton in Hin as ->.
  - destruct (rest st) as [|x l]; [by apply elem_of_nil in Hin|].
    destruct (f x); [|by apply elem_of_nil in Hin].
    by apply list_elem_of_singleton in Hin as ->.
  - destruct Hok as [Hok1 Hok2].
    apply list_elem_of_bind in Hin as (st1 & Hin2 & Hin1). eauto.
  - destruct Hok as [Hok1 Hok2].
    apply elem_of_app in Hin as [Hin|Hin]; eauto.
  - apply elem_of_app in Hin as [Hin|Hin].
    + apply list_elem_of_bind in Hin as (st1 & Hin & H1).
      destruct (length (rest st1) <? length (rest st))%nat;
        [|by apply elem_of_nil in Hin].
      apply list_elem_of_singleton in Hin as ->. eauto.
    + by apply list_elem_of_singleton in Hin as ->.
  - remember (length (rest st)) as n eqn:Hn in Hin. clear Hn.
    revert st st' Hc Hin.
    induction n as [|n IHn]; intros st st' Hc Hin.
    + by apply list_elem_of_singleton in Hin as ->.
    + apply elem_of_app in Hin as [Hin|Hin].
      * apply list_elem_of_bind in Hin as (st1 & Hin & H1).
        destruct (length (rest st1) <? length (rest st))%nat;
          [|by apply elem_of_nil in Hin].
        eapply IHn; [|exact Hin]. eauto.
      * by apply list_elem_of_singleton in Hin as ->.
  - destruct Hok as [Hok1 Hgrp].
    apply list_elem_of_fmap in Hin as (st1 & -> & Hin). simpl.
    intros j w Hj. destruct (decide (i = j)) as [->|Hne].
    + rewrite lookup_insert_eq in Hj. injection Hj as <-. eauto.
    + rewrite lookup_insert_ne in Hj by done.
      eapply (IH1 Hok1 st st1 Hc Hin); eauto.
  - destruct (xorb _ _); [|by apply elem_of_nil in Hin].
    by apply list_elem_of_singleton in Hin as ->.
  - destruct (matches ci r1 st); [|by apply elem_of_nil in Hin].
    by apply list_elem_of_singleton in Hin as ->.
Qed.

Lemma search_caps_ok ci P r (l : list ascii) : ∀ p g,
  groups_ok ci P r →
  search ci r p l = Some g →
  ∀ i w, i ≠ 0%nat → g !! i = Some w → P w.
Proof.
  induction l as [|c l IH]; intros p g Hok Hs i w Hi Hg; simpl in Hs.
  - destruct (matches ci r (MState p [] ∅)) as [|st' ?] eqn:Hm; [done|].
    injection Hs as <-. rewrite lookup_insert_ne in Hg by done.
    eapply (matches_caps_ok ci P r Hok (MState p [] ∅) st'); eauto.
    + intros ?? Hl. simpl in Hl. by rewrite lookup_empty in Hl.
    + rewrite Hm. left.
  - destruct (matches ci r (MState p (c :: l) ∅)) as [|st' ?] eqn:Hm.
    + eauto.
    + injection Hs as <-. rewrite lookup_insert_ne in Hg by done.
      eapply (matches_caps_ok ci P r Hok (MState p (c :: l) ∅) st'); eauto.
      * intros ?? Hl. simpl in Hl. by rewrite lookup_empty in Hl.
      * rewrite Hm. left.
Qed.

(** Every group of the result of [exec] holds text its pattern matched. *)
Lemma exec_caps_ok ci P r s g :
  groups_ok ci P r →
  exec ci r s = Some g →
  ∀ i w, i ≠ 0%nat → g !! i = Some w → P w.
Proof. unfold exec. apply search_caps_ok. Qed.

Lemma group_plus_class ci f st st' :
  st' ∈ matches ci (Plus (Cls f)) st →
  run_of f (consumed (rest st) (rest st')).
Proof.
  intros (w & Hw & Hne & HF)%plus_class.
  exists w. by rewrite Hw, consumed_app.
Qed.

(** *** The number parsers on such text *)

Lemma digit_not_space c : is_digit c = true → is_space c = false.
Proof.
  unfold is_digit, is_space. generalize (code c). intros n H.
  apply andb_true_iff in H as [H1 H2].
  apply Nat.leb_le in H1, H2.
  repeat (apply orb_false_iff; split).
  - apply andb_false_iff. right. apply Nat.leb_gt. lia.
  - apply Nat.eqb_neq. lia.
  - apply Nat.eqb_neq. lia.
Qed.

Lemma read_digits_nonneg (l : list ascii) : ∀ acc n,
  0 ≤ acc →
  0 ≤ (read_digits acc n l).1.1 ∧ (n ≤ (read_digits acc n l).1.2)%nat.
Proof.
  induction l as [|c l IH]; intros acc n Hacc; simpl; [split; [done|lia]|].
  destruct (is_digit c); [|split; [done|simpl; lia]].
  destruct (IH (10 * acc + digit_val c) (S n)) as [H1 H2].
  - unfold digit_val. lia.
  - split; [done|lia].
Qed.

Lemma read_digits_some (c : ascii) (l : list ascii) acc n :
  0 ≤ acc → is_digit c = true →
  (n < (read_digits acc n (c :: l)).1.2)%nat.
Proof.
  intros Hacc Hc. simpl. rewrite Hc.
  destruct (read_digits_nonneg l (10 * acc + digit_val c) (S n)) as [_ H].
  - unfold digit_val. lia.
  - lia.
Qed.

(** [parseInt] of a run of digits is a number that is not negative. *)
Lemma parseInt_digits w :
  run_of is_digit w → ∃ z, parseInt w = Num z ∧ 0 ≤ z.
Proof.
  intros (l & -> & Hne & HF).
  unfold parseInt. rewrite list_ascii_of_string_of_list_ascii.
  destruct l as [|c l]; [done|].
  apply Forall_cons in HF as [Hc _].
  unfold parseInt_list. simpl skip_space.
  rewrite (digit_not_space c Hc).
  unfold read_sign.
  destruct (bool_decide (c = "-"%char)) eqn:E1;
    [apply bool_decide_eq_true in E1; subst c; done|].
  destruct (bool_decide (c = "+"%char)) eqn:E2;
    [apply bool_decide_eq_true in E2; subst c; done|].
  pose proof (read_digits_some c l 0 0 ltac:(lia) Hc) as Hn.
  pose proof (read_digits_nonneg (c :: l) 0 0 ltac:(lia)) as [Hv _].
  destruct (read_digits 0 0 (c :: l)) as [[v n] l']. simpl in *.
  destruct n as [|n]; [lia|]. eauto.
Qed.

(** [Math.ceil(parseFloat(w) * 1000)] of a run of digits and points is
    [NaN] or a number that is not negative. *)
Lemma ceil_parseFloat_nonneg (f : ascii → bool) w :
  (∀ c, f c = true → is_digit c = true ∨ c = "."%char) →
  run_of f w →
  match ceil_mul (parseFloat w) 1000 with
  | NaN => True
  | Num z => 0 ≤ z
  end.
Proof.
  intros Hf (l & -> & Hne & HF).
  unfold parseFloat. rewrite list_ascii_of_string_of_list_ascii.
  destruct l as [|c l]; [done|].
  apply Forall_cons in HF as [Hc _]. apply Hf in Hc.
  assert (Hsp : is_space c = false)
    by (destruct Hc as [Hc| ->]; [by apply digit_not_space | done]).
  assert (Hm : bool_decide (c = "-"%char) = false)
    by (destruct Hc as [Hc| ->]; [|done];
        destruct (bool_decide (c = "-"%char)) eqn:E; [|done];
        apply bool_decide_eq_true in E; subst c; done).
  assert (Hp : bool_decide (c = "+"%char) = false)
    by (destruct Hc as [Hc| ->]; [|done];
        destruct (bool_decide (c = "+"%char)) eqn:E; [|done];
        apply bool_decide_eq_true in E; subst c; done).
  unfold parseFloat_list. simpl skip_space. rewrite Hsp.
  unfold read_sign. rewrite Hm, Hp.
  pose proof (read_digits_nonneg (c :: l) 0 0 ltac:(lia)) as [Hip _].
  destruct (read_digits 0 0 (c :: l)) as [[ip ni] l2]. simpl in Hip.
  set (fr := match l2 with
             | [] => (0, 0%nat)
             | c0 :: l3 =>
                 if bool_decide (c0 = "."%char)
                 then let '(v, n, _) := read_digits 0 0 l3 in (v, n)
                 else (0, 0%nat)
             end).
  assert (Hfp : 0 ≤ fr.1).
  { subst fr. destruct l2 as [|c0 l3]; [simpl; lia|].
    destruct (bool_decide (c0 = "."%char)); [|simpl; lia].
    pose proof (read_digits_nonneg l3 0 0 ltac:(lia)) as [H _].
    by destruct (read_digits 0 0 l3) as [[??]?]. }
  destruct fr as [fp nf]. simpl in Hfp.
  destruct (ni + nf)%nat; [done|]. simpl.
  set (q := Qmake (ip * 10 ^ Z.of_nat nf + fp) (Z.to_pos (10 ^ Z.of_nat nf))).
  assert (Hq : (0 <= q * inject_Z 1000)%Q).
  { apply Qmult_le_0_compat; [|done].
    unfold Qle. simpl. assert (0 ≤ 10 ^ Z.of_nat nf) by (apply Z.pow_nonneg; lia).
    nia. }
  pose proof (Qle_ceiling (q * inject_Z 1000)) as Hc'.
  assert (Hz : (inject_Z 0 <= inject_Z (Qceiling (q * inject_Z 1000)))%Q)
    by (eapply Qle_trans; [exact Hq | exact Hc']).
  rewrite <- Zle_Qle in Hz. exact Hz.
Qed.

End RegexProperties.

(* ===================================================================== *)
(** * Properties of the rate-limit parser *)
(* ===================================================================== *)

Module ParserProperties.
Import JS Regex RateLimitParser RegexProperties.

Lemma nn_mul n k : 0 ≤ k → nn n → nn (mul n k).
Proof. destruct n; simpl; [done|nia]. Qed.

Lemma nn_add a b : nn a → nn b → nn (add a b).
Proof. destruct a, b; simpl; try done; lia. Qed.

Lemma gt0_nn n : gt0 n = true → nn n.
Proof. destruct n; simpl; [done|]. intros ?%Z.ltb_lt. lia. Qed.

Lemma nonneg_truthy_positive v :
  nonneg v → truthy v = true → ∃ z, v = Some (Num z) ∧ 0 < z.
Proof.
  destruct v as [[|z]|]; simpl; try done.
  intros Hz Hne. apply negb_true_iff, Z.eqb_neq in Hne.
  exists z. split; [done|lia].
Qed.

Lemma groups_seconds_precise :
  groups_ok true (run_of digit_or_dot) re_seconds_precise.
Proof.
  simpl. repeat split; try exact I.
  intros st st' H. apply (group_plus_class true digit_or_dot st st'). exact H.
Qed.

Lemma groups_millis : groups_ok true (run_of is_digit) re_millis.
Proof.
  simpl. repeat split; try exact I.
  intros st st' H. apply (group_plus_class true is_digit st st'). exact H.
Qed.

Lemma groups_retry_seconds : groups_ok true (run_of is_digit) re_retry_seconds.
Proof.
  simpl. repeat split; try exact I.
  intros st st' H. apply (group_plus_class true is_digit st st'). exact H.
Qed.

Lemma groups_duration : groups_ok true (run_of is_digit) re_duration.
Proof.
  simpl. repeat split; try exact I.
  all: intros st st' H; apply (group_plus_class true is_digit st st'); exact H.
Qed.

(** [parseInt] of a group of digits. *)
Lemma parseInt_grp_nn r msg g i :
  groups_ok true (run_of is_digit) r →
  exec true r msg = Some g → i ≠ 0%nat → nn (parseInt_grp g i).
Proof.
  intros Hok He Hi. unfold parseInt_grp.
  destruct (g !! i) as [w|] eqn:Hw; [|done].
  destruct (parseInt_digits w) as (z & -> & Hz); [|done].
  eapply exec_caps_ok; eauto.
Qed.

Section Parser.

Variable Date_parse : string → num.
Variable now : Z.

Lemma scan_seconds_precise_nonneg msg x :
  nonneg x → nonneg (scan_seconds_precise msg x).
Proof.
  intros Hx. unfold scan_seconds_precise.
  destruct (exec true re_seconds_precise msg) as [g|] eqn:He; [|done].
  destruct (g !! 1%nat) as [w|] eqn:Hw; [|done].
  apply (ceil_parseFloat_nonneg digit_or_dot).
  - intros c [H|H]%orb_true_iff; [by left|right].
    by apply bool_decide_eq_true in H.
  - eapply (exec_caps_ok true _ _ _ _ groups_seconds_precise He 1%nat); eauto.
Qed.

Lemma scan_millis_nonneg msg x : nonneg x → nonneg (scan_millis msg x).
Proof.
  intros Hx. unfold scan_millis. destruct (negb (truthy x)); [|done].
  destruct (exec true re_millis msg) as [g|] eqn:He; [|done].
  by apply (parseInt_grp_nn re_millis msg g 1 groups_millis He).
Qed.

Lemma scan_retry_seconds_nonneg msg x :
  nonneg x → nonneg (scan_retry_seconds msg x).
Proof.
  intros Hx. unfold scan_retry_seconds. destruct (negb (truthy x)); [|done].
  destruct (exec true re_retry_seconds msg) as [g|] eqn:He; [|done].
  apply nn_mul; [lia|].
  by apply (parseInt_grp_nn re_retry_seconds msg g 1 groups_retry_seconds He).
Qed.

Lemma scan_duration_nonneg msg x : nonneg x → nonneg (scan_duration msg x).
Proof.
  intros Hx. unfold scan_duration. destruct (negb (truthy x)); [|done].
  destruct (exec true re_duration msg) as [g|] eqn:He; [|done].
  assert (Hg : ∀ i, i ≠ 0%nat → nn (parseInt_grp g i))
    by (intros i Hi; by apply (parseInt_grp_nn re_duration msg g i groups_duration He)).
  destruct (truthy_ostr (g !! 1%nat)).
  { apply nn_mul; [lia|]. repeat apply nn_add; try apply nn_mul; auto with lia. }
  destruct (truthy_ostr (g !! 4%nat)).
  { apply nn_mul; [lia|]. repeat apply nn_add; try apply nn_mul; auto with lia. }
  destruct (truthy_ostr (g !! 6%nat)); [|done].
  apply nn_mul; [lia|]. auto with lia.
Qed.

Lemma scan_iso_nonneg msg x :
  nonneg x → nonneg (scan_iso Date_parse now msg x).
Proof.
  intros Hx. unfold scan_iso. destruct (negb (truthy x)); [|done].
  destruct (exec true re_iso msg) as [g|]; [|done].
  destruct (negb (isNaN _)); [|done].
  destruct (gt0 _) eqn:Hgt; [|done]. by apply gt0_nn.
Qed.

Lemma scan_body_nonneg r body x :
  nonneg x → nonneg (scan_body Date_parse now r body x).
Proof.
  intros Hx. unfold scan_body. destruct (negb (truthy x)); [|done].
  by apply scan_iso_nonneg, scan_duration_nonneg, scan_retry_seconds_nonneg,
    scan_millis_nonneg, scan_seconds_precise_nonneg.
Qed.

Lemma check_ratelimit_reset_nonneg h x :
  nonneg x → nonneg (check_ratelimit_reset now h x).
Proof.
  intros Hx. unfold check_ratelimit_reset. destruct (negb (truthy x)); [|done].
  destruct (truthy_ostr _); [|done].
  destruct (gt0 _) eqn:Hgt; [|done]. by apply gt0_nn.
Qed.

Lemma check_reset_after_nonneg h x :
  nonneg x → nonneg (check_reset_after h x).
Proof.
  intros Hx. unfold check_reset_after. destruct (negb (truthy x)); [|done].
  destruct (truthy_ostr _); [|done].
  destruct (negb (isNaN _) && gt0 _) eqn:Hc; [|done].
  apply andb_true_iff in Hc as [_ Hgt].
  apply nn_mul; [lia|]. by apply gt0_nn.
Qed.

Lemma check_retry_after_nonneg h :
  (∀ v z, h !! "retry-after" = Some v → parseInt v = Num z → 0 ≤ z) →
  nonneg (check_retry_after Date_parse now h None).
Proof.
  intros Hra. unfold check_retry_after.
  destruct (h !! "retry-after") as [v|] eqn:Hv; [|done].
  simpl. destruct (truthy_str v); [|done].
  destruct (parseInt v) as [|z] eqn:Hp; simpl.
  - destruct (negb (isNaN _)); [|done].
    destruct (gt0 _) eqn:Hgt; [|done]. by apply gt0_nn.
  - specialize (Hra v z eq_refl Hp). simpl. lia.
Qed.

(** The result of the parser is never negative, unless an integer
    [retry-after] header is. *)
Lemma parseResetTime_nonneg r body :
  (∀ h v z, r = Response h → h !! "retry-after" = Some v →
            parseInt v = Num z → 0 ≤ z) →
  nonneg (parseResetTime Date_parse now r body).
Proof.
  intros Hra. unfold parseResetTime. apply scan_body_nonneg.
  destruct r as [h|msg|]; simpl; try done.
  apply check_reset_after_nonneg, check_ratelimit_reset_nonneg,
    check_retry_after_nonneg.
  intros v z. by apply Hra.
Qed.

(** *** Precedence *)

Lemma guarded_stable f : guarded f → stable f.
Proof. intros [o Hf] x Hx. by rewrite Hf, Hx. Qed.

Lemma guarded_respectful f : guarded f → respectful f.
Proof.
  intros [o Hf] x y [->|[Hx Hy]]; [by left|].
  rewrite !Hf, Hx, Hy. simpl. destruct o as [v|]; simpl; [by left | by right].
Qed.

Lemma same_or_falsy_hit x y : same_or_falsy x y → truthy y = true → x = y.
Proof. intros [->|[_ Hy]] H; [done|congruence]. Qed.

Lemma same_or_falsy_miss x y :
  same_or_falsy x y → truthy y = false → truthy x = false.
Proof. intros [->|[Hx _]] H; done. Qed.

Lemma guarded_ratelimit_reset h : guarded (check_ratelimit_reset now h).
Proof.
  destruct (truthy_ostr (h !! "x-ratelimit-reset")) eqn:E.
  - eexists (Some _). intros x. unfold check_ratelimit_reset. cbv zeta.
    rewrite E. reflexivity.
  - exists None. intros x. unfold check_ratelimit_reset. cbv zeta.
    rewrite E. by destruct (negb (truthy x)).
Qed.

Lemma guarded_reset_after h : guarded (check_reset_after h).
Proof.
  destruct (truthy_ostr (h !! "x-ratelimit-reset-after")) eqn:E.
  - destruct (negb (isNaN (parseInt (default "" (h !! "x-ratelimit-reset-after"))))
              && gt0 (parseInt (default "" (h !! "x-ratelimit-reset-after"))))
      eqn:E1.
    + eexists (Some _). intros x. unfold check_reset_after. cbv zeta.
      rewrite E, E1. reflexivity.
    + exists None. intros x. unfold check_reset_after. cbv zeta.
      rewrite E, E1. by destruct (negb (truthy x)).
  - exists None. intros x. unfold check_reset_after. cbv zeta.
    rewrite E. by destruct (negb (truthy x)).
Qed.

Lemma guarded_millis msg : guarded (scan_millis msg).
Proof.
  unfold scan_millis. destruct (exec true re_millis msg) as [g|].
  - eexists (Some _). intros x. reflexivity.
  - exists None. intros x. by destruct (negb (truthy x)).
Qed.

Lemma guarded_retry_seconds msg : guarded (scan_retry_seconds msg).
Proof.
  unfold scan_retry_seconds. destruct (exec true re_retry_seconds msg) as [g|].
  - eexists (Some _). intros x. reflexivity.
  - exists None. intros x. by destruct (negb (truthy x)).
Qed.

Lemma guarded_duration msg : guarded (scan_duration msg).
Proof.
  unfold scan_duration. destruct (exec true re_duration msg) as [g|].
  - destruct (truthy_ostr (g !! 1%nat)); [eexists (Some _); intros x; reflexivity|].
    destruct (truthy_ostr (g !! 4%nat)); [eexists (Some _); intros x; reflexivity|].
    destruct (truthy_ostr (g !! 6%nat)); [eexists (Some _); intros x; reflexivity|].
    exists None. intros x. by destruct (negb (truthy x)).
  - exists None. intros x. by destruct (negb (truthy x)).
Qed.

Lemma guarded_iso msg : guarded (scan_iso Date_parse now msg).
Proof.
  unfold scan_iso. destruct (exec true re_iso msg) as [g|].
  - destruct (negb (isNaN (Date_parse (default "" (g !! 1%nat))))).
    + eexists (Some _). intros x. reflexivity.
    + exists None. intros x. by destruct (negb (truthy x)).
  - exists None. intros x. by destruct (negb (truthy x)).
Qed.

Lemma stable_scan_body r body : stable (scan_body Date_parse now r body).
Proof. intros x Hx. unfold scan_body. by rewrite Hx. Qed.

Lemma respectful_scan_body r body :
  respectful (scan_body Date_parse now r body).
Proof.
  intros x y [->|[Hx Hy]]; [by left|].
  unfold scan_body. rewrite Hx, Hy. simpl.
  apply guarded_respectful; [apply guarded_iso|].
  apply guarded_respectful; [apply guarded_duration|].
  apply guarded_respectful; [apply guarded_retry_seconds|].
  apply guarded_respectful; [apply guarded_millis|].
  unfold scan_seconds_precise.
  destruct (exec true re_seconds_precise _) as [g|]; [by left | by right].
Qed.

(** The parser returns the first truthy candidate, and a falsy value when
    no candidate is truthy. *)
Lemma parseResetTime_first_hit r body :
  match first_hit (sources Date_parse now r body) with
  | Some v => parseResetTime Date_parse now r body = v
  | None => truthy (parseResetTime Date_parse now r body) = false
  end.
Proof.
  unfold parseResetTime, sources.
  pose proof (stable_scan_body r body) as Ssb.
  pose proof (respectful_scan_body r body) as Rsb.
  destruct r as [h|msg|]; simpl.
  2,3: destruct (truthy (scan_body _ _ _ _ None)) eqn:E; done.
  pose proof (guarded_stable _ (guarded_ratelimit_reset h)) as Srr.
  pose proof (guarded_respectful _ (guarded_ratelimit_reset h)) as Rrr.
  pose proof (guarded_stable _ (guarded_reset_after h)) as Sra.
  pose proof (guarded_respectful _ (guarded_reset_after h)) as Rra.
  set (a := check_retry_after Date_parse now h None).
  destruct (truthy a) eqn:Ha.
  { by rewrite (Srr a), (Sra a), (Ssb a). }
  assert (Hb : same_or_falsy (check_ratelimit_reset now h a)
                             (check_ratelimit_reset now h None))
    by (apply Rrr; by right).
  set (b := check_ratelimit_reset now h a) in *.
  destruct (truthy (check_ratelimit_reset now h None)) eqn:Hs2.
  { rewrite <- (same_or_falsy_hit _ _ Hb Hs2).
    assert (truthy b = true) by (by rewrite (same_or_falsy_hit _ _ Hb Hs2)).
    by rewrite (Sra b), (Ssb b). }
  pose proof (same_or_falsy_miss _ _ Hb Hs2) as Hbf.
  assert (Hc : same_or_falsy (check_reset_after h b) (check_reset_after h None))
    by (apply Rra; by right).
  set (c := check_reset_after h b) in *.
  destruct (truthy (check_reset_after h None)) eqn:Hs3.
  { rewrite <- (same_or_falsy_hit _ _ Hc Hs3).
    assert (truthy c = true) by (by rewrite (same_or_falsy_hit _ _ Hc Hs3)).
    by rewrite (Ssb c). }
  pose proof (same_or_falsy_miss _ _ Hc Hs3) as Hcf.
  assert (Hd : same_or_falsy (scan_body Date_parse now (Response h) body c)
                             (scan_body Date_parse now (Response h) body None))
    by (apply Rsb; by right).
  destruct (truthy (scan_body Date_parse now (Response h) body None)) eqn:Hs4.
  - by apply same_or_falsy_hit.
  - by apply (same_or_falsy_miss _ _ Hd).
Qed.

End Parser.


(** C6, as the code has it.  Apart from an integer [retry-after] header,
    which is multiplied by 1000 without a test of its sign, no source makes
    the result negative: when the [retry-after] header is absent or does not
    parse to a negative integer, the result is [null], [NaN] or a number
    that is not negative, and a truthy result is strictly positive.  A zero
    is returned as 0, not as [null]: a lone [retry-after: 0] header gives 0.
    [markRateLimited] does not tell the falsy results apart: with [null], 0
    or [NaN] it applies the configured default cooldown. *)
Theorem parseResetTime_sign (Date_parse : string → num) (now : Z)
    (r : responseOrError) (body : string) :
  (∀ h v z, r = Response h → h !! "retry-after" = Some v →
            parseInt v = Num z → 0 ≤ z) →
  nonneg (parseResetTime Date_parse now r body)
  ∧ (truthy (parseResetTime Date_parse now r body) = true →
     ∃ z, parseResetTime Date_parse now r body = Some (Num z) ∧ 0 < z)
  ∧ parseResetTime Date_parse now (Response {[ "retry-after" := "0" ]}) ""
    = Some (Num 0)
  ∧ (∀ DEFAULT_COOLDOWN_MS t e m v,
       truthy v = false →
       AccountManager.markRateLimited DEFAULT_COOLDOWN_MS t e v m
       = AccountManager.markRateLimited DEFAULT_COOLDOWN_MS t e None m).
Proof.
  intros Hra.
  pose proof (parseResetTime_nonneg Date_parse now r body Hra) as Hnn.
  split; [done|]. split; [by apply nonneg_truthy_positive|].
  split; [by vm_compute|].
  intros D t e m v Hv. unfold AccountManager.markRateLimited.
  destruct (list_find _ _) as [[i a]|]; [|done].
  assert (Hcd : AccountManager.cooldownMs D v m = AccountManager.cooldownMs D None m).
  { destruct v as [[|z]|]; simpl in *; try done.
    apply negb_false_iff in Hv. by rewrite Hv. }
  by rewrite Hcd.
Qed.

End ParserProperties.

(* ===================================================================== *)
(** * Properties of the account pool *)
(* ===================================================================== *)

Module PoolProperties.
Import JS AccountManager.

Lemma clearExpired_accounts now m :
  accounts (clearExpiredLimits now m).2 = clear_one now <$> accounts m.
Proof.
  unfold clearExpiredLimits; simpl.
  by destruct (0 <? _)%nat.
Qed.

Lemma clearExpired_index now m :
  currentIndex (clearExpiredLimits now m).2 = currentIndex m.
Proof.
  unfold clearExpiredLimits; simpl.
  by destruct (0 <? _)%nat.
Qed.

Lemma usable_clear_one now a : usable (clear_one now a) = availableAt now a.
Proof.
  unfold clear_one, availableAt, rateLimitedAt, usable, expired.
  destruct a as [e s rl t inv r ia lu]; simpl.
  destruct rl, inv, t as [t|]; simpl; try done;
    destruct (negb (t =? 0) && (t <=? now)); done.
Qed.

Lemma email_clear_one now a : email (clear_one now a) = email a.
Proof. unfold clear_one. by destruct (expired now a). Qed.

Lemma clear_none_fmap now (l : list account) :
  Forall (λ a, expired now a = false) l →
  (λ a, if expired now a then set_rateLimit false None a else a) <$> l = l.
Proof.
  induction 1 as [|a l Ha _ IH]; [done|].
  rewrite fmap_cons, Ha. by f_equal.
Qed.

Lemma clear_none_filter now (l : list account) :
  Forall (λ a, expired now a = false) l →
  filter (λ a, expired now a = true) l = [].
Proof.
  induction 1 as [|a l Ha _ IH]; [done|].
  rewrite filter_cons. destruct (decide _) as [E|_]; [congruence | done].
Qed.

(** Nothing expires in a pool in which every account is rate-limited at
    [now]: [clearExpiredLimits] leaves the manager as it is. *)
Lemma clearExpired_none now m :
  Forall (λ a, expired now a = false) (accounts m) →
  clearExpiredLimits now m = (0%nat, m).
Proof.
  intros H. unfold clearExpiredLimits.
  rewrite clear_none_filter, clear_none_fmap by done.
  simpl. by destruct m.
Qed.

(** The loop of [pickNext] finds the first usable account among the
    iterations that are left. *)
Lemma pickNext_loop_finds now m k : ∀ i j a,
  (i ≤ j < i + k)%nat →
  (0 < length (accounts m))%nat →
  accounts m !! ((currentIndex m + j) mod length (accounts m))%nat = Some a →
  usable a = true →
  ∃ idx a0,
    accounts m !! idx = Some a0 ∧ usable a0 = true ∧
    pickNext_loop now m i k
    = (Some (set_lastUsed now a0),
       set_currentIndex ((idx + 1) mod length (accounts m))%nat
         (set_accounts (<[idx := set_lastUsed now a0]> (accounts m)) m)).
Proof.
  induction k as [|k IH]; intros i j a Hij Hn Hj Hu; [lia|].
  simpl.
  set (idx := ((currentIndex m + i) mod length (accounts m))%nat).
  assert (Hlt : (idx < length (accounts m))%nat)
    by (apply Nat.mod_upper_bound; lia).
  destruct (lookup_lt_is_Some_2 _ _ Hlt) as [b Hb].
  rewrite Hb.
  destruct (usable b) eqn:Hub.
  - by exists idx, b.
  - destruct (decide (i = j)) as [->|Hne].
    + subst idx. rewrite Hj in Hb. congruence.
    + apply (IH (S i) j a); [lia | done..].
Qed.

(** Every index of the pool is visited by the loop. *)
Lemma cursor_covers (c n j : nat) :
  (j < n)%nat → ∃ i, (i < n)%nat ∧ ((c + i) mod n = j)%nat.
Proof.
  intros Hj.
  exists ((j + n - c mod n) mod n)%nat.
  assert (Hc : (c mod n < n)%nat) by (apply Nat.mod_upper_bound; lia).
  split; [apply Nat.mod_upper_bound; lia|].
  rewrite Nat.Div0.add_mod_idemp_r.
  rewrite (Nat.div_mod_eq c n) at 1.
  replace (n * (c / n) + c mod n + (j + n - c mod n))%nat
    with (j + (1 + c / n) * n)%nat by lia.
  rewrite Nat.Div0.mod_add. by apply Nat.mod_small.
Qed.

Lemma filter_nil_usable (l : list account) :
  length (filter (λ acc, usable acc = true) l) = 0%nat →
  Forall (λ a, usable a = false) l.
Proof.
  induction l as [|a l IH]; [done|].
  rewrite filter_cons. destruct (decide _) as [E|E]; simpl; [lia|].
  intros H. constructor; [by destruct (usable a) | auto].
Qed.

(** What [pickNext] returns. *)
Lemma pickNext_result now m :
  match (pickNext now m).1 with
  | Some a' =>
      ∃ idx a0,
        accounts m !! idx = Some a0 ∧ availableAt now a0 = true ∧
        a' = set_lastUsed now (clear_one now a0) ∧
        accounts (pickNext now m).2 !! idx = Some a'
  | None => Forall (λ a, availableAt now a = false) (accounts m)
  end.
Proof.
  unfold pickNext.
  set (m1 := (clearExpiredLimits now m).2).
  assert (Hacc : accounts m1 = clear_one now <$> accounts m)
    by apply clearExpired_accounts.
  destruct (length (getAvailableAccounts m1) =? 0)%nat eqn:Hav.
  - simpl. apply Nat.eqb_eq, filter_nil_usable in Hav.
    rewrite Hacc, Forall_fmap in Hav.
    eapply Forall_impl; [exact Hav|]. intros a; simpl.
    by rewrite usable_clear_one.
  - apply Nat.eqb_neq in Hav.
    assert (Hex : ∃ j b, accounts m1 !! j = Some b ∧ usable b = true).
    { unfold getAvailableAccounts in Hav.
      destruct (filter _ (accounts m1)) as [|b l] eqn:Hf; [done|].
      assert (Hb : b ∈ filter (λ acc, usable acc = true) (accounts m1))
        by (rewrite Hf; left).
      apply list_elem_of_filter in Hb as [Hu Hin].
      apply list_elem_of_lookup in Hin as [j Hj]. by exists j, b. }
    destruct Hex as (j & b & Hj & Hu).
    assert (Hjlt : (j < length (accounts m1))%nat)
      by (eapply lookup_lt_Some; eauto).
    destruct (cursor_covers (currentIndex m1) _ _ Hjlt) as (i & Hi & Hmod).
    destruct (pickNext_loop_finds now m1 (length (accounts m1)) 0 i b)
      as (idx & a0 & Hidx & Hu0 & Heq); [lia | lia | by rewrite Hmod | done |].
    rewrite Heq. simpl.
    rewrite Hacc, list_lookup_fmap in Hidx.
    destruct (accounts m !! idx) as [a1|] eqn:Ha1; [|done].
    simpl in Hidx. injection Hidx as <-.
    exists idx, a1. split; [done|]. split; [by rewrite <- usable_clear_one|].
    split; [done|].
    apply list_lookup_insert_eq.
    rewrite Hacc, length_fmap. eapply lookup_lt_Some; eauto.
Qed.

(** C1. Selection availability: whenever some account of the pool is
    available (not invalid and not rate-limited at the time of the call),
    [pickNext] returns an account of the pool that is not invalid and not
    rate-limited; it returns [null] only when no account is available.  The
    source keeps one rate-limit entry per account, so the requested model
    does not enter the selection, and it has no flag that disables an
    account: every account counts as enabled. *)
Theorem pickNext_selection_availability (now : Z) (m : manager) :
  ((∃ a, a ∈ accounts m ∧ availableAt now a = true) →
   ∃ a', (pickNext now m).1 = Some a' ∧
         isInvalid a' = false ∧ isRateLimited a' = false ∧
         availableAt now a' = true ∧
         a' ∈ accounts (pickNext now m).2 ∧
         ∃ a0, a0 ∈ accounts m ∧ availableAt now a0 = true ∧
               email a' = email a0)
  ∧ ((pickNext now m).1 = None →
     ¬ ∃ a, a ∈ accounts m ∧ availableAt now a = true).
Proof.
  pose proof (pickNext_result now m) as H.
  split.
  - intros (a & Hin & Hav).
    destruct ((pickNext now m).1) as [a'|].
    + destruct H as (idx & a0 & Hidx & Hav0 & -> & Hidx').
      exists (set_lastUsed now (clear_one now a0)).
      assert (Hu : usable (clear_one now a0) = true)
        by (by rewrite usable_clear_one).
      unfold usable in Hu. apply andb_true_iff in Hu as [Hrl Hinv].
      apply negb_true_iff in Hrl, Hinv.
      repeat split; simpl; try done.
      * unfold availableAt, rateLimitedAt; simpl. by rewrite Hinv, Hrl.
      * apply list_elem_of_lookup. by exists idx.
      * exists a0. repeat split; [|done|apply email_clear_one].
        apply list_elem_of_lookup. by exists idx.
    + rewrite Forall_forall in H. specialize (H a Hin). congruence.
  - intros Hnone (a & Hin & Hav). rewrite Hnone in H.
    rewrite Forall_forall in H. specialize (H a Hin). congruence.
Qed.

Section Marking.

Variable DEFAULT_COOLDOWN_MS : Z.

Lemma cooldownMs_set_accounts r l m :
  cooldownMs DEFAULT_COOLDOWN_MS r (saveToDisk (set_accounts l m))
  = cooldownMs DEFAULT_COOLDOWN_MS r m.
Proof. by destruct r as [[|z]|]. Qed.

Lemma find_insert_same (l : list account) e i a a' :
  list_find (λ x, email x = e) l = Some (i, a) →
  email a' = e →
  list_find (λ x, email x = e) (<[i := a']> l) = Some (i, a').
Proof.
  intros Hf He.
  apply list_find_Some in Hf as (Hi & Ha & Hbefore).
  apply list_find_Some. split; [|split; [done|]].
  - apply list_lookup_insert_eq. eapply lookup_lt_Some; eauto.
  - intros j y Hj Hlt. rewrite list_lookup_insert_ne in Hj by lia. eauto.
Qed.

(** What a mark records: the account is flagged and its reset time is the
    time of the call plus the cooldown, whatever the entry held before. *)
Lemma markRateLimited_records now e r m i a :
  list_find (λ x, email x = e) (accounts m) = Some (i, a) →
  list_find (λ x, email x = e)
            (accounts (markRateLimited DEFAULT_COOLDOWN_MS now e r m))
  = Some (i, set_rateLimit true
               (Some (now + cooldownMs DEFAULT_COOLDOWN_MS r m)) a).
Proof.
  intros Hf. unfold markRateLimited. rewrite Hf. simpl.
  eapply find_insert_same; [done|].
  apply list_find_Some in Hf as (_ & He & _). done.
Qed.

(** C2, as the code has it.  [markRateLimited] has no dedup window and
    keeps one entry per account: every mark of a known account sets the
    flag and overwrites the reset time with the time of the call plus the
    cooldown.  A second mark with the same [resetMs], made [d] milliseconds
    after the first, therefore moves the reset time later by exactly [d]. *)
Theorem markRateLimited_overwrites (now d : Z) (e : string) (r : nullable_num)
    (m : manager) :
  (∃ a, a ∈ accounts m ∧ email a = e) →
  let m1 := markRateLimited DEFAULT_COOLDOWN_MS now e r m in
  let m2 := markRateLimited DEFAULT_COOLDOWN_MS (now + d) e r m1 in
  resetTimeOf e m1 = Some (now + cooldownMs DEFAULT_COOLDOWN_MS r m) ∧
  resetTimeOf e m2 = Some (now + d + cooldownMs DEFAULT_COOLDOWN_MS r m).
Proof.
  intros (a & Hin & He) m1 m2.
  assert (Hf : is_Some (list_find (λ x, email x = e) (accounts m))).
  { destruct (list_find _ _) eqn:Hn; [done|].
    apply list_find_None in Hn. rewrite Forall_forall in Hn.
    by destruct (Hn a Hin). }
  destruct Hf as [[i a0] Hf].
  pose proof (markRateLimited_records now e r m i a0 Hf) as H1.
  fold m1 in H1.
  pose proof (markRateLimited_records (now + d) e r m1 i _ H1) as H2.
  fold m2 in H2.
  unfold resetTimeOf. rewrite H1, H2. simpl. split; [done|].
  subst m1. unfold markRateLimited at 1. rewrite Hf.
  by rewrite cooldownMs_set_accounts.
Qed.

(** C10. A mark for an email that matches no account of the pool is a
    no-op: [markRateLimited] and [markInvalid] return the manager as it was,
    so every account keeps its fields and nothing is written to the config
    file. *)
Theorem mark_unknown_email_noop (now : Z) (e : string) (r : nullable_num)
    (reason : string) (m : manager) :
  (∀ a, a ∈ accounts m → email a ≠ e) →
  markRateLimited DEFAULT_COOLDOWN_MS now e r m = m ∧
  markInvalid now e reason m = m ∧
  accounts (markRateLimited DEFAULT_COOLDOWN_MS now e r m) = accounts m ∧
  accounts (markInvalid now e reason m) = accounts m ∧
  disk (markRateLimited DEFAULT_COOLDOWN_MS now e r m) = disk m ∧
  disk (markInvalid now e reason m) = disk m.
Proof.
  intros H.
  assert (Hf : list_find (λ x, email x = e) (accounts m) = None).
  { apply list_find_None, Forall_forall. exact H. }
  unfold markRateLimited, markInvalid. by rewrite Hf.
Qed.

End Marking.

End PoolProperties.

(* ===================================================================== *)
(** * Properties of the start of a request and of the all-limited policy *)
(* ===================================================================== *)

Module PolicyProperties.
Import JS AccountManager CloudCode Server PoolProperties.

Lemma rateLimitedAt_spec now a :
  rateLimitedAt now a = true →
  isRateLimited a = true ∧ expired now a = false ∧ usable a = false.
Proof.
  unfold rateLimitedAt, usable. intros [H1 H2]%andb_true_iff.
  apply negb_true_iff in H2. by rewrite H1.
Qed.

Lemma all_limited_forallb (l : list account) now :
  Forall (λ a, rateLimitedAt now a = true) l → forallb isRateLimited l = true.
Proof.
  induction 1 as [|a l Ha _ IH]; [done|]. simpl.
  apply rateLimitedAt_spec in Ha as (-> & _). done.
Qed.

Lemma all_limited_filter (l : list account) now :
  Forall (λ a, rateLimitedAt now a = true) l →
  filter (λ acc, usable acc = true) l = [].
Proof.
  induction 1 as [|a l Ha _ IH]; [done|].
  rewrite filter_cons. apply rateLimitedAt_spec in Ha as (_ & _ & Hu).
  destruct (decide _); [congruence | done].
Qed.

(** With every account rate-limited, [pickNext] returns [null] and leaves
    the manager as it is. *)
Lemma pickNext_all_limited now m :
  Forall (λ a, rateLimitedAt now a = true) (accounts m) →
  pickNext now m = (None, m).
Proof.
  intros H. unfold pickNext.
  rewrite clearExpired_none.
  - simpl. unfold getAvailableAccounts. by rewrite (all_limited_filter _ now).
  - eapply Forall_impl; [exact H|]. intros a Ha.
    by apply rateLimitedAt_spec in Ha as (_ & ? & _).
Qed.

Lemma minWait_step_spec now acc a :
  minWait_step now acc a
  = match positive_wait now a with
    | Some w =>
        match acc with
        | Some w0 => if w <? w0 then Some w else Some w0
        | None => Some w
        end
    | None => acc
    end.
Proof.
  unfold minWait_step, positive_wait.
  destruct (rateLimitResetTime a) as [t|]; [|done].
  destruct (negb (t =? 0)); [|done]. simpl.
  destruct (0 <? t - now); [|done]. simpl.
  destruct acc as [w0|]; [|done]. by destruct (t - now <? w0).
Qed.

Lemma minWait_step_facts now acc a :
  (∀ w0, acc = Some w0 → ∃ r, minWait_step now acc a = Some r ∧ r ≤ w0) ∧
  (∀ w, positive_wait now a = Some w →
        ∃ r, minWait_step now acc a = Some r ∧ r ≤ w) ∧
  (∀ r, minWait_step now acc a = Some r →
        acc = Some r ∨ positive_wait now a = Some r).
Proof.
  rewrite minWait_step_spec.
  destruct (positive_wait now a) as [w|], acc as [w0|];
    try destruct (w <? w0) eqn:E;
    try (apply Z.ltb_lt in E); try (apply Z.ltb_ge in E);
    repeat split; intros; simplify_eq; eauto with lia.
Qed.

(** The loop of [getMinWaitTimeMs] computes the least positive wait. *)
Lemma minWait_fold now (l : list account) : ∀ acc,
  (∀ w0, acc = Some w0 →
         ∃ r, foldl (minWait_step now) acc l = Some r ∧ r ≤ w0) ∧
  (∀ a w, a ∈ l → positive_wait now a = Some w →
          ∃ r, foldl (minWait_step now) acc l = Some r ∧ r ≤ w) ∧
  (∀ r, foldl (minWait_step now) acc l = Some r →
        acc = Some r ∨ ∃ a, a ∈ l ∧ positive_wait now a = Some r).
Proof.
  induction l as [|a l IH]; intros acc; simpl.
  - repeat split.
    + intros w0 ->. exists w0. split; [done|lia].
    + intros ?? []%elem_of_nil.
    + intros r ->. by left.
  - destruct (IH (minWait_step now acc a)) as (IH1 & IH2 & IH3).
    destruct (minWait_step_facts now acc a) as (S1 & S2 & S3).
    repeat split.
    + intros w0 Hacc. destruct (S1 _ Hacc) as (r' & Hr' & Hle').
      destruct (IH1 _ Hr') as (r & Hr & Hle). exists r. split; [done|lia].
    + intros b w [->|Hin]%elem_of_cons Hw; [|eauto].
      destruct (S2 _ Hw) as (r' & Hr' & Hle').
      destruct (IH1 _ Hr') as (r & Hr & Hle). exists r. split; [done|lia].
    + intros r Hr. destruct (IH3 r Hr) as [Hacc|(b & Hin & Hb)].
      * destruct (S3 _ Hacc) as [?|?]; [by left|].
        right. exists a. split; [left|done].
      * right. exists b. split; [by right|done].
Qed.

Section Policy.

Variable DEFAULT_COOLDOWN_MS : Z.
Variable toISOString : Z → string.

Lemma isAllRateLimited_all now m :
  Forall (λ a, rateLimitedAt now a = true) (accounts m) →
  isAllRateLimited m = true.
Proof.
  intros H. unfold isAllRateLimited.
  destruct (length (accounts m) =? 0)%nat; [done|].
  by apply (all_limited_forallb _ now).
Qed.

(** [getMinWaitTimeMs] on a pool whose accounts are all rate-limited: the
    least positive wait, or the default cooldown when no account has one. *)
Lemma getMinWaitTimeMs_all_limited now m :
  Forall (λ a, rateLimitedAt now a = true) (accounts m) →
  let w := getMinWaitTimeMs DEFAULT_COOLDOWN_MS now m in
  (∀ a x, a ∈ accounts m → positive_wait now a = Some x → w ≤ x) ∧
  ((∃ a, a ∈ accounts m ∧ positive_wait now a = Some w) ∨
   ((∀ a, a ∈ accounts m → positive_wait now a = None) ∧
    w = DEFAULT_COOLDOWN_MS)).
Proof.
  intros H w. subst w. unfold getMinWaitTimeMs.
  rewrite (isAllRateLimited_all now) by done. simpl.
  destruct (minWait_fold now (accounts m) None) as (_ & F2 & F3).
  destruct (foldl _ _ _) as [r|] eqn:Hr.
  - split.
    + intros a x Hin Hx. destruct (F2 a x Hin Hx) as (r' & [= <-] & Hle). done.
    + left. destruct (F3 r eq_refl) as [|(a & Hin & Ha)]; [done|]. eauto.
  - split.
    + intros a x Hin Hx. destruct (F2 a x Hin Hx) as (r' & [=] & _).
    + right. split; [|done]. intros a Hin.
      destruct (positive_wait now a) as [x|] eqn:Hx; [|done].
      destruct (F2 a x Hin Hx) as (r' & [=] & _).
Qed.


(** C4, as the code has it.  At the start of a request every rate-limit
    entry is cleared, expired or not (the optimistic reset): each account
    gets [isRateLimited = false] and [rateLimitResetTime = null], its other
    fields are kept and nothing is written to the config file.  The first
    selection of the request therefore returns an account as soon as one
    account of the pool is not invalid, whatever the reset times were.
    Outside this reset, an entry whose reset time has passed is cleared by
    [clearExpiredLimits], which makes the account usable unless it is
    invalid. *)
Theorem startRequest_clears_all (now : Z) (m : manager) :
  accounts (startRequest m) = set_rateLimit false None <$> accounts m ∧
  disk (startRequest m) = disk m ∧
  Forall (λ a, isRateLimited a = false ∧ rateLimitResetTime a = None)
         (accounts (startRequest m)) ∧
  ((∃ a, a ∈ accounts m ∧ isInvalid a = false) →
   ∃ a', (firstSelection now m).1 = Some a' ∧ usable a' = true ∧
         ∃ a0, a0 ∈ accounts m ∧ isInvalid a0 = false ∧ email a' = email a0) ∧
  (∀ a t, a ∈ accounts m → isRateLimited a = true →
          rateLimitResetTime a = Some t → t ≠ 0 → t ≤ now →
          isInvalid a = false →
          set_rateLimit false None a ∈ accounts (clearExpiredLimits now m).2 ∧
          usable (set_rateLimit false None a) = true).
Proof.
  split; [done|]. split; [done|]. split; [|split].
  - unfold startRequest, resetAllRateLimits. simpl.
    apply Forall_fmap, Forall_forall. by intros a _.
  - intros (a & Hin & Hinv).
    pose proof (pickNext_result now (startRequest m)) as H.
    unfold firstSelection.
    destruct ((pickNext now (startRequest m)).1) as [a'|].
    + destruct H as (idx & a0 & Hidx & Hav & -> & _).
      exists (set_lastUsed now (clear_one now a0)).
      split; [done|].
      split; [by rewrite <- usable_clear_one in Hav|].
      unfold startRequest, resetAllRateLimits in Hidx. simpl in Hidx.
      rewrite list_lookup_fmap in Hidx.
      destruct (accounts m !! idx) as [a1|] eqn:Ha1; [|done].
      injection Hidx as <-.
      exists a1. split; [apply list_elem_of_lookup; eauto|].
      split.
      * unfold availableAt in Hav. simpl in Hav.
        apply andb_true_iff in Hav as [Hi _]. by apply negb_true_iff in Hi.
      * done.
    + rewrite Forall_forall in H.
      specialize (H (set_rateLimit false None a)).
      unfold availableAt, rateLimitedAt in H. simpl in H. rewrite Hinv in H.
      simpl in H. assert (true = false); [|done]. apply H.
      unfold startRequest, resetAllRateLimits; simpl.
      apply list_elem_of_fmap. eauto.
  - intros a t Hin Hrl Ht Ht0 Hle Hinv.
    split.
    + rewrite clearExpired_accounts. apply list_elem_of_fmap.
      exists a. split; [|done].
      unfold clear_one, expired. rewrite Hrl, Ht. simpl.
      assert (Hz : negb (t =? 0) = true) by (apply negb_true_iff, Z.eqb_neq; lia).
      assert (Hl : (t <=? now) = true) by (apply Z.leb_le; lia).
      by rewrite Hz, Hl.
    + unfold usable. simpl. by rewrite Hinv.
Qed.

End Policy.

End PolicyProperties.

(* ===================================================================== *)
(** * Properties of the generation config *)
(* ===================================================================== *)

Module ConverterProperties.
Import RequestConverter.

Section Config.

Variable getModelFamily : string → string.
Variable isThinkingModel : string → bool.
Variable GEMINI_MAX_OUTPUT_TOKENS : Z.

(** C8, as the code has it.  For a Claude thinking model, [max_tokens] is
    raised to [budget + 8192] exactly when a thinking budget is set and
    [max_tokens] is set and does not exceed the budget ([max_tokens <=
    budget], the reverse of the inequality in the claim); in every other
    case [max_tokens] is passed through unchanged. *)
Theorem claude_thinking_max_tokens (r : request) :
  getModelFamily (default "" (model r)) = "claude" →
  isThinkingModel (default "" (model r)) = true →
  (∀ b mt, budget_tokens r = Some b → b ≠ 0 →
           max_tokens r = Some mt → mt ≠ 0 → mt ≤ b →
           maxOutputTokens
             (convertAnthropicToGoogle_generationConfig getModelFamily
                isThinkingModel GEMINI_MAX_OUTPUT_TOKENS r) = Some (b + 8192)) ∧
  (∀ b mt, budget_tokens r = Some b → b ≠ 0 →
           max_tokens r = Some mt → mt ≠ 0 → b < mt →
           maxOutputTokens
             (convertAnthropicToGoogle_generationConfig getModelFamily
                isThinkingModel GEMINI_MAX_OUTPUT_TOKENS r) = Some mt) ∧
  (truthy_int (budget_tokens r) = false →
   maxOutputTokens
             (convertAnthropicToGoogle_generationConfig getModelFamily
                isThinkingModel GEMINI_MAX_OUTPUT_TOKENS r)
   = if truthy_int (max_tokens r) then max_tokens r else None) ∧
  (truthy_int (max_tokens r) = false → maxOutputTokens
             (convertAnthropicToGoogle_generationConfig getModelFamily
                isThinkingModel GEMINI_MAX_OUTPUT_TOKENS r) = None).
Proof.
  intros Hfam Hthink.
  unfold convertAnthropicToGoogle_generationConfig, cap_gemini,
    thinking_config, copied_config.
  rewrite Hfam, Hthink.
  rewrite (bool_decide_eq_true_2 ("claude" = "claude")) by done.
  rewrite (bool_decide_eq_false_2 ("claude" = "gemini")) by done.
  cbn [andb].
  repeat split.
  - intros b mt Hb Hb0 Hmt Hmt0 Hle. rewrite Hb, Hmt. simpl.
    assert (E1 : negb (b =? 0) = true) by (apply negb_true_iff, Z.eqb_neq; lia).
    assert (E2 : negb (mt =? 0) = true) by (apply negb_true_iff, Z.eqb_neq; lia).
    assert (E3 : (mt <=? b) = true) by (apply Z.leb_le; lia).
    repeat (first [rewrite E1 | rewrite E2 | rewrite E3]; simpl). done.
  - intros b mt Hb Hb0 Hmt Hmt0 Hlt. rewrite Hb, Hmt. simpl.
    assert (E1 : negb (b =? 0) = true) by (apply negb_true_iff, Z.eqb_neq; lia).
    assert (E2 : negb (mt =? 0) = true) by (apply negb_true_iff, Z.eqb_neq; lia).
    assert (E3 : (mt <=? b) = false) by (apply Z.leb_gt; lia).
    repeat (first [rewrite E1 | rewrite E2 | rewrite E3]; simpl). done.
  - intros Hb. rewrite Hb. done.
  - intros Hmt. rewrite Hmt. simpl.
    destruct (truthy_int (budget_tokens r)); done.
Qed.

End Config.

End ConverterProperties.

(* ===================================================================== *)
(** * Properties of the streamer *)
(* ===================================================================== *)

Module StreamerProperties.
Import JS Streamer.

Lemma blocks_snoc i evs j cb ds :
  blocks_from i evs j →
  blocks_from i
    (evs ++ content_block_start j cb ::
       (content_block_delta j <$> ds) ++ [content_block_stop j]) (S j).
Proof.
  induction 1 as [i|i cb' ds' evs j H IH]; simpl.
  - apply blocks_more. constructor.
  - rewrite <- app_assoc. simpl. by apply blocks_more.
Qed.

Section Stream.

Variable messageId : string.
Variable originalModel : string.
Variable randomToolId : nat → string.
Variable decode : string → option chunk.

(** The deltas that may precede the close of the open block: none, or the
    buffered signature. *)
Lemma flush_signature_deltas st :
  ∃ ds, flush_signature st = content_block_delta (blockIndex st) <$> ds ∧
        (currentBlockType st = None → ds = []).
Proof.
  unfold flush_signature.
  destruct (bool_decide (currentBlockType st = Some thinking)) eqn:E; simpl.
  - apply bool_decide_eq_true in E.
    destruct (truthy_str _).
    + eexists [_]. split; [done|]. congruence.
    + by exists [].
  - by exists [].
Qed.

(** Closing the open block, if there is one, leaves complete blocks. *)
Lemma close_ok body st extra :
  body_inv body st →
  (extra = [] ∨ extra = flush_signature st) →
  blocks_from 0 (body ++ extra ++ (close_block st).1) (close_block st).2.
Proof.
  intros (closed & opened & -> & Hcl & Hop) Hex.
  assert (Hds : ∃ ds, extra = content_block_delta (blockIndex st) <$> ds ∧
                      (currentBlockType st = None → ds = [])).
  { destruct Hex as [->| ->]; [by exists [] | apply flush_signature_deltas]. }
  destruct Hds as (ds' & -> & Hnone).
  unfold close_block.
  destruct (currentBlockType st) as [ty|].
  - destruct Hop as (cb & ds & ->). simpl.
    replace ((closed ++ content_block_start (blockIndex st) cb
                :: (content_block_delta (blockIndex st) <$> ds))
             ++ (content_block_delta (blockIndex st) <$> ds')
             ++ [content_block_stop (blockIndex st)])
      with (closed ++ content_block_start (blockIndex st) cb
              :: (content_block_delta (blockIndex st) <$> (ds ++ ds'))
              ++ [content_block_stop (blockIndex st)]).
    + by apply blocks_snoc.
    + rewrite fmap_app, <- ?app_assoc. simpl. by rewrite <- ?app_assoc.
  - subst opened. rewrite (Hnone eq_refl). simpl. by rewrite !app_nil_r.
Qed.

(** Opening a block after the complete ones. *)
Lemma open_ok closed i cb ds st :
  blocks_from 0 closed i →
  blockIndex st = i → is_Some (currentBlockType st) →
  body_inv (closed ++ content_block_start i cb
              :: (content_block_delta i <$> ds)) st.
Proof.
  intros Hcl Hi [ty Hty]. exists closed, (content_block_start i cb
                                            :: (content_block_delta i <$> ds)).
  split; [done|]. rewrite Hi, Hty. split; [done|]. by exists cb, ds.
Qed.

(** One more delta in the open block. *)
Lemma delta_ok body st st' d :
  body_inv body st →
  is_Some (currentBlockType st) →
  blockIndex st' = blockIndex st → currentBlockType st' = currentBlockType st →
  body_inv (body ++ [content_block_delta (blockIndex st) d]) st'.
Proof.
  intros (closed & opened & -> & Hcl & Hop) [ty Hty] Hi Hc.
  rewrite Hty in Hop. destruct Hop as (cb & ds & ->).
  exists closed, (content_block_start (blockIndex st) cb
                    :: (content_block_delta (blockIndex st) <$> (ds ++ [d]))).
  rewrite Hi, Hc, Hty. split; [|split; [done|by exists cb, (ds ++ [d])]].
  rewrite fmap_app, <- app_assoc. done.
Qed.

Lemma body_inv_eq l l' st : l = l' → body_inv l' st → body_inv l st.
Proof. by intros ->. Qed.

(** An iteration of the loop over the parts keeps the invariant. *)
Lemma process_part_inv body st p evs st' :
  body_inv body st →
  process_part randomToolId st p = Some (evs, st') →
  body_inv (body ++ evs) st' ∧ hasEmittedStart st' = hasEmittedStart st.
Proof.
  intros Hinv Hp.
  destruct p as [|th t sig fc]; [done|].
  destruct th.
  - (* a thought *)
    simpl in Hp.
    destruct (bool_decide (currentBlockType st = Some thinking)) eqn:E.
    + apply bool_decide_eq_true in E.
      destruct (truthy_str (default "" sig) && _); injection Hp as <- <-;
        (split; [|done]); simpl;
        apply delta_ok; try done; by rewrite E.
    + pose proof (close_ok body st [] Hinv (or_introl eq_refl)) as Hcl.
      destruct (close_block st) as [stop i] eqn:Hclose. simpl in Hcl, Hp.
      destruct (truthy_str (default "" sig) && _); injection Hp as <- <-;
        (split; [|done]); simpl;
        (eapply body_inv_eq;
         [|apply (open_ok (body ++ stop) i thinking_block
                   [thinking_delta (or_empty t)]); done]);
        simpl; by rewrite <- ?app_assoc.
  - destruct t as [|s|[|]].
    + (* no text: a function call, or nothing *)
      destruct fc as [fc|]; simpl in Hp;
        [|by injection Hp as <- <-; rewrite app_nil_r].
      pose proof (close_ok body st (flush_signature st) Hinv (or_intror eq_refl))
        as Hcl.
      destruct (close_block st) as [stop i] eqn:Hclose. simpl in Hcl, Hp.
      injection Hp as <- <-. split; [|done].
      eapply body_inv_eq;
        [|apply (open_ok (body ++ flush_signature st ++ stop) i
                   (tool_use_block
                      (if truthy_ostr (fc_id fc) then default "" (fc_id fc)
                       else randomToolId i) (fc_name fc))
                   [input_json_delta (default "{}" (fc_args fc))]); done].
      simpl. by rewrite <- ?app_assoc.
    + (* a text *)
      simpl in Hp.
      destruct (negb (truthy_str s) || blank s);
        [by injection Hp as <- <-; rewrite app_nil_r|].
      destruct (bool_decide (currentBlockType st = Some text)) eqn:E.
      * apply bool_decide_eq_true in E.
        injection Hp as <- <-. split; [|done].
        apply delta_ok; try done; by rewrite E.
      * pose proof (close_ok body st (flush_signature st) Hinv
                      (or_intror eq_refl)) as Hcl.
        destruct (close_block st) as [stop i] eqn:Hclose. simpl in Hcl, Hp.
        injection Hp as <- <-. split; [|done].
        eapply body_inv_eq;
          [|apply (open_ok (body ++ flush_signature st ++ stop) i
                     text_block [text_delta s]); done].
        simpl. by rewrite <- ?app_assoc.
    + done.
    + simpl in Hp. by injection Hp as <- <-; rewrite app_nil_r.
Qed.

Lemma process_parts_inv ps : ∀ body st evs st' ok,
  body_inv body st →
  process_parts randomToolId st ps = (evs, st', ok) →
  body_inv (body ++ evs) st' ∧ hasEmittedStart st' = hasEmittedStart st.
Proof.
  induction ps as [|p ps IH]; intros body st evs st' ok Hinv Hp; simpl in Hp.
  - injection Hp as <- <- <-. by rewrite app_nil_r.
  - destruct (process_part randomToolId st p) as [[evs1 st1]|] eqn:H1.
    + destruct (process_parts randomToolId st1 ps) as [[evs2 st2] ok2] eqn:H2.
      injection Hp as <- <- <-.
      destruct (process_part_inv _ _ _ _ _ Hinv H1) as [Hinv1 Hs1].
      destruct (IH _ _ _ _ _ Hinv1 H2) as [Hinv2 Hs2].
      rewrite app_assoc. split; [done|congruence].
    + injection Hp as <- <- <-. by rewrite app_nil_r.
Qed.

(** The invariant does not depend on the counters, the stop reason or the
    buffer. *)
Lemma stream_inv_ext evs st st' :
  hasEmittedStart st' = hasEmittedStart st →
  blockIndex st' = blockIndex st →
  currentBlockType st' = currentBlockType st →
  stream_inv messageId originalModel evs st →
  stream_inv messageId originalModel evs st'.
Proof.
  unfold stream_inv, body_inv. intros -> -> ->. done.
Qed.

Lemma process_line_inv evs st line evs' st' :
  stream_inv messageId originalModel evs st →
  process_line messageId originalModel randomToolId decode st line = (evs', st') →
  stream_inv messageId originalModel (evs ++ evs') st'.
Proof.
  intros Hinv Hl. unfold process_line in Hl.
  destruct (negb (String.prefix "data:" line));
    [by injection Hl as <- <-; rewrite app_nil_r|].
  destruct (negb (truthy_str _));
    [by injection Hl as <- <-; rewrite app_nil_r|].
  destruct (decode _) as [c|];
    [|by injection Hl as <- <-; rewrite app_nil_r].
  assert (Hinv1 : stream_inv messageId originalModel evs (read_usage c st)).
  { eapply stream_inv_ext; [..|exact Hinv];
      unfold read_usage; by destruct (usageMetadata c). }
  set (st1 := read_usage c st) in *.
  unfold emit_start in Hl.
  destruct (hasEmittedStart st1) eqn:Hhas; simpl in Hl.
  - destruct (process_parts randomToolId st1 (parts c)) as [[evs2 st3] ok] eqn:Hps.
    injection Hl as <- <-. simpl.
    unfold stream_inv in Hinv1. rewrite Hhas in Hinv1.
    destruct Hinv1 as (it & body & -> & Hb).
    destruct (process_parts_inv _ _ _ _ _ _ Hb Hps) as [Hb' Hs'].
    assert (Hfin : stream_inv messageId originalModel
                     (message_start messageId originalModel it
                        :: body ++ evs2) st3).
    { unfold stream_inv. rewrite Hs', Hhas. eauto. }
    destruct ok; [|done].
    eapply stream_inv_ext; [..|exact Hfin];
      unfold check_finish; destruct (finishReason c) as [r|]; try done;
      destruct (truthy_str r); try done;
      destruct (bool_decide (r = "MAX_TOKENS")); try done;
      destruct (bool_decide (r = "STOP")); done.
  - unfold stream_inv in Hinv1. rewrite Hhas in Hinv1.
    destruct Hinv1 as (-> & Hty & Hidx).
    destruct (parts c) as [|p ps] eqn:Hparts; simpl in Hl.
    + injection Hl as <- <-. simpl.
      eapply (stream_inv_ext _ st1).
      1-3: unfold check_finish; destruct (finishReason c) as [r|]; try done;
           destruct (truthy_str r); try done;
           destruct (bool_decide (r = "MAX_TOKENS")); try done;
           destruct (bool_decide (r = "STOP")); done.
      unfold stream_inv. by rewrite Hhas.
    + set (st2 := State true (blockIndex st1) (currentBlockType st1)
                    (currentThinkingSignature st1) (inputTokens st1)
                    (outputTokens st1) (stopReason st1) (buffer st1)) in *.
      assert (Hb : body_inv [] st2).
      { exists [], []. split; [done|]. simpl. rewrite Hidx, Hty.
        split; [constructor|done]. }
      change (match process_part randomToolId st2 p with
              | Some (evs, st1) =>
                  let '(evs', st2, ok) := process_parts randomToolId st1 ps in
                  (evs ++ evs', st2, ok)
              | None => ([], st2, false)
              end) with (process_parts randomToolId st2 (p :: ps)) in Hl.
      destruct (process_parts randomToolId st2 (p :: ps))
        as [[evs2 st3] ok] eqn:Hps.
      injection Hl as <- <-. simpl.
      destruct (process_parts_inv _ _ _ _ _ _ Hb Hps) as [Hb' Hs'].
      assert (Hfin : stream_inv messageId originalModel
                       (message_start messageId originalModel
                          (inputTokens st1) :: evs2) st3).
      { unfold stream_inv. rewrite Hs'. simpl. eauto. }
      destruct ok; [|done].
      eapply stream_inv_ext; [..|exact Hfin];
        unfold check_finish; destruct (finishReason c) as [r|]; try done;
        destruct (truthy_str r); try done;
        destruct (bool_decide (r = "MAX_TOKENS")); try done;
        destruct (bool_decide (r = "STOP")); done.
Qed.

Lemma process_lines_inv lines : ∀ evs st evs' st',
  stream_inv messageId originalModel evs st →
  process_lines messageId originalModel randomToolId decode st lines = (evs', st') →
  stream_inv messageId originalModel (evs ++ evs') st'.
Proof.
  induction lines as [|l lines IH]; intros evs st evs' st' Hinv Hl; simpl in Hl.
  - injection Hl as <- <-. by rewrite app_nil_r.
  - destruct (process_line _ _ _ _ st l) as [evs1 st1] eqn:H1.
    destruct (process_lines _ _ _ _ st1 lines) as [evs2 st2] eqn:H2.
    injection Hl as <- <-. rewrite app_assoc.
    eapply IH; [|exact H2]. eapply process_line_inv; eauto.
Qed.

Lemma read_loop_inv reads : ∀ evs st evs' st',
  stream_inv messageId originalModel evs st →
  read_loop messageId originalModel randomToolId decode st reads = (evs', st') →
  stream_inv messageId originalModel (evs ++ evs') st'.
Proof.
  induction reads as [|v reads IH]; intros evs st evs' st' Hinv Hl; simpl in Hl.
  - injection Hl as <- <-. by rewrite app_nil_r.
  - destruct (process_read _ _ _ _ st v) as [evs1 st1] eqn:H1.
    destruct (read_loop _ _ _ _ st1 reads) as [evs2 st2] eqn:H2.
    injection Hl as <- <-. rewrite app_assoc.
    eapply IH; [|exact H2].
    unfold process_read in H1.
    eapply process_lines_inv; [|exact H1].
    eapply stream_inv_ext; [..|exact Hinv]; done.
Qed.

(** The end of the stream completes the grammar. *)
Lemma finish_grammar evs st :
  stream_inv messageId originalModel evs st →
  ∃ it body n,
    evs ++ finish messageId originalModel st
    = message_start messageId originalModel it
        :: body ++ [message_delta (stopReason st) (outputTokens st);
                    message_stop]
    ∧ blocks_from 0 body n.
Proof.
  unfold stream_inv, finish. destruct (hasEmittedStart st); simpl.
  - intros (it & body & -> & Hb).
    pose proof (close_ok body st (flush_signature st) Hb (or_intror eq_refl))
      as Hcl.
    unfold close_block in Hcl.
    destruct (currentBlockType st) as [ty|] eqn:Hty; simpl in Hcl.
    + exists it, (body ++ flush_signature st ++ [content_block_stop (blockIndex st)]),
        (S (blockIndex st)).
      split; [|done]. simpl. by rewrite <- ?app_assoc.
    + unfold flush_signature in Hcl. rewrite Hty in Hcl. simpl in Hcl.
      rewrite app_nil_r in Hcl. exists it, body, (blockIndex st). done.
  - intros (-> & _ & _).
    exists (inputTokens st),
      [content_block_start 0 text_block;
       content_block_delta 0 (text_delta no_response);
       content_block_stop 0], 1%nat.
    split; [done|].
    apply (blocks_more 0 text_block [text_delta no_response] [] 1).
    constructor.
Qed.

(** A stream whose decoded lines have no parts yields nothing before its
    end and never emits [message_start] in the loop. *)
Lemma process_lines_no_parts lines : ∀ st evs st',
  (∀ s c, decode s = Some c → parts c = []) →
  process_lines messageId originalModel randomToolId decode st lines = (evs, st') →
  evs = [] ∧ hasEmittedStart st' = hasEmittedStart st.
Proof.
  induction lines as [|l lines IH]; intros st evs st' Hd Hl; simpl in Hl.
  - by injection Hl as <- <-.
  - destruct (process_line _ _ _ _ st l) as [evs1 st1] eqn:H1.
    destruct (process_lines _ _ _ _ st1 lines) as [evs2 st2] eqn:H2.
    injection Hl as <- <-.
    destruct (IH _ _ _ Hd H2) as [-> Hs2].
    assert (H : evs1 = [] ∧ hasEmittedStart st1 = hasEmittedStart st).
    { unfold process_line in H1.
      destruct (negb (String.prefix "data:" l)); [by injection H1 as <- <-|].
      destruct (negb (truthy_str _)); [by injection H1 as <- <-|].
      destruct (decode _) as [c|] eqn:Hc; [|by injection H1 as <- <-].
      unfold emit_start in H1. rewrite (Hd _ _ Hc) in H1. simpl in H1.
      rewrite andb_false_r in H1. simpl in H1. injection H1 as <- <-.
      split; [done|].
      unfold check_finish, read_usage.
      destruct (finishReason c) as [r|], (usageMetadata c); try done;
        destruct (truthy_str r); try done;
        destruct (bool_decide (r = "MAX_TOKENS")); try done;
        destruct (bool_decide (r = "STOP")); done. }
    destruct H as [-> Hs1]. split; [done|congruence].
Qed.

Lemma read_loop_no_parts reads : ∀ st evs st',
  (∀ s c, decode s = Some c → parts c = []) →
  read_loop messageId originalModel randomToolId decode st reads = (evs, st') →
  evs = [] ∧ hasEmittedStart st' = hasEmittedStart st.
Proof.
  induction reads as [|v reads IH]; intros st evs st' Hd Hl; simpl in Hl.
  - by injection Hl as <- <-.
  - destruct (process_read _ _ _ _ st v) as [evs1 st1] eqn:H1.
    destruct (read_loop _ _ _ _ st1 reads) as [evs2 st2] eqn:H2.
    injection Hl as <- <-.
    destruct (IH _ _ _ Hd H2) as [-> Hs2].
    unfold process_read in H1.
    destruct (process_lines_no_parts _ _ _ _ Hd H1) as [-> Hs1].
    split; [done|]. by rewrite Hs2, Hs1.
Qed.


End Stream.

End StreamerProperties.

(* ===================================================================== *)
(** * The claims on concrete inputs *)
(* ===================================================================== *)

Module Instances.
Import JS RateLimitParser AccountManager CloudCode Server Samples.

(** ** The account pool *)

(** With the first account rate-limited until 5000, the selection at time
    1000 returns the second account. *)
Example pickNext_pool_two :
  (pickNext 1000 pool_two).1
  = Some (set_lastUsed 1000 (acct "b@example.com" false None false)).
Proof. by vm_compute. Qed.

(** At time 5000 the limit of the first account has expired: it is cleared
    and the account is selected. *)
Example pickNext_pool_two_expired :
  (pickNext 5000 pool_two).1
  = Some (set_lastUsed 5000 (acct "a@example.com" false None false)).
Proof. by vm_compute. Qed.

Lemma pickNext_selection_availability_witness :
  ∃ a', (pickNext 1000 pool_two).1 = Some a' ∧
        isInvalid a' = false ∧ isRateLimited a' = false ∧
        availableAt 1000 a' = true ∧
        a' ∈ accounts (pickNext 1000 pool_two).2 ∧
        ∃ a0, a0 ∈ accounts pool_two ∧ availableAt 1000 a0 = true ∧
              email a' = email a0.
Proof.
  apply (proj1 (PoolProperties.pickNext_selection_availability 1000 pool_two)).
  exists (acct "b@example.com" false None false).
  split; [right; left | reflexivity].
Defined.

Lemma markRateLimited_overwrites_witness :
  resetTimeOf "a@example.com"
    (markRateLimited 10000 1000 "a@example.com" (Some (Num 60000)) pool_free)
  = Some 61000
  ∧ resetTimeOf "a@example.com"
      (markRateLimited 10000 2000 "a@example.com" (Some (Num 60000))
         (markRateLimited 10000 1000 "a@example.com" (Some (Num 60000))
            pool_free))
    = Some 62000.
Proof.
  apply (PoolProperties.markRateLimited_overwrites 10000 1000 1000
           "a@example.com" (Some (Num 60000)) pool_free).
  exists (acct "a@example.com" false None false).
  split; [left | reflexivity].
Defined.

(** C2 fails on the code: a second mark one second after the first, within
    a window of five seconds, moves the reset time from 61000 to 62000. *)
Lemma no_double_cooldown_fails : ¬ no_double_cooldown 10000 5000.
Proof.
  intros H.
  assert (62000 ≤ 61000); [|lia].
  apply (H 1000 1000 "a@example.com" (Some (Num 60000)) pool_free).
  - lia.
  - exists (acct "a@example.com" false None false). split; [left | reflexivity].
  - by vm_compute.
  - by vm_compute.
Qed.

Lemma mark_unknown_email_noop_witness :
  markRateLimited 10000 1000 "nobody@example.com" (Some (Num 60000)) pool_two
  = pool_two
  ∧ markInvalid 1000 "nobody@example.com" "invalid_grant" pool_two = pool_two
  ∧ accounts (markRateLimited 10000 1000 "nobody@example.com"
                (Some (Num 60000)) pool_two) = accounts pool_two
  ∧ accounts (markInvalid 1000 "nobody@example.com" "invalid_grant" pool_two)
    = accounts pool_two
  ∧ disk (markRateLimited 10000 1000 "nobody@example.com"
            (Some (Num 60000)) pool_two) = disk pool_two
  ∧ disk (markInvalid 1000 "nobody@example.com" "invalid_grant" pool_two)
    = disk pool_two.
Proof.
  apply (PoolProperties.mark_unknown_email_noop 10000 1000 "nobody@example.com"
           (Some (Num 60000)) "invalid_grant" pool_two).
  intros a Ha.
  apply elem_of_cons in Ha as [->|Ha]; [discriminate|].
  apply elem_of_cons in Ha as [->|Ha]; [discriminate|].
  by apply elem_of_nil in Ha.
Defined.

(** A mark of a known account does write the config file. *)
Example markRateLimited_known_writes :
  length (disk (markRateLimited 10000 1000 "a@example.com" None pool_two))
  = 1%nat.
Proof. by vm_compute. Qed.

(** ** The start of a request and the all-limited policy *)


(** A single account whose reset is 60 seconds ahead: the pass sleeps for
    60000 ms and returns the account. *)
Example acquireAccount_sleeps :
  let p := acquireAccount 10000 iso_sample 40000 pool_limited in
  sleeps p = [60000] ∧ clock_after p = 100000 ∧
  outcome p = Use (set_lastUsed 100000 (acct "a@example.com" false None false)).
Proof. by vm_compute. Qed.

(** Two accounts, both rate-limited, the nearer reset 4000 ms ahead: the
    pass throws without sleeping. *)
Example acquireAccount_multi_fails_fast :
  let m := pool [acct "a@example.com" true (Some 5000) false;
                 acct "b@example.com" true (Some 9000) false] in
  let p := acquireAccount 10000 iso_sample 1000 m in
  sleeps p = [] ∧
  outcome p = Throw (msg_all_limited 2 4000 (iso_sample 5000)).
Proof. by vm_compute. Qed.

Lemma startRequest_clears_all_witness :
  ∃ a', (firstSelection 1000 pool_limited).1 = Some a' ∧ usable a' = true ∧
        ∃ a0, a0 ∈ accounts pool_limited ∧ isInvalid a0 = false ∧
              email a' = email a0.
Proof.
  destruct (PolicyProperties.startRequest_clears_all 1000 pool_limited)
    as (_ & _ & _ & H & _).
  apply H.
  exists (acct "a@example.com" true (Some 100000) false).
  split; [left | reflexivity].
Defined.

(** C4 fails on the code: an account rate-limited until 100000 is no
    longer flagged after the start of a request at time 1000. *)
Lemma only_expired_cleared_fails : ¬ only_expired_cleared.
Proof.
  intros H.
  destruct (H 1000 pool_limited (acct "a@example.com" true (Some 100000) false)
              100000) as [H1 _].
  - left.
  - reflexivity.
  - reflexivity.
  - lia.
  - specialize (H1 (acct "a@example.com" false None false)).
    discriminate H1; [left | reflexivity].
Qed.

(** ** The rate-limit parser *)


(** The headers are consulted in order: a [retry-after] of 0 is not a hit,
    so [x-ratelimit-reset-after] decides. *)
Example parseResetTime_second_source :
  parseResetTime no_date 0
    (Response {[ "retry-after" := "0"; "x-ratelimit-reset-after" := "30" ]})
    "retry after 5 seconds"
  = Some (Num 30000).
Proof. by vm_compute. Qed.

Lemma parseResetTime_sign_witness :
  nonneg (parseResetTime no_date 0 (Response {[ "retry-after" := "0" ]}) "").
Proof.
  destruct (ParserProperties.parseResetTime_sign no_date 0
              (Response {[ "retry-after" := "0" ]}) "") as (H & _).
  - intros h v z Hr Hv Hp. injection Hr as <-.
    rewrite lookup_singleton_eq in Hv. injection Hv as <-.
    vm_compute in Hp. injection Hp as <-. lia.
  - exact H.
Defined.

(** C6 fails on the code: a lone [retry-after: 0] header gives 0, which is
    neither [null] nor strictly positive. *)
Lemma always_null_or_positive_fails : ¬ always_null_or_positive.
Proof.
  intros H.
  destruct (H no_date 0 (Response {[ "retry-after" := "0" ]}) "")
    as [H0|(z & H0 & Hz)]; vm_compute in H0.
  - discriminate.
  - injection H0 as <-. lia.
Qed.

(** An integer [retry-after] header is not tested for its sign. *)
Example parseResetTime_negative_retry_after :
  parseResetTime no_date 0 (Response {[ "retry-after" := "-5" ]}) ""
  = Some (Num (-5000)).
Proof. by vm_compute. Qed.

(** ** The streamer *)

Import Streamer.

(** The third scenario of the specification: two thoughts, the second
    with a signature, then a text, then the finish reason. *)
Example streamSSEResponse_thinking :
  streamSSEResponse "msg_0" "claude-opus-4-5-thinking" tool_id_sample
    decode_sample [line "data: A"; line "data: B"]
  = [message_start "msg_0" "claude-opus-4-5-thinking" 0;
     content_block_start 0 thinking_block;
     content_block_delta 0 (thinking_delta (Str "planning"));
     content_block_delta 0 (thinking_delta (Str " more"));
     content_block_delta 0 (signature_delta signature50);
     content_block_stop 0;
     content_block_start 1 text_block;
     content_block_delta 1 (text_delta "answer");
     content_block_stop 1;
     message_delta "end_turn" 0;
     message_stop].
Proof. by vm_compute. Qed.

(** The same events when the body arrives cut in the middle of a line. *)
Example streamSSEResponse_split_reads :
  streamSSEResponse "msg_0" "claude-opus-4-5-thinking" tool_id_sample
    decode_sample ["da"; line "ta: A" +:+ "data:"; line " B"]
  = streamSSEResponse "msg_0" "claude-opus-4-5-thinking" tool_id_sample
      decode_sample [line "data: A"; line "data: B"].
Proof. by vm_compute. Qed.


(** ** The generation config *)

Import RequestConverter.

Lemma claude_thinking_max_tokens_witness :
  maxOutputTokens
    (convertAnthropicToGoogle_generationConfig family_claude thinking_always
       65536 (request_budget 10000 4096))
  = Some 18192.
Proof.
  destruct (ConverterProperties.claude_thinking_max_tokens family_claude
              thinking_always 65536 (request_budget 10000 4096)
              eq_refl eq_refl) as (H & _).
  apply (H 10000 4096); [reflexivity | lia | reflexivity | lia | lia].
Defined.

(** C8 fails on the code: with a budget of 1000 and [max_tokens] of 4096
    the budget is within [max_tokens], and [max_tokens] stays 4096. *)
Lemma raises_when_budget_within_max_fails :
  ¬ raises_when_budget_within_max family_claude thinking_always 65536.
Proof.
  intros H.
  specialize (H (request_budget 1000 4096) 1000 4096 eq_refl eq_refl eq_refl).
  assert (H' := H ltac:(lia) eq_refl ltac:(lia)).
  vm_compute in H'. discriminate H'.
Qed.

(** ** The error boundary *)

(** A RESOURCE_EXHAUSTED error whose text holds no [401] is reported with
    status 400, type [invalid_request_error] and the reset duration. *)
Example parseError_rate_limit :
  parseError
    (msg_too_long 180000 "2026-01-01T00:03:00.000Z")
  = ParsedError "invalid_request_error" 400
      "You have exhausted your capacity on the model. Quota will reset after 3m0s.".
Proof. by vm_compute. Qed.

(** C9 (the code departs from the claim).  The claim: a request that fails
    with a rate-limit error is reported with status 400 and type
    [invalid_request_error].  The code: [parseError] tests for the text
    [401] before it tests for RESOURCE_EXHAUSTED, so the error that
    [sendMessage] throws for a pool with one account, rate-limited for three
    minutes, with a reset time that ends in 401 milliseconds, is reported
    with status 401 and type [authentication_error]. *)
Theorem parseError_rate_limit_as_auth :
  outcome (acquireAccount 10000 iso_sample clock_sample pool_limited_long)
  = Throw message_401
  ∧ includes message_401 "RESOURCE_EXHAUSTED" = true
  ∧ parseError message_401
    = ParsedError "authentication_error" 401
        "Authentication failed. Make sure Antigravity is running with a valid token.".
Proof. by vm_compute. Qed.

End Instances.

(* ===================================================================== *)
(** ** Strings: [includes], prefixes and concatenation *)
(* ===================================================================== *)

Module StringFacts.
Import JS.

Lemma prefix_app (sub s : string) : String.prefix sub (sub +:+ s) = true.
Proof.
  induction sub as [|c sub IH]; simpl.
  - by destruct s.
  - destruct (Ascii.ascii_dec c c); [done | congruence].
Qed.

Lemma prefix_app_l (sub s b : string) :
  String.prefix sub s = true → String.prefix sub (s +:+ b) = true.
Proof.
  revert s. induction sub as [|c sub IH]; intros s H; simpl in *.
  - by destruct (s +:+ b).
  - destruct s as [|d s]; [discriminate|]. simpl in *.
    destruct (Ascii.ascii_dec c d); [by apply IH | discriminate].
Qed.

Lemma prefix_split (sub s : string) :
  String.prefix sub s = true → ∃ b, s = sub +:+ b.
Proof.
  revert s. induction sub as [|c sub IH]; intros s H; simpl in *.
  - by exists s.
  - destruct s as [|d s]; [discriminate|]. simpl in H.
    destruct (Ascii.ascii_dec c d) as [->|]; [|discriminate].
    destruct (IH _ H) as [b ->]. by exists b.
Qed.

Lemma includes_nil (sub : string) :
  includes EmptyString sub = String.prefix sub EmptyString.
Proof. simpl. by rewrite orb_false_r. Qed.

Lemma includes_cons (c : ascii) (s sub : string) :
  includes (String c s) sub
  = String.prefix sub (String c s) || includes s sub.
Proof. reflexivity. Qed.

Lemma includes_prefix (s sub : string) :
  String.prefix sub s = true → includes s sub = true.
Proof.
  intros H. destruct s; [by rewrite includes_nil|].
  by rewrite includes_cons, H.
Qed.

Lemma includes_app_r (a s sub : string) :
  includes s sub = true → includes (a +:+ s) sub = true.
Proof.
  intros H. induction a as [|c a IH]; [done|].
  change (String c a +:+ s) with (String c (a +:+ s)).
  rewrite includes_cons, IH. apply orb_true_r.
Qed.

Lemma includes_app_l (s b sub : string) :
  includes s sub = true → includes (s +:+ b) sub = true.
Proof.
  induction s as [|c s IH]; intros H.
  - rewrite includes_nil in H. destruct sub; [|discriminate].
    apply includes_prefix. by destruct (EmptyString +:+ b).
  - rewrite includes_cons in H.
    change (String c s +:+ b) with (String c (s +:+ b)).
    rewrite includes_cons.
    apply orb_true_iff in H as [H|H].
    + apply (prefix_app_l _ (String c s) b) in H.
      change (String c s +:+ b) with (String c (s +:+ b)) in H.
      by rewrite H.
    + rewrite (IH H). apply orb_true_r.
Qed.

Lemma includes_mid (a sub b : string) : includes (a +:+ sub +:+ b) sub = true.
Proof. apply includes_app_r, includes_prefix, prefix_app. Qed.

Lemma includes_split (s sub : string) :
  includes s sub = true → ∃ a b, s = a +:+ sub +:+ b.
Proof.
  induction s as [|c s IH]; intros H.
  - rewrite includes_nil in H. destruct sub; [|discriminate].
    by exists EmptyString, EmptyString.
  - rewrite includes_cons in H. apply orb_true_iff in H as [H|H].
    + apply prefix_split in H as [b Hb]. exists EmptyString, b. by rewrite Hb.
    + destruct (IH H) as (a & b & ->). by exists (String c a), b.
Qed.

Lemma includes_iff (s sub : string) :
  includes s sub = true ↔ ∃ a b, s = a +:+ sub +:+ b.
Proof.
  split; [apply includes_split|]. intros (a & b & ->). apply includes_mid.
Qed.

Lemma append_cons (c : ascii) (a b : string) :
  String c a +:+ b = String c (a +:+ b).
Proof. reflexivity. Qed.

Lemma append_assoc (a b c : string) : (a +:+ b) +:+ c = a +:+ (b +:+ c).
Proof.
  induction a as [|x a IH]; [done|]. by rewrite !append_cons, IH.
Qed.

Lemma append_nil_r (a : string) : a +:+ EmptyString = a.
Proof.
  induction a as [|x a IH]; [done|]. by rewrite append_cons, IH.
Qed.

End StringFacts.

(* ===================================================================== *)
(** * More properties of the account pool *)
(* ===================================================================== *)

Module PoolExtras.
Import JS AccountManager PoolMore PoolProperties.

Lemma expired_clear_one now a : expired now (clear_one now a) = false.
Proof.
  unfold clear_one. destruct (expired now a) eqn:E; [done|exact E].
Qed.

Lemma clear_one_not_expired now a : expired now a = false → clear_one now a = a.
Proof. unfold clear_one. by intros ->. Qed.

Lemma filter_length_zero_iff {A} (P : A → Prop) `{∀ x, Decision (P x)}
    (l : list A) :
  length (filter P l) = 0%nat ↔ Forall (λ x, ¬ P x) l.
Proof.
  induction l as [|x l IH]; [by split|].
  rewrite filter_cons. destruct (decide (P x)) as [Hx|Hx]; simpl.
  - split; [lia|]. intros HF. apply Forall_cons in HF as [HF _]. done.
  - rewrite IH. split; [by constructor | by intros [_ ?]%Forall_cons].
Qed.

(** X1. [clearExpiredLimits] returns the number of expired entries; it
    writes the config file exactly when that number is not zero, and then
    writes the accounts as they are after the clearing; afterwards no entry
    is expired, so that a second call at the same time clears nothing and
    writes nothing. *)
Theorem clearExpiredLimits_idempotent (now : Z) (m : manager) :
  let r := clearExpiredLimits now m in
  r.1 = length (filter (λ a, expired now a = true) (accounts m))
  ∧ Forall (λ a, expired now a = false) (accounts r.2)
  ∧ (r.1 = 0%nat → r.2 = m)
  ∧ ((0 < r.1)%nat →
     disk r.2 = Config (accounts r.2) (currentIndex m) :: disk m)
  ∧ clearExpiredLimits now r.2 = (0%nat, r.2).
Proof.
  intros r.
  assert (Hacc : accounts r.2 = clear_one now <$> accounts m)
    by apply clearExpired_accounts.
  assert (Hexp : Forall (λ a, expired now a = false) (accounts r.2)).
  { rewrite Hacc. apply Forall_fmap, Forall_forall. intros a _.
    apply expired_clear_one. }
  split; [done|]. split; [done|]. split; [|split].
  - subst r. unfold clearExpiredLimits. simpl. intros H0.
    rewrite H0. simpl.
    apply filter_length_zero_iff in H0.
    rewrite clear_none_fmap; [by destruct m|].
    eapply Forall_impl; [exact H0|]. intros a Ha. simpl in Ha.
    by destruct (expired now a).
  - subst r. unfold clearExpiredLimits. simpl. intros Hpos.
    apply Nat.ltb_lt in Hpos. rewrite Hpos. done.
  - by apply clearExpired_none.
Qed.

(** X2. [clearExpiredLimits] keeps the length and the order of the pool
    and only touches expired entries: the account at each position is the
    one that was there, with [isRateLimited] and [rateLimitResetTime]
    cleared if its limit had expired and unchanged otherwise; the cursor
    and the settings are kept. *)
Theorem clearExpiredLimits_frame (now : Z) (m : manager) :
  let m' := (clearExpiredLimits now m).2 in
  length (accounts m') = length (accounts m)
  ∧ currentIndex m' = currentIndex m
  ∧ cooldownDurationMs m' = cooldownDurationMs m
  ∧ ∀ i a, accounts m !! i = Some a →
      (expired now a = false → accounts m' !! i = Some a)
      ∧ (expired now a = true →
         accounts m' !! i = Some (set_rateLimit false None a))
      ∧ ∃ a', accounts m' !! i = Some a' ∧ email a' = email a ∧
              isInvalid a' = isInvalid a ∧ lastUsed a' = lastUsed a ∧
              source a' = source a.
Proof.
  intros m'.
  assert (Hacc : accounts m' = clear_one now <$> accounts m)
    by apply clearExpired_accounts.
  split; [by rewrite Hacc, length_fmap|].
  split; [apply clearExpired_index|].
  split; [subst m'; unfold clearExpiredLimits; simpl;
          by destruct (0 <? _)%nat|].
  intros i a Hi. rewrite Hacc, list_lookup_fmap, Hi. simpl.
  unfold clear_one. split; [by intros ->|]. split; [by intros ->|].
  eexists. split; [done|]. by destruct (expired now a).
Qed.

(** What the loop of [pickNext] does, exactly. *)
Lemma pickNext_loop_spec now m k : ∀ i,
  (0 < length (accounts m))%nat →
  match pickNext_loop now m i k with
  | (Some a', m') =>
      ∃ j a0,
        (i ≤ j < i + k)%nat ∧
        accounts m !! ((currentIndex m + j) mod length (accounts m))%nat
        = Some a0 ∧
        usable a0 = true ∧
        (∀ j', (i ≤ j' < j)%nat →
           ∃ b, accounts m !! ((currentIndex m + j') mod length (accounts m))%nat
                = Some b ∧ usable b = false) ∧
        a' = set_lastUsed now a0 ∧
        m' = set_currentIndex
               (((currentIndex m + j) mod length (accounts m) + 1)
                  mod length (accounts m))%nat
               (set_accounts
                  (<[((currentIndex m + j) mod length (accounts m))%nat := a']>
                     (accounts m)) m)
  | (None, m') =>
      m' = m ∧
      ∀ j, (i ≤ j < i + k)%nat →
        ∃ b, accounts m !! ((currentIndex m + j) mod length (accounts m))%nat
             = Some b ∧ usable b = false
  end.
Proof.
  induction k as [|k IH]; intros i Hn; simpl.
  - split; [done|]. intros j Hj. lia.
  - set (idx := ((currentIndex m + i) mod length (accounts m))%nat).
    assert (Hlt : (idx < length (accounts m))%nat)
      by (apply Nat.mod_upper_bound; lia).
    destruct (lookup_lt_is_Some_2 _ _ Hlt) as [b Hb]. rewrite Hb.
    destruct (usable b) eqn:Hub.
    + exists i, b. fold idx.
      repeat split; try done; try lia; intros j' Hj'; lia.
    + specialize (IH (S i) Hn).
      destruct (pickNext_loop now m (S i) k) as [[a'|] m'].
      * destruct IH as (j & a0 & Hj & Ha0 & Hu & Hbefore & Ha' & Hm').
        exists j, a0. repeat split; try done; try lia.
        intros j' Hj'. destruct (decide (j' = i)) as [->|Hne].
        -- exists b. by fold idx.
        -- apply Hbefore. lia.
      * destruct IH as [-> Hall]. split; [done|].
        intros j Hj. destruct (decide (j = i)) as [->|Hne].
        -- exists b. by fold idx.
        -- apply Hall. lia.
Qed.

(** X3. [pickNext] is a round-robin scan from the cursor: the account it
    returns is the first usable one at or after the cursor, in cyclic
    order, after the expired limits were cleared; only its [lastUsed]
    changes, the cursor moves just past it and stays inside the pool.
    When it returns [null], nothing changes but the clearing of expired
    limits. *)
Theorem pickNext_round_robin (now : Z) (m : manager) :
  let m1 := (clearExpiredLimits now m).2 in
  let n := length (accounts m) in
  match pickNext now m with
  | (Some a', m') =>
      ∃ j a0,
        (j < n)%nat ∧
        accounts m1 !! ((currentIndex m + j) mod n)%nat = Some a0 ∧
        usable a0 = true ∧
        (∀ j', (j' < j)%nat →
           ∃ b, accounts m1 !! ((currentIndex m + j') mod n)%nat = Some b ∧
                usable b = false) ∧
        a' = set_lastUsed now a0 ∧
        accounts m' = <[((currentIndex m + j) mod n)%nat := a']> (accounts m1) ∧
        currentIndex m' = (((currentIndex m + j) mod n + 1) mod n)%nat ∧
        (currentIndex m' < n)%nat ∧
        disk m' = disk m1
  | (None, m') => m' = m1
  end.
Proof.
  intros m1 n. unfold pickNext. fold m1.
  assert (Hlen : length (accounts m1) = n)
    by (subst m1 n; by rewrite clearExpired_accounts, length_fmap).
  assert (Hcur : currentIndex m1 = currentIndex m) by apply clearExpired_index.
  destruct (length (getAvailableAccounts m1) =? 0)%nat eqn:Hav; [done|].
  assert (Hn : (0 < n)%nat).
  { apply Nat.eqb_neq in Hav. unfold getAvailableAccounts in Hav.
    destruct (accounts m1) as [|x l] eqn:E; [done|]. simpl in Hlen. lia. }
  pose proof (pickNext_loop_spec now m1 (length (accounts m1)) 0
                ltac:(lia)) as H.
  destruct (pickNext_loop now m1 0 (length (accounts m1))) as [[a'|] m'].
  - destruct H as (j & a0 & Hj & Ha0 & Hu & Hbefore & Ha' & Hm').
    rewrite Hlen, Hcur in *.
    exists j, a0. repeat split; try done; try lia.
    + intros j' Hj'. apply Hbefore. lia.
    + by rewrite Hm'.
    + by rewrite Hm'.
    + rewrite Hm'. simpl. apply Nat.mod_upper_bound. lia.
    + by rewrite Hm'.
  - by destruct H as [-> _].
Qed.

(** When [pickNext] returns [null], it leaves the manager as
    [clearExpiredLimits] left it. *)
Lemma pickNext_none_manager now m :
  (pickNext now m).1 = None →
  (pickNext now m).2 = (clearExpiredLimits now m).2.
Proof.
  unfold pickNext.
  set (m1 := (clearExpiredLimits now m).2).
  destruct (length (getAvailableAccounts m1) =? 0)%nat eqn:Hav; [done|].
  assert (Hn : (0 < length (accounts m1))%nat).
  { apply Nat.eqb_neq in Hav. unfold getAvailableAccounts in Hav.
    destruct (accounts m1) as [|x l]; [done|]. simpl. lia. }
  pose proof (pickNext_loop_spec now m1 (length (accounts m1)) 0 Hn) as H.
  destruct (pickNext_loop now m1 0 (length (accounts m1))) as [[a'|] m'];
    [done|]. by destruct H as [-> _].
Qed.

(** A pool in which every account is usable. *)
Lemma pickNext_all_usable now m :
  (0 < length (accounts m))%nat →
  Forall (λ a, usable a = true) (accounts m) →
  ∃ a0,
    accounts m !! (currentIndex m mod length (accounts m))%nat = Some a0 ∧
    pickNext now m
    = (Some (set_lastUsed now a0),
       set_currentIndex
         ((currentIndex m mod length (accounts m) + 1)
            mod length (accounts m))%nat
         (set_accounts
            (<[(currentIndex m mod length (accounts m))%nat
               := set_lastUsed now a0]> (accounts m)) m)).
Proof.
  intros Hn Hall.
  assert (Hne : Forall (λ a, expired now a = false) (accounts m)).
  { eapply Forall_impl; [exact Hall|]. intros a Ha. simpl in Ha.
    unfold usable in Ha. unfold expired.
    destruct (isRateLimited a); [done|done]. }
  unfold pickNext. rewrite (clearExpired_none now m Hne). simpl.
  assert (Hlt : (currentIndex m mod length (accounts m)
                 < length (accounts m))%nat)
    by (apply Nat.mod_upper_bound; lia).
  destruct (lookup_lt_is_Some_2 _ _ Hlt) as [a0 Ha0].
  exists a0. split; [done|].
  assert (Hu : usable a0 = true).
  { rewrite Forall_forall in Hall. apply Hall.
    apply list_elem_of_lookup. eauto. }
  assert (Hav : (length (getAvailableAccounts m) =? 0)%nat = false).
  { apply Nat.eqb_neq. unfold getAvailableAccounts.
    assert (Hin : a0 ∈ filter (λ acc, usable acc = true) (accounts m)).
    { apply list_elem_of_filter. split; [done|].
      apply list_elem_of_lookup. eauto. }
    destruct (filter _ _); [by apply elem_of_nil in Hin | done]. }
  rewrite Hav.
  pose proof (pickNext_loop_spec now m (length (accounts m)) 0 Hn) as H.
  destruct (pickNext_loop now m 0 (length (accounts m))) as [[a'|] m'].
  - destruct H as (j & a1 & Hj & Ha1 & _ & Hbefore & -> & ->).
    destruct j as [|j].
    + rewrite Nat.add_0_r in *. rewrite Ha0 in Ha1. by injection Ha1 as <-.
    + destruct (Hbefore 0%nat ltac:(lia)) as (b & Hb & Hbu).
      rewrite Nat.add_0_r, Ha0 in Hb. injection Hb as <-. congruence.
  - destruct H as [_ Hall0].
    destruct (Hall0 0%nat ltac:(lia)) as (b & Hb & Hbu).
    rewrite Nat.add_0_r, Ha0 in Hb. injection Hb as <-. congruence.
Qed.

Lemma insert_lastUsed_lookup (l : list account) i t a0 j b :
  l !! i = Some a0 →
  <[i := set_lastUsed t a0]> l !! j = Some b →
  ∃ b0, l !! j = Some b0 ∧ email b = email b0 ∧ usable b = usable b0.
Proof.
  intros Hi Hj. destruct (decide (i = j)) as [->|Hne].
  - rewrite list_lookup_insert_eq in Hj by (eapply lookup_lt_Some; eauto).
    injection Hj as <-. by exists a0.
  - rewrite list_lookup_insert_ne in Hj by done. by exists b.
Qed.

Lemma cursor_step (c n k : nat) :
  (0 < n)%nat → (((c mod n + 1) mod n + k) mod n = (c + S k) mod n)%nat.
Proof.
  intros Hn.
  rewrite Nat.Div0.add_mod_idemp_l.
  replace (c mod n + 1 + k)%nat with (c mod n + S k)%nat by lia.
  by rewrite Nat.Div0.add_mod_idemp_l.
Qed.

(** X4. Round robin: in a pool whose accounts are all usable, the k-th of
    any number of successive selections returns the account that is k
    places after the cursor, in cyclic order, and stamps it with the time
    of that selection; so N successive selections use each of the N
    accounts once. *)
Theorem pickMany_cycles (times : list Z) (m : manager) :
  (0 < length (accounts m))%nat →
  Forall (λ a, usable a = true) (accounts m) →
  ∀ k t, times !! k = Some t →
    ∃ a a0,
      (pickMany times m).1 !! k = Some (Some a) ∧
      accounts m !! ((currentIndex m + k) mod length (accounts m))%nat
      = Some a0 ∧
      email a = email a0 ∧ lastUsed a = Some t.
Proof.
  revert m. induction times as [|t0 times IH]; intros m Hn Hall k t Hk;
    [done|].
  destruct (pickNext_all_usable t0 m Hn Hall) as (a0 & Ha0 & Hpick).
  simpl. rewrite Hpick.
  set (m1 := set_currentIndex _ _) in *.
  destruct (pickMany times m1) as [picked m2] eqn:Hmany. simpl.
  destruct k as [|k].
  - injection Hk as <-. exists (set_lastUsed t0 a0), a0.
    by rewrite Nat.add_0_r.
  - simpl in Hk.
    assert (Hlen1 : length (accounts m1) = length (accounts m))
      by (subst m1; simpl; by rewrite length_insert).
    assert (Hall1 : Forall (λ a, usable a = true) (accounts m1)).
    { apply Forall_forall. intros b Hb.
      apply list_elem_of_lookup in Hb as [j Hj].
      subst m1. simpl in Hj.
      destruct (insert_lastUsed_lookup _ _ _ _ _ _ Ha0 Hj) as (b0 & Hb0 & _ & ->).
      rewrite Forall_forall in Hall. apply Hall.
      apply list_elem_of_lookup. eauto. }
    destruct (IH m1 ltac:(lia) Hall1 k t Hk) as (a & a1 & Hpk & Ha1 & He & Hlu).
    rewrite Hmany in Hpk. simpl in Hpk.
    rewrite Hlen1 in Ha1.
    assert (Hidx : ((currentIndex m1 + k) mod length (accounts m)
                    = (currentIndex m + S k) mod length (accounts m))%nat)
      by (subst m1; simpl; by apply cursor_step).
    rewrite Hidx in Ha1. subst m1. simpl in Ha1.
    destruct (insert_lastUsed_lookup _ _ _ _ _ _ Ha0 Ha1) as (b0 & Hb0 & Heb & _).
    exists a, b0. repeat split; try done. congruence.
Qed.

Section MarkThenPick.

Variable DEFAULT_COOLDOWN_MS : Z.

Lemma find_email_unique (l : list account) e i a j b :
  NoDup (email <$> l) →
  list_find (λ x, email x = e) l = Some (i, a) →
  l !! j = Some b → email b = e → j = i.
Proof.
  intros Hnd Hf Hj He.
  apply list_find_Some in Hf as (Hi & Hea & _).
  eapply (NoDup_lookup (email <$> l)); [done| |].
  - by rewrite list_lookup_fmap, Hj.
  - rewrite list_lookup_fmap, Hi. simpl. congruence.
Qed.

(** X5. Failover and recovery.  After [markRateLimited] of a known email
    with a positive cooldown, in a pool whose emails are distinct, no
    selection made before the reset time returns that account; from the
    reset time on, the account is available again if it is not invalid, and
    a selection returns some account. *)
Theorem markRateLimited_then_pickNext (now now' : Z) (e : string)
    (r : nullable_num) (m : manager) (i : nat) (a : account) :
  NoDup (email <$> accounts m) →
  list_find (λ x, email x = e) (accounts m) = Some (i, a) →
  0 < cooldownMs DEFAULT_COOLDOWN_MS r m →
  let m1 := markRateLimited DEFAULT_COOLDOWN_MS now e r m in
  let t := now + cooldownMs DEFAULT_COOLDOWN_MS r m in
  (now' < t → ∀ a', (pickNext now' m1).1 = Some a' → email a' ≠ e)
  ∧ (t ≤ now' → t ≠ 0 → isInvalid a = false →
     availableAt now' (set_rateLimit true (Some t) a) = true ∧
     ∃ a', (pickNext now' m1).1 = Some a').
Proof.
  intros Hnd Hf Hc m1 t.
  assert (Hacc1 : accounts m1 = <[i := set_rateLimit true (Some t) a]> (accounts m)).
  { subst m1. unfold markRateLimited. by rewrite Hf. }
  pose proof Hf as Hf'. apply list_find_Some in Hf' as (Hi & He & _).
  assert (Hilt : (i < length (accounts m))%nat) by (eapply lookup_lt_Some; eauto).
  split.
  - intros Hlt a' Hpick Hea.
    pose proof (pickNext_result now' m1) as H. rewrite Hpick in H.
    destruct H as (idx & a0 & Hidx & Hav & -> & _).
    change (email (clear_one now' a0) = e) in Hea.
    rewrite email_clear_one in Hea.
    rewrite Hacc1 in Hidx.
    destruct (decide (idx = i)) as [->|Hne].
    + rewrite list_lookup_insert_eq in Hidx by done. injection Hidx as <-.
      unfold availableAt, rateLimitedAt, expired in Hav. simpl in Hav.
      assert (E : (t <=? now') = false) by (apply Z.leb_gt; lia).
      rewrite E, andb_false_r in Hav. simpl in Hav.
      by rewrite andb_false_r in Hav.
    + rewrite list_lookup_insert_ne in Hidx by done.
      apply Hne. eapply find_email_unique; eauto.
  - intros Hle Ht0 Hinv.
    assert (Hav : availableAt now' (set_rateLimit true (Some t) a) = true).
    { unfold availableAt, rateLimitedAt, expired. simpl. rewrite Hinv. simpl.
      assert (E : (t <=? now') = true) by (apply Z.leb_le; lia).
      assert (E0 : negb (t =? 0) = true) by (apply negb_true_iff, Z.eqb_neq; lia).
      by rewrite E, E0. }
    split; [done|].
    pose proof (pickNext_result now' m1) as H.
    destruct ((pickNext now' m1).1) as [a'|]; [eauto|].
    rewrite Forall_forall in H.
    specialize (H (set_rateLimit true (Some t) a)).
    rewrite Hav in H. assert (true = false); [|done]. apply H.
    rewrite Hacc1. apply list_elem_of_lookup. exists i.
    by apply list_lookup_insert_eq.
Qed.


End MarkThenPick.

End PoolExtras.

(* ===================================================================== *)
(** * More properties of the acquisition of an account *)
(* ===================================================================== *)

Module PolicyExtras.
Import JS AccountManager PoolMore CloudCode PoolProperties PolicyProperties
  PoolExtras.

Lemma positive_wait_pos now a w : positive_wait now a = Some w → 0 < w.
Proof.
  unfold positive_wait. destruct (rateLimitResetTime a) as [t|]; [|done].
  destruct (negb (t =? 0)); [|done]. simpl.
  destruct (0 <? t - now) eqn:E; [|done].
  intros [= <-]. by apply Z.ltb_lt.
Qed.

Lemma isRateLimited_clear_one now a :
  isRateLimited (clear_one now a) = rateLimitedAt now a.
Proof.
  unfold clear_one, rateLimitedAt.
  destruct (expired now a) eqn:E; simpl; [by rewrite andb_false_r|].
  by rewrite andb_true_r.
Qed.

Section Acquire.

Variable DEFAULT_COOLDOWN_MS : Z.
Variable toISOString : Z → string.

Lemma isAllRateLimited_true m :
  Forall (λ a, isRateLimited a = true) (accounts m) → isAllRateLimited m = true.
Proof.
  intros Hall. unfold isAllRateLimited.
  destruct (length (accounts m) =? 0)%nat; [done|].
  apply forallb_forall. intros a Ha. rewrite Forall_forall in Hall.
  apply Hall. by apply list_elem_of_In.
Qed.

Lemma isAllRateLimited_Forall m :
  isAllRateLimited m = true → Forall (λ a, isRateLimited a = true) (accounts m).
Proof.
  unfold isAllRateLimited. intros Hall.
  destruct (accounts m) as [|x l] eqn:E; [constructor|].
  simpl length in Hall. simpl Nat.eqb in Hall.
  apply Forall_forall. intros a Ha. rewrite forallb_forall in Hall.
  apply Hall. by apply list_elem_of_In.
Qed.

(** The wait of a pool whose accounts are all flagged. *)
Lemma getMinWaitTimeMs_flagged now m :
  0 < DEFAULT_COOLDOWN_MS →
  Forall (λ a, isRateLimited a = true) (accounts m) →
  let w := getMinWaitTimeMs DEFAULT_COOLDOWN_MS now m in
  0 < w ∧
  (∀ a x, a ∈ accounts m → positive_wait now a = Some x → w ≤ x) ∧
  ((∃ a, a ∈ accounts m ∧ positive_wait now a = Some w)
   ∨ w = DEFAULT_COOLDOWN_MS).
Proof.
  intros HD Hall w. subst w. unfold getMinWaitTimeMs.
  rewrite (isAllRateLimited_true m Hall). simpl.
  destruct (minWait_fold now (accounts m) None) as (_ & F2 & F3).
  destruct (foldl _ _ _) as [r|] eqn:Hr.
  - destruct (F3 r eq_refl) as [|(a & Hin & Ha)]; [done|].
    split; [by eapply positive_wait_pos|]. split; [|eauto].
    intros b x Hb Hx. destruct (F2 b x Hb Hx) as (r' & [= <-] & Hle). done.
  - split; [done|]. split; [|by right].
    intros b x Hb Hx. destruct (F2 b x Hb Hx) as (r' & [=] & _).
Qed.

(** X7. The value of [getMinWaitTimeMs]: 0 as soon as one account is not
    flagged as rate-limited; otherwise the least positive wait among the
    accounts, or the default cooldown when no account has one.  With a
    positive default cooldown it is positive when the pool is empty or
    every account is flagged. *)
Theorem getMinWaitTimeMs_sign (now : Z) (m : manager) :
  0 < DEFAULT_COOLDOWN_MS →
  let w := getMinWaitTimeMs DEFAULT_COOLDOWN_MS now m in
  ((∃ a, a ∈ accounts m ∧ isRateLimited a = false) → w = 0)
  ∧ (Forall (λ a, isRateLimited a = true) (accounts m) →
     0 < w ∧
     (∀ a x, a ∈ accounts m → positive_wait now a = Some x → w ≤ x) ∧
     ((∃ a, a ∈ accounts m ∧ positive_wait now a = Some w)
      ∨ w = DEFAULT_COOLDOWN_MS)).
Proof.
  intros HD w. split; [|by apply getMinWaitTimeMs_flagged].
  subst w. unfold getMinWaitTimeMs.
  intros (a & Hin & Ha).
  assert (Hf : isAllRateLimited m = false).
  { apply not_true_is_false. intros Hf%isAllRateLimited_Forall.
    rewrite Forall_forall in Hf. specialize (Hf a Hin). congruence. }
  by rewrite Hf.
Qed.

(** What [pickNext] returns and the manager it leaves. *)
Lemma pickNext_none now m :
  (pickNext now m).1 = None →
  pickNext now m = (None, (clearExpiredLimits now m).2)
  ∧ Forall (λ a, availableAt now a = false) (accounts m).
Proof.
  intros Hn. pose proof (pickNext_result now m) as H.
  pose proof (pickNext_none_manager now m Hn) as H'.
  destruct (pickNext now m) as [[a'|] m'] eqn:E; [done|].
  simpl in *. by rewrite H'.
Qed.

Lemma pickNext_some now m a' :
  (pickNext now m).1 = Some a' →
  isInvalid a' = false ∧ isRateLimited a' = false ∧ lastUsed a' = Some now.
Proof.
  intros Hs. pose proof (pickNext_result now m) as H. rewrite Hs in H.
  destruct H as (idx & a0 & _ & Hav & -> & _).
  rewrite <- usable_clear_one in Hav. unfold usable in Hav.
  apply andb_true_iff in Hav as [H1 H2].
  apply negb_true_iff in H1, H2. done.
Qed.

(** X8. One pass of the acquisition sleeps at most once, and then only in
    a pool of one account and for a time that is positive and at most
    120000 ms; the clock moves by what was slept; an account it returns is
    neither invalid nor rate-limited and carries the time of its selection
    as [lastUsed]. *)
Theorem acquireAccount_bounds (clock : Z) (m : manager) :
  0 < DEFAULT_COOLDOWN_MS →
  let p := acquireAccount DEFAULT_COOLDOWN_MS toISOString clock m in
  ((sleeps p = [] ∧ clock_after p = clock)
   ∨ (∃ w, sleeps p = [w] ∧ 0 < w ≤ 120000 ∧ clock_after p = clock + w ∧
           length (accounts m) = 1%nat))
  ∧ (∀ a, outcome p = Use a →
          isInvalid a = false ∧ isRateLimited a = false ∧
          lastUsed a = Some (clock_after p)).
Proof.
  intros HD p. subst p. unfold acquireAccount.
  destruct (pickNext clock m) as [[a|] m1] eqn:Hpick.
  - simpl. split; [by left|]. intros a' [= <-].
    apply (pickNext_some clock m). by rewrite Hpick.
  - destruct (pickNext_none clock m) as [Heq _]; [by rewrite Hpick|].
    rewrite Hpick in Heq.
    assert (Hm1 : m1 = (clearExpiredLimits clock m).2) by congruence.
    clear Heq.
    destruct (isAllRateLimited m1) eqn:Hall; [|simpl; split; [by left|done]].
    set (w := getMinWaitTimeMs DEFAULT_COOLDOWN_MS clock m1).
    destruct (120000 <? w) eqn:Hw; [simpl; split; [by left|done]|].
    apply Z.ltb_ge in Hw.
    destruct (getAccountCount m1 =? 1)%nat eqn:Hc;
      [|simpl; split; [by left|done]].
    apply Nat.eqb_eq in Hc.
    assert (Hlen : length (accounts m) = 1%nat).
    { unfold getAccountCount in Hc. rewrite Hm1 in Hc.
      by rewrite clearExpired_accounts, length_fmap in Hc. }
    assert (Hpos : 0 < w).
    { subst w. apply (getMinWaitTimeMs_flagged clock m1 HD).
      by apply isAllRateLimited_Forall. }
    destruct (pickNext (clock + w) (clearExpiredLimits (clock + w) m1).2)
      as [[a|] m3] eqn:Hpick2; simpl.
    + split; [right; exists w; repeat split; try done; lia|].
      intros a' [= <-].
      apply (pickNext_some (clock + w) (clearExpiredLimits (clock + w) m1).2).
      by rewrite Hpick2.
    + split; [right; exists w; repeat split; try done; lia|]. done.
Qed.

(** X9. A pool that cannot serve.  When no account is available and some
    account is not rate-limited (it is invalid), the pass throws [No
    accounts available] at once, without sleeping, even if the limits of
    other accounts are about to expire.  On an empty pool the pass throws
    the RESOURCE_EXHAUSTED error with the default cooldown as the wait. *)
Theorem acquireAccount_cannot_serve (clock : Z) (m : manager) :
  (Forall (λ a, availableAt clock a = false) (accounts m) →
   (∃ a, a ∈ accounts m ∧ rateLimitedAt clock a = false) →
   acquireAccount DEFAULT_COOLDOWN_MS toISOString clock m
   = Pass (Throw "No accounts available") [] clock
          (clearExpiredLimits clock m).2)
  ∧ (accounts m = [] →
     acquireAccount DEFAULT_COOLDOWN_MS toISOString clock m
     = Pass (Throw
               (if 120000 <? DEFAULT_COOLDOWN_MS
                then msg_too_long DEFAULT_COOLDOWN_MS
                       (toISOString (clock + DEFAULT_COOLDOWN_MS))
                else msg_all_limited 0 DEFAULT_COOLDOWN_MS
                       (toISOString (clock + DEFAULT_COOLDOWN_MS))))
            [] clock m).
Proof.
  split.
  - intros Hnone (a & Hin & Ha).
    assert (Hp : (pickNext clock m).1 = None).
    { pose proof (pickNext_result clock m) as H.
      destruct ((pickNext clock m).1) as [a'|]; [|done].
      destruct H as (idx & a0 & Hidx & Hav & _).
      rewrite Forall_forall in Hnone.
      rewrite (Hnone a0) in Hav; [done|].
      apply list_elem_of_lookup. eauto. }
    destruct (pickNext_none clock m Hp) as [Heq _].
    unfold acquireAccount. rewrite Heq.
    assert (Hall : isAllRateLimited (clearExpiredLimits clock m).2 = false).
    { unfold isAllRateLimited. rewrite clearExpired_accounts.
      destruct (accounts m) as [|x l] eqn:E; [by apply elem_of_nil in Hin|].
      rewrite <- E in *. rewrite length_fmap.
      assert (E0 : (length (accounts m) =? 0)%nat = false)
        by (by rewrite E).
      rewrite E0. apply not_true_is_false. intros Hf.
      rewrite forallb_forall in Hf. specialize (Hf (clear_one clock a)).
      rewrite isRateLimited_clear_one, Ha in Hf.
      assert (false = true); [|done]. apply Hf.
      apply list_elem_of_In, list_elem_of_fmap. eauto. }
    by rewrite Hall.
  - intros Hnil. destruct m as [accs ci cd dk]. simpl in Hnil. subst accs.
    unfold acquireAccount. simpl.
    unfold getMinWaitTimeMs, isAllRateLimited. simpl.
    destruct (120000 <? DEFAULT_COOLDOWN_MS); done.
Qed.

End Acquire.

(** X10. The counters of [getStatus]: the available accounts are those
    that are neither rate-limited nor invalid, so that [available] is
    [total] minus the number of accounts that are one or the other; it is
    at most [total], and [total] is at most the sum of the three
    counters. *)
Theorem getStatus_counts (m : manager) :
  let s := getStatus m in
  st_total s = length (accounts m)
  ∧ (st_available s
     + length (filter (λ a, isRateLimited a = true ∨ isInvalid a = true)
                 (accounts m))
     = st_total s)%nat
  ∧ (st_available s ≤ st_total s)%nat
  ∧ (st_total s ≤ st_available s + st_rateLimited s + st_invalid s)%nat
  ∧ (st_rateLimited s = 0 → st_invalid s = 0 → st_available s = st_total s)%nat.
Proof.
  intros s. subst s. unfold getStatus, getAvailableAccounts, getInvalidAccounts.
  simpl.
  induction (accounts m) as [|a l IH]; [done|].
  destruct IH as (IH1 & IH2 & IH3 & IH4 & IH5).
  rewrite !filter_cons.
  destruct (decide (usable a = true)) as [Hu|Hu],
           (decide (isRateLimited a = true)) as [Hr|Hr],
           (decide (isInvalid a = true)) as [Hi|Hi],
           (decide (isRateLimited a = true ∨ isInvalid a = true)) as [Ho|Ho];
    unfold usable in Hu;
    destruct (isRateLimited a), (isInvalid a);
    simpl in *; try done; try (exfalso; intuition congruence); lia.
Qed.

End PolicyExtras.

(* ===================================================================== *)
(** ** The endpoints of one attempt *)
(* ===================================================================== *)

Module ClientProperties.
Import JS RateLimitParser AccountManager CloudCode ClientLoop StringFacts.

Lemma is429Error_rate_limited (txt : string) :
  is429Error ("Rate limited: " +:+ txt) = true.
Proof.
  unfold is429Error.
  change (toLowerCase ("Rate limited: " +:+ txt))
    with ("" +:+ "rate limit" +:+ ("ed: " +:+ toLowerCase txt)).
  cbv zeta. rewrite includes_mid. by rewrite !orb_true_r.
Qed.


Lemma toLowerCase_app (a b : string) :
  toLowerCase (a +:+ b) = toLowerCase a +:+ toLowerCase b.
Proof.
  induction a as [|c a IH]; [done|].
  rewrite append_cons. simpl. by rewrite IH, append_cons.
Qed.

Lemma toUpperCase_app (a b : string) :
  toUpperCase (a +:+ b) = toUpperCase a +:+ toUpperCase b.
Proof.
  induction a as [|c a IH]; [done|].
  rewrite append_cons. simpl. by rewrite IH, append_assoc.
Qed.

Lemma includes_context (a s b sub : string) :
  includes s sub = true → includes (a +:+ s +:+ b) sub = true.
Proof. intros H. by apply includes_app_r, includes_app_l. Qed.

Lemma orb4_context (x y : string) (n1 n2 n3 n4 : string) :
  (∀ n, includes x n = true → includes y n = true) →
  includes x n1 || includes x n2 || includes x n3 || includes x n4 = true →
  includes y n1 || includes y n2 || includes y n3 || includes y n4 = true.
Proof.
  intros H. rewrite !orb_true_iff. intros [[[?|?]|?]|?]; auto 6.
Qed.

(** [is429Error] looks for its markers anywhere in the message. *)
Lemma is429Error_context (a s b : string) :
  is429Error s = true → is429Error (a +:+ s +:+ b) = true.
Proof.
  unfold is429Error. cbv zeta. rewrite !toLowerCase_app.
  apply orb4_context. intros n. apply includes_context.
Qed.

(** [isAuthInvalidError] looks for its markers anywhere in the message. *)
Lemma isAuthInvalidError_context (a s b : string) :
  isAuthInvalidError s = true → isAuthInvalidError (a +:+ s +:+ b) = true.
Proof.
  unfold isAuthInvalidError. cbv zeta. rewrite !toUpperCase_app.
  rewrite !orb_true_iff. intros [[?|?]|?];
    [left; left | left; right | right]; by apply includes_context.
Qed.

Section Endpoints.

Variable R : Type.
Variable DEFAULT_COOLDOWN_MS : Z.
Variable Date_parse : string → num.

Implicit Types (f : fetched R) (results : list (fetched R))
  (last : option lastError).

Lemma note429_in L last t r :
  last_in L last → last_in (L ++ [r]) (note429 last t r).
Proof.
  intros H t' r'. unfold note429.
  destruct (match last with Some (Is429 _ _) => _ | _ => true end).
  - intros [= _ ->]. apply elem_of_app. right. by left.
  - intros Hl. apply elem_of_app. left. by apply (H t').
Qed.

Lemma note429_min_first t r : last_min [r] (note429 None t r).
Proof.
  exists t, r. split; [done|]. split; [by left|].
  intros y Hy%list_elem_of_singleton Hy0. subst r.
  exists y. split; [done|]. split; [done | lia].
Qed.

Lemma note429_min L last t r :
  last_min L last → last_min (L ++ [r]) (note429 last t r).
Proof.
  intros (t0 & r0 & -> & Hin & Hmin). unfold note429.
  destruct (truthy r) eqn:Hr; simpl.
  - destruct r as [[|x]|]; try discriminate. simpl in Hr.
    apply negb_true_iff, Z.eqb_neq in Hr.
    destruct (truthy r0) eqn:Hr0; simpl.
    + destruct r0 as [[|x0]|]; try discriminate. simpl in Hr0.
      apply negb_true_iff, Z.eqb_neq in Hr0. simpl.
      destruct (x <? x0) eqn:Hlt.
      * apply Z.ltb_lt in Hlt.
        exists t, (Some (Num x)). split; [done|].
        split; [apply elem_of_app; right; by left|].
        intros y Hy Hy0. exists x. split; [done|]. split; [done|].
        apply elem_of_app in Hy as [Hy|Hy%list_elem_of_singleton].
        -- destruct (Hmin y Hy Hy0) as (x' & [= <-] & _ & Hle). lia.
        -- injection Hy as ->. lia.
      * apply Z.ltb_ge in Hlt.
        exists t0, (Some (Num x0)). split; [done|].
        split; [apply elem_of_app; by left|].
        intros y Hy Hy0. exists x0. split; [done|]. split; [done|].
        apply elem_of_app in Hy as [Hy|Hy%list_elem_of_singleton].
        -- destruct (Hmin y Hy Hy0) as (x' & [= <-] & _ & Hle). lia.
        -- injection Hy as ->. lia.
    + exists t, (Some (Num x)). split; [done|].
      split; [apply elem_of_app; right; by left|].
      intros y Hy Hy0. exists x. split; [done|]. split; [done|].
      apply elem_of_app in Hy as [Hy|Hy%list_elem_of_singleton].
      * destruct (Hmin y Hy Hy0) as (x' & -> & Hx' & _).
        simpl in Hr0. apply negb_false_iff, Z.eqb_eq in Hr0. lia.
      * injection Hy as ->. lia.
  - exists t0, r0. split; [done|].
    split; [apply elem_of_app; by left|].
    intros y Hy Hy0.
    apply elem_of_app in Hy as [Hy|Hy%list_elem_of_singleton].
    + by apply Hmin.
    + subst r. simpl in Hr. apply negb_false_iff, Z.eqb_eq in Hr. lia.
Qed.

Lemma resets_app now results1 results2 :
  resets R Date_parse now (results1 ++ results2)
  = resets R Date_parse now results1 ++ resets R Date_parse now results2.
Proof. unfold resets. apply omap_app. Qed.

(** A run of 429 responses is passed with its least truthy reset
    recorded; no cache is cleared. *)
Lemma endpoints_429 now results : all429 results → ∀ L0 last c rest,
  ((L0 = [] ∧ last = None ∧ results ≠ []) ∨ last_min L0 last) →
  ∃ last',
    endpoints R Date_parse now (results ++ rest) last c
    = endpoints R Date_parse now rest last' c
    ∧ last_min (L0 ++ resets R Date_parse now results) last'.
Proof.
  induction 1 as [|f results Hf Hall IH]; intros L0 last c rest Hinv.
  - destruct Hinv as [(_ & _ & ?)|Hinv]; [done|].
    exists last. split; [done|]. by rewrite app_nil_r.
  - destruct f as [resp|msg]; [|done].
    set (r := parseResetTime Date_parse now (Response (headers resp))
                (text resp)).
    destruct (IH (L0 ++ [r]) (note429 last (text resp) r) c rest)
      as (last' & Heq & Hmin).
    { right. destruct Hinv as [(-> & -> & _)|Hinv].
      - apply note429_min_first.
      - by apply note429_min. }
    exists last'. split.
    + rewrite <- Heq. simpl. unfold ok. rewrite Hf. simpl. done.
    + unfold resets in *. simpl. rewrite Hf. simpl.
      fold r. by rewrite <- app_assoc in Hmin.
Qed.

(** A run of failures is passed; the caches are cleared at most once per
    failure, and a recorded reset comes from a 429 response of the run. *)
Lemma endpoints_failed now results : Forall failed results →
  ∀ L0 last c, last_in L0 last →
  ∃ last' c',
    (∀ rest, endpoints R Date_parse now (results ++ rest) last c
             = endpoints R Date_parse now rest last' c')
    ∧ last_in (L0 ++ resets R Date_parse now results) last'
    ∧ (c ≤ c' ≤ c + length results)%nat.
Proof.
  induction 1 as [|f results Hf Hall IH]; intros L0 last c Hinv.
  - exists last, c. split; [done|]. rewrite app_nil_r. split; [done|].
    simpl. lia.
  - destruct f as [resp|msg]; simpl in Hf.
    + assert (Hok : ok resp = false).
      { unfold ok. apply andb_false_iff. right. apply Z.leb_gt. lia. }
      destruct (status resp =? 401) eqn:H401.
      * destruct (IH L0 last (S c) Hinv) as (last' & c' & Heq & Hin & Hc).
        exists last', c'. split; [|split].
        -- intros rest. rewrite <- Heq. simpl. by rewrite Hok, H401.
        -- unfold resets in *. simpl.
           apply Z.eqb_eq in H401. rewrite H401. simpl. done.
        -- simpl. lia.
      * destruct (status resp =? 429) eqn:H429.
        -- set (r := parseResetTime Date_parse now (Response (headers resp))
                       (text resp)).
           destruct (IH (L0 ++ [r]) (note429 last (text resp) r) c)
             as (last' & c' & Heq & Hin & Hc).
           { by apply note429_in. }
           exists last', c'. split; [|split].
           ++ intros rest. rewrite <- Heq. simpl.
              by rewrite Hok, H401, H429.
           ++ unfold resets in *. simpl. rewrite H429. simpl. fold r.
              by rewrite <- app_assoc in Hin.
           ++ simpl. lia.
        -- set (e := Some (Err ("API error " +:+ toString (status resp)
                                +:+ ": " +:+ text resp))).
           destruct (IH L0 e c) as (last' & c' & Heq & Hin & Hc).
           { intros t r. discriminate. }
           exists last', c'. split; [|split].
           ++ intros rest. rewrite <- Heq. simpl.
              rewrite Hok, H401, H429. simpl.
              assert ((400 <=? status resp) = true) as -> by (apply Z.leb_le; lia).
              done.
           ++ unfold resets in *. simpl. rewrite H429. simpl. done.
           ++ simpl. lia.
    + destruct (IH L0 (Some (Err msg)) c) as (last' & c' & Heq & Hin & Hc).
      { intros t r. discriminate. }
      exists last', c'. split; [|split].
      * intros rest. rewrite <- Heq. simpl. unfold endpoint_catch.
        by rewrite Hf.
      * done.
      * simpl. lia.
Qed.

(** The attempt after a run of 429 responses. *)
Lemma attempt_429_marks (now : Z) (e : string) (results : list (fetched R))
    (m : manager) :
  results ≠ [] → all429 results →
  ∃ r,
    attempt R DEFAULT_COOLDOWN_MS Date_parse now e results m
    = (NextAttempt, markRateLimited DEFAULT_COOLDOWN_MS now e r m, 0%nat)
    ∧ r ∈ resets R Date_parse now results
    ∧ ∀ y, Some (Num y) ∈ resets R Date_parse now results → y ≠ 0 →
           ∃ x, r = Some (Num x) ∧ x ≠ 0 ∧ x ≤ y.
Proof.
  intros Hne Hall.
  destruct (endpoints_429 now results Hall [] None 0%nat [])
    as (last' & Heq & (t & r & -> & Hin & Hmin)); [by left|].
  rewrite app_nil_r in Heq. simpl in Heq, Hin, Hmin.
  exists r. split; [|done].
  unfold attempt. rewrite Heq. cbn [endpoints].
  unfold attempt_catch. by rewrite is429Error_rate_limited.
Qed.

(** The attempt when an endpoint accepts after a run of failures. *)
Lemma attempt_accepts (now : Z) (e : string) (bad rest : list (fetched R))
    (resp : response R) (r : R) (m : manager) :
  Forall failed bad → ok resp = true → body resp = Decoded r →
  (attempt R DEFAULT_COOLDOWN_MS Date_parse now e
     (bad ++ Responded resp :: rest) m).1 = (Done r, m).
Proof.
  intros Hbad Hok Hbody.
  destruct (endpoints_failed now bad Hbad [] None 0%nat)
    as (last' & c' & Heq & _ & Hc); [intros t r0; discriminate|].
  unfold attempt. rewrite Heq. simpl. by rewrite Hok, Hbody.
Qed.


(** X12. The loop over the endpoints stops at the first endpoint that
    does not fail.  If that endpoint accepts the request and its body
    converts, the attempt returns the result; if its [fetch] or the reading
    of its body throws an error that [is429Error] recognises, the attempt
    goes on to the next account.  In both cases the later endpoints are not
    asked and the account is not marked, whatever the earlier endpoints
    answered, 429 included. *)
Theorem attempt_stops_early (now : Z) (e : string)
    (bad rest : list (fetched R)) (m : manager) :
  Forall failed bad →
  ∃ c, (c ≤ length bad)%nat
    ∧ (∀ resp r, ok resp = true → body resp = Decoded r →
         attempt R DEFAULT_COOLDOWN_MS Date_parse now e
           (bad ++ Responded resp :: rest) m = (Done r, m, c))
    ∧ (∀ msg, is429Error msg = true →
         attempt R DEFAULT_COOLDOWN_MS Date_parse now e
           (bad ++ Rejected msg :: rest) m = (NextAttempt, m, c))
    ∧ (∀ resp msg, ok resp = true → body resp = DecodeThrows msg →
         is429Error msg = true →
         attempt R DEFAULT_COOLDOWN_MS Date_parse now e
           (bad ++ Responded resp :: rest) m = (NextAttempt, m, c)).
Proof.
  intros Hbad.
  destruct (endpoints_failed now bad Hbad [] None 0%nat)
    as (last' & c' & Heq & _ & Hc); [intros t r; discriminate|].
  exists c'. split; [simpl in Hc; lia|]. repeat split.
  - intros resp r Hok Hbody. unfold attempt. rewrite Heq. simpl.
    by rewrite Hok, Hbody.
  - intros msg Hmsg. unfold attempt. rewrite Heq. simpl.
    unfold endpoint_catch, attempt_catch. by rewrite Hmsg, Hmsg.
  - intros resp msg Hok Hbody Hmsg. unfold attempt. rewrite Heq. simpl.
    rewrite Hok, Hbody. simpl.
    unfold endpoint_catch, attempt_catch. by rewrite Hmsg, Hmsg.
Qed.

(** Responses with status 401 leave [lastError] as it is and clear the
    caches once each. *)
Lemma endpoints_401 now results :
  Forall (λ f, match f with
               | Responded resp => status resp = 401
               | Rejected _ => False
               end) results →
  ∀ last c,
    endpoints R Date_parse now results last c
    = (Exhausted last, (c + length results)%nat).
Proof.
  induction 1 as [|f results Hf Hall IH]; intros last c; simpl.
  - by rewrite Nat.add_0_r.
  - destruct f as [resp|]; [|done].
    unfold ok. rewrite Hf. simpl. rewrite IH. f_equal. lia.
Qed.


(** X26. The two classifiers of the [catch] of an attempt are searches
    without regard to case: a message is a rate-limit error, or an
    auth-invalid error, as soon as a part of it is, whatever surrounds that
    part.  So the errors that the client itself throws for a rate-limited
    account and that the manager throws for a failed token refresh always
    send the request to the next account, as does an API error whose body
    mentions a rate limit. *)
Theorem attempt_catch_next (a s b t : string) (st : Z) :
  (is429Error s = true → is429Error (a +:+ s +:+ b) = true)
  ∧ (isAuthInvalidError s = true →
     isAuthInvalidError (a +:+ s +:+ b) = true)
  ∧ attempt_catch (R := R) ("Rate limited: " +:+ t) = NextAttempt
  ∧ attempt_catch (R := R) ("AUTH_INVALID: " +:+ t) = NextAttempt
  ∧ (is429Error t = true →
     attempt_catch (R := R) ("API error " +:+ toString st +:+ ": " +:+ t)
     = NextAttempt).
Proof.
  split; [apply is429Error_context|].
  split; [apply isAuthInvalidError_context|].
  unfold attempt_catch. split; [by rewrite is429Error_rate_limited|].
  split.
  - assert (isAuthInvalidError ("AUTH_INVALID: " +:+ t) = true) as ->.
    { apply (isAuthInvalidError_context "" "AUTH_INVALID: " t). reflexivity. }
    by destruct (is429Error _).
  - intros Ht.
    assert (is429Error ("API error " +:+ toString st +:+ ": " +:+ t) = true)
      as ->; [|done].
    pose proof (is429Error_context ("API error " +:+ toString st +:+ ": ") t
                  "" Ht) as H.
    by rewrite append_nil_r, !append_assoc in H.
Qed.

End Endpoints.

End ClientProperties.

(* ===================================================================== *)
(** ** [sendMessage]: failover from account to account *)
(* ===================================================================== *)

Module SendProperties.
Import JS RateLimitParser AccountManager CloudCode ClientLoop StringFacts
  PoolProperties PolicyProperties PoolExtras PolicyExtras ClientProperties.

(** *** The positions of a cyclic scan *)

Lemma pos_inv (c n i : nat) :
  (i < n)%nat → (((c + i) mod n + (n - c mod n)) mod n = i)%nat.
Proof.
  intros Hi.
  rewrite Nat.Div0.add_mod_idemp_l.
  pose proof (Nat.div_mod_eq c n) as Hc.
  pose proof (Nat.mod_upper_bound c n ltac:(lia)) as Hr.
  set (q := (c / n)%nat) in *. set (r := (c mod n)%nat) in *.
  replace (c + i + (n - r))%nat with (i + (q + 1) * n)%nat by lia.
  rewrite Nat.Div0.mod_add. apply Nat.mod_small. lia.
Qed.

Lemma pos_inj (c n i j : nat) :
  (i < n)%nat → (j < n)%nat → ((c + i) mod n = (c + j) mod n)%nat → i = j.
Proof.
  intros Hi Hj H.
  rewrite <- (pos_inv c n i Hi), <- (pos_inv c n j Hj). by rewrite H.
Qed.

Lemma pos_surj (c n p : nat) :
  (p < n)%nat → ∃ i, (i < n)%nat ∧ ((c + i) mod n = p)%nat.
Proof.
  intros Hp. exists ((p + (n - c mod n)) mod n)%nat.
  split; [apply Nat.mod_upper_bound; lia|].
  rewrite Nat.Div0.add_mod_idemp_r.
  pose proof (Nat.div_mod_eq c n) as Hc.
  pose proof (Nat.mod_upper_bound c n ltac:(lia)) as Hr.
  set (q := (c / n)%nat) in *. set (r := (c mod n)%nat) in *.
  replace (c + (p + (n - r)))%nat with (p + (q + 1) * n)%nat by lia.
  rewrite Nat.Div0.mod_add. apply Nat.mod_small. lia.
Qed.

Lemma pos_next (c n j : nat) :
  ((((c + j) mod n + 1) mod n) mod n = (c + S j) mod n)%nat.
Proof.
  rewrite Nat.Div0.mod_mod, Nat.Div0.add_mod_idemp_l. f_equal. lia.
Qed.

(** *** Helpers on the pool *)

Lemma find_by_email (l : list account) i a :
  NoDup (email <$> l) → l !! i = Some a →
  list_find (λ x, email x = email a) l = Some (i, a).
Proof.
  intros Hnd Hi. apply list_find_Some. split; [done|]. split; [done|].
  intros j y Hj Hlt Hy.
  assert (j = i); [|lia].
  eapply (NoDup_lookup (email <$> l)); [done| |].
  - by rewrite list_lookup_fmap, Hj.
  - rewrite list_lookup_fmap, Hi. simpl. congruence.
Qed.

Lemma pickNext_at_cursor now m a0 :
  Forall (λ a, expired now a = false) (accounts m) →
  accounts m !! (currentIndex m mod length (accounts m))%nat = Some a0 →
  usable a0 = true →
  pickNext now m
  = (Some (set_lastUsed now a0),
     set_currentIndex
       ((currentIndex m mod length (accounts m) + 1)
          mod length (accounts m))%nat
       (set_accounts
          (<[(currentIndex m mod length (accounts m))%nat
             := set_lastUsed now a0]> (accounts m)) m)).
Proof.
  intros Hne Ha0 Hu.
  assert (Hn : (0 < length (accounts m))%nat).
  { apply lookup_lt_Some in Ha0. lia. }
  unfold pickNext. rewrite (clearExpired_none now m Hne). simpl.
  assert (Hav : (length (getAvailableAccounts m) =? 0)%nat = false).
  { apply Nat.eqb_neq. unfold getAvailableAccounts.
    assert (Hin : a0 ∈ filter (λ acc, usable acc = true) (accounts m)).
    { apply list_elem_of_filter. split; [done|].
      apply list_elem_of_lookup. eauto. }
    destruct (filter _ _); [by apply elem_of_nil in Hin | done]. }
  rewrite Hav.
  pose proof (pickNext_loop_spec now m (length (accounts m)) 0 Hn) as H.
  destruct (pickNext_loop now m 0 (length (accounts m))) as [[a'|] m'].
  - destruct H as (j & a1 & Hj & Ha1 & _ & Hbefore & -> & ->).
    destruct j as [|j].
    + rewrite Nat.add_0_r in *. rewrite Ha0 in Ha1. by injection Ha1 as <-.
    + destruct (Hbefore 0%nat ltac:(lia)) as (b & Hb & Hbu).
      rewrite Nat.add_0_r, Ha0 in Hb. injection Hb as <-. congruence.
  - destruct H as [_ Hall0].
    destruct (Hall0 0%nat ltac:(lia)) as (b & Hb & Hbu).
    rewrite Nat.add_0_r, Ha0 in Hb. injection Hb as <-. congruence.
Qed.

Section Send.

Variable R : Type.
Variable DEFAULT_COOLDOWN_MS : Z.
Variable Date_parse : string → num.
Variable toISOString : Z → string.
Variable MAX_RETRIES : nat.
Variable credentials : nat → account → manager → option string * manager.
Variable fetchAll : nat → account → list (fetched R).

(** The clock of the call and the manager it starts from. *)
Variable clock : Z.
Variable m0 : manager.

Hypothesis default_pos : 0 < DEFAULT_COOLDOWN_MS.
Hypothesis settings_ok : ∀ c, cooldownDurationMs m0 = Some c → 0 ≤ c.
Hypothesis emails_distinct : NoDup (email <$> accounts m0).
Hypothesis all_usable : Forall (λ a, usable a = true) (accounts m0).
Hypothesis credentials_ok : ∀ i a m, credentials i a m = (None, m).

Local Abbreviation n := (length (accounts m0)).
Local Abbreviation pos i := (position m0 i).
Local Abbreviation attempts' :=
  (attempts R DEFAULT_COOLDOWN_MS Date_parse toISOString credentials fetchAll).

Local Abbreviation exhausted_at' := (exhausted_at Date_parse fetchAll clock).
Local Abbreviation state_after' := (state_after clock m0).

Lemma state_after_0 : state_after' 0 m0.
Proof.
  split; [done|]. split; [done|]. split; [done|].
  split; [unfold position; by rewrite Nat.add_0_r|]. by intros i a0 Hi Ha0.
Qed.

Lemma state_after_account j m p :
  state_after' j m → (p < n)%nat →
  ∃ i a0, (i < n)%nat ∧ pos i = p ∧ accounts m0 !! p = Some a0 ∧
          if (i <? j)%nat
          then ∃ t, accounts m !! p
                    = Some (set_rateLimit true (Some t) (set_lastUsed clock a0))
                    ∧ clock < t
          else accounts m !! p = Some a0.
Proof.
  intros (_ & _ & _ & _ & H) Hp.
  destruct (pos_surj (currentIndex m0) n p Hp) as (i & Hi & Hpos).
  destruct (lookup_lt_is_Some_2 (accounts m0) p Hp) as [a0 Ha0].
  exists i, a0. split; [done|]. split; [done|]. split; [done|].
  specialize (H i a0 Hi). unfold position in H. rewrite Hpos in H.
  by apply H.
Qed.

Lemma usable_m0 p a0 : accounts m0 !! p = Some a0 → usable a0 = true.
Proof.
  intros H. rewrite Forall_forall in all_usable. apply all_usable.
  apply list_elem_of_lookup. eauto.
Qed.

Lemma state_after_not_expired j m :
  state_after' j m → Forall (λ a, expired clock a = false) (accounts m).
Proof.
  intros Hst. apply Forall_lookup. intros p a Hp.
  assert (Hlt : (p < n)%nat).
  { destruct Hst as (Hlen & _). rewrite <- Hlen. by eapply lookup_lt_Some. }
  destruct (state_after_account j m p Hst Hlt) as (i & a0 & _ & _ & Ha0 & H).
  destruct (i <? j)%nat.
  - destruct H as (t & Ht & Hlt'). rewrite Hp in Ht. injection Ht as ->.
    unfold expired. simpl.
    assert ((t <=? clock) = false) as -> by (apply Z.leb_gt; lia).
    by rewrite andb_false_r.
  - rewrite Hp in H. injection H as ->.
    pose proof (usable_m0 _ _ Ha0) as Hu. unfold usable in Hu.
    unfold expired. by destruct (isRateLimited a0).
Qed.

Lemma cooldown_pos r m :
  cooldownDurationMs m = cooldownDurationMs m0 →
  (∀ y, r = Some (Num y) → 0 ≤ y) →
  0 < cooldownMs DEFAULT_COOLDOWN_MS r m.
Proof.
  intros Hs Hr.
  assert (Hd : 0 < match cooldownDurationMs m with
                   | Some c => if negb (c =? 0) then c
                               else DEFAULT_COOLDOWN_MS
                   | None => DEFAULT_COOLDOWN_MS
                   end).
  { rewrite Hs. destruct (cooldownDurationMs m0) as [c|] eqn:Hc; [|done].
    destruct (c =? 0) eqn:Hc0; simpl; [done|].
    apply Z.eqb_neq in Hc0. specialize (settings_ok c eq_refl). lia. }
  unfold cooldownMs. destruct r as [[|z]|]; try done.
  destruct (z =? 0) eqn:Hz; simpl; [done|].
  apply Z.eqb_neq in Hz. specialize (Hr z eq_refl). lia.
Qed.

(** The pass that picks the account of the attempt [j]. *)
Lemma acquire_at j m a0 :
  state_after' j m → (j < n)%nat → accounts m0 !! pos j = Some a0 →
  acquireAccount DEFAULT_COOLDOWN_MS toISOString clock m
  = Pass (Use (set_lastUsed clock a0)) [] clock
      (set_currentIndex ((pos j + 1) mod n)%nat
         (set_accounts (<[pos j := set_lastUsed clock a0]> (accounts m)) m)).
Proof.
  intros Hst Hj Ha0.
  pose proof (state_after_not_expired j m Hst) as Hne.
  destruct Hst as (Hlen & _ & _ & Hcur & Hacc).
  pose proof (Hacc j a0 Hj Ha0) as Hm.
  rewrite Nat.ltb_irrefl in Hm.
  unfold acquireAccount.
  rewrite (pickNext_at_cursor clock m a0 Hne).
  - by rewrite Hlen, Hcur.
  - by rewrite Hlen, Hcur.
  - by eapply usable_m0.
Qed.

(** An attempt that ends with a mark. *)
Lemma attempts_step j m fuel :
  state_after' j m → (j < n)%nat → exhausted_at' j →
  ∃ m2, state_after' (S j) m2 ∧
        attempts' (S fuel) j clock m
        = after [email_at m0 j] (attempts' fuel (S j) clock m2).
Proof.
  intros Hst Hj Hex.
  assert (Hp : (pos j < n)%nat) by (unfold position; apply Nat.mod_upper_bound; lia).
  destruct (lookup_lt_is_Some_2 (accounts m0) _ Hp) as [a0 Ha0].
  pose proof (acquire_at j m a0 Hst Hj Ha0) as Hacq.
  destruct Hst as (Hlen & Hemails & Hset & Hcur & Hacc).
  pose proof (Hacc j a0 Hj Ha0) as Hm. rewrite Nat.ltb_irrefl in Hm.
  set (a' := set_lastUsed clock a0) in *.
  set (m1 := set_currentIndex ((pos j + 1) mod n)%nat
               (set_accounts (<[pos j := a']> (accounts m)) m)) in *.
  destruct (Hex a') as (Hne & H429 & Hnonneg).
  destruct (attempt_429_marks R DEFAULT_COOLDOWN_MS Date_parse clock
              (email a') (fetchAll j a') m1 Hne H429)
    as (r & Hatt & Hin & _).
  assert (Hcd : 0 < cooldownMs DEFAULT_COOLDOWN_MS r m1).
  { apply cooldown_pos; [done|]. intros y ->. by apply Hnonneg. }
  assert (Hplt : (pos j < length (accounts m))%nat) by lia.
  assert (Hfind : list_find (λ x, email x = email a') (accounts m1)
                  = Some (pos j, a')).
  { apply find_by_email.
    - simpl. rewrite list_fmap_insert. simpl.
      rewrite list_insert_id; [by rewrite Hemails|].
      by rewrite list_lookup_fmap, Hm.
    - simpl. by apply list_lookup_insert_eq. }
  set (t := clock + cooldownMs DEFAULT_COOLDOWN_MS r m1) in *.
  set (m2 := markRateLimited DEFAULT_COOLDOWN_MS clock (email a') r m1) in *.
  assert (Hacc2 : accounts m2
                  = <[pos j := set_rateLimit true (Some t) a']> (accounts m)).
  { subst m2. unfold markRateLimited. rewrite Hfind. simpl.
    by rewrite list_insert_insert_eq. }
  assert (Hcur2 : currentIndex m2 = ((pos j + 1) mod n)%nat).
  { subst m2. unfold markRateLimited. by rewrite Hfind. }
  assert (Hset2 : cooldownDurationMs m2 = cooldownDurationMs m).
  { subst m2. unfold markRateLimited. by rewrite Hfind. }
  exists m2. split.
  - split; [by rewrite Hacc2, length_insert|].
    split.
    { rewrite Hacc2, list_fmap_insert. simpl.
      rewrite list_insert_id; [done|]. by rewrite list_lookup_fmap, Hm. }
    split; [congruence|].
    split; [rewrite Hcur2; unfold position; apply pos_next|].
    intros i b0 Hi Hb0.
    specialize (Hacc i b0 Hi Hb0).
    destruct (decide (i = j)) as [->|Hij].
    + assert ((j <? S j)%nat = true) as -> by (apply Nat.ltb_lt; lia).
      rewrite Ha0 in Hb0. injection Hb0 as <-.
      exists t. split; [|lia].
      rewrite Hacc2. by apply list_lookup_insert_eq.
    + assert (Hpne : pos j ≠ pos i).
      { intros Heq. apply Hij. symmetry.
        by apply (pos_inj (currentIndex m0) n j i). }
      assert ((i <? S j)%nat = (i <? j)%nat) as ->.
      { destruct (i <? j)%nat eqn:E.
        - apply Nat.ltb_lt in E. apply Nat.ltb_lt. lia.
        - apply Nat.ltb_ge in E. apply Nat.ltb_ge. lia. }
      rewrite Hacc2. rewrite list_lookup_insert_ne by done. done.
  - cbn [attempts]. rewrite Hacq. cbn [outcome manager_after clock_after
                                      sleeps].
    rewrite credentials_ok. rewrite Hatt. cbn [fst].
    unfold after, email_at. rewrite Ha0. done.
Qed.

(** Several attempts in a row that end with a mark. *)
Lemma attempts_steps d : ∀ j m fuel,
  state_after' j m → (j + d ≤ n)%nat →
  (∀ i, (j ≤ i < j + d)%nat → exhausted_at' i) →
  ∃ m2, state_after' (j + d) m2 ∧
        attempts' (d + fuel) j clock m
        = after (email_at m0 <$> seq j d) (attempts' fuel (j + d) clock m2).
Proof.
  induction d as [|d IH]; intros j m fuel Hst Hle Hex.
  - exists m. rewrite Nat.add_0_r. split; [done|].
    change (0 + fuel)%nat with fuel.
    destruct (attempts' fuel j clock m). reflexivity.
  - destruct (attempts_step j m (d + fuel) Hst ltac:(lia) (Hex j ltac:(lia)))
      as (m1 & Hst1 & Heq1).
    destruct (IH (S j) m1 fuel Hst1 ltac:(lia)) as (m2 & Hst2 & Heq2).
    { intros i Hi. apply Hex. lia. }
    exists m2. split; [by replace (j + S d)%nat with (S j + d)%nat by lia|].
    replace (S d + fuel)%nat with (S (d + fuel)) by lia.
    rewrite Heq1, Heq2.
    replace (j + S d)%nat with (S j + d)%nat by lia.
    unfold after. simpl. done.
Qed.

(** The attempt in which an endpoint accepts. *)
Lemma attempts_accept k m fuel res a0 :
  state_after' k m → (k < n)%nat → accepted_at fetchAll k res →
  accounts m0 !! pos k = Some a0 →
  attempts' (S fuel) k clock m
  = Run (Success res) [email_at m0 k] [] clock
      (set_currentIndex ((pos k + 1) mod n)%nat
         (set_accounts (<[pos k := set_lastUsed clock a0]> (accounts m)) m)).
Proof.
  intros Hst Hk Hacc Ha0.
  pose proof (acquire_at k m a0 Hst Hk Ha0) as Hacq.
  destruct (Hacc (set_lastUsed clock a0))
    as (bad & resp & rest & Hfetch & Hbad & Hok & Hbody).
  cbn [attempts]. rewrite Hacq.
  cbn [outcome manager_after clock_after sleeps].
  rewrite credentials_ok, Hfetch.
  rewrite (attempt_accepts R DEFAULT_COOLDOWN_MS Date_parse clock _ bad rest
             resp res _ Hbad Hok Hbody).
  unfold email_at. by rewrite Ha0.
Qed.

Lemma state_after_all_limited m :
  state_after' n m →
  Forall (λ a, isRateLimited a = true ∧
               ∃ t, rateLimitResetTime a = Some t ∧ clock < t) (accounts m).
Proof.
  intros Hst. apply Forall_lookup. intros p a Hp.
  assert (Hlt : (p < n)%nat).
  { destruct Hst as (Hlen & _). rewrite <- Hlen. by eapply lookup_lt_Some. }
  destruct (state_after_account n m p Hst Hlt) as (i & a0 & Hi & _ & _ & H).
  assert ((i <? n)%nat = true) as E by by apply Nat.ltb_lt.
  rewrite E in H. destruct H as (t & Ht & Hlt').
  rewrite Hp in Ht. injection Ht as ->. simpl. eauto.
Qed.

(** The attempt that finds every account rate-limited. *)
Lemma attempts_all_limited m fuel :
  state_after' n m → (2 ≤ n)%nat →
  let w := getMinWaitTimeMs DEFAULT_COOLDOWN_MS clock m in
  0 < w ∧
  attempts' (S fuel) n clock m
  = Run (Failure
           (if 120000 <? w
            then msg_too_long w (toISOString (clock + w))
            else msg_all_limited n w (toISOString (clock + w))))
        [] [] clock m.
Proof.
  intros Hst Hn w.
  pose proof (state_after_all_limited m Hst) as Hall.
  assert (Hlen : length (accounts m) = n) by apply Hst.
  assert (Hfl : Forall (λ a, isRateLimited a = true) (accounts m)).
  { eapply Forall_impl; [exact Hall|]. by intros a [? _]. }
  assert (Hrl : Forall (λ a, rateLimitedAt clock a = true) (accounts m)).
  { eapply Forall_impl; [exact Hall|]. intros a (Hf & t & Ht & Hlt).
    unfold rateLimitedAt, expired. rewrite Hf, Ht. simpl.
    assert ((t <=? clock) = false) as -> by (apply Z.leb_gt; lia).
    by rewrite andb_false_r. }
  destruct (getMinWaitTimeMs_flagged DEFAULT_COOLDOWN_MS clock m default_pos
              Hfl) as (Hw & _).
  split; [done|].
  cbn [attempts]. unfold acquireAccount.
  rewrite (pickNext_all_limited clock m Hrl).
  rewrite (isAllRateLimited_true m Hfl). fold w.
  unfold getAccountCount. rewrite Hlen.
  destruct (120000 <? w); [done|].
  assert ((n =? 1)%nat = false) as -> by (apply Nat.eqb_neq; lia).
  done.
Qed.



End Send.

(** *** A single account *)

Section SingleAccount.

Variable R : Type.
Variable DEFAULT_COOLDOWN_MS : Z.
Variable Date_parse : string → num.
Variable toISOString : Z → string.
Variable MAX_RETRIES : nat.
Variable credentials : nat → account → manager → option string * manager.
Variable fetchAll : nat → account → list (fetched R).
Variable m0 : manager.

Hypothesis default_bounds : 0 < DEFAULT_COOLDOWN_MS ≤ 120000.
Hypothesis settings_bounds :
  ∀ c, cooldownDurationMs m0 = Some c → 0 ≤ c ≤ 120000.
Hypothesis credentials_ok : ∀ i a m, credentials i a m = (None, m).
Hypothesis always_429 :
  ∀ i clock, exhausted_at Date_parse fetchAll clock i.
Hypothesis resets_bounded : resets_within Date_parse fetchAll.

Local Abbreviation attempts' :=
  (attempts R DEFAULT_COOLDOWN_MS Date_parse toISOString credentials fetchAll).

Lemma cooldown_bounds r m i clock a :
  cooldownDurationMs m = cooldownDurationMs m0 →
  r ∈ resets R Date_parse clock (fetchAll i a) →
  0 < cooldownMs DEFAULT_COOLDOWN_MS r m ≤ 120000.
Proof.
  intros Hs Hr.
  assert (Hd : 0 < match cooldownDurationMs m with
                   | Some c => if negb (c =? 0) then c
                               else DEFAULT_COOLDOWN_MS
                   | None => DEFAULT_COOLDOWN_MS
                   end ≤ 120000).
  { rewrite Hs. destruct (cooldownDurationMs m0) as [c|] eqn:Hc; [|done].
    destruct (c =? 0) eqn:Hc0; simpl; [done|].
    apply Z.eqb_neq in Hc0. specialize (settings_bounds c eq_refl). lia. }
  unfold cooldownMs. destruct r as [[|z]|]; try done.
  destruct (z =? 0) eqn:Hz; simpl; [done|].
  apply Z.eqb_neq in Hz.
  destruct (always_429 i clock a) as (_ & _ & Hnn).
  specialize (Hnn z Hr). specialize (resets_bounded i clock a z Hr). lia.
Qed.

(** The attempt with the single account, once it is picked: it ends with
    a mark, and the account waits again. *)
Lemma single_attempt clock i a0 m :
  accounts m = [a0] → email <$> accounts m = email <$> accounts m0 →
  cooldownDurationMs m = cooldownDurationMs m0 →
  isInvalid a0 = false →
  ∃ m', (attempt R DEFAULT_COOLDOWN_MS Date_parse clock (email a0)
           (fetchAll i a0) m).1 = (NextAttempt, m')
        ∧ single_waiting clock m0 m'.
Proof.
  intros Hacc Hem Hset Hinv.
  destruct (always_429 i clock a0) as (Hne & H429 & _).
  destruct (attempt_429_marks R DEFAULT_COOLDOWN_MS Date_parse clock
              (email a0) (fetchAll i a0) m Hne H429)
    as (r & Hatt & Hin & _).
  rewrite Hatt. cbn [fst].
  pose proof (cooldown_bounds r m i clock a0 Hset Hin) as Hcd.
  eexists. split; [done|].
  unfold markRateLimited. rewrite Hacc. cbn [list_find].
  rewrite decide_True by done. cbn [fmap option_fmap option_map].
  exists (set_rateLimit true
            (Some (clock + cooldownMs DEFAULT_COOLDOWN_MS r m)) a0),
    (clock + cooldownMs DEFAULT_COOLDOWN_MS r m).
  cbn -[cooldownMs]. rewrite Hacc in Hem. cbn in Hem.
  repeat split; try done; lia.
Qed.

(** A pass and an attempt of the loop while the single account waits: the
    pass sleeps until the reset, the attempt ends with a new mark. *)
Lemma single_step clock i m fuel :
  0 ≤ clock → single_waiting clock m0 m →
  ∃ w m', 0 < w ≤ 120000 ∧ single_waiting (clock + w) m0 m'
          ∧ ∃ e, email <$> accounts m0 = [e]
          ∧ attempts' (S fuel) i clock m
            = after_sleeping [e] [w] (attempts' fuel (S i) (clock + w) m').
Proof.
  intros Hclock (a & t & Hacc & Hem & Hset & Hinv & Hfl & Ht & Hlt).
  assert (Hall : Forall (λ a, rateLimitedAt clock a = true) (accounts m)).
  { rewrite Hacc. constructor; [|constructor].
    unfold rateLimitedAt, expired. rewrite Hfl, Ht. simpl.
    assert ((t <=? clock) = false) as -> by (apply Z.leb_gt; lia).
    by rewrite andb_false_r. }
  assert (Hpw : positive_wait clock a = Some (t - clock)).
  { unfold positive_wait. rewrite Ht.
    assert ((t =? 0) = false) as -> by (apply Z.eqb_neq; lia).
    assert ((0 <? t - clock) = true) as -> by (apply Z.ltb_lt; lia).
    done. }
  assert (Hw : getMinWaitTimeMs DEFAULT_COOLDOWN_MS clock m = t - clock).
  { destruct (PolicyProperties.getMinWaitTimeMs_all_limited
                DEFAULT_COOLDOWN_MS clock m Hall) as [_ [(b & Hb & Hbw)|[Hn _]]].
    - rewrite Hacc in Hb. apply list_elem_of_singleton in Hb as ->. congruence.
    - specialize (Hn a). rewrite Hacc in Hn.
      rewrite Hn in Hpw; [done | left]. }
  set (a1 := set_rateLimit false None a).
  assert (Hclear : (clearExpiredLimits t m).2
                   = saveToDisk (set_accounts [a1] m)).
  { unfold clearExpiredLimits. rewrite Hacc.
    assert (Hexp : expired t a = true).
    { unfold expired. rewrite Hfl, Ht. simpl.
      assert ((t =? 0) = false) as -> by (apply Z.eqb_neq; lia).
      by rewrite Z.leb_refl. }
    cbn [filter list_filter fmap list_fmap length]. simpl.
    rewrite Hexp. rewrite decide_True by done. done. }
  set (m2 := saveToDisk (set_accounts [a1] m)) in *.
  assert (Hne2 : Forall (λ a, expired t a = false) (accounts m2)).
  { subst m2. simpl. constructor; [done | constructor]. }
  assert (Hpick : pickNext t m2
                  = (Some (set_lastUsed t a1),
                     set_currentIndex 0
                       (set_accounts [set_lastUsed t a1] m2))).
  { rewrite (pickNext_at_cursor t m2 a1 Hne2).
    - subst m2. cbn [accounts saveToDisk set_accounts length]. 
      rewrite !Nat.mod_1_r. done.
    - subst m2. cbn [accounts saveToDisk set_accounts length].
      by rewrite Nat.mod_1_r.
    - subst a1. unfold usable. simpl. by rewrite Hinv. }
  set (a2 := set_lastUsed t a1) in *.
  set (m3 := set_currentIndex 0 (set_accounts [a2] m2)) in *.
  assert (Hacq : acquireAccount DEFAULT_COOLDOWN_MS toISOString clock m
                 = Pass (Use a2) [t - clock] t m3).
  { unfold acquireAccount.
    rewrite (pickNext_all_limited clock m Hall).
    rewrite (isAllRateLimited_all clock m Hall), Hw.
    assert ((120000 <? t - clock) = false) as -> by (apply Z.ltb_ge; lia).
    unfold getAccountCount. rewrite Hacc. cbn [length Nat.eqb].
    replace (clock + (t - clock)) with t by lia.
    rewrite Hclear, Hpick. done. }
  destruct (single_attempt t i a2 m3) as (m' & Hatt & Hwait); try done.
  { subst m3 m2. simpl. rewrite Hacc in Hem. simpl in Hem. done. }
  exists (t - clock), m'. split; [lia|].
  replace (clock + (t - clock)) with t by lia.
  split; [done|].
  exists (email a). rewrite <- Hem, Hacc. split; [done|].
  cbn [attempts]. rewrite Hacq.
  cbn [outcome manager_after clock_after sleeps].
  rewrite credentials_ok, Hatt. done.
Qed.

Lemma single_steps fuel : ∀ clock i m,
  0 ≤ clock → single_waiting clock m0 m →
  ∃ e ws, email <$> accounts m0 = [e]
    ∧ length ws = fuel ∧ Forall (λ w, 0 < w ≤ 120000) ws
    ∧ attempts' fuel i clock m
      = Run (Failure "Max retries exceeded") (replicate fuel e) ws
          (clock + foldr Z.add 0 ws)
          (manager_end (attempts' fuel i clock m)).
Proof.
  induction fuel as [|fuel IH]; intros clock i m Hclock Hwait.
  - destruct Hwait as (a & t & Hacc & Hem & _).
    exists (email a), []. rewrite <- Hem, Hacc.
    split; [done|]. split; [done|]. split; [constructor|].
    simpl. by rewrite Z.add_0_r.
  - destruct (single_step clock i m fuel Hclock Hwait)
      as (w & m' & Hw & Hwait' & e & He & Heq).
    destruct (IH (clock + w) (S i) m' ltac:(lia) Hwait')
      as (e' & ws & He' & Hlen & Hws & Heq').
    assert (e' = e) as -> by congruence.
    exists e, (w :: ws). split; [done|]. split; [simpl; lia|].
    split; [by constructor|].
    rewrite Heq. rewrite Heq' at 1.
    unfold after_sleeping. cbn [result tried slept clock_end manager_end].
    cbn [app replicate foldr]. f_equal. lia.
Qed.


End SingleAccount.

End SendProperties.

(* ===================================================================== *)
(** ** Decimal numerals: [String(n)] and [parseInt] *)
(* ===================================================================== *)

Module DigitsProperties.
Import JS Text StringFacts.

Lemma list_ascii_app (a b : string) :
  list_ascii_of_string (a +:+ b)
  = list_ascii_of_string a ++ list_ascii_of_string b.
Proof.
  induction a as [|c a IH]; [done|].
  rewrite append_cons. simpl. by rewrite IH.
Qed.

(** Reading the digits of a numeral continues the accumulator. *)
Lemma read_digits_uint (d : Decimal.uint) : ∀ (acc : positive) n rest,
  no_digit_ahead rest →
  read_digits (Z.pos acc) n
    (list_ascii_of_string (NilEmpty.string_of_uint d) ++ rest)
  = (Z.pos (Pos.of_uint_acc d acc), (n + Decimal.nb_digits d)%nat, rest).
Proof.
  induction d as [|d IH|d IH|d IH|d IH|d IH|d IH|d IH|d IH|d IH|d IH].
  - intros acc n rest Hrest. simpl.
    rewrite Nat.add_0_r.
    destruct rest as [|c rest]; [done|]. simpl in *. by rewrite Hrest.
  - intros acc n rest Hrest.
    change (read_digits (Z.pos acc) n
              ("0"%char :: list_ascii_of_string (NilEmpty.string_of_uint d)
                 ++ rest)
            = (Z.pos (Pos.of_uint_acc d (10 * acc)),
               (n + S (Decimal.nb_digits d))%nat, rest)).
    change (read_digits (10 * Z.pos acc + 0) (S n)
              (list_ascii_of_string (NilEmpty.string_of_uint d) ++ rest)
            = (Z.pos (Pos.of_uint_acc d (10 * acc)),
               (n + S (Decimal.nb_digits d))%nat, rest)).
    replace (10 * Z.pos acc + 0) with (Z.pos (10 * acc)) by lia.
    rewrite IH by done. f_equal. f_equal. lia.
  - intros acc n rest Hrest.
    change (read_digits (10 * Z.pos acc + 1) (S n)
              (list_ascii_of_string (NilEmpty.string_of_uint d) ++ rest)
            = (Z.pos (Pos.of_uint_acc d (1 + 10 * acc)),
               (n + S (Decimal.nb_digits d))%nat, rest)).
    replace (10 * Z.pos acc + 1) with (Z.pos (1 + 10 * acc)) by lia.
    rewrite IH by done. f_equal. f_equal. lia.
  - intros acc n rest Hrest.
    change (read_digits (10 * Z.pos acc + 2) (S n)
              (list_ascii_of_string (NilEmpty.string_of_uint d) ++ rest)
            = (Z.pos (Pos.of_uint_acc d (2 + 10 * acc)),
               (n + S (Decimal.nb_digits d))%nat, rest)).
    replace (10 * Z.pos acc + 2) with (Z.pos (2 + 10 * acc)) by lia.
    rewrite IH by done. f_equal. f_equal. lia.
  - intros acc n rest Hrest.
    change (read_digits (10 * Z.pos acc + 3) (S n)
              (list_ascii_of_string (NilEmpty.string_of_uint d) ++ rest)
            = (Z.pos (Pos.of_uint_acc d (3 + 10 * acc)),
               (n + S (Decimal.nb_digits d))%nat, rest)).
    replace (10 * Z.pos acc + 3) with (Z.pos (3 + 10 * acc)) by lia.
    rewrite IH by done. f_equal. f_equal. lia.
  - intros acc n rest Hrest.
    change (read_digits (10 * Z.pos acc + 4) (S n)
              (list_ascii_of_string (NilEmpty.string_of_uint d) ++ rest)
            = (Z.pos (Pos.of_uint_acc d (4 + 10 * acc)),
               (n + S (Decimal.nb_digits d))%nat, rest)).
    replace (10 * Z.pos acc + 4) with (Z.pos (4 + 10 * acc)) by lia.
    rewrite IH by done. f_equal. f_equal. lia.
  - intros acc n rest Hrest.
    change (read_digits (10 * Z.pos acc + 5) (S n)
              (list_ascii_of_string (NilEmpty.string_of_uint d) ++ rest)
            = (Z.pos (Pos.of_uint_acc d (5 + 10 * acc)),
               (n + S (Decimal.nb_digits d))%nat, rest)).
    replace (10 * Z.pos acc + 5) with (Z.pos (5 + 10 * acc)) by lia.
    rewrite IH by done. f_equal. f_equal. lia.
  - intros acc n rest Hrest.
    change (read_digits (10 * Z.pos acc + 6) (S n)
              (list_ascii_of_string (NilEmpty.string_of_uint d) ++ rest)
            = (Z.pos (Pos.of_uint_acc d (6 + 10 * acc)),
               (n + S (Decimal.nb_digits d))%nat, rest)).
    replace (10 * Z.pos acc + 6) with (Z.pos (6 + 10 * acc)) by lia.
    rewrite IH by done. f_equal. f_equal. lia.
  - intros acc n rest Hrest.
    change (read_digits (10 * Z.pos acc + 7) (S n)
              (list_ascii_of_string (NilEmpty.string_of_uint d) ++ rest)
            = (Z.pos (Pos.of_uint_acc d (7 + 10 * acc)),
               (n + S (Decimal.nb_digits d))%nat, rest)).
    replace (10 * Z.pos acc + 7) with (Z.pos (7 + 10 * acc)) by lia.
    rewrite IH by done. f_equal. f_equal. lia.
  - intros acc n rest Hrest.
    change (read_digits (10 * Z.pos acc + 8) (S n)
              (list_ascii_of_string (NilEmpty.string_of_uint d) ++ rest)
            = (Z.pos (Pos.of_uint_acc d (8 + 10 * acc)),
               (n + S (Decimal.nb_digits d))%nat, rest)).
    replace (10 * Z.pos acc + 8) with (Z.pos (8 + 10 * acc)) by lia.
    rewrite IH by done. f_equal. f_equal. lia.
  - intros acc n rest Hrest.
    change (read_digits (10 * Z.pos acc + 9) (S n)
              (list_ascii_of_string (NilEmpty.string_of_uint d) ++ rest)
            = (Z.pos (Pos.of_uint_acc d (9 + 10 * acc)),
               (n + S (Decimal.nb_digits d))%nat, rest)).
    replace (10 * Z.pos acc + 9) with (Z.pos (9 + 10 * acc)) by lia.
    rewrite IH by done. f_equal. f_equal. lia.
Qed.

Local Ltac numeral_case d n rest Hrest k :=
  change (read_digits (Z.pos k) (S n)
            (list_ascii_of_string (NilEmpty.string_of_uint d) ++ rest)
          = (Z.pos (Pos.of_uint_acc d k), (n + S (Decimal.nb_digits d))%nat,
             rest));
  rewrite (read_digits_uint d k (S n) rest Hrest); f_equal; f_equal; lia.

(** The digits of a numeral, read from zero, give its value. *)
Lemma read_digits_numeral (d : Decimal.uint) : ∀ n rest,
  no_digit_ahead rest →
  read_digits 0 n (list_ascii_of_string (NilEmpty.string_of_uint d) ++ rest)
  = (Z.of_N (Pos.of_uint d), (n + Decimal.nb_digits d)%nat, rest).
Proof.
  induction d as [|d IH|d IH|d IH|d IH|d IH|d IH|d IH|d IH|d IH|d IH];
    intros n rest Hrest.
  - simpl. rewrite Nat.add_0_r.
    destruct rest as [|c rest]; [done|]. simpl in *. by rewrite Hrest.
  - change (read_digits 0 (S n)
              (list_ascii_of_string (NilEmpty.string_of_uint d) ++ rest)
            = (Z.of_N (Pos.of_uint d), (n + S (Decimal.nb_digits d))%nat,
               rest)).
    rewrite IH by done. f_equal. f_equal. lia.
  - numeral_case d n rest Hrest 1%positive.
  - numeral_case d n rest Hrest 2%positive.
  - numeral_case d n rest Hrest 3%positive.
  - numeral_case d n rest Hrest 4%positive.
  - numeral_case d n rest Hrest 5%positive.
  - numeral_case d n rest Hrest 6%positive.
  - numeral_case d n rest Hrest 7%positive.
  - numeral_case d n rest Hrest 8%positive.
  - numeral_case d n rest Hrest 9%positive.
Qed.

Lemma numeral_digits (d : Decimal.uint) :
  Forall (λ c, is_digit c = true)
         (list_ascii_of_string (NilEmpty.string_of_uint d)).
Proof. induction d; simpl; by constructor. Qed.

Lemma numeral_nonempty (d : Decimal.uint) :
  d ≠ Decimal.Nil → list_ascii_of_string (NilEmpty.string_of_uint d) ≠ [].
Proof. by destruct d. Qed.

(** [String(z)] for a number that is not negative is a numeral of [z]. *)
Lemma toString_numeral (z : Z) :
  0 ≤ z →
  ∃ d, d ≠ Decimal.Nil ∧ toString z = NilEmpty.string_of_uint d ∧
       Z.of_N (Pos.of_uint d) = z.
Proof.
  intros Hz. destruct z as [|p|p]; [| |lia].
  - by exists (Decimal.D0 Decimal.Nil).
  - exists (Pos.to_uint p).
    pose proof (DecimalPos.Unsigned.to_uint_nonnil p) as Hne.
    split; [done|]. split.
    + unfold toString. simpl. by destruct (Pos.to_uint p).
    + by rewrite DecimalPos.Unsigned.of_to.
Qed.

(** [String(z)] is a non-empty run of digits. *)
Lemma toString_digits (z : Z) :
  0 ≤ z →
  list_ascii_of_string (toString z) ≠ []
  ∧ Forall (λ c, is_digit c = true) (list_ascii_of_string (toString z)).
Proof.
  intros (d & Hne & -> & _)%toString_numeral.
  split; [by apply numeral_nonempty | apply numeral_digits].
Qed.

Lemma skip_space_digits (l : list ascii) :
  l ≠ [] → Forall (λ c, is_digit c = true) l → skip_space l = l.
Proof.
  intros Hne Hall. destruct l as [|c l]; [done|].
  apply Forall_cons in Hall as [Hc _]. simpl.
  assert (is_space c = false) as ->; [|done].
  unfold is_digit in Hc. unfold is_space.
  apply andb_true_iff in Hc as [H1 H2].
  apply Nat.leb_le in H1, H2.
  repeat match goal with
         | |- context [(?a <=? ?b)%nat] =>
             let E := fresh in destruct (Nat.leb_spec a b) as [E|E]
         | |- context [(?a =? ?b)%nat] =>
             let E := fresh in destruct (Nat.eqb_spec a b) as [E|E]
         end; simpl; try done; lia.
Qed.

Lemma read_sign_digits (l : list ascii) :
  Forall (λ c, is_digit c = true) l → read_sign l = (false, l).
Proof.
  intros Hall. destruct l as [|c l]; [done|].
  apply Forall_cons in Hall as [Hc _]. unfold read_sign.
  destruct (bool_decide (c = "-"%char)) eqn:E1.
  { apply bool_decide_eq_true in E1. by subst c. }
  destruct (bool_decide (c = "+"%char)) eqn:E2; [|done].
  apply bool_decide_eq_true in E2. by subst c.
Qed.

(** Round trip: [parseInt(String(z), 10)] is [z], for [z] not negative. *)
Lemma parseInt_toString (z : Z) : 0 ≤ z → parseInt (toString z) = Num z.
Proof.
  intros Hz.
  destruct (toString_digits z Hz) as [Hne Hall].
  destruct (toString_numeral z Hz) as (d & Hd & Hs & Hv).
  unfold parseInt, parseInt_list.
  rewrite skip_space_digits, read_sign_digits by done.
  rewrite Hs.
  pose proof (read_digits_numeral d 0 [] I) as H.
  rewrite app_nil_r in H. rewrite H, Hv.
  destruct (Decimal.nb_digits d) eqn:E; [|done].
  destruct d; simpl in E; congruence.
Qed.

End DigitsProperties.

(* ===================================================================== *)
(** ** What the matcher returns on given text *)
(* ===================================================================== *)

Module MatchProperties.
Import JS Regex Text StringFacts RegexProperties DigitsProperties.

Lemma bind_singleton {A B} (f : A → list B) (x : A) : [x] ≫= f = f x.
Proof. simpl. apply app_nil_r. Qed.

(** A pattern character in front of a pattern. *)
Lemma seq_chr ci x K p c l caps :
  matches ci (Seq (Chr x) K) (MState p (c :: l) caps)
  = if chr_eq ci c x then matches ci K (MState (Some c) l caps) else [].
Proof.
  change (matches ci (Seq (Chr x) K) (MState p (c :: l) caps))
    with (matches ci (Chr x) (MState p (c :: l) caps) ≫= matches ci K).
  change (matches ci (Chr x) (MState p (c :: l) caps))
    with (if chr_eq ci c x then [MState (Some c) l caps] else []).
  destruct (chr_eq ci c x); [apply bind_singleton | done].
Qed.

Lemma seq_chr_end ci x K p caps :
  matches ci (Seq (Chr x) K) (MState p [] caps) = [].
Proof. reflexivity. Qed.

Lemma upper_digit c : is_digit c = true → upper c = c.
Proof.
  intros H. unfold upper. unfold is_digit in H.
  apply andb_true_iff in H as [_ H]. apply Nat.leb_le in H.
  assert ((97 <=? code c)%nat = false) as -> by (apply Nat.leb_gt; lia).
  done.
Qed.

(** A digit is not a pattern character that is not a digit, whatever the
    case. *)
Lemma chr_eq_digit ci c x :
  is_digit c = true → is_digit x = false → is_digit (upper x) = false →
  chr_eq ci c x = false.
Proof.
  intros Hc Hx Hux. unfold chr_eq. destruct ci.
  - rewrite (upper_digit c Hc). apply bool_decide_eq_false.
    intros ->. congruence.
  - apply bool_decide_eq_false. intros ->. congruence.
Qed.

Lemma rejects_seq_chr ci (f : ascii → bool) x K :
  (∀ c, f c = true → chr_eq ci c x = false) →
  rejects ci f (Seq (Chr x) K).
Proof. intros H p c l caps Hc. by rewrite seq_chr, H. Qed.

(** *** Runs of digits *)

(** The iterations of [\d*] on a run of digits, in front of a continuation
    that fails where a digit is ahead: only the longest run goes on. *)
Lemma star_digits_bind ci (F : mstate → list mstate) (ds : list ascii) :
  (∀ p c l caps, is_digit c = true → F (MState p (c :: l) caps) = []) →
  ∀ n p rest caps,
    Forall (λ c, is_digit c = true) ds → no_digit_ahead rest →
    (length ds ≤ n)%nat →
    ∃ p',
      (fix star (n : nat) (st : mstate) {struct n} : list mstate :=
         match n with
         | O => [st]
         | S n' =>
             (matches ci Digit st ≫= fun st' =>
                if (length (Regex.rest st') <? length (Regex.rest st))%nat
                then star n' st' else [])
             ++ [st]
         end) n (MState p (ds ++ rest) caps) ≫= F
      = F (MState p' rest caps).
Proof.
  intros HF. induction ds as [|d ds IH]; intros n p rest caps Hds Hrest Hn.
  - exists p. destruct n as [|n].
    + apply bind_singleton.
    + cbn [app]. destruct rest as [|c rest].
      * simpl. apply app_nil_r.
      * simpl in Hrest. simpl. rewrite Hrest. simpl. apply app_nil_r.
  - apply Forall_cons in Hds as [Hd Hds].
    destruct n as [|n]; [simpl in Hn; lia|].
    destruct (IH n (Some d) rest caps Hds Hrest ltac:(simpl in Hn; lia))
      as [p' Hp'].
    exists p'. rewrite <- Hp'.
    cbn [app]. simpl matches. rewrite Hd.
    rewrite bind_singleton. cbn [Regex.rest].
    assert ((length (ds ++ rest) <? length (d :: ds ++ rest))%nat = true)
      as -> by (apply Nat.ltb_lt; simpl; lia).
    rewrite bind_app. rewrite bind_singleton.
    rewrite (HF p d (ds ++ rest) caps Hd). by rewrite app_nil_r.
Qed.

(** [\d+] in front of such a continuation. *)
Lemma plus_digits_bind ci (F : mstate → list mstate) (ds : list ascii)
    p rest caps :
  (∀ p c l caps, is_digit c = true → F (MState p (c :: l) caps) = []) →
  ds ≠ [] → Forall (λ c, is_digit c = true) ds → no_digit_ahead rest →
  ∃ p', matches ci (Plus Digit) (MState p (ds ++ rest) caps) ≫= F
        = F (MState p' rest caps).
Proof.
  intros HF Hne Hds Hrest. destruct ds as [|d ds]; [done|].
  apply Forall_cons in Hds as [Hd Hds].
  destruct (star_digits_bind ci F ds HF (length (ds ++ rest)) (Some d) rest
              caps Hds Hrest) as [p' Hp'].
  { rewrite length_app. lia. }
  exists p'. rewrite <- Hp'.
  unfold Plus.
  change (matches ci (Seq Digit (Star Digit)) (MState p ((d :: ds) ++ rest) caps))
    with (matches ci Digit (MState p (d :: ds ++ rest) caps)
          ≫= matches ci (Star Digit)).
  simpl matches. rewrite Hd. rewrite bind_singleton. reflexivity.
Qed.

(** [\d+] in front of a pattern that fails where a digit is ahead. *)
Lemma seq_digits ci K (ds : list ascii) p rest caps :
  rejects ci is_digit K →
  ds ≠ [] → Forall (λ c, is_digit c = true) ds → no_digit_ahead rest →
  ∃ p', matches ci (Seq (Plus Digit) K) (MState p (ds ++ rest) caps)
        = matches ci K (MState p' rest caps).
Proof.
  intros HK Hne Hds Hrest.
  apply (plus_digits_bind ci (matches ci K) ds p rest caps); try done.
Qed.

(** [(\d+)] in front of such a pattern: the group holds the run. *)
Lemma seq_grp_digits ci i K (ds : list ascii) p rest caps :
  rejects ci is_digit K →
  ds ≠ [] → Forall (λ c, is_digit c = true) ds → no_digit_ahead rest →
  ∃ p', matches ci (Seq (Grp i (Plus Digit)) K) (MState p (ds ++ rest) caps)
        = matches ci K
            (MState p' rest (<[i := string_of_list_ascii ds]> caps)).
Proof.
  intros HK Hne Hds Hrest.
  set (g := λ st' : mstate,
         MState (prev st') (Regex.rest st')
           (<[i := consumed (ds ++ rest) (Regex.rest st')]> (Regex.caps st'))).
  destruct (plus_digits_bind ci (λ st', matches ci K (g st')) ds p rest caps)
    as [p' Hp']; try done.
  { intros p0 c l caps0 Hc. unfold g. simpl. by apply HK. }
  exists p'.
  change (matches ci (Seq (Grp i (Plus Digit)) K) (MState p (ds ++ rest) caps))
    with ((g <$> matches ci (Plus Digit) (MState p (ds ++ rest) caps))
          ≫= matches ci K).
  rewrite list_fmap_bind. unfold compose. rewrite Hp'.
  unfold g. simpl. by rewrite consumed_app.
Qed.

(** *** Literal text *)

(** The code units [s'] match the literal [s]. *)
Lemma lit_match ci (s : string) : ∀ (s' : list ascii) c' p l caps,
  Forall2 (λ x c, chr_eq ci x c = true) (c' :: s')
          (list_ascii_of_string s) →
  ∃ p', matches ci (Lit s) (MState p (c' :: s' ++ l) caps)
        = [MState p' l caps].
Proof.
  induction s as [|c s IH]; intros s' c' p l caps H; [inversion H|].
  simpl in H. apply Forall2_cons in H as [Hc H].
  destruct s as [|c2 s].
  - simpl in H. apply Forall2_nil_inv_r in H as ->.
    exists (Some c'). simpl. fold (chr_eq ci c' c). by rewrite Hc.
  - destruct s' as [|c2' s']; [inversion H|].
    destruct (IH s' c2' (Some c') l caps H) as [p' Hp'].
    exists p'.
    change (Lit (String c (String c2 s)))
      with (Seq (Chr c) (Lit (String c2 s))).
    change (matches ci (Seq (Chr c) (Lit (String c2 s)))
              (MState p (c' :: (c2' :: s') ++ l) caps))
      with (matches ci (Seq (Chr c) (Lit (String c2 s)))
              (MState p (c' :: c2' :: s' ++ l) caps)).
    by rewrite seq_chr, Hc.
Qed.

(** A literal in front of a pattern. *)
Lemma seq_lit ci (s : string) K (s' : list ascii) c' p l caps :
  Forall2 (λ x c, chr_eq ci x c = true) (c' :: s')
          (list_ascii_of_string s) →
  ∃ p', matches ci (Seq (Lit s) K) (MState p (c' :: s' ++ l) caps)
        = matches ci K (MState p' l caps).
Proof.
  intros H. destruct (lit_match ci s s' c' p l caps H) as [p' Hp'].
  exists p'.
  change (matches ci (Seq (Lit s) K) (MState p (c' :: s' ++ l) caps))
    with (matches ci (Lit s) (MState p (c' :: s' ++ l) caps) ≫= matches ci K).
  rewrite Hp'. apply bind_singleton.
Qed.

(** A literal fails where its first character does not match. *)
Lemma lit_rejects ci c (s : string) (f : ascii → bool) :
  (∀ x, f x = true → chr_eq ci x c = false) →
  rejects ci f (Lit (String c s)).
Proof.
  intros H p x l caps Hx. destruct s as [|c2 s].
  - simpl. fold (chr_eq ci x c). by rewrite H.
  - change (Lit (String c (String c2 s)))
      with (Seq (Chr c) (Lit (String c2 s))).
    by rewrite seq_chr, H.
Qed.

Lemma lit_rejects_end ci c (s : string) : rejects_end ci (Lit (String c s)).
Proof. intros p caps. by destruct s. Qed.

Lemma rejects_seq ci f r K : rejects ci f r → rejects ci f (Seq r K).
Proof.
  intros H p c l caps Hc.
  change (matches ci (Seq r K) (MState p (c :: l) caps))
    with (matches ci r (MState p (c :: l) caps) ≫= matches ci K).
  by rewrite H.
Qed.

Lemma rejects_end_seq ci r K : rejects_end ci r → rejects_end ci (Seq r K).
Proof.
  intros H p caps.
  change (matches ci (Seq r K) (MState p [] caps))
    with (matches ci r (MState p [] caps) ≫= matches ci K).
  by rewrite H.
Qed.

Lemma rejects_alt ci f r1 r2 :
  rejects ci f r1 → rejects ci f r2 → rejects ci f (Alt r1 r2).
Proof. intros H1 H2 p c l caps Hc. simpl. by rewrite H1, H2. Qed.

Lemma rejects_end_alt ci r1 r2 :
  rejects_end ci r1 → rejects_end ci r2 → rejects_end ci (Alt r1 r2).
Proof. intros H1 H2 p caps. simpl. by rewrite H1, H2. Qed.

Lemma rejects_grp ci f i r : rejects ci f r → rejects ci f (Grp i r).
Proof. intros H p c l caps Hc. simpl. by rewrite H. Qed.

(** *** The search *)

(** The search passes the positions where the pattern fails. *)
Lemma search_skip ci r (f : ascii → bool) (pre : list ascii) :
  rejects ci f r → Forall (λ c, f c = true) pre →
  ∀ p l, ∃ p', search ci r p (pre ++ l) = search ci r p' l.
Proof.
  intros Hr. induction pre as [|c pre IH]; intros Hpre p l.
  - by exists p.
  - apply Forall_cons in Hpre as [Hc Hpre].
    destruct (IH Hpre (Some c) l) as [p' Hp'].
    exists p'. rewrite <- Hp'. simpl. by rewrite Hr.
Qed.

(** The search ends at the first position where the pattern matches. *)
Lemma search_hit ci r p l st' more :
  matches ci r (MState p l ∅) = st' :: more →
  search ci r p l = Some (<[O := consumed l (Regex.rest st')]> (Regex.caps st')).
Proof. intros H. destruct l; simpl; by rewrite H. Qed.

(** The search finds nothing in text on which the pattern fails
    everywhere. *)
Lemma search_none ci r (f : ascii → bool) (l : list ascii) :
  rejects ci f r → rejects_end ci r → Forall (λ c, f c = true) l →
  ∀ p, search ci r p l = None.
Proof.
  intros Hr He. induction l as [|c l IH]; intros Hl p.
  - simpl. by rewrite He.
  - apply Forall_cons in Hl as [Hc Hl]. simpl. rewrite Hr by done.
    by apply IH.
Qed.

Lemma matches_alt ci r1 r2 st :
  matches ci (Alt r1 r2) st = matches ci r1 st ++ matches ci r2 st.
Proof. reflexivity. Qed.

Lemma matches_eps ci st : matches ci Eps st = [st].
Proof. reflexivity. Qed.

(** *** Durations: [1h23m45s], [23m45s], [45s] *)

Local Ltac eval_chr :=
  repeat match goal with
         | |- context [chr_eq ?ci ?c ?x] =>
             let b := eval vm_compute in (chr_eq ci c x) in
             change (chr_eq ci c x) with b; cbv iota
         end.

Local Ltac step_chr := rewrite seq_chr; eval_chr.

Local Ltac solve_rejects :=
  first [ apply rejects_seq_chr; intros ? ?; by apply chr_eq_digit ].

Local Ltac step_digits Hne Hds :=
  lazymatch goal with
  | |- context [matches ?ci (Seq (Plus Digit) ?K)
                  (MState ?p (?ds ++ ?rest) ?caps)] =>
      let p' := fresh "p" in
      let E := fresh "E" in
      destruct (seq_digits ci K ds p rest caps) as [p' E];
      [solve_rejects | exact Hne | exact Hds | done | rewrite E; clear E]
  end.

Local Ltac step_grp_digits Hne Hds :=
  lazymatch goal with
  | |- context [matches ?ci (Seq (Grp ?i (Plus Digit)) ?K)
                  (MState ?p (?ds ++ ?rest) ?caps)] =>
      let p' := fresh "p" in
      let E := fresh "E" in
      destruct (seq_grp_digits ci i K ds p rest caps) as [p' E];
      [solve_rejects | exact Hne | exact Hds | done | rewrite E; clear E]
  end.

Local Abbreviation hms_h :=
  (Seq (Plus Digit)
     (Seq (Chr "h")
        (Seq (Plus Digit)
           (Seq (Chr "m") (Seq (Plus Digit) (Seq (Chr "s") Eps)))))).
Local Abbreviation hms_m :=
  (Seq (Plus Digit) (Seq (Chr "m") (Seq (Plus Digit) (Seq (Chr "s") Eps)))).
Local Abbreviation hms_s := (Seq (Plus Digit) (Seq (Chr "s") Eps)).

Local Abbreviation dur_h :=
  (Seq (Grp 1 (Plus Digit))
     (Seq (Chr "h")
        (Seq (Grp 2 (Plus Digit))
           (Seq (Chr "m") (Seq (Grp 3 (Plus Digit)) (Seq (Chr "s") Eps)))))).
Local Abbreviation dur_m :=
  (Seq (Grp 4 (Plus Digit))
     (Seq (Chr "m") (Seq (Grp 5 (Plus Digit)) (Seq (Chr "s") Eps)))).
Local Abbreviation dur_s := (Seq (Grp 6 (Plus Digit)) (Seq (Chr "s") Eps)).

Lemma re_hms_eq : Server.re_hms = Alt hms_h (Alt hms_m hms_s).
Proof. reflexivity. Qed.

Lemma re_duration_eq :
  RateLimitParser.re_duration = Alt dur_h (Alt dur_m dur_s).
Proof. reflexivity. Qed.

Section Durations.

Variables H M S : list ascii.
Hypothesis H_ne : H ≠ [].
Hypothesis M_ne : M ≠ [].
Hypothesis S_ne : S ≠ [].
Hypothesis H_digits : Forall (λ c, is_digit c = true) H.
Hypothesis M_digits : Forall (λ c, is_digit c = true) M.
Hypothesis S_digits : Forall (λ c, is_digit c = true) S.

Lemma hms_h_m p tail caps :
  matches true hms_h (MState p (M ++ "m"%char :: tail) caps) = [].
Proof. step_digits M_ne M_digits. by step_chr. Qed.

Lemma hms_h_s p tail caps :
  matches true hms_h (MState p (S ++ "s"%char :: tail) caps) = [].
Proof. step_digits S_ne S_digits. by step_chr. Qed.

Lemma hms_m_s p tail caps :
  matches true hms_m (MState p (S ++ "s"%char :: tail) caps) = [].
Proof. step_digits S_ne S_digits. by step_chr. Qed.

Lemma hms_3 p tail caps :
  ∃ p' more,
    matches true Server.re_hms
      (MState p (H ++ "h"%char :: M ++ "m"%char :: S ++ "s"%char :: tail) caps)
    = MState p' tail caps :: more.
Proof.
  rewrite re_hms_eq, matches_alt.
  step_digits H_ne H_digits. step_chr.
  step_digits M_ne M_digits. step_chr.
  step_digits S_ne S_digits. step_chr.
  rewrite matches_eps. eauto.
Qed.

Lemma hms_2 p tail caps :
  ∃ p' more,
    matches true Server.re_hms
      (MState p (M ++ "m"%char :: S ++ "s"%char :: tail) caps)
    = MState p' tail caps :: more.
Proof.
  rewrite re_hms_eq, matches_alt, hms_h_m, matches_alt. cbn [app].
  step_digits M_ne M_digits. step_chr.
  step_digits S_ne S_digits. step_chr.
  rewrite matches_eps. eauto.
Qed.

Lemma hms_1 p tail caps :
  ∃ p' more,
    matches true Server.re_hms (MState p (S ++ "s"%char :: tail) caps)
    = MState p' tail caps :: more.
Proof.
  rewrite re_hms_eq, matches_alt, hms_h_s, matches_alt, hms_m_s. cbn [app].
  step_digits S_ne S_digits. step_chr.
  rewrite matches_eps. eauto.
Qed.

Lemma dur_h_m p tail caps :
  matches true dur_h (MState p (M ++ "m"%char :: tail) caps) = [].
Proof. step_grp_digits M_ne M_digits. by step_chr. Qed.

Lemma dur_h_s p tail caps :
  matches true dur_h (MState p (S ++ "s"%char :: tail) caps) = [].
Proof. step_grp_digits S_ne S_digits. by step_chr. Qed.

Lemma dur_m_s p tail caps :
  matches true dur_m (MState p (S ++ "s"%char :: tail) caps) = [].
Proof. step_grp_digits S_ne S_digits. by step_chr. Qed.

Lemma duration_3 p tail caps :
  ∃ p' more,
    matches true RateLimitParser.re_duration
      (MState p (H ++ "h"%char :: M ++ "m"%char :: S ++ "s"%char :: tail) caps)
    = MState p' tail
        (<[3%nat := string_of_list_ascii S]>
           (<[2%nat := string_of_list_ascii M]>
              (<[1%nat := string_of_list_ascii H]> caps))) :: more.
Proof.
  rewrite re_duration_eq, matches_alt.
  step_grp_digits H_ne H_digits. step_chr.
  step_grp_digits M_ne M_digits. step_chr.
  step_grp_digits S_ne S_digits. step_chr.
  rewrite matches_eps. eauto.
Qed.

Lemma duration_2 p tail caps :
  ∃ p' more,
    matches true RateLimitParser.re_duration
      (MState p (M ++ "m"%char :: S ++ "s"%char :: tail) caps)
    = MState p' tail
        (<[5%nat := string_of_list_ascii S]>
           (<[4%nat := string_of_list_ascii M]> caps)) :: more.
Proof.
  rewrite re_duration_eq, matches_alt, dur_h_m, matches_alt. cbn [app].
  step_grp_digits M_ne M_digits. step_chr.
  step_grp_digits S_ne S_digits. step_chr.
  rewrite matches_eps. eauto.
Qed.

Lemma duration_1 p tail caps :
  ∃ p' more,
    matches true RateLimitParser.re_duration
      (MState p (S ++ "s"%char :: tail) caps)
    = MState p' tail (<[6%nat := string_of_list_ascii S]> caps) :: more.
Proof.
  rewrite re_duration_eq, matches_alt, dur_h_s, matches_alt, dur_m_s.
  cbn [app].
  step_grp_digits S_ne S_digits. step_chr.
  rewrite matches_eps. eauto.
Qed.

End Durations.

End MatchProperties.

(* ===================================================================== *)
(** ** Durations: [formatDuration], the error messages, [parseError] and
       the duration scan of [parseResetTime] *)
(* ===================================================================== *)

Module DurationProperties.
Import JS Regex Text RateLimitParser AccountManager CloudCode Server
  StringFacts RegexProperties DigitsProperties MatchProperties.

(** The three shapes of [formatDuration(ms)], with the numbers they show. *)
Lemma formatDuration_cases (w : Z) :
  0 ≤ w →
  (∃ h m s, 0 < h ∧ 0 ≤ m ∧ 0 ≤ s ∧ h * 3600 + m * 60 + s = w / 1000 ∧
            formatDuration w
            = toString h +:+ "h" +:+ toString m +:+ "m" +:+ toString s +:+ "s")
  ∨ (∃ m s, 0 < m ∧ 0 ≤ s ∧ m * 60 + s = w / 1000 ∧
            formatDuration w = toString m +:+ "m" +:+ toString s +:+ "s")
  ∨ (∃ s, 0 ≤ s ∧ s = w / 1000 ∧ formatDuration w = toString s +:+ "s").
Proof.
  intros Hw. unfold formatDuration. cbv zeta.
  set (seconds := w / 1000).
  assert (Hs : 0 ≤ seconds) by (subst seconds; apply Z.div_pos; lia).
  rewrite !Z.rem_mod_nonneg by lia.
  destruct (0 <? seconds / 3600) eqn:Hh.
  - left. apply Z.ltb_lt in Hh.
    exists (seconds / 3600), (seconds mod 3600 / 60), (seconds mod 60).
    split; [done|]. split; [apply Z.div_pos; [apply Z.mod_pos_bound|]; lia|].
    split; [apply Z.mod_pos_bound; lia|]. split; [|done].
    clear Hh. Z.div_mod_to_equations. lia.
  - apply Z.ltb_ge in Hh. right.
    assert (Hlt : seconds < 3600).
    { clear - Hh Hs. Z.div_mod_to_equations. lia. }
    rewrite (Z.mod_small seconds 3600) by lia.
    destruct (0 <? seconds / 60) eqn:Hm.
    + left. apply Z.ltb_lt in Hm.
      exists (seconds / 60), (seconds mod 60).
      split; [done|]. split; [apply Z.mod_pos_bound; lia|]. split; [|done].
      clear. Z.div_mod_to_equations. lia.
    + right. apply Z.ltb_ge in Hm.
      exists (seconds mod 60). split; [apply Z.mod_pos_bound; lia|].
      split; [|done].
      clear - Hm Hs. Z.div_mod_to_equations. lia.
Qed.

Lemma chars_cons (c : ascii) (s : string) :
  list_ascii_of_string (String c s) = c :: list_ascii_of_string s.
Proof. reflexivity. Qed.

(** [formatDuration(ms)] at the head of the input is what the pattern of
    [parseError] matches first. *)
Lemma hms_formatDuration (w : Z) p tail caps :
  0 ≤ w →
  ∃ p' more,
    matches true re_hms
      (MState p (list_ascii_of_string (formatDuration w) ++ tail) caps)
    = MState p' tail caps :: more.
Proof.
  intros Hw.
  destruct (formatDuration_cases w Hw)
    as [(h & m & s & Hh & Hm & Hs & _ & ->)
       |[(m & s & Hm & Hs & _ & ->)|(s & Hs & _ & ->)]].
  - destruct (toString_digits h ltac:(lia)) as [? ?].
    destruct (toString_digits m Hm) as [? ?].
    destruct (toString_digits s Hs) as [? ?].
    rewrite !list_ascii_app, !chars_cons, <- ?app_assoc.
    cbn [app list_ascii_of_string].
    by apply hms_3.
  - destruct (toString_digits m ltac:(lia)) as [? ?].
    destruct (toString_digits s Hs) as [? ?].
    rewrite !list_ascii_app, !chars_cons, <- ?app_assoc.
    cbn [app list_ascii_of_string].
    by apply hms_2.
  - destruct (toString_digits s Hs) as [? ?].
    rewrite !list_ascii_app, !chars_cons, <- ?app_assoc.
    cbn [app list_ascii_of_string].
    by apply hms_1.
Qed.

Lemma Forall_forallb_true {A} (f : A → bool) (l : list A) :
  forallb f l = true → Forall (λ c, f c = true) l.
Proof.
  induction l as [|x l IH]; simpl; intros H; [constructor|].
  apply andb_true_iff in H as [? ?]. constructor; auto.
Qed.

Lemma rejects_quota :
  rejects true (λ c, negb (chr_eq true c "q")) re_quota_reset.
Proof.
  unfold re_quota_reset. apply rejects_seq.
  apply (lit_rejects true "q" "uota will reset after ").
  intros x Hx. by apply negb_true_iff.
Qed.

(** The pattern of [parseError] finds the duration that follows the first
    [quota will reset after], in either case. *)
Lemma exec_quota_reset (pre q tail : string) (w : Z) :
  0 ≤ w →
  Forall (λ c, negb (chr_eq true c "q") = true) (list_ascii_of_string pre) →
  Forall2 (λ x c, chr_eq true x c = true) (list_ascii_of_string q)
          (list_ascii_of_string "quota will reset after ") →
  ∃ g, exec true re_quota_reset (pre +:+ q +:+ formatDuration w +:+ tail)
       = Some g
       ∧ g !! 1%nat = Some (formatDuration w).
Proof.
  intros Hw Hpre Hq. unfold exec. rewrite !list_ascii_app.
  destruct (search_skip true re_quota_reset _ (list_ascii_of_string pre)
              rejects_quota Hpre None
              (list_ascii_of_string q
               ++ list_ascii_of_string (formatDuration w)
               ++ list_ascii_of_string tail)) as [p1 ->].
  destruct (list_ascii_of_string q) as [|c' s'] eqn:Eq; [inversion Hq|].
  set (l := list_ascii_of_string (formatDuration w)
            ++ list_ascii_of_string tail).
  destruct (seq_lit true "quota will reset after " (Grp 1 re_hms) s' c' p1 l ∅
              Hq) as [p2 E2].
  destruct (hms_formatDuration w p2 (list_ascii_of_string tail) ∅ Hw)
    as (p3 & more & E3).
  assert (E : matches true re_quota_reset (MState p1 ((c' :: s') ++ l) ∅)
              = MState p3 (list_ascii_of_string tail)
                  (<[1%nat := formatDuration w]> ∅)
                :: ((λ st', MState (prev st') (rest st')
                              (<[1%nat := consumed l (rest st')]> (caps st')))
                    <$> more)).
  { unfold re_quota_reset. cbn [app]. rewrite E2.
    change (matches true (Grp 1 re_hms) (MState p2 l ∅))
      with ((λ st', MState (prev st') (rest st')
                      (<[1%nat := consumed l (rest st')]> (caps st')))
            <$> matches true re_hms (MState p2 l ∅)).
    subst l. rewrite E3. cbn [fmap list_fmap prev rest caps].
    rewrite consumed_app, string_of_list_ascii_of_string. done. }
  eexists. split; [exact (search_hit _ _ _ _ _ _ E)|].
  cbn [caps]. rewrite lookup_insert_ne by done.
  by rewrite lookup_insert_eq.
Qed.

(** A string without a given code unit. *)
Lemma includes_char_false (s : string) (c : ascii) :
  includes s (String c EmptyString) = false →
  Forall (λ x, x ≠ c) (list_ascii_of_string s).
Proof.
  induction s as [|x s IH]; intros H; [constructor|].
  rewrite includes_cons in H. apply orb_false_iff in H as [Hp Hs].
  simpl. constructor; [|by apply IH].
  intros ->. simpl in Hp. destruct (Ascii.ascii_dec c c); [|done].
  by destruct s.
Qed.

Lemma exec_model_none (msg : string) :
  includes msg (String dquote EmptyString) = false →
  exec false re_model msg = None.
Proof.
  intros H%includes_char_false. unfold exec.
  apply (search_none false re_model
           (λ c, negb (bool_decide (c = dquote)))).
  - unfold re_model, Cat. cbn [foldr]. apply rejects_seq_chr.
    intros c Hc. unfold chr_eq. by apply negb_true_iff.
  - intros p caps. reflexivity.
  - eapply Forall_impl; [exact H|]. intros c Hc. simpl.
    apply negb_true_iff. by apply bool_decide_eq_false.
Qed.

(** The two messages of the RESOURCE_EXHAUSTED error. *)
Lemma exec_quota_reset_message (w : Z) (count : nat) (iso msg : string) :
  0 ≤ w →
  msg = msg_too_long w iso ∨ msg = msg_all_limited count w iso →
  includes msg "RESOURCE_EXHAUSTED" = true
  ∧ ∃ g, exec true re_quota_reset msg = Some g
         ∧ g !! 1%nat = Some (formatDuration w).
Proof.
  intros Hw [->| ->].
  - split; [apply includes_prefix; reflexivity|].
    apply (exec_quota_reset "RESOURCE_EXHAUSTED: Rate limited. "
             "Quota will reset after " (". Next available: " +:+ iso) w Hw).
    + apply Forall_forallb_true. by vm_compute.
    + repeat constructor.
  - split; [apply includes_prefix; reflexivity|].
    unfold msg_all_limited.
    pose proof (exec_quota_reset
                  ("RESOURCE_EXHAUSTED: All " +:+ toString (Z.of_nat count)
                   +:+ " accounts rate-limited. ")
                  "quota will reset after " (". Next available: " +:+ iso)
                  w Hw) as H.
    rewrite !append_assoc in H. apply H.
    + rewrite !list_ascii_app. apply Forall_app. split.
      { apply Forall_forallb_true. by vm_compute. }
      apply Forall_app. split.
      * destruct (toString_digits (Z.of_nat count) ltac:(lia)) as [_ Hd].
        eapply Forall_impl; [exact Hd|]. intros c Hc. cbv beta in Hc |- *.
        apply negb_true_iff. by apply chr_eq_digit.
      * apply Forall_forallb_true. by vm_compute.
    + repeat constructor.
Qed.

(** X16. The RESOURCE_EXHAUSTED errors that [sendMessage] throws for a
    pool whose accounts are all rate-limited come out of [parseError] as
    an [invalid_request_error] with status 400 whose message carries the
    wait exactly as [formatDuration] rendered it, provided the wait is not
    negative and the text of the error contains neither [401] nor
    [UNAUTHENTICATED] nor a double quote. *)
Theorem parseError_quota_message (w : Z) (count : nat) (iso msg : string) :
  0 ≤ w →
  msg = msg_too_long w iso ∨ msg = msg_all_limited count w iso →
  includes msg "401" = false →
  includes msg "UNAUTHENTICATED" = false →
  includes msg (String dquote EmptyString) = false →
  parseError msg
  = ParsedError "invalid_request_error" 400
      ("You have exhausted your capacity on the model. Quota will reset after "
       +:+ formatDuration w +:+ ".").
Proof.
  intros Hw Hmsg H401 Hun Hdq.
  destruct (exec_quota_reset_message w count iso msg Hw Hmsg)
    as (Hre & g & Hg & Hg1).
  unfold parseError. rewrite H401, Hun, Hre, Hg, Hg1.
  rewrite (exec_model_none msg Hdq).
  rewrite orb_true_r. reflexivity.
Qed.

(** *** The duration scan of [parseResetTime] *)

Local Abbreviation not_r := (λ c : ascii, negb (chr_eq true c "r")).

Lemma not_r_rejects x s :
  chr_eq true x "r" = true → rejects true not_r (Lit (String x s)).
Proof.
  intros Hx. apply lit_rejects. intros c Hc.
  apply negb_true_iff in Hc. unfold chr_eq in *.
  apply bool_decide_eq_true in Hx. rewrite Hx.
  done.
Qed.

Lemma rejects_retry_key : rejects true not_r retry_key.
Proof.
  unfold retry_key, Cat. cbn [foldr].
  apply rejects_alt; [apply rejects_seq|]; by apply not_r_rejects.
Qed.

Lemma rejects_end_retry_key : rejects_end true retry_key.
Proof.
  unfold retry_key, Cat. cbn [foldr].
  apply rejects_end_alt; [apply rejects_end_seq|]; apply lit_rejects_end.
Qed.

Lemma formatDuration_not_r (w : Z) :
  0 ≤ w →
  Forall (λ c, not_r c = true) (list_ascii_of_string (formatDuration w)).
Proof.
  intros Hw.
  assert (Hd : ∀ z, 0 ≤ z →
            Forall (λ c, not_r c = true) (list_ascii_of_string (toString z))).
  { intros z Hz. destruct (toString_digits z Hz) as [_ Hd].
    eapply Forall_impl; [exact Hd|]. intros c Hc. cbv beta in Hc |- *.
    apply negb_true_iff. by apply chr_eq_digit. }
  destruct (formatDuration_cases w Hw)
    as [(h & m & s & Hh & Hm & Hs & _ & ->)
       |[(m & s & Hm & Hs & _ & ->)|(s & Hs & _ & ->)]];
    rewrite !list_ascii_app;
    repeat (apply Forall_app; split);
    try (apply Hd; lia); by repeat constructor.
Qed.

Lemma exec_none_formatDuration (r : re) (w : Z) :
  0 ≤ w → rejects true not_r r → rejects_end true r →
  exec true r (formatDuration w) = None.
Proof.
  intros Hw Hr He. unfold exec.
  apply (search_none true r not_r); [done..|].
  by apply formatDuration_not_r.
Qed.

Lemma truthy_toString (z : Z) : 0 ≤ z → truthy_str (toString z) = true.
Proof.
  intros Hz. destruct (toString_digits z Hz) as [Hne _].
  by destruct (toString z).
Qed.

(** The duration pattern on [formatDuration(ms)] gives back the whole
    seconds of [ms]. *)
Local Ltac simpl_lookups :=
  repeat first [ rewrite lookup_insert_eq
               | rewrite lookup_insert_ne by done
               | rewrite lookup_empty ].

Lemma scan_duration_formatDuration (w : Z) :
  0 ≤ w →
  scan_duration (formatDuration w) None = Some (Num (w / 1000 * 1000)).
Proof.
  intros Hw. unfold scan_duration, exec. cbn [truthy negb].
  destruct (formatDuration_cases w Hw)
    as [(h & m & s & Hh & Hm & Hs & Hv & ->)
       |[(m & s & Hm & Hs & Hv & ->)|(s & Hs & Hv & ->)]].
  - destruct (toString_digits h ltac:(lia)) as [? ?].
    destruct (toString_digits m Hm) as [? ?].
    destruct (toString_digits s Hs) as [? ?].
    rewrite !list_ascii_app, !chars_cons, <- ?app_assoc.
    cbn [app list_ascii_of_string].
    destruct (duration_3 (list_ascii_of_string (toString h))
                (list_ascii_of_string (toString m))
                (list_ascii_of_string (toString s))
                ltac:(done) ltac:(done) ltac:(done)
                ltac:(done) ltac:(done) ltac:(done) None [] ∅)
      as (p' & more & E).
    rewrite (search_hit _ _ _ _ _ _ E). cbn [caps rest].
    rewrite !string_of_list_ascii_of_string.
    unfold parseInt_grp.
    simpl_lookups.
    cbn [truthy_ostr]. rewrite ?truthy_toString by lia.
    simpl_lookups. cbn [truthy_ostr]. rewrite ?truthy_toString by lia.
    simpl_lookups. cbn [truthy_ostr]. rewrite ?truthy_toString by lia.
    rewrite !parseInt_toString by lia. simpl. do 2 f_equal. lia.
  - destruct (toString_digits m ltac:(lia)) as [? ?].
    destruct (toString_digits s Hs) as [? ?].
    rewrite !list_ascii_app, !chars_cons, <- ?app_assoc.
    cbn [app list_ascii_of_string].
    destruct (duration_2 (list_ascii_of_string (toString m))
                (list_ascii_of_string (toString s))
                ltac:(done) ltac:(done) ltac:(done) ltac:(done) None [] ∅)
      as (p' & more & E).
    rewrite (search_hit _ _ _ _ _ _ E). cbn [caps rest].
    rewrite !string_of_list_ascii_of_string.
    unfold parseInt_grp.
    simpl_lookups.
    cbn [truthy_ostr]. rewrite ?truthy_toString by lia.
    simpl_lookups. cbn [truthy_ostr]. rewrite ?truthy_toString by lia.
    simpl_lookups. cbn [truthy_ostr]. rewrite ?truthy_toString by lia.
    rewrite !parseInt_toString by lia. simpl. do 2 f_equal. lia.
  - destruct (toString_digits s Hs) as [? ?].
    rewrite !list_ascii_app, !chars_cons, <- ?app_assoc.
    cbn [app list_ascii_of_string].
    destruct (duration_1 (list_ascii_of_string (toString s))
                ltac:(done) ltac:(done) None [] ∅)
      as (p' & more & E).
    rewrite (search_hit _ _ _ _ _ _ E). cbn [caps rest].
    rewrite !string_of_list_ascii_of_string.
    unfold parseInt_grp.
    simpl_lookups.
    cbn [truthy_ostr]. rewrite ?truthy_toString by lia.
    simpl_lookups. cbn [truthy_ostr]. rewrite ?truthy_toString by lia.
    simpl_lookups. cbn [truthy_ostr]. rewrite ?truthy_toString by lia.
    rewrite !parseInt_toString by lia. simpl. do 2 f_equal. lia.
Qed.

(** X17. Round trip.  The text that [formatDuration] renders for a time
    that is not negative is read back by [parseResetTime] as that time
    rounded down to whole seconds, in milliseconds: as the message of an
    [Error], and as the body of a response without rate-limit headers. *)
Theorem parseResetTime_formatDuration (Date_parse : string → num) (now : Z)
    (w : Z) (r : responseOrError) (errorText : string) :
  0 ≤ w →
  r = Error (formatDuration w)
  ∨ ((r = Response ∅ ∨ r = Other) ∧ errorText = formatDuration w) →
  parseResetTime Date_parse now r errorText = Some (Num (w / 1000 * 1000)).
Proof.
  intros Hw Hr.
  assert (Hh : check_headers Date_parse now r None = None).
  { destruct Hr as [->|[[->| ->] _]]; reflexivity. }
  assert (Ht : scanned_text r errorText = formatDuration w).
  { destruct Hr as [->|[[->| ->] ->]]; reflexivity. }
  assert (N1 : exec true re_seconds_precise (formatDuration w) = None).
  { apply exec_none_formatDuration; [done| |];
      unfold re_seconds_precise, Cat; cbn [foldr].
    - apply rejects_seq, rejects_retry_key.
    - apply rejects_end_seq, rejects_end_retry_key. }
  assert (N2 : exec true re_millis (formatDuration w) = None).
  { apply exec_none_formatDuration; [done| |];
      unfold re_millis, Cat; cbn [foldr].
    - apply rejects_seq, rejects_retry_key.
    - apply rejects_end_seq, rejects_end_retry_key. }
  assert (N3 : exec true re_retry_seconds (formatDuration w) = None).
  { apply exec_none_formatDuration; [done| |];
      unfold re_retry_seconds, Cat; cbn [foldr].
    - apply rejects_seq. by apply not_r_rejects.
    - apply rejects_end_seq, lit_rejects_end. }
  assert (N4 : exec true re_iso (formatDuration w) = None).
  { apply exec_none_formatDuration; [done| |];
      unfold re_iso, Cat; cbn [foldr].
    - apply rejects_seq. by apply not_r_rejects.
    - apply rejects_end_seq, lit_rejects_end. }
  unfold parseResetTime. cbv zeta. rewrite Hh.
  unfold scan_body. cbn [truthy negb]. rewrite Ht.
  unfold scan_seconds_precise. rewrite N1.
  unfold scan_millis. cbn [truthy negb]. rewrite N2.
  unfold scan_retry_seconds. cbn [truthy negb]. rewrite N3.
  rewrite (scan_duration_formatDuration w Hw).
  unfold scan_iso. rewrite N4.
  by destruct (negb (truthy (Some (Num (w / 1000 * 1000))))).
Qed.

End DurationProperties.

(* ===================================================================== *)
(** ** The event stream: reads, lines and text *)
(* ===================================================================== *)

Module StreamExtras.
Import JS Streamer StreamText StringFacts.

(** *** [split('\n')] *)

Lemma split_lines_cons (c : ascii) (s : string) :
  split_lines (String c s)
  = if bool_decide (c = newline) then EmptyString :: split_lines s
    else match split_lines s with
         | h :: t => String c h :: t
         | [] => [String c EmptyString]
         end.
Proof. reflexivity. Qed.

Lemma split_lines_nonempty (s : string) : split_lines s ≠ [].
Proof.
  induction s as [|c s IH]; [done|]. rewrite split_lines_cons.
  destruct (bool_decide _); [done|]. by destruct (split_lines s).
Qed.

Lemma split_lines_no_newline (s : string) :
  no_newline s → split_lines s = [s].
Proof.
  unfold no_newline. induction s as [|c s IH]; intros H; [done|].
  simpl in H. apply Forall_cons in H as [Hc Hs].
  rewrite split_lines_cons, (IH Hs).
  by rewrite bool_decide_eq_false_2.
Qed.

Lemma last_split_no_newline (s : string) :
  no_newline (default EmptyString (last (split_lines s))).
Proof.
  induction s as [|c s IH]; [constructor|].
  rewrite split_lines_cons.
  pose proof (split_lines_nonempty s) as Hne.
  destruct (bool_decide (c = newline)) eqn:Hc.
  - destruct (split_lines s) as [|h t] eqn:E; [done|].
    by rewrite last_cons_cons.
  - apply bool_decide_eq_false in Hc.
    destruct (split_lines s) as [|h [|h2 t]] eqn:E; [done| |].
    + simpl in *. by constructor.
    + by rewrite last_cons_cons in *.
Qed.

(** The lines of a text in two pieces: the complete lines of the first
    piece, then the lines of what is left of it followed by the second. *)
Lemma split_lines_app (a b : string) :
  split_lines (a +:+ b)
  = removelast (split_lines a)
    ++ match split_lines b with
       | h :: t => (default EmptyString (last (split_lines a)) +:+ h) :: t
       | [] => []
       end.
Proof.
  pose proof (split_lines_nonempty b) as Hb.
  destruct (split_lines b) as [|h t] eqn:Eb; [done|]. clear Hb.
  induction a as [|c a IH].
  - change (EmptyString +:+ b) with b. by rewrite Eb.
  - rewrite append_cons, !split_lines_cons, IH.
    pose proof (split_lines_nonempty a) as Ha.
    destruct (bool_decide (c = newline)).
    + destruct (split_lines a) as [|x [|y r]] eqn:Ea; [done| |]; done.
    + destruct (split_lines a) as [|x [|y r]] eqn:Ea; [done| |]; done.
Qed.

Section Stream.

Variable messageId : string.
Variable originalModel : string.
Variable randomToolId : nat → string.
Variable decode : string → option chunk.

Local Abbreviation process_part' := (process_part randomToolId).
Local Abbreviation process_parts' := (process_parts randomToolId).
Local Abbreviation process_line' :=
  (process_line messageId originalModel randomToolId decode).
Local Abbreviation process_lines' :=
  (process_lines messageId originalModel randomToolId decode).
Local Abbreviation process_read' :=
  (process_read messageId originalModel randomToolId decode).
Local Abbreviation read_loop' :=
  (read_loop messageId originalModel randomToolId decode).
Local Abbreviation finish' := (finish messageId originalModel).
Local Abbreviation streamSSEResponse' :=
  (streamSSEResponse messageId originalModel randomToolId decode).

(** *** The buffer is not read by the loop over the lines *)

Lemma process_part_buffer b st p :
  process_part' (set_buffer b st) p
  = (λ r, (r.1, set_buffer b r.2)) <$> process_part' st p.
Proof.
  destruct st as [hs bi cb sig it ot sr bf].
  destruct p as [|[] [|s|[]] sg [fc|]]; try reflexivity;
    cbn -[blank String.length]; unfold flush_signature, close_block;
    cbn -[blank String.length];
    repeat (case_match; cbn -[blank String.length]; simplify_eq;
            try reflexivity).
Qed.

Lemma process_parts_buffer b ps : ∀ st,
  process_parts' (set_buffer b st) ps
  = let '(evs, st', ok) := process_parts' st ps in
    (evs, set_buffer b st', ok).
Proof.
  induction ps as [|p ps IH]; intros st; [done|].
  cbn [process_parts]. rewrite process_part_buffer.
  destruct (process_part' st p) as [[evs st1]|]; [|done].
  cbn [fmap option_fmap option_map fst snd]. rewrite IH.
  by destruct (process_parts' st1 ps) as [[evs' st2] ok].
Qed.

Lemma process_line_buffer b st line :
  process_line' (set_buffer b st) line
  = ((process_line' st line).1, set_buffer b (process_line' st line).2).
Proof.
  unfold process_line.
  destruct (negb (String.prefix "data:" line)); [done|]. cbv zeta.
  destruct (negb (truthy_str (trim (slice5 line)))); [done|].
  destruct (decode (trim (slice5 line))) as [c|]; [|done].
  assert (E1 : read_usage c (set_buffer b st) = set_buffer b (read_usage c st)).
  { unfold read_usage. by destruct (usageMetadata c). }
  rewrite E1.
  assert (E2 : ∀ s, emit_start messageId originalModel c (set_buffer b s)
               = ((emit_start messageId originalModel c s).1,
                  set_buffer b (emit_start messageId originalModel c s).2)).
  { intros s0. unfold emit_start. cbn [hasEmittedStart set_buffer].
    by destruct (negb (hasEmittedStart s0) && (0 <? length (parts c))%nat). }
  rewrite E2.
  destruct (emit_start messageId originalModel c (read_usage c st))
    as [ev0 st2]. cbn [fst snd].
  rewrite process_parts_buffer.
  destruct (process_parts' st2 (parts c)) as [[evs st3] ok]. cbn [fst snd].
  f_equal. destruct ok; [|done].
  unfold check_finish. destruct (finishReason c) as [r|]; [|done].
  destruct (truthy_str r); [|done].
  destruct (bool_decide (r = "MAX_TOKENS")); [done|].
  by destruct (bool_decide (r = "STOP")).
Qed.

Lemma process_lines_buffer b lines : ∀ st,
  process_lines' (set_buffer b st) lines
  = ((process_lines' st lines).1, set_buffer b (process_lines' st lines).2).
Proof.
  induction lines as [|l lines IH]; intros st; [done|].
  cbn [process_lines]. rewrite process_line_buffer.
  destruct (process_line' st l) as [evs st1]. cbn [fst snd].
  rewrite IH. by destruct (process_lines' st1 lines).
Qed.

Lemma process_lines_app l1 : ∀ l2 st,
  process_lines' st (l1 ++ l2)
  = ((process_lines' st l1).1
     ++ (process_lines' (process_lines' st l1).2 l2).1,
     (process_lines' (process_lines' st l1).2 l2).2).
Proof.
  induction l1 as [|l l1 IH]; intros l2 st.
  - cbn [app process_lines fst snd]. by destruct (process_lines' st l2).
  - cbn [app process_lines].
    destruct (process_line' st l) as [evs st1]. rewrite IH.
    destruct (process_lines' st1 l1) as [evs1 st2]. cbn [fst snd].
    destruct (process_lines' st2 l2) as [evs2 st3]. cbn [fst snd].
    by rewrite app_assoc.
Qed.

Lemma set_buffer_twice b b' st :
  set_buffer b (set_buffer b' st) = set_buffer b st.
Proof. reflexivity. Qed.

Lemma set_buffer_same st : set_buffer (buffer st) st = st.
Proof. by destruct st. Qed.

Lemma process_read_buffer st v :
  no_newline (buffer (process_read' st v).2).
Proof.
  unfold process_read. rewrite process_lines_buffer. cbn [snd buffer set_buffer].
  apply last_split_no_newline.
Qed.

(** *** Two reads and their concatenation *)

Lemma process_read_app st v1 v2 :
  process_read' st (v1 +:+ v2)
  = ((process_read' st v1).1
     ++ (process_read' (process_read' st v1).2 v2).1,
     (process_read' (process_read' st v1).2 v2).2).
Proof.
  unfold process_read.
  set (L1 := split_lines (buffer st +:+ v1)).
  rewrite (process_lines_buffer (default EmptyString (last L1))).
  cbn [fst snd buffer set_buffer].
  set (s0 := process_lines' st (removelast L1)).
  assert (E : split_lines (buffer st +:+ v1 +:+ v2)
              = removelast L1
                ++ split_lines (default EmptyString (last L1) +:+ v2)).
  { rewrite <- append_assoc, split_lines_app. fold L1. f_equal.
    rewrite (split_lines_app (default EmptyString (last L1)) v2).
    rewrite (split_lines_no_newline (default EmptyString (last L1))
               (last_split_no_newline (buffer st +:+ v1))).
    reflexivity. }
  rewrite E.
  set (L2 := split_lines (default EmptyString (last L1) +:+ v2)).
  assert (Hne : L2 ≠ []) by apply split_lines_nonempty.
  rewrite last_app.
  assert (Hl : last L2 = Some (default EmptyString (last L2))).
  { destruct (last L2) eqn:El; [done|]. by apply last_None in El. }
  rewrite Hl. cbn [default from_option id].
  rewrite (removelast_app (removelast L1) Hne).
  rewrite process_lines_buffer, process_lines_app.
  fold s0. cbn [fst snd]. rewrite set_buffer_twice.
  by rewrite (process_lines_buffer _ _ s0.2).
Qed.

Lemma process_read_nil st :
  no_newline (buffer st) → process_read' st EmptyString = ([], st).
Proof.
  intros H. unfold process_read. rewrite append_nil_r.
  rewrite (split_lines_no_newline _ H).
  cbn [last removelast default from_option id process_lines].
  by rewrite set_buffer_same.
Qed.

Lemma read_loop_concat reads : ∀ st,
  no_newline (buffer st) →
  read_loop' st reads = process_read' st (concat_reads reads).
Proof.
  induction reads as [|v reads IH]; intros st Hb.
  - by rewrite process_read_nil.
  - cbn [read_loop concat_reads foldr]. rewrite process_read_app.
    pose proof (process_read_buffer st v) as Hb1.
    destruct (process_read' st v) as [e1 s1]. cbn [fst snd] in *.
    rewrite (IH s1 Hb1). unfold concat_reads.
    by destruct (process_read' s1 (foldr String.append EmptyString reads)).
Qed.

(** X18. The events do not depend on how the body is cut into reads:
    [streamSSEResponse] yields for a list of reads what it yields for their
    concatenation in a single read. *)
Theorem streamSSEResponse_reads (reads : list string) :
  streamSSEResponse' reads = streamSSEResponse' [concat_reads reads].
Proof.
  unfold streamSSEResponse. cbn [read_loop].
  rewrite (read_loop_concat reads initial) by constructor.
  destruct (process_read' initial (concat_reads reads)) as [evs st].
  by rewrite app_nil_r.
Qed.

(** *** The stream, line by line *)

Lemma finish_buffer b st : finish' (set_buffer b st) = finish' st.
Proof. reflexivity. Qed.

(** The events for a body in one read: those of its complete lines, then
    the end of the stream. *)
Lemma stream_by_lines (body : string) :
  streamSSEResponse' [body]
  = (process_lines' initial (removelast (split_lines body))).1
    ++ finish' (process_lines' initial (removelast (split_lines body))).2.
Proof.
  unfold streamSSEResponse. cbn [read_loop]. unfold process_read.
  change (buffer initial +:+ body) with body.
  rewrite process_lines_buffer.
  destruct (process_lines' initial (removelast (split_lines body)))
    as [evs st]. cbn [fst snd].
  by rewrite app_nil_r, finish_buffer.
Qed.

Lemma complete_lines_tail (body tail : string) :
  no_newline tail →
  removelast (split_lines (body +:+ String newline tail))
  = removelast (split_lines (body +:+ String newline EmptyString)).
Proof.
  intros Ht. rewrite !split_lines_app, !split_lines_cons.
  rewrite bool_decide_eq_true_2 by done.
  rewrite (split_lines_no_newline tail Ht).
  change (split_lines EmptyString) with [EmptyString].
  rewrite !removelast_app by done. done.
Qed.

(** X19. The text after the last line feed of the body is never
    processed: a body yields the same events with and without it.  In
    particular a body without any line feed yields what an empty body
    yields, the placeholder message. *)
Theorem streamSSEResponse_partial_line (body tail : string) :
  no_newline tail →
  streamSSEResponse' [body +:+ String newline tail]
  = streamSSEResponse' [body +:+ String newline EmptyString]
  ∧ streamSSEResponse' [tail]
    = [message_start messageId originalModel 0;
       content_block_start 0 text_block;
       content_block_delta 0 (text_delta no_response);
       content_block_stop 0;
       message_delta "end_turn" 0; message_stop].
Proof.
  intros Ht. split.
  - by rewrite !stream_by_lines, complete_lines_tail.
  - by rewrite stream_by_lines, (split_lines_no_newline tail Ht).
Qed.

(** *** The text that is shown *)

Lemma text_deltas_app evs1 evs2 :
  text_deltas (evs1 ++ evs2) = text_deltas evs1 ++ text_deltas evs2.
Proof. unfold text_deltas. apply omap_app. Qed.

Lemma process_part_text st p :
  match process_part' st p with
  | Some (evs, st') =>
      throws p = false ∧ text_deltas evs = shown_text p
      ∧ hasEmittedStart st' = hasEmittedStart st
  | None => throws p = true
  end.
Proof.
  destruct st as [hs bi cb sig it ot sr bf].
  destruct p as [|[] [|s|[]] sg [fc|]]; try done;
    cbn -[blank String.length]; unfold flush_signature, close_block;
    cbn -[blank String.length];
    repeat (case_match; cbn -[blank String.length]; simplify_eq;
            try done).
Qed.

Lemma process_parts_text ps : ∀ st,
  text_deltas (process_parts' st ps).1.1 = texts_of ps
  ∧ hasEmittedStart (process_parts' st ps).1.2 = hasEmittedStart st.
Proof.
  induction ps as [|p ps IH]; intros st; [done|].
  cbn [process_parts texts_of].
  pose proof (process_part_text st p) as Hp.
  destruct (process_part' st p) as [[evs st1]|].
  - destruct Hp as (-> & Ht & Hs).
    destruct (IH st1) as [IH1 IH2].
    destruct (process_parts' st1 ps) as [[evs' st2] ok]. cbn [fst snd] in *.
    by rewrite text_deltas_app, Ht, IH1, IH2.
  - by rewrite Hp.
Qed.

Lemma process_line_text st line :
  text_deltas (process_line' st line).1
  = match chunk_of decode line with
    | Some c => texts_of (parts c)
    | None => []
    end
  ∧ hasEmittedStart (process_line' st line).2
    = hasEmittedStart st
      || match chunk_of decode line with
         | Some c => (0 <? length (parts c))%nat
         | None => false
         end.
Proof.
  unfold process_line, chunk_of.
  destruct (negb (String.prefix "data:" line));
    [by rewrite orb_false_r|]. cbv zeta.
  destruct (negb (truthy_str (trim (slice5 line))));
    [by rewrite orb_false_r|].
  destruct (decode (trim (slice5 line))) as [c|];
    [|by rewrite orb_false_r].
  assert (Hu : hasEmittedStart (read_usage c st) = hasEmittedStart st).
  { unfold read_usage. by destruct (usageMetadata c). }
  unfold emit_start. rewrite Hu.
  set (st1 := read_usage c st) in *.
  destruct (process_parts_text (parts c)
              (if negb (hasEmittedStart st) && (0 <? length (parts c))%nat
               then State true (blockIndex st1) (currentBlockType st1)
                      (currentThinkingSignature st1) (inputTokens st1)
                      (outputTokens st1) (stopReason st1) (buffer st1)
               else st1)) as [Ht Hs].
  destruct (negb (hasEmittedStart st) && (0 <? length (parts c))%nat) eqn:E.
  - destruct (process_parts' _ (parts c)) as [[evs st3] ok].
    cbn [fst snd] in *. split; [done|].
    apply andb_true_iff in E as [_ ->]. rewrite orb_true_r.
    assert (Hc : ∀ s, hasEmittedStart (check_finish c s) = hasEmittedStart s).
    { intros s0. unfold check_finish. repeat case_match; done. }
    destruct ok; [by rewrite Hc | done].
  - destruct (process_parts' st1 (parts c)) as [[evs st3] ok].
    cbn [fst snd app] in *. split; [done|].
    assert (Hc : ∀ s, hasEmittedStart (check_finish c s) = hasEmittedStart s).
    { intros s0. unfold check_finish. repeat case_match; done. }
    assert (Hst : hasEmittedStart (if ok then check_finish c st3 else st3)
                  = hasEmittedStart st).
    { destruct ok; [rewrite Hc|]; congruence. }
    rewrite Hst.
    destruct (hasEmittedStart st); [done|]. simpl in E. by rewrite E.
Qed.

Lemma process_lines_text lines : ∀ st,
  text_deltas (process_lines' st lines).1
  = omap (chunk_of decode) lines ≫= (λ c, texts_of (parts c))
  ∧ hasEmittedStart (process_lines' st lines).2
    = hasEmittedStart st
      || existsb (λ c, (0 <? length (parts c))%nat)
           (omap (chunk_of decode) lines).
Proof.
  induction lines as [|l lines IH]; intros st.
  - split; [done|]. simpl. by rewrite orb_false_r.
  - cbn [process_lines omap list_omap].
    destruct (process_line_text st l) as [Ht Hs].
    destruct (process_line' st l) as [evs st1]. cbn [fst snd] in *.
    destruct (IH st1) as [IHt IHs].
    destruct (process_lines' st1 lines) as [evs' st2]. cbn [fst snd] in *.
    rewrite text_deltas_app, Ht, IHt, IHs, Hs.
    destruct (chunk_of decode l) as [c|].
    + split; [done|]. simpl. by rewrite orb_assoc.
    + split; [done|]. by rewrite orb_false_r.
Qed.

Lemma finish_text st :
  text_deltas (finish' st)
  = if hasEmittedStart st then [] else [no_response].
Proof.
  unfold finish. destruct (hasEmittedStart st); [|done]. simpl.
  destruct (currentBlockType st); [|done].
  unfold flush_signature. by destruct (_ && _).
Qed.

Lemma no_parts_no_text (cs : list chunk) :
  existsb (λ c, (0 <? length (parts c))%nat) cs = false →
  cs ≫= (λ c, texts_of (parts c)) = [].
Proof.
  induction cs as [|c cs IH]; [done|]. cbn [existsb].
  intros [Hc Hcs]%orb_false_iff. rewrite bind_cons, (IH Hcs).
  destruct (parts c); [done | discriminate].
Qed.

(** X20. The text of the response is the text of the body.  Whatever the
    reads, the [text_delta] events carry, in order and without loss or
    repetition, the texts of the parts of the chunks of the body that are
    not thoughts and are not blank, up to the first part of each chunk on
    which the loop throws; when no chunk has a part, the only text is the
    placeholder. *)
Theorem streamSSEResponse_text (reads : list string) :
  let chunks := chunks_of decode (concat_reads reads) in
  text_deltas (streamSSEResponse' reads)
  = if existsb (λ c, (0 <? length (parts c))%nat) chunks
    then chunks ≫= (λ c, texts_of (parts c))
    else [no_response].
Proof.
  intros chunks. unfold streamSSEResponse. cbn [read_loop].
  rewrite (read_loop_concat reads initial) by constructor.
  unfold process_read. change (buffer initial +:+ ?x) with x.
  rewrite process_lines_buffer.
  destruct (process_lines_text
              (removelast (split_lines (concat_reads reads))) initial)
    as [Ht Hs].
  fold (chunks_of decode (concat_reads reads)) in Ht, Hs. fold chunks in Ht, Hs.
  destruct (process_lines' initial _) as [evs st]. cbn [fst snd] in *.
  rewrite text_deltas_app, finish_buffer, finish_text, Ht, Hs.
  cbn [hasEmittedStart initial orb].
  destruct (existsb _ chunks) eqn:E; [by rewrite app_nil_r|].
  by rewrite (no_parts_no_text chunks E).
Qed.

(** *** The stop reason *)

Lemma stop_reasons_app evs1 evs2 :
  stop_reasons (evs1 ++ evs2) = stop_reasons evs1 ++ stop_reasons evs2.
Proof. unfold stop_reasons. apply omap_app. Qed.

Lemma process_part_stop st p :
  match process_part' st p with
  | Some (evs, st') =>
      stop_reasons evs = []
      ∧ stopReason st' = if is_call p then "tool_use" else stopReason st
  | None => True
  end.
Proof.
  destruct st as [hs bi cb sig it ot sr bf].
  destruct p as [|[] [|s|[]] sg [fc|]]; try done;
    cbn -[blank String.length]; unfold flush_signature, close_block;
    cbn -[blank String.length];
    repeat (case_match; cbn -[blank String.length]; simplify_eq;
            try done).
Qed.

Lemma process_parts_stop ps : ∀ st,
  stop_reasons (process_parts' st ps).1.1 = []
  ∧ (forallb (λ p, negb (throws p)) ps = true →
     (process_parts' st ps).2 = true
     ∧ stopReason (process_parts' st ps).1.2
       = if existsb is_call ps then "tool_use" else stopReason st).
Proof.
  induction ps as [|p ps IH]; intros st; [done|].
  cbn [process_parts forallb existsb].
  pose proof (process_part_stop st p) as Hp.
  pose proof (process_part_text st p) as Ht.
  destruct (process_part' st p) as [[evs st1]|].
  - destruct Hp as [He Hs]. destruct Ht as (Hth & _).
    destruct (IH st1) as [IH1 IH2].
    destruct (process_parts' st1 ps) as [[evs' st2] ok]. cbn [fst snd] in *.
    split; [by rewrite stop_reasons_app, He, IH1|].
    rewrite Hth. cbn [negb andb]. intros Hall.
    destruct (IH2 Hall) as [-> ->]. split; [done|].
    rewrite Hs. by destruct (is_call p), (existsb is_call ps).
  - split; [done|]. rewrite Ht. discriminate.
Qed.

Lemma process_line_stop st line :
  stop_reasons (process_line' st line).1 = [].
Proof.
  unfold process_line.
  destruct (negb (String.prefix "data:" line)); [done|]. cbv zeta.
  destruct (negb (truthy_str (trim (slice5 line)))); [done|].
  destruct (decode (trim (slice5 line))) as [c|]; [|done].
  unfold emit_start.
  destruct (negb (hasEmittedStart (read_usage c st))
            && (0 <? length (parts c))%nat).
  - match goal with
    | |- context [process_parts' ?s (parts c)] =>
        destruct (process_parts_stop (parts c) s) as [H _];
        destruct (process_parts' s (parts c)) as [[evs st3] ok]
    end.
    cbn [fst snd] in *. by rewrite stop_reasons_app, H.
  - match goal with
    | |- context [process_parts' ?s (parts c)] =>
        destruct (process_parts_stop (parts c) s) as [H _];
        destruct (process_parts' s (parts c)) as [[evs st3] ok]
    end.
    cbn [fst snd] in *. by rewrite stop_reasons_app, H.
Qed.

Lemma process_lines_stop lines : ∀ st,
  stop_reasons (process_lines' st lines).1 = [].
Proof.
  induction lines as [|l lines IH]; intros st; [done|].
  cbn [process_lines].
  pose proof (process_line_stop st l) as Hl.
  destruct (process_line' st l) as [evs st1].
  pose proof (IH st1) as Hr.
  destruct (process_lines' st1 lines) as [evs' st2]. cbn [fst snd] in *.
  by rewrite stop_reasons_app, Hl, Hr.
Qed.

(** A line that carries no chunk changes nothing. *)
Lemma process_line_none st line :
  chunk_of decode line = None → process_line' st line = ([], st).
Proof.
  unfold chunk_of, process_line.
  destruct (negb (String.prefix "data:" line)); [done|]. cbv zeta.
  destruct (negb (truthy_str (trim (slice5 line)))); [done|].
  by intros ->.
Qed.

Lemma process_lines_none lines : ∀ st,
  Forall (λ l, chunk_of decode l = None) lines →
  process_lines' st lines = ([], st).
Proof.
  induction lines as [|l lines IH]; intros st H; [done|].
  apply Forall_cons in H as [Hl H]. cbn [process_lines].
  by rewrite (process_line_none st l Hl), (IH st H).
Qed.

(** The state after the line of a chunk whose parts are all processed. *)
Lemma process_line_chunk_stop st line c :
  chunk_of decode line = Some c →
  forallb (λ p, negb (throws p)) (parts c) = true →
  stopReason (process_line' st line).2
  = stopReason
      (check_finish c
         (set_stopReason
            (if existsb is_call (parts c) then "tool_use" else stopReason st)
            st)).
Proof.
  unfold chunk_of, process_line.
  destruct (negb (String.prefix "data:" line)); [done|]. cbv zeta.
  destruct (negb (truthy_str (trim (slice5 line)))); [done|].
  intros -> Hall.
  assert (Hu : stopReason (read_usage c st) = stopReason st).
  { unfold read_usage. by destruct (usageMetadata c). }
  assert (Hc : ∀ s s', stopReason s = stopReason s' →
                 stopReason (check_finish c s) = stopReason (check_finish c s')).
  { intros s s' E. unfold check_finish. repeat case_match; done. }
  unfold emit_start.
  destruct (negb (hasEmittedStart (read_usage c st))
            && (0 <? length (parts c))%nat).
  - match goal with
    | |- context [process_parts' ?s (parts c)] =>
        destruct (process_parts_stop (parts c) s) as [_ H];
        destruct (H Hall) as [Hok Hs]; clear H;
        destruct (process_parts' s (parts c)) as [[evs st3] ok]
    end.
    cbn [fst snd] in *. subst ok. apply Hc. rewrite Hs. cbn [stopReason].
    by rewrite Hu.
  - match goal with
    | |- context [process_parts' ?s (parts c)] =>
        destruct (process_parts_stop (parts c) s) as [_ H];
        destruct (H Hall) as [Hok Hs]; clear H;
        destruct (process_parts' s (parts c)) as [[evs st3] ok]
    end.
    cbn [fst snd] in *. subst ok. apply Hc. rewrite Hs. cbn [stopReason].
    by rewrite Hu.
Qed.

Lemma omap_snoc_inv {A B} (f : A → option B) (l : list A) :
  ∀ cs c, omap f l = cs ++ [c] →
  ∃ l1 x l2, l = l1 ++ x :: l2 ∧ omap f l1 = cs ∧ f x = Some c
             ∧ Forall (λ y, f y = None) l2.
Proof.
  induction l as [|y l IH] using rev_ind; intros cs c H.
  - by destruct cs.
  - rewrite omap_app in H. simpl in H. destruct (f y) as [b|] eqn:Ey.
    + apply app_inj_tail in H as [H1 <-].
      exists l, y, []. by repeat split.
    + rewrite app_nil_r in H.
      destruct (IH cs c H) as (l1 & x & l2 & -> & H1 & Hx & H2).
      exists l1, x, (l2 ++ [y]). rewrite <- app_assoc. repeat split; try done.
      apply Forall_app. split; [done|]. by constructor.
Qed.

(** X21. The stop reason of the response is decided by the last chunk of
    the body, when the loop processes all its parts: [max_tokens] for the
    finish reason MAX_TOKENS, [end_turn] for the finish reason STOP, even
    when the chunk or an earlier one carries a function call, and
    [tool_use] when the chunk carries a function call and neither of these
    finish reasons. *)
Theorem streamSSEResponse_stop_reason (reads : list string)
    (cs : list chunk) (c : chunk) :
  chunks_of decode (concat_reads reads) = cs ++ [c] →
  forallb (λ p, negb (throws p)) (parts c) = true →
  ∃ r, stop_reasons (streamSSEResponse' reads) = [r]
       ∧ (finishReason c = Some "MAX_TOKENS" → r = "max_tokens")
       ∧ (finishReason c = Some "STOP" → r = "end_turn")
       ∧ (finishReason c ≠ Some "MAX_TOKENS" → finishReason c ≠ Some "STOP" →
          existsb is_call (parts c) = true → r = "tool_use").
Proof.
  intros Hcs Hall. unfold chunks_of in Hcs.
  destruct (omap_snoc_inv _ _ _ _ Hcs) as (l1 & x & l2 & El & _ & Hx & Hl2).
  unfold streamSSEResponse. cbn [read_loop].
  rewrite (read_loop_concat reads initial) by constructor.
  unfold process_read. change (buffer initial +:+ ?y) with y.
  rewrite process_lines_buffer, El.
  pose proof (process_lines_stop (l1 ++ x :: l2) initial) as Hev.
  rewrite process_lines_app in *. cbn [process_lines] in *.
  set (s1 := (process_lines' initial l1).2) in *.
  pose proof (process_line_chunk_stop s1 x c Hx Hall) as Hs.
  destruct (process_line' s1 x) as [e2 s2]. cbn [fst snd] in *.
  rewrite (process_lines_none l2 s2 Hl2) in *. cbn [fst snd] in *.
  exists (stopReason s2). split.
  - rewrite stop_reasons_app, Hev, finish_buffer. unfold finish.
    rewrite stop_reasons_app. cbn [stop_reasons omap list_omap app].
    assert (stop_reasons
              (if negb (hasEmittedStart s2)
               then [message_start messageId originalModel (inputTokens s2);
                     content_block_start 0 text_block;
                     content_block_delta 0 (text_delta no_response);
                     content_block_stop 0]
               else match currentBlockType s2 with
                    | Some _ =>
                        flush_signature s2
                        ++ [content_block_stop (blockIndex s2)]
                    | None => []
                    end) = []) as ->; [|done].
    destruct (negb (hasEmittedStart s2)); [done|].
    destruct (currentBlockType s2); [|done].
    unfold flush_signature. by destruct (_ && _).
  - rewrite Hs. unfold check_finish. repeat split.
    + by intros ->.
    + by intros ->.
    + intros H1 H2 ->. destruct (finishReason c) as [r|]; [|done].
      destruct (truthy_str r); [|done].
      destruct (bool_decide (r = "MAX_TOKENS")) eqn:E1;
        [apply bool_decide_eq_true in E1; congruence|].
      destruct (bool_decide (r = "STOP")) eqn:E2;
        [apply bool_decide_eq_true in E2; congruence|].
      done.
Qed.

End Stream.

End StreamExtras.

(* ===================================================================== *)
(** ** The converter: tool names, generation config, system instruction *)
(* ===================================================================== *)

Module ConverterExtras.
Import JS RequestConverter RequestMore StringFacts DigitsProperties.

Lemma length_chars (s : string) :
  length (list_ascii_of_string s) = String.length s.
Proof. induction s as [|c s IH]; simpl; [done | by rewrite IH]. Qed.

Lemma sanitize_chars (s : string) :
  list_ascii_of_string (sanitize_name s)
  = take 64 ((λ c, if name_char c then c else "_"%char)
             <$> list_ascii_of_string s).
Proof. unfold sanitize_name. apply list_ascii_of_string_of_list_ascii. Qed.

Lemma sanitize_valid (s : string) : valid_name (sanitize_name s).
Proof.
  split.
  - rewrite <- length_chars, sanitize_chars, length_take. lia.
  - rewrite sanitize_chars. apply Forall_take, Forall_fmap, Forall_forall.
    intros c _. simpl. by destruct (name_char c) eqn:E.
Qed.

Lemma sanitize_fixed (s : string) : valid_name s → sanitize_name s = s.
Proof.
  intros [Hlen Hall]. unfold sanitize_name.
  rewrite <- (string_of_list_ascii_of_string s) at 2. f_equal.
  rewrite <- length_chars in Hlen.
  rewrite take_ge by (rewrite length_fmap; lia).
  induction Hall as [|c l Hc Hl IH]; [done|].
  simpl in *. rewrite Hc. f_equal. apply IH. lia.
Qed.

Lemma sanitize_nonempty (s : string) :
  s ≠ EmptyString → sanitize_name s ≠ EmptyString.
Proof. by destruct s. Qed.

Lemma truthy_ostr_nonempty (o : option string) :
  truthy_ostr o = true → default EmptyString o ≠ EmptyString.
Proof. by destruct o as [[|c s]|]. Qed.

Lemma pick_name_nonempty (t : tool) (idx : nat) :
  pick_name t idx ≠ EmptyString.
Proof.
  unfold pick_name.
  destruct (truthy_ostr (tool_name t)) eqn:E1;
    [by apply truthy_ostr_nonempty|].
  destruct (truthy_ostr (function_name t)) eqn:E2;
    [by apply truthy_ostr_nonempty|].
  destruct (truthy_ostr (custom_name t)) eqn:E3;
    [by apply truthy_ostr_nonempty|].
  done.
Qed.

(** X22. The names of the function declarations are always acceptable:
    each has between 1 and 64 code units, all of them letters, digits,
    [_] or [-].  There is one for each tool, in order; sanitising is the
    identity on a name that is acceptable already, so the name of a tool
    that is acceptable is declared as it is. *)
Theorem declared_names_valid (tools : list tool) :
  length (declared_names tools) = length tools
  ∧ (∀ i n, declared_names tools !! i = Some n →
       n ≠ EmptyString ∧ valid_name n ∧ sanitize_name n = n)
  ∧ (∀ i t s, tools !! i = Some t → tool_name t = Some s →
       s ≠ EmptyString → valid_name s →
       declared_names tools !! i = Some s).
Proof.
  unfold declared_names. split; [apply length_imap|]. split.
  - intros i n Hn. rewrite list_lookup_imap in Hn.
    destruct (tools !! i) as [t|]; [|done]. injection Hn as <-.
    unfold declared_name. split; [apply sanitize_nonempty, pick_name_nonempty|].
    split; [apply sanitize_valid|]. apply sanitize_fixed, sanitize_valid.
  - intros i t s Ht Hs Hne Hv. rewrite list_lookup_imap, Ht. simpl.
    unfold declared_name, pick_name. rewrite Hs.
    destruct s as [|c s]; [done|]. simpl. f_equal. by apply sanitize_fixed.
Qed.

Local Ltac to_Z :=
  repeat match goal with
         | H : (_ <=? _) = true |- _ => apply Z.leb_le in H
         | H : (_ <=? _) = false |- _ => apply Z.leb_gt in H
         | H : (_ <? _) = true |- _ => apply Z.ltb_lt in H
         | H : (_ <? _) = false |- _ => apply Z.ltb_ge in H
         | H : (_ =? _) = true |- _ => apply Z.eqb_eq in H
         | H : (_ =? _) = false |- _ => apply Z.eqb_neq in H
         | H : negb _ = true |- _ => apply negb_true_iff in H
         | H : negb _ = false |- _ => apply negb_false_iff in H
         | H : _ && _ = true |- _ => apply andb_true_iff in H as [? ?]
         | H : _ && _ = false |- _ => apply andb_false_iff in H as [?|?]
         end.

Section Config.

Variable getModelFamily : string → string.
Variable isThinkingModel : string → bool.
Variable GEMINI_MAX_OUTPUT_TOKENS : Z.

Local Abbreviation config :=
  (convertAnthropicToGoogle_generationConfig getModelFamily isThinkingModel
     GEMINI_MAX_OUTPUT_TOKENS).

(** X23. What every generation config satisfies.  [temperature], [top_p]
    and [top_k] are passed through, for every model.  For a Claude model
    with a thinking budget in the config, [maxOutputTokens], when present,
    is greater than the budget.  For a Gemini model [maxOutputTokens],
    when present, is the smaller of [max_tokens] and the cap, and the
    thinking budget of a thinking model is the one of the request, or 16000
    when that is absent or zero.  A model that is not a thinking model gets
    no thinking config. *)
Theorem generationConfig_invariants (r : request) :
  let g := config r in
  let name := default "" (model r) in
  gc_temperature g = temperature r ∧ topP g = top_p r ∧ topK g = top_k r
  ∧ (getModelFamily name = "claude" →
     ∀ inc b v, gc_thinkingConfig g = Some (ClaudeThinking inc (Some b)) →
                maxOutputTokens g = Some v → b < v)
  ∧ (getModelFamily name = "gemini" →
     (∀ v, maxOutputTokens g = Some v →
           ∃ mt, max_tokens r = Some mt ∧ mt ≠ 0
                 ∧ v = Z.min mt GEMINI_MAX_OUTPUT_TOKENS)
     ∧ (isThinkingModel name = true →
        gc_thinkingConfig g
        = Some (GeminiThinking true
                  (if truthy_int (budget_tokens r)
                   then default 0 (budget_tokens r) else 16000))))
  ∧ (isThinkingModel name = false → gc_thinkingConfig g = None).
Proof.
  intros g name. subst g.
  unfold convertAnthropicToGoogle_generationConfig, cap_gemini,
    thinking_config, copied_config.
  fold name. cbv zeta.
  split; [repeat case_match; done|].
  split; [repeat case_match; done|].
  split; [repeat case_match; done|].
  split; [|split].
  - intros Hc inc b v. rewrite Hc.
    rewrite (bool_decide_eq_true_2 ("claude" = "claude")) by done.
    rewrite (bool_decide_eq_false_2 ("claude" = "gemini")) by done.
    cbn [andb].
    destruct (max_tokens r) as [mt|], (budget_tokens r) as [b0|];
      cbn [truthy_int default from_option id];
      repeat (case_match; simplify_eq/=; try done);
      intros; simplify_eq; to_Z; lia.
  - intros Hg. rewrite Hg.
    rewrite (bool_decide_eq_false_2 ("gemini" = "claude")) by done.
    rewrite (bool_decide_eq_true_2 ("gemini" = "gemini")) by done.
    cbn [andb]. split.
    + intros v.
      destruct (max_tokens r) as [mt|], (budget_tokens r) as [b0|];
        cbn [truthy_int default from_option id];
      repeat (case_match; simplify_eq/=; try done);
        intros; simplify_eq; to_Z;
        (eexists; split; [done|]; split; [lia|]; lia).
    + intros ->. repeat (case_match; simplify_eq/=; try done).
  - intros ->. repeat (case_match; simplify_eq/=; try done).
Qed.

(** X24. The config of a request that comes through [POST /v1/messages].
    The handler fills in [max_tokens] (4096 when the body has none or 0)
    and does not copy [stop_sequences]: the config always has
    [maxOutputTokens] and never has [stopSequences], whatever the body
    says; [temperature], [top_p] and [top_k] are those of the body.  When
    the model is not a Gemini model and not a Claude thinking model with a
    budget, [maxOutputTokens] is the [max_tokens] of the body, or 4096. *)
Theorem server_request_config (b : body) :
  let r := build_request b in
  let g := config r in
  let name := default "" (model r) in
  maxOutputTokens g ≠ None
  ∧ stopSequences g = None
  ∧ gc_temperature g = b_temperature b ∧ topP g = b_top_p b
  ∧ topK g = b_top_k b
  ∧ name = (if truthy_ostr (b_model b) then default "" (b_model b)
            else "claude-3-5-sonnet-20241022")
  ∧ (getModelFamily name ≠ "gemini" →
     (getModelFamily name = "claude" → isThinkingModel name = true →
      truthy_int (b_budget_tokens b) = false) →
     maxOutputTokens g
     = Some (if truthy_int (b_max_tokens b) then default 0 (b_max_tokens b)
             else 4096)).
Proof.
  intros r g name.
  set (mt := if truthy_int (b_max_tokens b) then default 0 (b_max_tokens b)
             else 4096).
  assert (Hmt : mt ≠ 0).
  { subst mt. destruct (b_max_tokens b) as [z|]; simpl; [|done].
    destruct (z =? 0) eqn:E; simpl; [done|]. by apply Z.eqb_neq. }
  assert (Hmt' : negb (mt =? 0) = true)
    by by apply negb_true_iff, Z.eqb_neq.
  subst g. unfold convertAnthropicToGoogle_generationConfig, cap_gemini,
    thinking_config, copied_config.
  fold name.
  change (max_tokens r) with (Some mt).
  change (budget_tokens r) with (b_budget_tokens b).
  change (stop_sequences r) with (@None (list string)).
  change (temperature r) with (b_temperature b).
  change (top_p r) with (b_top_p b). change (top_k r) with (b_top_k b).
  cbn [truthy_int]. rewrite Hmt'. cbv zeta.
  split; [repeat (case_match; simplify_eq/=; try done)|].
  split; [repeat (case_match; simplify_eq/=; try done)|].
  split; [repeat (case_match; simplify_eq/=; try done)|].
  split; [repeat (case_match; simplify_eq/=; try done)|].
  split; [repeat (case_match; simplify_eq/=; try done)|].
  split; [done|].
  intros Hg Hc.
  rewrite (bool_decide_eq_false_2 (getModelFamily name = "gemini")) by done.
  cbn [andb].
  destruct (isThinkingModel name) eqn:Et; [|done].
  destruct (bool_decide (getModelFamily name = "claude")) eqn:Ecl; [|done].
  apply bool_decide_eq_true in Ecl. by rewrite (Hc Ecl eq_refl).
Qed.

End Config.

(** *** The system instruction *)

Lemma system_text_app (l1 l2 : list (option string)) :
  system_text (Some (l1 ++ l2))
  = system_text (Some l1) +:+ system_text (Some l2).
Proof.
  unfold system_text. cbn [default from_option id].
  induction l1 as [|p l1 IH]; [done|].
  cbn [app foldr]. by rewrite IH, append_assoc.
Qed.

Section SystemInstruction.

Variable getModelFamily : string → string.
Variable isThinkingModel : string → bool.

(** X25. The hint for interleaved thinking does not touch the system
    prompt: for a Claude thinking model with tools the system instruction
    is set, and its text is the text of the system prompt followed by the
    hint, after two line feeds when the last part of the prompt has text;
    the instruction has the parts of the prompt, or one more.  For every
    other request the system instruction is the one of the prompt. *)
Theorem systemInstruction_hint (name : string) (sys : system)
    (has_tools : bool) :
  let si := systemInstruction getModelFamily isThinkingModel name sys
              has_tools in
  let n := length (default [] (system_parts sys)) in
  (getModelFamily name = "claude" → isThinkingModel name = true →
   has_tools = true →
   ∃ parts sep,
     si = Some parts ∧ (sep = EmptyString ∨ sep = two_newlines)
     ∧ system_text si = system_text (system_parts sys) +:+ sep +:+ hint
     ∧ (length parts = n ∧ (0 < n)%nat ∨ length parts = S n))
  ∧ (getModelFamily name ≠ "claude" ∨ isThinkingModel name = false
     ∨ has_tools = false →
     si = system_parts sys).
Proof.
  intros si n. subst si. unfold systemInstruction. split.
  - intros Hc -> ->. rewrite (bool_decide_eq_true_2 _ Hc). cbn [andb].
    unfold add_hint. subst n.
    destruct (system_parts sys) as [parts|] eqn:Es.
    + cbn [default from_option id].
      assert (Hpush : ∃ parts' sep,
                Some (parts ++ [Some hint]) = Some parts'
                ∧ (sep = EmptyString ∨ sep = two_newlines)
                ∧ system_text (Some (parts ++ [Some hint]))
                  = system_text (Some parts) +:+ sep +:+ hint
                ∧ (length parts' = length parts ∧ (0 < length parts)%nat
                   ∨ length parts' = S (length parts))).
      { exists (parts ++ [Some hint]), EmptyString.
        split; [done|]. split; [by left|]. split.
        - rewrite system_text_app. unfold system_text at 2. simpl.
          by rewrite append_nil_r.
        - right. rewrite length_app. simpl. lia. }
      destruct (last parts) as [[t|]|] eqn:El; [|done..].
      destruct (truthy_str t); [|done].
      exists (removelast parts ++ [Some (t +:+ two_newlines +:+ hint)]),
        two_newlines.
      split; [done|]. split; [by right|].
      assert (Hparts : parts = removelast parts ++ [Some t]).
      { destruct (decide (parts = [])) as [->|Hne]; [done|].
        rewrite (app_removelast_last (Some t) Hne) at 1. f_equal. f_equal.
        rewrite last_lookup in El.
        destruct parts as [|p parts]; [done|].
        clear Hne Hpush Es. revert p El.
        induction parts as [|q parts IH]; intros p El.
        - simpl in El. by injection El as ->.
        - cbn [List.last]. apply IH. exact El. }
      split.
      * rewrite system_text_app. rewrite Hparts at 2.
        rewrite system_text_app. unfold system_text at 2 4. simpl.
        by rewrite !append_nil_r, !append_assoc.
      * left. rewrite Hparts at 2 3. rewrite !length_app. simpl. lia.
    + exists [Some hint], EmptyString. split; [done|]. split; [by left|].
      split; [|by right]. unfold system_text. simpl. by rewrite append_nil_r.
  - intros [Hc|[-> | ->]].
    + by rewrite (bool_decide_eq_false_2 _ Hc).
    + by rewrite andb_false_r.
    + by rewrite andb_false_r.
Qed.

End SystemInstruction.

End ConverterExtras.
(* ===================================================================== *)
(** ** The accumulator of [parseThinkingSSEResponse] *)
(* ===================================================================== *)

Module ThinkingExtras.
Import JS ThinkingParser StringFacts.

(** *** Strings and final parts *)

Lemma concat_strings_app (l1 l2 : list string) :
  concat_strings (l1 ++ l2) = concat_strings l1 +:+ concat_strings l2.
Proof.
  unfold concat_strings. induction l1 as [|s l1 IH]; [done|].
  cbn [app foldr]. by rewrite IH, append_assoc.
Qed.

Lemma thinking_of_snoc fp f :
  thinking_of (fp ++ [f])
  = thinking_of fp +:+ match f with
                       | thought_part s _ => s
                       | _ => EmptyString
                       end.
Proof.
  unfold thinking_of. rewrite omap_app, concat_strings_app.
  destruct f; simpl; by rewrite ?append_nil_r.
Qed.

Lemma text_of_snoc fp f :
  text_of (fp ++ [f])
  = text_of fp +:+ match f with
                   | text_part s => s
                   | _ => EmptyString
                   end.
Proof.
  unfold text_of. rewrite omap_app, concat_strings_app.
  destruct f; simpl; by rewrite ?append_nil_r.
Qed.

Lemma calls_of_snoc fp f :
  calls_of (fp ++ [f])
  = calls_of fp ++ match f with
                   | pushed p => [p]
                   | _ => []
                   end.
Proof. unfold calls_of. rewrite omap_app. by destruct f. Qed.

Lemma truthy_str_false s : truthy_str s = false → s = EmptyString.
Proof. by destruct s. Qed.

Lemma truthy_str_true s : truthy_str s = true ↔ s ≠ EmptyString.
Proof. by destruct s. Qed.

Lemma thoughts_apart_snoc fp f :
  thoughts_apart fp →
  (is_thought_part f = true →
   ∀ g, last fp = Some g → is_thought_part g = false) →
  thoughts_apart (fp ++ [f]).
Proof.
  induction fp as [|a [|b fp] IH]; intros Hfp Hlast; [done| |].
  - cbn. split; [|done]. intros [Ha Hf].
    specialize (Hlast Hf a eq_refl). congruence.
  - destruct Hfp as [Hab Hfp]. change ((a :: b :: fp) ++ [f])
      with (a :: (b :: fp) ++ [f]).
    change (thoughts_apart (a :: (b :: fp) ++ [f]))
      with (¬ (is_thought_part a = true ∧ is_thought_part b = true)
            ∧ thoughts_apart ((b :: fp) ++ [f])).
    split; [done|]. apply IH; [done|].
    intros Hf g Hg. apply (Hlast Hf g). by rewrite last_cons_cons.
Qed.

Section Parse.

Context {U : Type}.
Variable decode : string → option (@chunk U).

Local Abbreviation state' := (@state U).
Local Abbreviation process_line' := (process_line decode).
Local Abbreviation read_loop' := (read_loop decode).
Local Abbreviation chunks_of' := (chunks_of decode).

(** *** The reads *)

(** The read loop goes through the complete lines of the body, whatever
    the reads. *)
Lemma read_loop_lines reads : ∀ b (st : state'),
  StreamText.no_newline b →
  read_loop' b st reads
  = foldl process_line' st
      (removelast (Streamer.split_lines (b +:+ StreamText.concat_reads reads))).
Proof.
  induction reads as [|v reads IH]; intros b st Hb.
  - cbn [read_loop StreamText.concat_reads foldr]. rewrite append_nil_r.
    by rewrite (StreamExtras.split_lines_no_newline _ Hb).
  - cbn [read_loop StreamText.concat_reads foldr].
    fold (StreamText.concat_reads reads).
    set (L1 := Streamer.split_lines (b +:+ v)).
    rewrite IH by apply StreamExtras.last_split_no_newline.
    rewrite <- (append_assoc b v), (StreamExtras.split_lines_app (b +:+ v)).
    fold L1.
    rewrite (StreamExtras.split_lines_app (default EmptyString (last L1))).
    rewrite (StreamExtras.split_lines_no_newline (default EmptyString (last L1))
               (StreamExtras.last_split_no_newline (b +:+ v))).
    cbn [removelast app last default from_option id].
    pose proof (StreamExtras.split_lines_nonempty
                  (StreamText.concat_reads reads)) as Hne.
    destruct (Streamer.split_lines (StreamText.concat_reads reads))
      as [|h t]; [done|].
    rewrite (removelast_app (removelast L1)) by done.
    by rewrite foldl_app.
Qed.

(** The loop over the lines, as a loop over the chunks. *)
Lemma process_lines_chunks lines : ∀ st : state',
  foldl process_line' st lines
  = foldl process_chunk st (omap (chunk_of decode) lines).
Proof.
  induction lines as [|l lines IH]; intros st; [done|].
  cbn [foldl]. rewrite IH.
  change (omap (chunk_of decode) (l :: lines))
    with (match chunk_of decode l with
          | Some c => c :: omap (chunk_of decode) lines
          | None => omap (chunk_of decode) lines
          end).
  assert (E : process_line' st l
              = match chunk_of decode l with
                | Some c => process_chunk st c
                | None => st
                end).
  { unfold process_line, chunk_of.
    destruct (negb (String.prefix "data:" l)); [done|]. cbv zeta.
    by destruct (negb (truthy_str _)). }
  rewrite E. by destruct (chunk_of decode l).
Qed.

(** *** What the accumulators hold *)

Local Abbreviation all_thinking st :=
  (thinking_of (finalParts st) +:+ accumulatedThinkingText st).
Local Abbreviation all_text st :=
  (text_of (finalParts st) +:+ accumulatedText st).
Local Abbreviation all_calls st := (calls_of (finalParts st)).

Lemma flushThinking_keeps (st : state') :
  all_thinking (flushThinking st) = all_thinking st
  ∧ all_text (flushThinking st) = all_text st
  ∧ all_calls (flushThinking st) = all_calls st.
Proof.
  unfold flushThinking. destruct (truthy_str _) eqn:E; [|done].
  cbn [finalParts accumulatedThinkingText accumulatedText].
  rewrite thinking_of_snoc, text_of_snoc, calls_of_snoc.
  by rewrite !append_nil_r, app_nil_r.
Qed.

Lemma flushText_keeps (st : state') :
  all_thinking (flushText st) = all_thinking st
  ∧ all_text (flushText st) = all_text st
  ∧ all_calls (flushText st) = all_calls st.
Proof.
  unfold flushText. destruct (truthy_str _) eqn:E; [|done].
  cbn [finalParts accumulatedThinkingText accumulatedText].
  rewrite thinking_of_snoc, text_of_snoc, calls_of_snoc.
  by rewrite !append_nil_r, app_nil_r.
Qed.

Local Ltac flushes st :=
  repeat match goal with
  | |- context [flushText ?s] =>
      let H1 := fresh in let H2 := fresh in let H3 := fresh in
      destruct (flushText_keeps s) as (H1 & H2 & H3);
      generalize dependent (flushText s); intros
  | |- context [flushThinking ?s] =>
      let H1 := fresh in let H2 := fresh in let H3 := fresh in
      destruct (flushThinking_keeps s) as (H1 & H2 & H3);
      generalize dependent (flushThinking s); intros
  | _ : context [flushThinking ?s] |- _ =>
      let H1 := fresh in let H2 := fresh in let H3 := fresh in
      destruct (flushThinking_keeps s) as (H1 & H2 & H3);
      generalize dependent (flushThinking s); intros
  end.

(** An iteration adds the text of its part to the accumulator of its kind,
    unless it throws. *)
Lemma process_part_adds (st : state') (e : element) :
  all_thinking (process_part st e).1
  = all_thinking st
    +:+ concat_strings (shown <$> List.filter is_thought (completed [e]))
  ∧ all_text (process_part st e).1
    = all_text st
      +:+ concat_strings (shown <$> List.filter is_plain (completed [e]))
  ∧ all_calls (process_part st e).1
    = all_calls st ++ List.filter is_call (completed [e])
  ∧ (process_part st e).2 = negb (throws e).
Proof.
  destruct e as [|[th tx sg fc]].
  { cbn. by rewrite !append_nil_r, app_nil_r. }
  unfold process_part, completed, throws, is_thought, is_plain, is_call, shown.
  cbn [thought text thoughtSignature functionCall].
  destruct th; [|destruct (bool_decide (is_Some fc)) eqn:Efc].
  - destruct tx; cbn [orb negb fst snd List.filter fmap list_fmap
                      thought text functionCall andb];
      try (destruct (truthy_ostr sg));
      flushes st;
      cbn [add_thinking set_signature finalParts accumulatedThinkingText
             accumulatedText fst snd];
      cbn; rewrite ?append_nil_r, ?app_nil_r, <- ?append_assoc;
      repeat split; congruence.
  - destruct tx; cbn [orb negb fst snd List.filter fmap list_fmap
                      thought text functionCall andb]; rewrite ?Efc;
      flushes st;
      cbn [push finalParts accumulatedThinkingText accumulatedText fst snd];
      rewrite ?thinking_of_snoc, ?text_of_snoc, ?calls_of_snoc;
      cbn; rewrite ?Efc; cbn;
      rewrite ?append_nil_r, ?app_nil_r, <- ?append_assoc;
      repeat split; congruence.
  - destruct tx; cbn [orb negb fst snd List.filter fmap list_fmap
                      thought text functionCall andb]; rewrite ?Efc;
      flushes st;
      cbn [add_text finalParts accumulatedThinkingText accumulatedText
             fst snd];
      cbn; rewrite ?Efc; cbn;
      rewrite ?append_nil_r, ?app_nil_r, <- ?append_assoc;
      repeat split; congruence.
Qed.

Lemma completed_cons (e : element) (es : list element) :
  completed (e :: es)
  = if throws e then [] else completed [e] ++ completed es.
Proof.
  destruct e as [|p]; [done|]. cbn [completed].
  by destruct (throws (Elem p)).
Qed.

Lemma completed_throws (e : element) :
  throws e = true → completed [e] = [].
Proof. destruct e as [|p]; [done|]. cbn [completed]. by intros ->. Qed.

Lemma process_parts_adds (es : list element) : ∀ st : state',
  all_thinking (process_parts st es)
  = all_thinking st
    +:+ concat_strings (shown <$> List.filter is_thought (completed es))
  ∧ all_text (process_parts st es)
    = all_text st
      +:+ concat_strings (shown <$> List.filter is_plain (completed es))
  ∧ all_calls (process_parts st es)
    = all_calls st ++ List.filter is_call (completed es).
Proof.
  induction es as [|e es IH]; intros st.
  { cbn. by rewrite !append_nil_r, app_nil_r. }
  cbn [process_parts]. rewrite completed_cons.
  destruct (process_part_adds st e) as (H1 & H2 & H3 & H4).
  destruct (process_part st e) as [st1 ok]. cbn [fst snd] in *. subst ok.
  destruct (throws e) eqn:Et; cbn [negb].
  - rewrite (completed_throws e Et) in H1, H2, H3. by rewrite H1, H2, H3.
  - destruct (IH st1) as (I1 & I2 & I3).
    rewrite I1, I2, I3, H1, H2, H3.
    rewrite !List.filter_app, !fmap_app, !concat_strings_app.
    by rewrite !append_assoc, app_assoc.
Qed.

Lemma read_chunk_fields (c : chunk) (st : state') :
  accumulatedThinkingText (read_chunk c st) = accumulatedThinkingText st
  ∧ accumulatedThinkingSignature (read_chunk c st)
    = accumulatedThinkingSignature st
  ∧ accumulatedText (read_chunk c st) = accumulatedText st
  ∧ finalParts (read_chunk c st) = finalParts st.
Proof.
  unfold read_chunk.
  by destruct (chunk_usageMetadata c), (truthy_ostr (chunk_finishReason c)).
Qed.

Lemma process_chunks_adds (cs : list chunk) : ∀ st : state',
  all_thinking (foldl process_chunk st cs)
  = all_thinking st
    +:+ concat_strings (shown <$> List.filter is_thought (completed_parts cs))
  ∧ all_text (foldl process_chunk st cs)
    = all_text st
      +:+ concat_strings (shown <$> List.filter is_plain (completed_parts cs))
  ∧ all_calls (foldl process_chunk st cs)
    = all_calls st ++ List.filter is_call (completed_parts cs).
Proof.
  induction cs as [|c cs IH]; intros st.
  { cbn. by rewrite !append_nil_r, app_nil_r. }
  cbn [foldl]. destruct (IH (process_chunk st c)) as (I1 & I2 & I3).
  rewrite I1, I2, I3. unfold completed_parts. rewrite bind_cons.
  fold (completed_parts cs).
  rewrite !List.filter_app, !fmap_app, !concat_strings_app.
  rewrite <- !append_assoc, app_assoc.
  destruct (read_chunk_fields c st) as (R1 & _ & R3 & R4).
  assert (E : all_thinking (process_chunk st c)
              = all_thinking st
                +:+ concat_strings
                      (shown <$> List.filter is_thought
                         (completed (default [] (chunk_parts c))))
            ∧ all_text (process_chunk st c)
              = all_text st
                +:+ concat_strings
                      (shown <$> List.filter is_plain
                         (completed (default [] (chunk_parts c))))
            ∧ all_calls (process_chunk st c)
              = all_calls st
                ++ List.filter is_call
                     (completed (default [] (chunk_parts c)))).
  { unfold process_chunk. cbv zeta.
    destruct (chunk_parts c) as [es|].
    - destruct (process_parts_adds es (read_chunk c st)) as (P1 & P2 & P3).
      by rewrite P1, P2, P3, R1, R3, R4.
    - cbn. by rewrite R1, R3, R4, !append_nil_r, app_nil_r. }
  destruct E as (E1 & E2 & E3). by rewrite E1, E2, E3.
Qed.

(** *** No flushed part is empty *)

Local Abbreviation filled st :=
  (Forall (λ f, flushed_text f ≠ Some EmptyString) (finalParts st)).

Lemma flushThinking_filled (st : state') :
  filled st → filled (flushThinking st).
Proof.
  intros H. unfold flushThinking. destruct (truthy_str _) eqn:E; [|done].
  cbn [finalParts]. apply Forall_app. split; [done|].
  constructor; [|constructor]. cbn. intros [= Hs]. by rewrite Hs in E.
Qed.

Lemma flushText_filled (st : state') :
  filled st → filled (flushText st).
Proof.
  intros H. unfold flushText. destruct (truthy_str _) eqn:E; [|done].
  cbn [finalParts]. apply Forall_app. split; [done|].
  constructor; [|constructor]. cbn. intros [= Hs]. by rewrite Hs in E.
Qed.

Lemma process_part_filled (st : state') (e : element) :
  filled st → filled (process_part st e).1.
Proof.
  intros H. destruct e as [|[th tx sg fc]]; [done|].
  unfold process_part. cbn [thought text thoughtSignature functionCall].
  pose proof (flushText_filled st H) as Ht.
  pose proof (flushThinking_filled st H) as Hk.
  pose proof (flushText_filled _ Hk) as Hkt.
  destruct th; [|destruct (bool_decide (is_Some fc))].
  - destruct tx; try destruct (truthy_ostr sg); done.
  - cbn [fst push finalParts]. apply Forall_app. split; [done|].
    constructor; [done | constructor].
  - destruct tx; done.
Qed.

Lemma process_parts_filled (es : list element) : ∀ st : state',
  filled st → filled (process_parts st es).
Proof.
  induction es as [|e es IH]; intros st H; [done|].
  cbn [process_parts]. pose proof (process_part_filled st e H) as H1.
  destruct (process_part st e) as [st1 []]; [by apply IH | done].
Qed.

Lemma process_chunks_filled (cs : list chunk) : ∀ st : state',
  filled st → filled (foldl process_chunk st cs).
Proof.
  induction cs as [|c cs IH]; intros st H; [done|].
  cbn [foldl]. apply IH. unfold process_chunk. cbv zeta.
  destruct (read_chunk_fields c st) as (_ & _ & _ & R).
  assert (filled (read_chunk c st)) by by rewrite R.
  destruct (chunk_parts c); [by apply process_parts_filled | done].
Qed.

(** *** The end of the function *)

Lemma flushes_empty (st : state') :
  accumulatedThinkingText (flushText (flushThinking st)) = EmptyString
  ∧ accumulatedText (flushText (flushThinking st)) = EmptyString.
Proof.
  unfold flushText, flushThinking.
  destruct (truthy_str (accumulatedThinkingText st)) eqn:E1;
    cbn [accumulatedText accumulatedThinkingText];
    destruct (truthy_str (accumulatedText st)) eqn:E2;
    cbn [accumulatedText accumulatedThinkingText];
    auto using truthy_str_false.
Qed.

Lemma accumulatedResponse_chunks (reads : list string) :
  accumulatedResponse decode reads
  = let st := flushText (flushThinking
                (foldl process_chunk initial
                   (chunks_of' (StreamText.concat_reads reads)))) in
    Accumulated (finalParts st) (finishReason st) (usageMetadata st).
Proof.
  unfold accumulatedResponse, chunks_of.
  rewrite read_loop_lines by constructor.
  by rewrite process_lines_chunks.
Qed.

(** X28. Nothing is lost in the accumulated response.  Whatever the reads,
    the thinking parts of [finalParts] carry together the texts of the
    thought parts of the chunks of the body, its text parts the texts of
    the plain parts, in order, and the parts with a function call are
    pushed as they are, in order: each chunk up to its first part on which
    the loop throws.  No part that a flush pushes has an empty text. *)
Theorem accumulatedResponse_preserves (reads : list string) :
  let ps := completed_parts (chunks_of' (StreamText.concat_reads reads)) in
  let fp := parts (accumulatedResponse decode reads) in
  thinking_of fp = concat_strings (shown <$> List.filter is_thought ps)
  ∧ text_of fp = concat_strings (shown <$> List.filter is_plain ps)
  ∧ calls_of fp = List.filter is_call ps
  ∧ Forall (λ f, flushed_text f ≠ Some EmptyString) fp.
Proof.
  intros ps fp. subst fp. rewrite accumulatedResponse_chunks. cbv zeta.
  cbn [parts]. fold ps.
  set (st := foldl process_chunk initial _).
  destruct (process_chunks_adds
              (chunks_of' (StreamText.concat_reads reads)) initial)
    as (A1 & A2 & A3).
  fold st in A1, A2, A3. fold ps in A1, A2, A3.
  destruct (flushThinking_keeps st) as (K1 & K2 & K3).
  destruct (flushText_keeps (flushThinking st)) as (T1 & T2 & T3).
  destruct (flushes_empty st) as (E1 & E2).
  rewrite E1, append_nil_r in T1. rewrite E2, append_nil_r in T2.
  split; [by rewrite T1, K1, A1|].
  split; [by rewrite T2, K2, A2|].
  split; [by rewrite T3, K3, A3|].
  apply flushText_filled, flushThinking_filled.
  apply process_chunks_filled. constructor.
Qed.

(** *** Thinking parts are merged *)

Local Abbreviation ends_thought st :=
  (from_option is_thought_part false (last (finalParts st))).

(** After a thinking part was pushed and before the next push, the
    accumulator of the thinking text is empty and that of the text is
    not. *)
Local Abbreviation apart st :=
  (thoughts_apart (finalParts st)
   ∧ (ends_thought st = true →
      accumulatedThinkingText st = EmptyString
      ∧ accumulatedText st ≠ EmptyString)).

Lemma thoughts_apart_push fp f :
  thoughts_apart fp →
  (is_thought_part f = true → from_option is_thought_part false (last fp) = false) →
  thoughts_apart (fp ++ [f]).
Proof.
  intros H1 H2. apply thoughts_apart_snoc; [done|].
  intros Hf g Hg. specialize (H2 Hf). by rewrite Hg in H2.
Qed.

Lemma append_nonempty (a s : string) : s ≠ EmptyString → a +:+ s ≠ EmptyString.
Proof.
  intros Hs. destruct a as [|c a]; [done|]. by rewrite append_cons.
Qed.

Lemma flushThinking_apart (st : state') :
  apart st →
  thoughts_apart (finalParts (flushThinking st))
  ∧ accumulatedThinkingText (flushThinking st) = EmptyString
  ∧ accumulatedText (flushThinking st) = accumulatedText st
  ∧ (ends_thought (flushThinking st) = true →
     ends_thought st = false → truthy_str (accumulatedThinkingText st) = true).
Proof.
  intros [H1 H2]. unfold flushThinking.
  destruct (truthy_str (accumulatedThinkingText st)) eqn:E.
  - cbn [finalParts accumulatedThinkingText accumulatedText].
    repeat split; try done.
    apply thoughts_apart_push; [done|]. intros _.
    destruct (ends_thought st) eqn:El; [|done].
    destruct (H2 eq_refl) as [Hk _]. by rewrite Hk in E.
  - repeat split; try done.
    + by apply truthy_str_false.
    + congruence.
Qed.

Lemma flushText_apart (st : state') :
  thoughts_apart (finalParts st) →
  thoughts_apart (finalParts (flushText st))
  ∧ accumulatedText (flushText st) = EmptyString
  ∧ accumulatedThinkingText (flushText st) = accumulatedThinkingText st
  ∧ (ends_thought (flushText st) = true →
     ends_thought st = true ∧ accumulatedText st = EmptyString).
Proof.
  intros H1. unfold flushText.
  destruct (truthy_str (accumulatedText st)) eqn:E.
  - cbn [finalParts accumulatedThinkingText accumulatedText].
    repeat split; try done.
    + by apply thoughts_apart_push.
    + by rewrite last_snoc in H.
    + by rewrite last_snoc in H.
  - repeat split; try done; by apply truthy_str_false.
Qed.

Lemma process_part_apart (st : state') (e : element) :
  text_is_string e → apart st → apart (process_part st e).1.
Proof.
  intros He Hst. destruct e as [|[th tx sg fc]]; [done|].
  unfold text_is_string in He. cbn [text] in He.
  unfold process_part. cbn [thought text thoughtSignature functionCall].
  destruct th; [|destruct (bool_decide (is_Some fc))].
  - destruct (flushText_apart st (proj1 Hst)) as (F1 & F2 & F3 & F4).
    assert (Hend : ends_thought (flushText st) = false).
    { destruct (ends_thought (flushText st)) eqn:El; [|done].
      destruct (F4 eq_refl) as [G1 G2].
      destruct (proj2 Hst G1) as [_ G3]. done. }
    destruct tx; try done; try destruct (truthy_ostr sg);
      cbn [fst add_thinking set_signature finalParts];
      (split; [done|]); rewrite Hend; done.
  - destruct (flushThinking_apart st Hst) as (K1 & _).
    destruct (flushText_apart _ K1) as (F1 & _).
    cbn [fst push finalParts]. split.
    + by apply thoughts_apart_push.
    + by rewrite last_snoc.
  - destruct tx as [| |s|]; try done.
    destruct (flushThinking_apart st Hst) as (K1 & K2 & K3 & K4).
    cbn [fst add_text finalParts accumulatedThinkingText accumulatedText].
    split; [done|]. intros _. split; [done|].
    by apply append_nonempty.
Qed.

Lemma process_parts_apart (es : list element) : ∀ st : state',
  Forall text_is_string es → apart st → apart (process_parts st es).
Proof.
  induction es as [|e es IH]; intros st Hes Hst; [done|].
  apply Forall_cons in Hes as [He Hes].
  cbn [process_parts]. pose proof (process_part_apart st e He Hst) as H1.
  destruct (process_part st e) as [st1 []]; [by apply IH | done].
Qed.

Lemma process_chunks_apart (cs : list chunk) : ∀ st : state',
  texts_are_strings cs → apart st → apart (foldl process_chunk st cs).
Proof.
  induction cs as [|c cs IH]; intros st Hcs Hst; [done|].
  cbn [foldl]. apply IH.
  { intros c' es Hc'. apply (Hcs c' es). by right. }
  unfold process_chunk. cbv zeta.
  destruct (read_chunk_fields c st) as (R1 & _ & R3 & R4).
  assert (Hr : apart (read_chunk c st)) by by rewrite R1, R3, R4.
  destruct (chunk_parts c) as [es|] eqn:Ec; [|done].
  apply process_parts_apart; [|done]. apply (Hcs c es); [left | done].
Qed.

(** X29. Thinking parts are merged.  When the texts of the parts of the
    body are strings, no two thinking parts of the accumulated response
    follow each other: the thought parts that arrive between two texts or
    function calls make one thinking part, whatever the chunks and the
    reads they arrive in. *)
Theorem accumulatedResponse_merges (reads : list string) :
  texts_are_strings (chunks_of' (StreamText.concat_reads reads)) →
  thoughts_apart (parts (accumulatedResponse decode reads)).
Proof.
  intros Hcs. rewrite accumulatedResponse_chunks. cbv zeta. cbn [parts].
  set (st := foldl process_chunk initial _).
  assert (Hst : apart st).
  { apply process_chunks_apart; [done|]. split; done. }
  destruct (flushThinking_apart st Hst) as (K1 & _).
  by destruct (flushText_apart _ K1) as (F1 & _).
Qed.

(** *** The finish reason and the usage *)

Lemma flushes_meta (st : state') :
  finishReason (flushText (flushThinking st)) = finishReason st
  ∧ usageMetadata (flushText (flushThinking st)) = usageMetadata st.
Proof.
  unfold flushText, flushThinking.
  destruct (truthy_str (accumulatedThinkingText st));
    cbn [accumulatedText];
    by destruct (truthy_str (accumulatedText st)).
Qed.

Lemma process_part_meta (st : state') (e : element) :
  finishReason (process_part st e).1 = finishReason st
  ∧ usageMetadata (process_part st e).1 = usageMetadata st.
Proof.
  destruct e as [|[th tx sg fc]]; [done|].
  unfold process_part. cbn [thought text thoughtSignature functionCall].
  unfold flushText, flushThinking.
  destruct th; [|destruct (bool_decide (is_Some fc))];
    destruct tx; try destruct (truthy_ostr sg);
    destruct (truthy_str (accumulatedThinkingText st));
    cbn [accumulatedText];
    by destruct (truthy_str (accumulatedText st)).
Qed.

Lemma process_parts_meta (es : list element) : ∀ st : state',
  finishReason (process_parts st es) = finishReason st
  ∧ usageMetadata (process_parts st es) = usageMetadata st.
Proof.
  induction es as [|e es IH]; intros st; [done|].
  cbn [process_parts]. destruct (process_part_meta st e) as [H1 H2].
  destruct (process_part st e) as [st1 []]; cbn [fst] in *; [|done].
  destruct (IH st1) as [I1 I2]. by rewrite I1, I2.
Qed.

Lemma default_last_cons {A} (d x : A) (l : list A) :
  default d (last (x :: l)) = default x (last l).
Proof. destruct l as [|y l]; [done|]. rewrite last_cons_cons. by destruct (last (y :: l)) eqn:E; [|apply last_None in E]. Qed.

Lemma process_chunks_meta (cs : list chunk) : ∀ st : state',
  finishReason (foldl process_chunk st cs)
  = default (finishReason st)
      (last (omap (λ c, if truthy_ostr (chunk_finishReason c)
                        then chunk_finishReason c else None) cs))
  ∧ usageMetadata (foldl process_chunk st cs)
    = match last (omap chunk_usageMetadata cs) with
      | Some u => Some u
      | None => usageMetadata st
      end.
Proof.
  induction cs as [|c cs IH]; intros st; [done|].
  cbn [foldl]. destruct (IH (process_chunk st c)) as [I1 I2].
  rewrite I1, I2.
  assert (E : finishReason (process_chunk st c)
              = (if truthy_ostr (chunk_finishReason c)
                 then default EmptyString (chunk_finishReason c)
                 else finishReason st)
            ∧ usageMetadata (process_chunk st c)
              = match chunk_usageMetadata c with
                | Some u => Some u
                | None => usageMetadata st
                end).
  { unfold process_chunk. cbv zeta.
    assert (R : finishReason (read_chunk c st)
                = (if truthy_ostr (chunk_finishReason c)
                   then default EmptyString (chunk_finishReason c)
                   else finishReason st)
              ∧ usageMetadata (read_chunk c st)
                = match chunk_usageMetadata c with
                  | Some u => Some u
                  | None => usageMetadata st
                  end).
    { unfold read_chunk.
      by destruct (chunk_usageMetadata c),
                  (truthy_ostr (chunk_finishReason c)). }
    destruct (chunk_parts c) as [es|]; [|done].
    destruct (process_parts_meta es (read_chunk c st)) as [P1 P2].
    by rewrite P1, P2. }
  destruct E as [E1 E2]. rewrite E1, E2.
  change (omap ?f (c :: cs))
    with (match f c with Some y => y :: omap f cs | None => omap f cs end).
  split.
  - destruct (chunk_finishReason c) as [r|]; cbn [truthy_ostr]; [|done].
    destruct (truthy_str r); [|done].
    by rewrite default_last_cons.
  - destruct (chunk_usageMetadata c) as [u|]; [|done].
    destruct (omap chunk_usageMetadata cs) as [|y l] eqn:El; [done|].
    rewrite last_cons_cons.
    destruct (last (y :: l)) eqn:E; [done | by apply last_None in E].
Qed.

(** X30. The finish reason and the usage of the accumulated response are
    those of the last chunk of the body that carries one: a chunk without
    them keeps what was read before, and so does a chunk whose parts make
    the loop throw, because both are read before the parts.  With no such
    chunk the finish reason is STOP and the usage is the empty object. *)
Theorem accumulatedResponse_finishReason (reads : list string) :
  let cs := chunks_of' (StreamText.concat_reads reads) in
  response_finishReason (accumulatedResponse decode reads)
  = last_finishReason cs
  ∧ response_usageMetadata (accumulatedResponse decode reads)
    = last_usageMetadata cs.
Proof.
  intros cs. rewrite accumulatedResponse_chunks. cbv zeta.
  cbn [response_finishReason response_usageMetadata]. fold cs.
  destruct (flushes_meta (foldl process_chunk initial cs)) as [F1 F2].
  destruct (process_chunks_meta cs initial) as [M1 M2].
  rewrite F1, F2, M1, M2. unfold last_finishReason, last_usageMetadata.
  split; [done|]. cbn [usageMetadata initial].
  by destruct (last (omap chunk_usageMetadata cs)).
Qed.

End Parse.

End ThinkingExtras.

(* ===================================================================== *)
(** ** Instances of the further properties *)
(* ===================================================================== *)

Module ExtraInstances.
Import JS RateLimitParser AccountManager PoolMore CloudCode ClientLoop Server
  RequestConverter RequestMore Samples MoreSamples.

(** ** The account pool *)

Lemma clearExpiredLimits_idempotent_witness :
  disk (clearExpiredLimits 5000 pool_two).2
  = [Config (accounts (clearExpiredLimits 5000 pool_two).2) 0].
Proof.
  destruct (PoolExtras.clearExpiredLimits_idempotent 5000 pool_two)
    as (_ & _ & _ & H & _).
  apply H. vm_compute. lia.
Defined.

Lemma clearExpiredLimits_frame_witness :
  accounts (clearExpiredLimits 5000 pool_two).2 !! 0%nat
  = Some (acct "a@example.com" false None false).
Proof.
  destruct (PoolExtras.clearExpiredLimits_frame 5000 pool_two)
    as (_ & _ & _ & H).
  destruct (H 0%nat (acct "a@example.com" true (Some 5000) false) eq_refl)
    as (_ & H' & _).
  apply H'. reflexivity.
Defined.

Lemma pickMany_cycles_witness :
  ∃ a a0,
    (pickMany [1000; 2000; 3000] pool_pair).1 !! 2%nat = Some (Some a) ∧
    accounts pool_pair !! ((0 + 2) mod 2)%nat = Some a0 ∧
    email a = email a0 ∧ lastUsed a = Some 3000.
Proof.
  apply (PoolExtras.pickMany_cycles [1000; 2000; 3000] pool_pair).
  - simpl. lia.
  - repeat constructor.
  - reflexivity.
Defined.

Lemma markRateLimited_then_pickNext_witness :
  email (set_lastUsed 2000 (acct "b@example.com" false None false))
  ≠ "a@example.com"
  ∧ ∃ a', (pickNext 61000 (markRateLimited 10000 1000 "a@example.com"
                             (Some (Num 60000)) pool_pair)).1 = Some a'.
Proof.
  split.
  - apply (proj1 (PoolExtras.markRateLimited_then_pickNext 10000 1000 2000
             "a@example.com" (Some (Num 60000)) pool_pair 0%nat
             (acct "a@example.com" false None false)
             ltac:(apply NoDup_cons; split;
                   [intros ?%list_elem_of_singleton; discriminate
                   | apply NoDup_singleton])
             eq_refl eq_refl)).
    + vm_compute. reflexivity.
    + reflexivity.
  - apply (PoolExtras.markRateLimited_then_pickNext 10000 1000 61000
             "a@example.com" (Some (Num 60000)) pool_pair 0%nat
             (acct "a@example.com" false None false)).
    + apply NoDup_cons; split;
        [intros ?%list_elem_of_singleton; discriminate | apply NoDup_singleton].
    + reflexivity.
    + vm_compute. reflexivity.
    + vm_compute. discriminate.
    + vm_compute. discriminate.
    + reflexivity.
Defined.


(** ** The wait and the pass that picks an account *)

Lemma getMinWaitTimeMs_sign_witness :
  getMinWaitTimeMs 10000 1000 pool_two = 0
  ∧ 0 < getMinWaitTimeMs 10000 1000 pool_both_limited.
Proof.
  split.
  - apply (PolicyExtras.getMinWaitTimeMs_sign 10000 1000 pool_two); [lia|].
    exists (acct "b@example.com" false None false).
    split; [right; left | reflexivity].
  - apply (PolicyExtras.getMinWaitTimeMs_sign 10000 1000 pool_both_limited);
      [lia|].
    repeat constructor.
Defined.

Lemma acquireAccount_bounds_witness :
  isInvalid (set_lastUsed 100000 (acct "a@example.com" false None false))
  = false
  ∧ isRateLimited (set_lastUsed 100000 (acct "a@example.com" false None false))
    = false
  ∧ lastUsed (set_lastUsed 100000 (acct "a@example.com" false None false))
    = Some (clock_after (acquireAccount 10000 iso_sample 40000 pool_limited)).
Proof.
  apply (proj2 (PolicyExtras.acquireAccount_bounds 10000 iso_sample 40000
                  pool_limited ltac:(lia))).
  reflexivity.
Defined.

Lemma acquireAccount_cannot_serve_witness :
  acquireAccount 10000 iso_sample 1000 pool_invalid
  = Pass (Throw "No accounts available") [] 1000
         (clearExpiredLimits 1000 pool_invalid).2
  ∧ acquireAccount 10000 iso_sample 1000 (pool [])
    = Pass (Throw (msg_all_limited 0 10000 (iso_sample 11000))) [] 1000
           (pool []).
Proof.
  split.
  - apply (PolicyExtras.acquireAccount_cannot_serve 10000 iso_sample 1000
             pool_invalid).
    + repeat constructor.
    + exists (acct "a@example.com" false None true).
      split; [left | reflexivity].
  - apply (PolicyExtras.acquireAccount_cannot_serve 10000 iso_sample 1000
             (pool [])).
    reflexivity.
Defined.

Lemma getStatus_counts_witness :
  st_available (getStatus pool_pair) = st_total (getStatus pool_pair).
Proof.
  destruct (PolicyExtras.getStatus_counts pool_pair) as (_ & _ & _ & _ & H).
  apply H; reflexivity.
Defined.


(** ** The endpoints and the retry loop *)


Lemma attempt_stops_early_witness :
  ∃ c, (c ≤ 1)%nat
    ∧ attempt unit 10000 no_date 1000 "a@example.com"
        [Responded resp429; Responded resp200] pool_pair
      = (Done tt, pool_pair, c).
Proof.
  destruct (ClientProperties.attempt_stops_early unit 10000 no_date 1000
              "a@example.com" [Responded resp429] [] pool_pair)
    as (c & Hc & H & _).
  - repeat constructor. simpl. lia.
  - exists c. split; [exact Hc|]. apply (H resp200 tt); reflexivity.
Defined.





(** ** Durations *)

Lemma parseError_quota_message_witness :
  parseError (msg_too_long 300000 iso_plain)
  = ParsedError "invalid_request_error" 400
      "You have exhausted your capacity on the model. Quota will reset after 5m0s.".
Proof.
  apply (DurationProperties.parseError_quota_message 300000 0 iso_plain
           (msg_too_long 300000 iso_plain)).
  - lia.
  - left. reflexivity.
  - reflexivity.
  - reflexivity.
  - reflexivity.
Defined.

Lemma parseResetTime_formatDuration_witness :
  parseResetTime no_date 0 (Error (formatDuration 5025999)) EmptyString
  = Some (Num 5025000).
Proof.
  apply (DurationProperties.parseResetTime_formatDuration no_date 0 5025999
           (Error (formatDuration 5025999)) EmptyString).
  - lia.
  - left. reflexivity.
Defined.


(** ** The event stream *)

Lemma streamSSEResponse_partial_line_witness :
  Streamer.streamSSEResponse "msg_0" "claude-opus-4-5-thinking" tool_id_sample
    decode_sample ["data: A"]
  = [Streamer.message_start "msg_0" "claude-opus-4-5-thinking" 0;
     Streamer.content_block_start 0 Streamer.text_block;
     Streamer.content_block_delta 0 (Streamer.text_delta Streamer.no_response);
     Streamer.content_block_stop 0;
     Streamer.message_delta "end_turn" 0; Streamer.message_stop].
Proof.
  apply (StreamExtras.streamSSEResponse_partial_line "msg_0"
           "claude-opus-4-5-thinking" tool_id_sample decode_sample
           EmptyString "data: A").
  repeat (constructor; [discriminate|]). constructor.
Defined.

Lemma streamSSEResponse_stop_reason_witness :
  StreamText.stop_reasons
    (Streamer.streamSSEResponse "msg_0" "gemini-3-pro" tool_id_sample
       decode_call [line "data: C"])
  = ["end_turn"].
Proof.
  destruct (StreamExtras.streamSSEResponse_stop_reason "msg_0" "gemini-3-pro"
              tool_id_sample decode_call [line "data: C"] [] chunk_call
              eq_refl eq_refl) as (r & Hr & _ & Hstop & _).
  rewrite Hr. f_equal. apply Hstop. reflexivity.
Defined.


(** ** The classifiers of the client *)

Lemma attempt_catch_next_witness :
  is429Error "upstream said: Rate Limit reached!" = true
  ∧ isAuthInvalidError "refresh: invalid_grant (revoked)" = true.
Proof.
  split.
  - apply (proj1 (ClientProperties.attempt_catch_next unit
                    "upstream said: " "Rate Limit" " reached!" EmptyString 0)).
    reflexivity.
  - apply (proj1 (proj2 (ClientProperties.attempt_catch_next unit
                           "refresh: " "invalid_grant" " (revoked)"
                           EmptyString 0))).
    reflexivity.
Defined.

(** ** The converter *)

Lemma declared_names_valid_witness :
  "get_weather" ≠ EmptyString ∧ valid_name "get_weather"
  ∧ sanitize_name "get_weather" = "get_weather".
Proof.
  apply (proj1 (proj2 (ConverterExtras.declared_names_valid
                         [Tool (Some "get.weather") None None]))
           0%nat "get_weather").
  reflexivity.
Defined.

Lemma generationConfig_invariants_witness : 10000 < 18192.
Proof.
  apply (proj1 (proj2 (proj2 (proj2
           (ConverterExtras.generationConfig_invariants family_claude
              thinking_always 65536 (request_budget 10000 4096)))))
           eq_refl true 10000 18192); reflexivity.
Defined.

Lemma server_request_config_witness :
  maxOutputTokens
    (convertAnthropicToGoogle_generationConfig family_claude (λ _, false)
       65536 (build_request (Body None None None None None
                               (Some ["END"]) None)))
  = Some 4096.
Proof.
  apply (ConverterExtras.server_request_config family_claude (λ _, false)
           65536 (Body None None None None None (Some ["END"]) None)).
  - discriminate.
  - discriminate.
Defined.

Lemma systemInstruction_hint_witness :
  ∃ parts sep,
    systemInstruction family_claude thinking_always "claude-opus-4-5-thinking"
      (SysString "Be brief.") true = Some parts
    ∧ (sep = EmptyString ∨ sep = two_newlines)
    ∧ system_text
        (systemInstruction family_claude thinking_always
           "claude-opus-4-5-thinking" (SysString "Be brief.") true)
      = system_text (system_parts (SysString "Be brief.")) +:+ sep +:+ hint
    ∧ (length parts = 1%nat ∧ (0 < 1)%nat ∨ length parts = 2%nat).
Proof.
  apply (proj1 (ConverterExtras.systemInstruction_hint family_claude
                  thinking_always "claude-opus-4-5-thinking"
                  (SysString "Be brief.") true)); reflexivity.
Defined.


(** ** The accumulator of the thinking models *)

Lemma accumulatedResponse_merges_witness :
  ThinkingParser.thoughts_apart
    (ThinkingParser.parts
       (ThinkingParser.accumulatedResponse decode_thoughts [line "data: T"])).
Proof.
  apply (ThinkingExtras.accumulatedResponse_merges decode_thoughts
           [line "data: T"]).
  intros c es Hc Hes. vm_compute in Hc.
  apply list_elem_of_singleton in Hc. subst c.
  injection Hes as <-.
  repeat (constructor; [discriminate|]). constructor.
Defined.

End ExtraInstances.
